(** * Cryptopuff: a shallow embedding of the chain store, the validation
      rules and the retrying transaction wrapper.

    The Go sources are embedded function by function.  Integers of type
    [int64] are modelled as [Z] with the wrap-around written out, byte
    strings as [list byte], SQL tables as lists of rows in storage order,
    and the error-returning, store-mutating code as explicit state passing
    in a small state-and-error monad.

    The first half of the file holds the embedding, the second half the
    lemmas and theorems about it. *)

From Stdlib.Strings Require Import String Ascii Byte.
From Stdlib Require Import ZArith List Bool Lia.
Import ListNotations.
Open Scope string_scope.
Open Scope list_scope.
Open Scope Z_scope.
Set Warnings "-register-all".

(* ===================================================================== *)
(** * Part I: the embedding                                               *)
(* ===================================================================== *)

(** ** Bytes and Go machine integers *)

Definition byte_val (b : byte) : Z := Z.of_N (Byte.to_N b).

(** [byte(z)]: conversion of an integer to [uint8] keeps the low 8 bits. *)
Definition byte_of_Z (z : Z) : byte :=
  match Byte.of_N (Z.to_N (z mod 256)) with
  | Some b => b
  | None => x00
  end.

Definition bytes := list byte.

(** [bytes.Equal], also [==] on byte arrays. *)
Definition bytes_eqb (a b : bytes) : bool :=
  if list_eq_dec Byte.byte_eq_dec a b then true else false.

Definition MinInt64 : Z := - 2 ^ 63.
Definition MaxInt64 : Z := 2 ^ 63 - 1.

Definition is_int64 (x : Z) : Prop := MinInt64 <= x <= MaxInt64.

(** Two's-complement wrap-around of 64-bit signed arithmetic. *)
Definition wrap64 (x : Z) : Z := (x + 2 ^ 63) mod 2 ^ 64 - 2 ^ 63.

(** [a + b] on [int64]. *)
Definition add64 (a b : Z) : Z := wrap64 (a + b).

(** [uint64(x)] for an [int64] [x]. *)
Definition uint64 (x : Z) : Z := x mod 2 ^ 64.

(** [binary.BigEndian.PutUint64]: most significant byte first. *)
Definition BigEndian_PutUint64 (v : Z) : bytes :=
  [ byte_of_Z (Z.shiftr v 56); byte_of_Z (Z.shiftr v 48);
    byte_of_Z (Z.shiftr v 40); byte_of_Z (Z.shiftr v 32);
    byte_of_Z (Z.shiftr v 24); byte_of_Z (Z.shiftr v 16);
    byte_of_Z (Z.shiftr v 8);  byte_of_Z v ].

(** The bytes [binary.Write(w, binary.BigEndian, x)] emits for [x int64]. *)
Definition be64 (x : Z) : bytes := BigEndian_PutUint64 (uint64 x).

(** Reading a byte string as a big-endian unsigned number. *)
Definition BigEndian_value (bs : bytes) : Z :=
  fold_left (fun acc b => acc * 256 + byte_val b) bs 0.

(** [copy(dst, src)]: overwrites the first [min(len dst, len src)] cells. *)
Definition copy (dst src : bytes) : bytes :=
  firstn (Nat.min (length dst) (length src)) src
  ++ skipn (Nat.min (length dst) (length src)) dst.

(** [overflow.Add64] of github.com/JohnCGriffin/overflow:
    [c := a + b; if (c > a) == (b > 0) { return c, true }; return c, false]. *)
Definition overflow_Add64 (a b : Z) : Z * bool :=
  let c := add64 a b in
  if Bool.eqb (c >? a) (b >? 0) then (c, true) else (c, false).

(** ** Errors *)

(** Go [error] values.  [ErrUnknownParent] is a package-level sentinel
    created with [errors.New] and compared by identity, hence a constructor
    of its own.  A returned [error] is [option error], [None] being [nil]. *)
Inductive error : Type :=
| errors_New (msg : string)
| errors_Wrap (cause : error) (msg : string)
| InvalidBlockError (Message : string) (Cause : option error)
| ErrUnknownParent
| sql_ErrNoRows
| sqlite3_Error (Code ExtendedCode : Z)
| TxError (cause : option error) (tries : Z)
| runtime_panic (msg : string).

Inductive result (A : Type) : Type :=
| Ok (a : A)
| Err (e : error).
Arguments Ok {A} a.
Arguments Err {A} e.

(** [_, ok := err.(InvalidBlockError)] *)
Definition is_InvalidBlockError (e : error) : bool :=
  match e with
  | InvalidBlockError _ _ => true
  | _ => false
  end.

(** Result codes of github.com/mattn/go-sqlite3. *)
Definition sqlite3_ErrBusy : Z := 5.
Definition sqlite3_ErrLocked : Z := 6.
Definition sqlite3_ErrProtocol : Z := 15.
Definition sqlite3_ErrConstraint : Z := 19.
Definition sqlite3_ErrConstraintForeignKey : Z := Z.lor 19 (Z.shiftl 3 8).
Definition sqlite3_ErrConstraintNotNull : Z := Z.lor 19 (Z.shiftl 5 8).
Definition sqlite3_ErrConstraintPrimaryKey : Z := Z.lor 19 (Z.shiftl 6 8).

Definition constraint_error (ext : Z) : error :=
  sqlite3_Error sqlite3_ErrConstraint ext.

(** ** hash.go *)

Definition md5_Size : nat := 16.

(** [type Hash [md5.Size]byte] *)
Definition Hash := bytes.

Definition EmptyHash : Hash := repeat x00 md5_Size.

(** [h[i]] as an unsigned 8-bit value. *)
Definition at_ (h : Hash) (i : nat) : Z := byte_val (nth i h x00).

(** [func (h Hash) Valid() bool] *)
Definition Hash_Valid (h : Hash) : bool :=
  (at_ h 0 =? 0) && (at_ h 1 =? 0) && (Z.land (at_ h 2) 0xfc =? 0).

(** [func (h Hash) Value() (driver.Value, error)]: the empty hash is bound
    as SQL NULL, any other hash as its hexadecimal text (which determines
    the bytes, so the bytes themselves stand for the text). *)
Definition Hash_Value (h : Hash) : option Hash :=
  if bytes_eqb h EmptyHash then None else Some h.

(** Bit [i] of the digest, bit 0 being the most significant bit of byte 0. *)
Definition hash_bit (h : Hash) (i : nat) : bool :=
  Z.testbit (at_ h (i / 8)) (7 - Z.of_nat (i mod 8)).

(** "The first [n] bits of [h] are zero." *)
Definition first_bits_zero (n : nat) (h : Hash) : Prop :=
  forall i, (i < n)%nat -> hash_bit h i = false.

Definition leading_zeros_b (n : nat) (h : Hash) : bool :=
  forallb (fun i => negb (hash_bit h i)) (seq 0 n).

(** "The top [k] bits of byte [b] are zero." *)
Definition top_bits_zero (k : nat) (b : byte) : Prop :=
  forall j, (j < k)%nat -> Z.testbit (byte_val b) (7 - Z.of_nat j) = false.

Definition top_bits_zero_b (k : nat) (b : byte) : bool :=
  forallb (fun j => negb (Z.testbit (byte_val b) (7 - Z.of_nat j))) (seq 0 k).

(** A digest whose first 18 bits are zero and whose bit 18 is set. *)
Definition hash_18_zero_bits : Hash :=
  [x00; x00; x20; x00; x00; x00; x00; x00;
   x00; x00; x00; x00; x00; x00; x00; x00].

(** ** address.go, tx.go, block.go: the records *)

Inductive Version : Type := V1 | V2.

(** [type Address []byte] *)
Definition Address := bytes.

Definition Address_Equal (a b : Address) : bool := bytes_eqb a b.

Record TxOutput : Type := {
  Destination : Address;
  Amount : Z
}.

(** [Tx] embeds [TxOutput]; the coercion gives the promoted fields. *)
Record Tx : Type := {
  Tx_TxOutput :> TxOutput;
  Source : Address;
  Fee : Z
}.

Definition TxIDSize : nat := 16.
Definition TxID := bytes.

(** [SignedTx] embeds [Tx].  The fields [Hash] of [SignedTx] and of [Block]
    are [stx_Hash] and [blk_Hash] here. *)
Record SignedTx : Type := {
  SignedTx_Tx :> Tx;
  stx_Hash : Hash;
  ID : TxID;
  Signature : bytes;
  PublicKey : bytes
}.

Record Block : Type := {
  blk_Hash : Hash;
  PreviousHash : Hash;
  Height : Z;
  Nonce : Z;
  RewardOutput : TxOutput;
  Transactions : list SignedTx
}.

Definition MaxBlockReward : Z := 1000.
Definition MaxTransactionsPerBlock : Z := 100.

Definition set_stx_Hash (s : SignedTx) (h : Hash) : SignedTx :=
  {| SignedTx_Tx := SignedTx_Tx s; stx_Hash := h; ID := ID s;
     Signature := Signature s; PublicKey := PublicKey s |}.

Definition set_blk_Hash (b : Block) (h : Hash) : Block :=
  {| blk_Hash := h; PreviousHash := PreviousHash b; Height := Height b;
     Nonce := Nonce b; RewardOutput := RewardOutput b;
     Transactions := Transactions b |}.

Definition set_Transactions (b : Block) (l : list SignedTx) : Block :=
  {| blk_Hash := blk_Hash b; PreviousHash := PreviousHash b;
     Height := Height b; Nonce := Nonce b; RewardOutput := RewardOutput b;
     Transactions := l |}.

(** The part of a [SignedTx] that reaches its JSON text: [Hash] carries the
    tag [json:"-"], so the text is that of the record with the field at its
    zero value. *)
Definition json_view_SignedTx (s : SignedTx) : SignedTx :=
  set_stx_Hash s EmptyHash.

Definition json_view_Block (b : Block) : Block :=
  set_Transactions (set_blk_Hash b EmptyHash)
                   (map json_view_SignedTx (Transactions b)).

(** ** The library primitives the code calls

    MD5, PKCS#1 parsing, RSA-PSS verification and the JSON encoder are
    library code.  [encoding/json] cannot fail on the record types of this
    program (integers, byte slices and hex strings only), so the encoders
    are total and the error branches that follow a [json.Marshal] in the
    source are unreachable. *)
Class Primitives : Type := {
  rsa_PublicKey : Type;
  md5_Sum : bytes -> Hash;
  md5_Sum_length : forall p, length (md5_Sum p) = md5_Size;
  x509_ParsePKCS1PublicKey : bytes -> result rsa_PublicKey;
  x509_MarshalPKCS1PublicKey : rsa_PublicKey -> bytes;
  (** [rsa.VerifyPSS(k, crypto.MD5, hashed, sig, nil)] *)
  rsa_VerifyPSS : rsa_PublicKey -> bytes -> bytes -> option error;
  json_encode_Tx : Tx -> bytes;
  json_encode_SignedTx : SignedTx -> bytes;
  json_encode_Transactions : list SignedTx -> bytes
}.

Section Validation.
Context {P : Primitives}.

Definition json_Marshal_Tx (t : Tx) : bytes := json_encode_Tx t.

Definition json_Marshal_SignedTx (s : SignedTx) : bytes :=
  json_encode_SignedTx (json_view_SignedTx s).

Definition json_Marshal_Transactions (l : list SignedTx) : bytes :=
  json_encode_Transactions (map json_view_SignedTx l).

(** [func AddressFromKey(version Version, k *rsa.PublicKey) Address] *)
Definition AddressFromKey (version : Version) (k : rsa_PublicKey) : Address :=
  let hash := md5_Sum (x509_MarshalPKCS1PublicKey k) in
  match version with
  | V1 => firstn 2 hash
  | V2 => hash
  end.

(** [func (t Tx) ValidAmounts() error] *)
Definition Tx_ValidAmounts (t : Tx) : option error :=
  if Fee t <? 0 then Some (errors_New "cryptopuff: negative fee")
  else if Amount t <=? 0 then
    Some (errors_New "cryptopuff: negative or zero amount")
  else
    let '(_, ok) := overflow_Add64 (Fee t) (Amount t) in
    if negb ok then Some (errors_New "cryptopuff: fee plus amount overflows")
    else None.

(** [func (t Tx) RequiredBalance() int64] *)
Definition Tx_RequiredBalance (t : Tx) : Z := add64 (Fee t) (Amount t).

(** [func (s *SignedTx) UpdateHash() error] *)
Definition SignedTx_UpdateHash (s : SignedTx) : SignedTx :=
  let raw := json_Marshal_SignedTx s in
  set_stx_Hash s (md5_Sum raw).

(** [func (s SignedTx) ValidSignature() error] *)
Definition SignedTx_ValidSignature (s : SignedTx) : option error :=
  match x509_ParsePKCS1PublicKey (PublicKey s) with
  | Err err => Some (errors_Wrap err "cryptopuff: failed to parse public key")
  | Ok k =>
    let addressV1 := AddressFromKey V1 k in
    let addressV2 := AddressFromKey V2 k in
    if negb (Address_Equal addressV1 (Source s))
       && negb (Address_Equal addressV2 (Source s))
    then Some (errors_New "cryptopuff: address doesn't match public key")
    else
      let b := json_Marshal_Tx (SignedTx_Tx s) in
      let hash := md5_Sum b in
      match rsa_VerifyPSS k hash (Signature s) with
      | Some err => Some (errors_Wrap err "cryptopuff: invalid signature")
      | None => None
      end
  end.

(** [func (s SignedTx) Valid() error] *)
Definition SignedTx_Valid (s : SignedTx) : option error :=
  match Tx_ValidAmounts s with
  | Some err =>
    Some (InvalidBlockError "cryptopuff: invalid amounts" (Some err))
  | None =>
    match SignedTx_ValidSignature s with
    | Some err =>
      Some (InvalidBlockError "cryptopuff: invalid signature" (Some err))
    | None => None
    end
  end.

(** [md5.New()]: a running digest, here the bytes written so far. *)
Record digest : Type := { written : bytes }.

Definition md5_New : digest := {| written := [] |}.

(** [h.Write(p)] *)
Definition digest_Write (h : digest) (p : bytes) : digest :=
  {| written := written h ++ p |}.

(** [binary.Write(h, binary.BigEndian, x)] for [x int64] *)
Definition binary_Write_BigEndian (h : digest) (x : Z) : digest :=
  digest_Write h (be64 x).

(** [h.Sum(b)]: appends the digest of what was written to [b]. *)
Definition digest_Sum (h : digest) (b : bytes) : bytes :=
  b ++ md5_Sum (written h).

(** [func (b *Block) UpdateHash() error] *)
Definition Block_UpdateHash (b : Block) : Block :=
  let raw := json_Marshal_Transactions (Transactions b) in
  let txListHash := md5_Sum raw in
  let h := md5_New in
  let h := digest_Write h (PreviousHash b) in
  let h := binary_Write_BigEndian h (Height b) in
  let h := binary_Write_BigEndian h (Nonce b) in
  let h := binary_Write_BigEndian h
             (Z.of_nat (length (Destination (RewardOutput b)))) in
  let h := digest_Write h (Destination (RewardOutput b)) in
  let h := binary_Write_BigEndian h (Amount (RewardOutput b)) in
  let h := digest_Write h txListHash in
  let b := set_blk_Hash b (copy (blk_Hash b) (digest_Sum h [])) in
  set_Transactions b (map SignedTx_UpdateHash (Transactions b)).

(** The hash input as the data model words it:
    PreviousHash, Height, Nonce, len(RewardDest), RewardDest, RewardAmount,
    TxListHash, integers as 8 big-endian bytes. *)
Definition TxListHash (b : Block) : Hash :=
  md5_Sum (json_Marshal_Transactions (Transactions b)).

Definition block_hash_input (b : Block) : bytes :=
  PreviousHash b
  ++ be64 (Height b)
  ++ be64 (Nonce b)
  ++ be64 (Z.of_nat (length (Destination (RewardOutput b))))
  ++ Destination (RewardOutput b)
  ++ be64 (Amount (RewardOutput b))
  ++ TxListHash b.

(** [func NewBlock(previous *Block, nonce int64, addr Address,
                   blockReward int64, stxs []SignedTx)], returning the block *)
Definition NewBlock (previous : Block) (nonce : Z) (addr : Address)
    (blockReward : Z) (stxs : list SignedTx) : Block :=
  Block_UpdateHash
    {| blk_Hash := EmptyHash;
       PreviousHash := blk_Hash previous;
       Height := add64 (Height previous) 1;
       Nonce := nonce;
       RewardOutput := {| Destination := addr; Amount := blockReward |};
       Transactions := stxs |}.

(** [for _, t := range b.Transactions { if err := t.Valid(); ... }] *)
Fixpoint Transactions_Valid (l : list SignedTx) : option error :=
  match l with
  | [] => None
  | t :: rest =>
    match SignedTx_Valid t with
    | Some err => Some err
    | None => Transactions_Valid rest
    end
  end.

(** [func (b *Block) Valid(previous *Block) error].  The [fmt.Sprintf]
    arguments of the messages are not rendered. *)
Definition Block_Valid (b previous : Block) : option error :=
  if negb (bytes_eqb (PreviousHash b) (blk_Hash previous)) then
    Some (InvalidBlockError "cryptopuff: previous hash mismatch" None)
  else if negb (Height b =? add64 (Height previous) 1) then
    Some (InvalidBlockError "cryptopuff: height mismatch" None)
  else if negb (Hash_Valid (blk_Hash b)) then
    Some (InvalidBlockError
            "cryptopuff: hash doesn't meet difficulty requirement" None)
  else if (Amount (RewardOutput b) <? 0)
          || (Amount (RewardOutput b) >? MaxBlockReward) then
    Some (InvalidBlockError
            "cryptopuff: reward amount negative or greater than maximum" None)
  else if Z.of_nat (length (Transactions b)) >? MaxTransactionsPerBlock then
    Some (InvalidBlockError
            "cryptopuff: number of transactions greater than maximum" None)
  else Transactions_Valid (Transactions b).

End Validation.

(** ** database/db.go, database/tx.go, database/backoff.go

    The package wraps a [*sql.DB].  Here the database behind it is a value
    of an arbitrary type [St] (its committed contents); a transaction works
    on a copy that replaces the committed contents on commit and is dropped
    on rollback.  What the closure and the driver do on a given run is
    indexed by the number of transactions begun so far, so that a closure
    can meet contention on one attempt and not on the next. *)
Module database.

Definition Duration := Z.

Inductive Event : Type :=
| EvBegin
| EvCommit
| EvRollback
| EvLog (msg : string) (e : error)
| EvSleep (d : Duration).

(** Outcome of [Begin], [Commit] and [Rollback] of the n-th transaction. *)
Record Driver : Type := {
  drv_Begin : nat -> option error;
  drv_Commit : nat -> option error;
  drv_Rollback : nat -> option error
}.

(** [type DB struct]; the logger is the [EvLog] events. *)
Record DB : Type := {
  db : Driver;
  tries : Z;
  backoff : Z -> Duration;
  isDeadlock : error -> bool
}.

Definition Option := DB -> DB.

(** [func Tries(n int) Option] *)
Definition Tries (n : Z) : Option := fun d =>
  {| db := db d; tries := n; backoff := backoff d;
     isDeadlock := isDeadlock d |}.

(** [func Backoff(f func(try int) time.Duration) Option] *)
Definition Backoff (f : Z -> Duration) : Option := fun d =>
  {| db := db d; tries := tries d; backoff := f;
     isDeadlock := isDeadlock d |}.

Definition cMax : Z := 8.
Definition scale : Duration := 10 * 1000000.

(** [func BinaryExponentialBackoff() func(try int) time.Duration];
    [rand_Intn try] is what [rand.Intn(cMax)] returns at that try.  The
    source computes the product in floating point, which is this integer
    as long as it fits an [int64]. *)
Definition BinaryExponentialBackoff (rand_Intn : Z -> Z) : Z -> Duration :=
  fun try =>
    let c := rand_Intn try in
    let c := if c <? try then try else c in
    2 ^ c * scale.

(** [func Open(driverName, dataSourceName string,
               isDeadlock func(err error) bool, opts ...Option)] *)
Definition Open (drv : Driver) (rand_Intn : Z -> Z)
    (isDeadlock : error -> bool) (opts : list Option) : DB :=
  let db := {| db := drv; tries := 3;
               backoff := BinaryExponentialBackoff rand_Intn;
               isDeadlock := isDeadlock |} in
  fold_left (fun d opt => opt d) opts db.

Section Transact.
Variable St : Type.

Record World : Type := {
  committed : St;
  begun : nat;
  events : list Event
}.

Definition emit (e : Event) (w : World) : World :=
  {| committed := committed w; begun := begun w;
     events := events w ++ [e] |}.

Definition time_Sleep (d : Duration) (w : World) : World := emit (EvSleep d) w.

Variable A : Type.

(** [func(tx *sql.Tx) error]; what the closure leaves in captured
    variables on success is its [Ok] value. *)
Definition closure := nat -> St -> result A * St.

(** [func (d *DB) Transact(f func(tx *sql.Tx) error) (err error)] *)
Definition Transact (d : DB) (f : closure) (w : World) : result A * World :=
  let n := begun w in
  let w := {| committed := committed w; begun := S n;
              events := events w ++ [EvBegin] |} in
  match drv_Begin (db d) n with
  | Some err => (Err err, w)
  | None =>
    match f n (committed w) with
    | (Err err, _) =>
      let w := emit EvRollback w in
      let w := match drv_Rollback (db d) n with
               | Some rerr => emit (EvLog "database: rollback failed" rerr) w
               | None => w
               end in
      (Err err, w)
    | (Ok a, st) =>
      match drv_Commit (db d) n with
      | Some err => (Err err, emit EvCommit w)
      | None =>
        (Ok a, {| committed := st; begun := begun w;
                  events := events w ++ [EvCommit] |})
      end
    end
  end.

(** The loop [for i := 0; i < tries; i++] of [TransactWithRetry], with
    [n] iterations to go; [err] is the variable of that name. *)
Fixpoint retry (d : DB) (f : closure) (n : nat) (i : Z) (err : option error)
    (w : World) : result A * World :=
  match n with
  | O => (Err (TxError err (tries d)), w)
  | S n' =>
    match Transact d f w with
    | (Ok a, w) => (Ok a, w)
    | (Err e, w) =>
      if negb (isDeadlock d e) then (Err e, w)
      else
        let w := if negb (i =? tries d - 1)
                 then time_Sleep (backoff d i) w else w in
        retry d f n' (i + 1) (Some e) w
    end
  end.

(** [func (d *DB) TransactWithRetry(f func(tx *sql.Tx) error) error] *)
Definition TransactWithRetry (d : DB) (f : closure) (w : World)
    : result A * World :=
  if tries d =? 0 then
    (Err (errors_New "database: tries must be 1 or greater"), w)
  else retry d f (Z.to_nat (tries d)) 0 None w.

(** The world in which attempt [k] of a call starts when every earlier
    attempt was retried: each of those ran and was followed by a sleep. *)
Fixpoint world_before (d : DB) (f : closure) (k : nat) (w : World) : World :=
  match k with
  | O => w
  | S k' =>
    let w' := world_before d f k' w in
    time_Sleep (backoff d (Z.of_nat k')) (snd (Transact d f w'))
  end.

Definition attempt (d : DB) (f : closure) (k : nat) (w : World)
    : result A * World :=
  Transact d f (world_before d f k w).

(** "Attempt [k] fails with an error the predicate classifies as deadlock." *)
Definition deadlocked (d : DB) (f : closure) (k : nat) (w : World) : Prop :=
  exists e, fst (attempt d f k w) = Err e /\ isDeadlock d e = true.

End Transact.

Arguments committed {St} w.
Arguments begun {St} w.
Arguments events {St} w.
Arguments Transact {St A} d f w.
Arguments TransactWithRetry {St A} d f w.
Arguments retry {St A} d f n i err w.
Arguments world_before {St A} d f k w.
Arguments attempt {St A} d f k w.
Arguments deadlocked {St A} d f k w.
Arguments emit {St} e w.
Arguments time_Sleep {St} d w.

(** A driver on which [Begin], [Commit] and [Rollback] always succeed. *)
Definition sound_driver : Driver :=
  {| drv_Begin := fun _ => None; drv_Commit := fun _ => None;
     drv_Rollback := fun _ => None |}.

End database.

(** ** database/sqlite/deadlock.go, database/sqlite/sqlite.go *)
Module sqlite.

(** [func isDeadlock(err error) bool] *)
Definition isDeadlock (err : error) : bool :=
  match err with
  | sqlite3_Error Code _ =>
    (Code =? sqlite3_ErrBusy) || (Code =? sqlite3_ErrLocked)
    || (Code =? sqlite3_ErrProtocol)
  | _ => false
  end.

(** [func Open(dataSourceName string, opts ...database.Option)] *)
Definition Open (drv : database.Driver) (rand_Intn : Z -> Z)
    (opts : list database.Option) : database.DB :=
  database.Open drv rand_Intn isDeadlock opts.

End sqlite.

(** ** db.go: the tables

    Each table is the list of its rows in storage order.  Columns that
    hold a [Hash] hold what [Hash.Value] binds; they are declared NOT NULL,
    so a row never holds the NULL that stands for [EmptyHash].  The [block]
    and [tx] columns hold JSON text; since decoding the text of a record
    gives the record back without its [json:"-"] fields, the columns hold
    that record.  The columns [source], [destination], [amount] and [fee]
    of [txs] repeat fields of [tx] and are left out.  The tables [keys]
    and [miner_address], which only [migrate] and the wallet functions
    touch, are kept apart from the [Store], in the [Wallet] of [migrate].
    The foreign keys of the schema are never the constraint that fails in
    the statements below, and appear as the consistency condition
    [Store_consistent] on stores rather than as run-time checks. *)

Record BlockRow : Type := {
  row_hash : Hash;
  row_previous_hash : option Hash;
  row_height : Z;
  row_block : Block
}.

Record BalanceRow : Type := {
  bal_block_hash : Hash;
  bal_address : Address;
  bal_balance : Z
}.

Record TxRow : Type := {
  txr_hash : Hash;
  txr_tx : SignedTx
}.

(** A row of [block_txs] or of [included_txs]. *)
Record LinkRow : Type := {
  lnk_block_hash : Hash;
  lnk_tx_hash : Hash
}.

Record Store : Type := {
  blocks : list BlockRow;
  balances : list BalanceRow;
  txs : list TxRow;
  block_txs : list LinkRow;
  included_txs : list LinkRow;
  peers : list string
}.

Definition set_blocks (s : Store) (l : list BlockRow) : Store :=
  {| blocks := l; balances := balances s; txs := txs s;
     block_txs := block_txs s; included_txs := included_txs s;
     peers := peers s |}.

Definition set_balances (s : Store) (l : list BalanceRow) : Store :=
  {| blocks := blocks s; balances := l; txs := txs s;
     block_txs := block_txs s; included_txs := included_txs s;
     peers := peers s |}.

Definition set_txs (s : Store) (l : list TxRow) : Store :=
  {| blocks := blocks s; balances := balances s; txs := l;
     block_txs := block_txs s; included_txs := included_txs s;
     peers := peers s |}.

Definition set_block_txs (s : Store) (l : list LinkRow) : Store :=
  {| blocks := blocks s; balances := balances s; txs := txs s;
     block_txs := l; included_txs := included_txs s; peers := peers s |}.

Definition set_included_txs (s : Store) (l : list LinkRow) : Store :=
  {| blocks := blocks s; balances := balances s; txs := txs s;
     block_txs := block_txs s; included_txs := l; peers := peers s |}.

Definition set_peers (s : Store) (l : list string) : Store :=
  {| blocks := blocks s; balances := balances s; txs := txs s;
     block_txs := block_txs s; included_txs := included_txs s;
     peers := l |}.

(** Key comparisons of the primary keys. *)
Definition has_hash (h : Hash) (r : BlockRow) : bool :=
  bytes_eqb (row_hash r) h.

Definition balance_key (h : Hash) (a : Address) (r : BalanceRow) : bool :=
  bytes_eqb (bal_block_hash r) h && bytes_eqb (bal_address r) a.

Definition link_key (h t : Hash) (r : LinkRow) : bool :=
  bytes_eqb (lnk_block_hash r) h && bytes_eqb (lnk_tx_hash r) t.

Definition tx_key (h : Hash) (r : TxRow) : bool := bytes_eqb (txr_hash r) h.

(** Inserting rows one at a time under a primary key; [None] is the
    conflict, which aborts the statement. *)
Fixpoint insert_rows {R : Type} (same_key : R -> R -> bool)
    (rows tbl : list R) : option (list R) :=
  match rows with
  | [] => Some tbl
  | r :: rest =>
    if existsb (same_key r) tbl then None
    else insert_rows same_key rest (tbl ++ [r])
  end.

Definition same_balance_key (r r' : BalanceRow) : bool :=
  balance_key (bal_block_hash r) (bal_address r) r'.

Definition same_link_key (r r' : LinkRow) : bool :=
  link_key (lnk_block_hash r) (lnk_tx_hash r) r'.

(** ** The store monad: state passing with an error result *)

Definition M (A : Type) : Type := Store -> result A * Store.

Definition ret {A : Type} (a : A) : M A := fun s => (Ok a, s).

Definition fail {A : Type} (e : error) : M A := fun s => (Err e, s).

Definition bind {A B : Type} (m : M A) (k : A -> M B) : M B :=
  fun s =>
    match m s with
    | (Ok a, s') => k a s'
    | (Err e, s') => (Err e, s')
    end.

(** [if err := f(); err != nil { return err }] for a pure [f]. *)
Definition check (e : option error) : M unit :=
  match e with
  | Some err => fail err
  | None => ret tt
  end.

Declare Scope store_scope.
Delimit Scope store_scope with store.
Notation "x <- m ;; k" := (bind m (fun x => k))
  (at level 61, m at next level, right associativity) : store_scope.
Notation "m ;; k" := (bind m (fun _ => k))
  (at level 61, right associativity) : store_scope.
Open Scope store_scope.

(** ** db.go: the SQL statements

    Each statement has the outcomes that the rows of the tables decide: the
    rows it finds, the constraint it breaks.  A statement can also fail in
    the driver, with SQLITE_BUSY and the like; [database.Driver] has such
    errors at [Begin], [Commit] and [Rollback], and the closures built from
    the statements below are runs in which no statement meets one.  A
    [balance] column is an INTEGER: the sums and differences below are
    those of SQLite as long as they stay within int64; beyond it SQLite
    stores a REAL, which the code cannot read back into an [int64]. *)

(** [SELECT block FROM blocks WHERE hash = ?]; a NULL parameter matches
    no row. *)
Definition select_block (h : Hash) (s : Store) : option BlockRow :=
  match Hash_Value h with
  | None => None
  | Some k => find (has_hash k) (blocks s)
  end.

(** [INSERT INTO blocks (hash, previous_hash, height, block)
     VALUES (?, ?, ?, ?)] *)
Definition insert_block (block : Block) : M unit := fun s =>
  match Hash_Value (blk_Hash block) with
  | None => (Err (constraint_error sqlite3_ErrConstraintNotNull), s)
  | Some h =>
    if existsb (has_hash h) (blocks s) then
      (Err (constraint_error sqlite3_ErrConstraintPrimaryKey), s)
    else
      (Ok tt,
       set_blocks s
         (blocks s ++
          [{| row_hash := h;
              row_previous_hash := Hash_Value (PreviousHash block);
              row_height := Height block;
              row_block := json_view_Block block |}]))
  end.

(** [INSERT INTO balances (block_hash, address, balance)
     SELECT ?, address, balance FROM balances WHERE block_hash = ?] *)
Definition copy_balances (new parent : Hash) : M unit := fun s =>
  let selected :=
    match Hash_Value parent with
    | None => []
    | Some p => filter (fun r => bytes_eqb (bal_block_hash r) p) (balances s)
    end in
  match selected with
  | [] => (Ok tt, s)
  | _ :: _ =>
    match Hash_Value new with
    | None => (Err (constraint_error sqlite3_ErrConstraintNotNull), s)
    | Some n =>
      let rows :=
        map (fun r => {| bal_block_hash := n; bal_address := bal_address r;
                         bal_balance := bal_balance r |}) selected in
      match insert_rows same_balance_key rows (balances s) with
      | None => (Err (constraint_error sqlite3_ErrConstraintPrimaryKey), s)
      | Some tbl => (Ok tt, set_balances s tbl)
      end
    end
  end.

(** [INSERT INTO included_txs (block_hash, tx_hash)
     SELECT ?, tx_hash FROM included_txs WHERE block_hash = ?] *)
Definition copy_included_txs (new parent : Hash) : M unit := fun s =>
  let selected :=
    match Hash_Value parent with
    | None => []
    | Some p =>
      filter (fun r => bytes_eqb (lnk_block_hash r) p) (included_txs s)
    end in
  match selected with
  | [] => (Ok tt, s)
  | _ :: _ =>
    match Hash_Value new with
    | None => (Err (constraint_error sqlite3_ErrConstraintNotNull), s)
    | Some n =>
      let rows :=
        map (fun r => {| lnk_block_hash := n; lnk_tx_hash := lnk_tx_hash r |})
            selected in
      match insert_rows same_link_key rows (included_txs s) with
      | None => (Err (constraint_error sqlite3_ErrConstraintPrimaryKey), s)
      | Some tbl => (Ok tt, set_included_txs s tbl)
      end
    end
  end.

(** [SELECT balance FROM balances WHERE block_hash = ? AND address = ?],
    with [sql.ErrNoRows] read as balance 0 by the callers. *)
Definition select_balance (tip : Hash) (a : Address) (s : Store) : option Z :=
  match Hash_Value tip with
  | None => None
  | Some k => option_map bal_balance (find (balance_key k a) (balances s))
  end.

(** [UPDATE balances SET balance = balance - ?
     WHERE block_hash = ? AND address = ?] *)
Definition debit_balance (amount : Z) (h : Hash) (a : Address) : M unit :=
  fun s =>
    match Hash_Value h with
    | None => (Ok tt, s)
    | Some k =>
      (Ok tt,
       set_balances s
         (map (fun r =>
                 if balance_key k a r then
                   {| bal_block_hash := bal_block_hash r;
                      bal_address := bal_address r;
                      bal_balance := bal_balance r - amount |}
                 else r) (balances s)))
    end.

(** [INSERT INTO balances (block_hash, address, balance) VALUES (?, ?, ?)
     ON CONFLICT (block_hash, address) DO UPDATE
     SET balance = balance + excluded.balance] *)
Definition credit_balance (h : Hash) (a : Address) (amount : Z) : M unit :=
  fun s =>
    match Hash_Value h with
    | None => (Err (constraint_error sqlite3_ErrConstraintNotNull), s)
    | Some k =>
      if existsb (balance_key k a) (balances s) then
        (Ok tt,
         set_balances s
           (map (fun r =>
                   if balance_key k a r then
                     {| bal_block_hash := bal_block_hash r;
                        bal_address := bal_address r;
                        bal_balance := bal_balance r + amount |}
                   else r) (balances s)))
      else
        (Ok tt,
         set_balances s
           (balances s ++
            [{| bal_block_hash := k; bal_address := a;
                bal_balance := amount |}]))
    end.

(** [DELETE FROM balances WHERE balance = 0] *)
Definition delete_zero_balances : M unit := fun s =>
  (Ok tt, set_balances s (filter (fun r => negb (bal_balance r =? 0))
                                 (balances s))).

(** [SELECT 1 FROM included_txs WHERE block_hash = ? AND tx_hash = ?] *)
Definition select_included (tip h : Hash) (s : Store) : bool :=
  match Hash_Value tip, Hash_Value h with
  | Some k, Some t => existsb (link_key k t) (included_txs s)
  | _, _ => false
  end.

(** [INSERT INTO included_txs (block_hash, tx_hash) VALUES (?, ?)] *)
Definition insert_included_tx (h t : Hash) : M unit := fun s =>
  match Hash_Value h, Hash_Value t with
  | Some k, Some x =>
    if existsb (link_key k x) (included_txs s) then
      (Err (constraint_error sqlite3_ErrConstraintPrimaryKey), s)
    else
      (Ok tt,
       set_included_txs s
         (included_txs s ++ [{| lnk_block_hash := k; lnk_tx_hash := x |}]))
  | _, _ => (Err (constraint_error sqlite3_ErrConstraintNotNull), s)
  end.

(** [INSERT INTO block_txs (block_hash, tx_hash) VALUES (?, ?)] *)
Definition insert_block_tx (h t : Hash) : M unit := fun s =>
  match Hash_Value h, Hash_Value t with
  | Some k, Some x =>
    if existsb (link_key k x) (block_txs s) then
      (Err (constraint_error sqlite3_ErrConstraintPrimaryKey), s)
    else
      (Ok tt,
       set_block_txs s
         (block_txs s ++ [{| lnk_block_hash := k; lnk_tx_hash := x |}]))
  | _, _ => (Err (constraint_error sqlite3_ErrConstraintNotNull), s)
  end.

(** [func addTx(tx *sql.Tx, stx *SignedTx) error]:
    [INSERT OR IGNORE INTO txs (hash, source, destination, amount, fee, tx)
     VALUES (?, ?, ?, ?, ?, ?)]; a row that breaks NOT NULL or the primary
    key is skipped. *)
Definition addTx (stx : SignedTx) : M unit := fun s =>
  let b := json_view_SignedTx stx in
  match Hash_Value (stx_Hash stx) with
  | None => (Ok tt, s)
  | Some h =>
    if existsb (tx_key h) (txs s) then (Ok tt, s)
    else (Ok tt, set_txs s (txs s ++ [{| txr_hash := h; txr_tx := b |}]))
  end.

(** The scratch table [temp_balances] of [PendingTxs]: address, balance. *)
Definition TempRow : Type := Address * Z.

Definition temp_key (a : Address) (r : TempRow) : bool := bytes_eqb (fst r) a.

Definition same_temp_key (r r' : TempRow) : bool := temp_key (fst r) r'.

(** [SELECT balance FROM temp_balances WHERE address = ?] *)
Definition select_temp (a : Address) (temp : list TempRow) : option Z :=
  option_map snd (find (temp_key a) temp).

(** [UPDATE temp_balances SET balance = balance - ? WHERE address = ?] *)
Definition debit_temp (amount : Z) (a : Address) (temp : list TempRow)
    : list TempRow :=
  map (fun r => if temp_key a r then (fst r, snd r - amount) else r) temp.

(** [INSERT INTO temp_balances (address, balance) VALUES (?, ?)
     ON CONFLICT (address) DO UPDATE
     SET balance = balance + excluded.balance] *)
Definition credit_temp (a : Address) (amount : Z) (temp : list TempRow)
    : list TempRow :=
  if existsb (temp_key a) temp then
    map (fun r => if temp_key a r then (fst r, snd r + amount) else r) temp
  else temp ++ [(a, amount)].

(** [SELECT tx FROM txs t LEFT JOIN included_txs i
     ON i.tx_hash = t.hash AND i.block_hash = ? WHERE i.tx_hash IS NULL] *)
Definition select_pending (tip : Hash) (s : Store) : list TxRow :=
  match Hash_Value tip with
  | None => txs s
  | Some k =>
    filter (fun t => negb (existsb (link_key k (txr_hash t)) (included_txs s)))
           (txs s)
  end.

(** [DELETE FROM txs WHERE hash = ?
     AND NOT EXISTS (SELECT 1 FROM block_txs WHERE tx_hash = ?)
     AND NOT EXISTS (SELECT 1 FROM included_txs WHERE tx_hash = ?)] *)
Definition delete_unreferenced_tx (h : Hash) : M unit := fun s =>
  match Hash_Value h with
  | None => (Ok tt, s)
  | Some k =>
    if existsb (fun r => bytes_eqb (lnk_tx_hash r) k) (block_txs s)
       || existsb (fun r => bytes_eqb (lnk_tx_hash r) k) (included_txs s)
    then (Ok tt, s)
    else (Ok tt, set_txs s (filter (fun r => negb (tx_key k r)) (txs s)))
  end.

(** ** db.go: the functions *)

Section ChainStore.
Context {P : Primitives}.

(** [func DecodeBlock(in []byte)] applied to a stored [block] column. *)
Definition DecodeBlock (raw : Block) : Block := Block_UpdateHash raw.

(** [func validTx(tx *sql.Tx, stx *SignedTx, tip Hash) error] *)
Definition validTx (stx : SignedTx) (tip : Hash) : M unit :=
  check (SignedTx_Valid stx) ;;
  fun s =>
    let balance :=
      match select_balance tip (Source stx) s with
      | None => 0
      | Some balance => balance
      end in
    if balance <? Tx_RequiredBalance stx then
      (Err (InvalidBlockError "cryptopuff: insufficient balance" None), s)
    else if select_included tip (stx_Hash stx) s then
      (Err (InvalidBlockError
              "cryptopuff: transaction already included in blockchain" None),
       s)
    else (Ok tt, s).

(** [func validTemporaryTx(tx *sql.Tx, stx *SignedTx) error] *)
Definition validTemporaryTx (temp : list TempRow) (stx : SignedTx)
    : option error :=
  match SignedTx_Valid stx with
  | Some err => Some err
  | None =>
    let balance :=
      match select_temp (Source stx) temp with
      | None => 0
      | Some balance => balance
      end in
    if balance <? Tx_RequiredBalance stx then
      Some (InvalidBlockError "cryptopuff: insufficient balance" None)
    else None
  end.

(** The body of the loop [for _, stx := range block.Transactions] of
    [addBlock], after [fee += stx.Fee]. *)
Definition addBlock_tx (block : Block) (stx : SignedTx) : M unit :=
  validTx stx (blk_Hash block) ;;
  debit_balance (Tx_RequiredBalance stx) (blk_Hash block) (Source stx) ;;
  credit_balance (blk_Hash block) (Destination stx) (Amount stx) ;;
  addTx stx ;;
  insert_included_tx (blk_Hash block) (stx_Hash stx) ;;
  insert_block_tx (blk_Hash block) (stx_Hash stx).

(** The loop itself; its value is the variable [fee]. *)
Fixpoint addBlock_txs (block : Block) (fee : Z) (stxs : list SignedTx)
    : M Z :=
  match stxs with
  | [] => ret fee
  | stx :: rest =>
    let fee := add64 fee (Fee stx) in
    addBlock_tx block stx ;;
    addBlock_txs block fee rest
  end.

(** What [addBlock] does once the block row is in. *)
Definition addBlock_body (block previous : Block) : M unit :=
  copy_balances (blk_Hash block) (PreviousHash block) ;;
  copy_included_txs (blk_Hash block) (PreviousHash block) ;;
  check (Block_Valid block previous) ;;
  fee <- addBlock_txs block (Amount (RewardOutput block))
                      (Transactions block) ;;
  (if fee >? 0 then
     credit_balance (blk_Hash block) (Destination (RewardOutput block)) fee
   else ret tt) ;;
  delete_zero_balances.

(** [func addBlock(tx *sql.Tx, block *Block) error] *)
Definition addBlock (block : Block) : M unit := fun s =>
  match select_block (PreviousHash block) s with
  | None => (Err ErrUnknownParent, s)
  | Some row =>
    let previous := DecodeBlock (row_block row) in
    match insert_block block s with
    | (Err err, s) =>
      match err with
      | sqlite3_Error _ ExtendedCode =>
        if ExtendedCode =? sqlite3_ErrConstraintPrimaryKey then (Ok tt, s)
        else (Err err, s)
      | _ => (Err err, s)
      end
    | (Ok _, s) => addBlock_body block previous s
    end
  end.

(** The first loop of [AddBlocks]: the index of the first block of the
    chain whose hash is stored, [-1] when there is none. *)
Fixpoint find_divergedAt (i : Z) (blocks : list Block) (s : Store) : Z :=
  match blocks with
  | [] => -1
  | block :: rest =>
    match select_block (blk_Hash block) s with
    | None => find_divergedAt (i + 1) rest s
    | Some _ => i
    end
  end.

(** The second loop, [for i := divergedAt - 1; i >= 0; i--], with [n]
    iterations to go, so that [i = n - 1]. *)
Fixpoint addBlocks_down (n : nat) (blocks : list Block) : M unit :=
  match n with
  | O => ret tt
  | S i =>
    match nth_error blocks i with
    | None => fail (runtime_panic "index out of range")
    | Some block => addBlock block ;; addBlocks_down i blocks
    end
  end.

(** The closure of [func (d *DB) AddBlocks(blocks []Block) error] *)
Definition AddBlocks_tx (blocks : list Block) : M unit := fun s =>
  let divergedAt := find_divergedAt 0 blocks s in
  if divergedAt <=? 0 then (Ok tt, s)
  else addBlocks_down (Z.to_nat divergedAt) blocks s.

(** "Apply [AddBlock] to these blocks, in this order." *)
Fixpoint addBlock_each (l : list Block) : M unit :=
  match l with
  | [] => ret tt
  | block :: rest => addBlock block ;; addBlock_each rest
  end.

(** The loop [for rows.Next()] of [PendingTxs].  Beside [stxs] it gives
    whether the loop was left by [break]: [rows] is closed when
    [rows.Next()] returns false, and is still open after a [break]. *)
Fixpoint PendingTxs_rows (limit : Z) (rows : list TxRow)
    (temp : list TempRow) (stxs : list SignedTx)
    : M (list SignedTx * bool) :=
  match rows with
  | [] => ret (stxs, false)
  | row :: rest =>
    let stx := SignedTx_UpdateHash (txr_tx row) in
    match validTemporaryTx temp stx with
    | Some err =>
      if is_InvalidBlockError err then
        delete_unreferenced_tx (stx_Hash stx) ;;
        PendingTxs_rows limit rest temp stxs
      else fail err
    | None =>
      let stxs := stxs ++ [stx] in
      let temp := debit_temp (Tx_RequiredBalance stx) (Source stx) temp in
      let temp := credit_temp (Destination stx) (Amount stx) temp in
      if Z.of_nat (length stxs) >=? limit then ret (stxs, true)
      else PendingTxs_rows limit rest temp stxs
    end
  end.

(** [DROP TABLE temp_balances], the last statement of the closure.  SQLite
    does not drop a table while a statement of the same connection is still
    being read: with [rows] open the statement fails with SQLITE_LOCKED
    ("database table is locked"); the deferred [rows.Close()] runs only
    when the closure returns. *)
Definition drop_temp_balances (rows_open : bool) : M unit :=
  if rows_open then fail (sqlite3_Error sqlite3_ErrLocked sqlite3_ErrLocked)
  else ret tt.

(** [INSERT INTO temp_balances (address, balance)
     SELECT address, balance FROM balances WHERE block_hash = ?]
    into the table just created. *)
Definition fill_temp_balances (tip : Hash) (s : Store)
    : option (list TempRow) :=
  let selected :=
    match Hash_Value tip with
    | None => []
    | Some k => filter (fun r => bytes_eqb (bal_block_hash r) k) (balances s)
    end in
  insert_rows same_temp_key
    (map (fun r => (bal_address r, bal_balance r)) selected) [].

(** The closure of
    [func (d *DB) PendingTxs(tip Hash, limit int) ([]SignedTx, error)]:
    the scratch table is filled, the loop runs over the pending rows, and
    the scratch table is dropped; [stxs] is the value on success. *)
Definition PendingTxs_tx (tip : Hash) (limit : Z) : M (list SignedTx) :=
  fun s =>
    match fill_temp_balances tip s with
    | None => (Err (constraint_error sqlite3_ErrConstraintPrimaryKey), s)
    | Some temp =>
      (r <- PendingTxs_rows limit (select_pending tip s) temp [] ;;
       drop_temp_balances (snd r) ;;
       ret (fst r)) s
    end.

(** The closures of [AddPeer], [PeerExists], [Peers] and [RemovePeer]. *)
Definition AddPeer_tx (peer : string) : M bool := fun s =>
  if existsb (String.eqb peer) (peers s) then (Ok false, s)
  else (Ok true, set_peers s (peers s ++ [peer])).

Definition PeerExists_tx (peer : string) : M unit := fun s =>
  if existsb (String.eqb peer) (peers s) then (Ok tt, s)
  else (Err sql_ErrNoRows, s).

Definition Peers_tx : M (list string) := fun s => (Ok (peers s), s).

Definition RemovePeer_tx (peer : string) : M unit := fun s =>
  (Ok tt, set_peers s (filter (fun p => negb (String.eqb p peer)) (peers s))).

(** A closure of the store, which behaves the same on every attempt. *)
Definition run {A : Type} (m : M A) : database.closure Store A :=
  fun _ s => m s.

Definition World := database.World Store.

(** [func (d *DB) AddBlock(block *Block) error] *)
Definition DB_AddBlock (d : database.DB) (block : Block) (w : World)
    : result unit * World :=
  database.TransactWithRetry d (run (addBlock block)) w.

(** [func (d *DB) AddBlocks(blocks []Block) error] *)
Definition DB_AddBlocks (d : database.DB) (blocks : list Block) (w : World)
    : result unit * World :=
  database.TransactWithRetry d (run (AddBlocks_tx blocks)) w.

(** [func (d *DB) PendingTxs(tip Hash, limit int) ([]SignedTx, error)] *)
Definition DB_PendingTxs (d : database.DB) (tip : Hash) (limit : Z)
    (w : World) : result (list SignedTx) * World :=
  database.TransactWithRetry d (run (PendingTxs_tx tip limit)) w.

(** [func (d *DB) AddPeer(peer string) (bool, error)] *)
Definition DB_AddPeer (d : database.DB) (peer : string) (w : World)
    : result bool * World :=
  database.TransactWithRetry d (run (AddPeer_tx peer)) w.

(** [func (d *DB) PeerExists(peer string) (bool, error)] *)
Definition DB_PeerExists (d : database.DB) (peer : string) (w : World)
    : result bool * World :=
  match database.TransactWithRetry d (run (PeerExists_tx peer)) w with
  | (Err sql_ErrNoRows, w) => (Ok false, w)
  | (Err err, w) => (Err err, w)
  | (Ok _, w) => (Ok true, w)
  end.

(** [func (d *DB) Peers() ([]string, error)] *)
Definition DB_Peers (d : database.DB) (w : World)
    : result (list string) * World :=
  database.TransactWithRetry d (run Peers_tx) w.

End ChainStore.

(** ** server.go: peer discovery *)

(** [strings.ToLower] on ASCII text, which is what a host:port peer
    address is; bytes outside [A-Z] are kept. *)
Definition ToLower_ascii (c : ascii) : ascii :=
  let n := nat_of_ascii c in
  if ((65 <=? n) && (n <=? 90))%nat then ascii_of_nat (n + 32) else c.

Fixpoint ToLower (s : string) : string :=
  match s with
  | EmptyString => EmptyString
  | String c rest => String (ToLower_ascii c) (ToLower rest)
  end.

Record Server : Type := {
  extAddr : string;
  srv_db : database.DB
}.

(** [func NewServer(addr, extAddr, password string, ...)]: the external
    address is kept in lower case. *)
Definition NewServer (extAddr : string) (d : database.DB) : Server :=
  {| extAddr := ToLower extAddr; srv_db := d |}.

(** What the goroutine of [validateAndAddPeer] sends out. *)
Inductive Effect : Type :=
| Log_Printf (msg : string)
| Notify (p peer : string)
| FullPeerSync (peer : string).

(** The body of the goroutine [validateAndAddPeer] starts for [peer];
    [ping] is what [s.client.Ping(peer)] returns. *)
Definition addPeer_goroutine (s : Server) (peer : string)
    (ping : option error) (w : World) : list Effect * World :=
  match ping with
  | Some _ => ([Log_Printf "ignoring peer, ping failed"], w)
  | None =>
    match DB_AddPeer (srv_db s) peer w with
    | (Err _, w) => ([Log_Printf "failed to add peer to database"], w)
    | (Ok false, w) => ([], w)
    | (Ok true, w) =>
      match DB_Peers (srv_db s) w with
      | (Err _, w) => ([Log_Printf "failed to select peers"], w)
      | (Ok peers, w) =>
        (map (fun p => Notify p peer)
             (filter (fun p => negb (String.eqb p peer)) peers)
         ++ [FullPeerSync peer], w)
      end
    end
  end.

(** [func (s *Server) validateAndAddPeer(peer string) error]: the error,
    and the peer a goroutine was started for, if any. *)
Definition validateAndAddPeer (s : Server) (peer : string) (w : World)
    : option error * option string * World :=
  let peer := ToLower peer in
  if String.eqb peer (extAddr s) then (None, None, w)
  else
    match DB_PeerExists (srv_db s) peer w with
    | (Err err, w) =>
      (Some (errors_Wrap err "cryptopuff: failed to check if peer exists"),
       None, w)
    | (Ok true, w) => (None, None, w)
    | (Ok false, w) => (None, Some peer, w)
    end.

(** ** block.go: the genesis block *)

Section Genesis.
Context {P : Primitives}.

(** [var GenesisBlock = &Block{Nonce: 39611433}], hashed by [init]. *)
Definition GenesisBlock : Block :=
  Block_UpdateHash
    {| blk_Hash := EmptyHash; PreviousHash := EmptyHash; Height := 0;
       Nonce := 39611433;
       RewardOutput := {| Destination := []; Amount := 0 |};
       Transactions := [] |}.

End Genesis.

(** ** The consistency the schema enforces on a store

    Primary keys of [balances] and [included_txs] are unique, and the rows
    of [balances], [included_txs] and [block_txs] refer to a stored block
    (their foreign key on [block_hash]). *)

Fixpoint unique_b {R : Type} (same_key : R -> R -> bool) (l : list R) : bool :=
  match l with
  | [] => true
  | r :: rest => negb (existsb (same_key r) rest) && unique_b same_key rest
  end.

Definition refers_to_block (s : Store) (h : Hash) : bool :=
  existsb (has_hash h) (blocks s).

Definition Store_consistent_b (s : Store) : bool :=
  unique_b same_balance_key (balances s)
  && unique_b same_link_key (included_txs s)
  && forallb (fun r => refers_to_block s (bal_block_hash r)) (balances s)
  && forallb (fun r => refers_to_block s (lnk_block_hash r)) (included_txs s)
  && forallb (fun r => refers_to_block s (lnk_block_hash r)) (block_txs s).

Definition Store_consistent (s : Store) : Prop := Store_consistent_b s = true.

(** [Store_consistent], part by part. *)
Definition consistent_parts (s : Store) : Prop :=
  unique_b same_balance_key (balances s) = true
  /\ unique_b same_link_key (included_txs s) = true
  /\ Forall (fun r => refers_to_block s (bal_block_hash r) = true)
            (balances s)
  /\ Forall (fun r => refers_to_block s (lnk_block_hash r) = true)
            (included_txs s)
  /\ Forall (fun r => refers_to_block s (lnk_block_hash r) = true)
            (block_txs s).

(** ** The rules of the validation section, as the specification words them *)

Section Rules.
Context {P : Primitives}.

(** Amount > 0, Fee >= 0, Fee + Amount does not overflow 64-bit signed;
    the declared Source is the V1 or the V2 address of the included public
    key; RSA-PSS verification of the signature over the MD5 of the encoding
    of the unsigned Tx succeeds. *)
Definition SignedTx_rules (s : SignedTx) : Prop :=
  Amount s > 0 /\ Fee s >= 0 /\ is_int64 (Fee s + Amount s) /\
  exists k,
    x509_ParsePKCS1PublicKey (PublicKey s) = Ok k /\
    (Source s = AddressFromKey V1 k \/ Source s = AddressFromKey V2 k) /\
    rsa_VerifyPSS k (md5_Sum (json_Marshal_Tx s)) (Signature s) = None.

(** The balance map of a block as a function, absent rows being 0. *)
Definition balance_at (s : Store) (tip : Hash) (a : Address) : Z :=
  match select_balance tip a s with
  | Some v => v
  | None => 0
  end.

(** Applying a transaction to a balance map: Amount + Fee leaves the
    source, Amount reaches the destination. *)
Definition apply_tx (f : Address -> Z) (t : SignedTx) : Address -> Z :=
  fun a =>
    f a
    - (if bytes_eqb a (Source t) then Amount t + Fee t else 0)
    + (if bytes_eqb a (Destination t) then Amount t else 0).

Definition apply_txs (f : Address -> Z) (l : list SignedTx) : Address -> Z :=
  fold_left apply_tx l f.

End Rules.

(** "The transaction list holds the same hash at two positions", by
    recursion on the list. *)
Fixpoint repeats (l : list SignedTx) : Prop :=
  match l with
  | [] => False
  | t :: rest =>
    (exists t', In t' rest /\ stx_Hash t' = stx_Hash t) \/ repeats rest
  end.

(** The scratch table as a function, absent rows being 0. *)
Definition temp_balance (temp : list TempRow) (a : Address) : Z :=
  match select_temp a temp with
  | Some v => v
  | None => 0
  end.

(** The amounts of a transaction are [int64] values. *)
Definition int64_amounts (t : Tx) : Prop :=
  is_int64 (Fee t) /\ is_int64 (Amount t).

(** The stored transactions carry [int64] amounts. *)
Definition rows_typed (rows : list TxRow) : Prop :=
  Forall (fun r => int64_amounts (txr_tx r)) rows.

(** "The result is a rejection with an InvalidBlockError." *)
Definition rejected {A : Type} (r : result A * Store) : Prop :=
  exists m c s', r = (Err (InvalidBlockError m c), s').

(** The rows of [block_txs] under the new block are in its inclusion set. *)
Definition linked_included (n : Hash) (s : Store) : Prop :=
  forall x, existsb (link_key n x) (block_txs s) = true ->
            existsb (link_key n x) (included_txs s) = true.

(** "[q] is [p] in some capitalization." *)
Definition same_peer (p q : string) : Prop := ToLower p = ToLower q.

(** ** An instance of the primitives, to run the embedding on examples

    A 16-byte checksum stands for MD5 (one for which a nonce that meets the
    difficulty is found in a few hundred tries), a key is its own encoding,
    and a signature is the digest followed by the key. *)

Definition sample_mix (p : bytes) (i : Z) : Z :=
  fold_left (fun acc b => (acc * (31 + i) + byte_val b + i) mod 65521) p
            (Z.of_nat (length p) + i + 1).

Definition sample_md5 (p : bytes) : Hash :=
  map (fun i =>
         byte_of_Z
           (if i =? 0 then 0
            else if i =? 2 then 3 * sample_mix p 1
            else sample_mix p i))
      [0; 1; 2; 3; 4; 5; 6; 7; 8; 9; 10; 11; 12; 13; 14; 15].

Definition sample_encode_Tx (t : Tx) : bytes :=
  be64 (Z.of_nat (length (Destination t))) ++ Destination t
  ++ be64 (Amount t)
  ++ be64 (Z.of_nat (length (Source t))) ++ Source t
  ++ be64 (Fee t).

Definition sample_encode_SignedTx (s : SignedTx) : bytes :=
  sample_encode_Tx s ++ ID s
  ++ be64 (Z.of_nat (length (Signature s))) ++ Signature s
  ++ be64 (Z.of_nat (length (PublicKey s))) ++ PublicKey s.

#[local] Instance sample_primitives : Primitives := {|
  rsa_PublicKey := bytes;
  md5_Sum := sample_md5;
  md5_Sum_length := fun _ => eq_refl;
  x509_ParsePKCS1PublicKey := fun b =>
    match b with
    | [] => Err (errors_New "asn1: syntax error")
    | _ :: _ => Ok b
    end;
  x509_MarshalPKCS1PublicKey := fun k => k;
  rsa_VerifyPSS := fun k hashed sig =>
    if bytes_eqb sig (hashed ++ k) then None
    else Some (errors_New "crypto/rsa: verification error");
  json_encode_Tx := sample_encode_Tx;
  json_encode_SignedTx := sample_encode_SignedTx;
  json_encode_Transactions := fun l => concat (map sample_encode_SignedTx l)
|}.

Definition sample_key : bytes := [x01].

Definition sample_address : Address :=
  Eval vm_compute in AddressFromKey V2 sample_key.

(** [func (t Tx) Sign(k *rsa.PrivateKey)] with the sample signature and a
    fixed TxID. *)
Definition sample_Sign (t : Tx) (id : TxID) : SignedTx :=
  SignedTx_UpdateHash
    {| SignedTx_Tx := t; stx_Hash := EmptyHash; ID := id;
       Signature := md5_Sum (json_Marshal_Tx t) ++ sample_key;
       PublicKey := sample_key |}.

Definition sample_tx : Tx :=
  {| Tx_TxOutput := {| Destination := [x02; x03]; Amount := 5 |};
     Source := sample_address; Fee := 1 |}.

Definition sample_stx : SignedTx :=
  Eval vm_compute in sample_Sign sample_tx (repeat x07 TxIDSize).

Definition sample_genesis : Block := Eval vm_compute in GenesisBlock.

(** A store that holds the genesis block, with 100 coins at the sample
    address and one pending transaction. *)
Definition sample_store : Store :=
  {| blocks :=
       [{| row_hash := blk_Hash sample_genesis;
           row_previous_hash := None;
           row_height := 0;
           row_block := json_view_Block sample_genesis |}];
     balances :=
       [{| bal_block_hash := blk_Hash sample_genesis;
           bal_address := sample_address; bal_balance := 100 |}];
     txs := [{| txr_hash := stx_Hash sample_stx;
                txr_tx := json_view_SignedTx sample_stx |}];
     block_txs := [];
     included_txs := [];
     peers := ["node1:8080"] |}.

(** A block on top of genesis that holds the same transaction twice. *)
Definition sample_block_twice : Block :=
  Eval vm_compute in
    NewBlock sample_genesis 1525 sample_address 10 [sample_stx; sample_stx].

(** A block on top of genesis that holds the transaction once. *)
Definition sample_block_once : Block :=
  Eval vm_compute in NewBlock sample_genesis 185 sample_address 10 [sample_stx].

(** A block with the same two transactions whose parent is not stored. *)
Definition sample_block_orphan : Block :=
  Eval vm_compute in
    Block_UpdateHash
      {| blk_Hash := EmptyHash; PreviousHash := repeat x09 md5_Size;
         Height := 5; Nonce := 7;
         RewardOutput := {| Destination := sample_address; Amount := 10 |};
         Transactions := [sample_stx; sample_stx] |}.

Definition sample_db : database.DB :=
  sqlite.Open database.sound_driver (fun _ => 0) [].

Definition sample_world : World :=
  {| database.committed := sample_store; database.begun := 0%nat;
     database.events := [] |}.

(** The sample store after [sample_block_once] was added. *)
Definition sample_store_1 : Store :=
  Eval vm_compute in snd (addBlock sample_block_once sample_store).

Definition sample_world_1 : World :=
  {| database.committed := sample_store_1; database.begun := 1%nat;
     database.events := [] |}.

(** The sleeps among the events, in order. *)
Definition sleeps (l : list database.Event) : list database.Duration :=
  flat_map (fun e => match e with
                     | database.EvSleep d => [d]
                     | _ => []
                     end) l.

Definition sample_busy : error :=
  sqlite3_Error sqlite3_ErrBusy sqlite3_ErrBusy.

(** A closure that meets a busy database on the first [k] transactions
    begun and adds a peer afterwards. *)
Definition sample_contended (k : nat) : database.closure Store bool :=
  fun n s =>
    if (n <? k)%nat then (Err sample_busy, set_peers s [])
    else AddPeer_tx "node2:8080" s.

(** ** encoding/hex and the SQL side of hash.go *)

(** [hextable[n]] for [n] below 16. *)
Definition hex_digit (n : Z) : ascii :=
  if n <? 10 then ascii_of_nat (Z.to_nat (48 + n))
  else ascii_of_nat (Z.to_nat (87 + n)).

(** [hex.EncodeToString]: two lower-case digits for each byte. *)
Fixpoint hex_EncodeToString (b : bytes) : string :=
  match b with
  | [] => EmptyString
  | v :: rest =>
    String (hex_digit (Z.shiftr (byte_val v) 4))
      (String (hex_digit (Z.land (byte_val v) 0x0f))
              (hex_EncodeToString rest))
  end.

(** [reverseHexTable[c]]: digits, [a-f] and [A-F]. *)
Definition fromHexChar (c : ascii) : option Z :=
  let n := Z.of_nat (nat_of_ascii c) in
  if (48 <=? n) && (n <=? 57) then Some (n - 48)
  else if (97 <=? n) && (n <=? 102) then Some (n - 97 + 10)
  else if (65 <=? n) && (n <=? 70) then Some (n - 65 + 10)
  else None.

Definition hex_InvalidByteError : error :=
  errors_New "encoding/hex: invalid byte".

Definition hex_ErrLength : error :=
  errors_New "encoding/hex: odd length hex string".

(** [hex.DecodeString]: pairs of digits from the left; a bad digit is
    reported where it is met, a last digit without its pair as a length
    error.  The bytes decoded before an error are dropped, as the callers
    here drop them. *)
Fixpoint hex_DecodeString (s : string) : result bytes :=
  match s with
  | EmptyString => Ok []
  | String p EmptyString =>
    match fromHexChar p with
    | None => Err hex_InvalidByteError
    | Some _ => Err hex_ErrLength
    end
  | String p (String q rest) =>
    match fromHexChar p, fromHexChar q with
    | Some a, Some b =>
      match hex_DecodeString rest with
      | Ok l => Ok (byte_of_Z (Z.lor (Z.shiftl a 4) b) :: l)
      | Err e => Err e
      end
    | _, _ => Err hex_InvalidByteError
    end
  end.

(** A [driver.Value] as [Hash] meets it: nil, a string, a byte slice, or
    a value of another type. *)
Inductive driver_Value : Type :=
| Value_nil
| Value_string (s : string)
| Value_bytes (v : string)
| Value_other.

(** [func (h Hash) Value() (driver.Value, error)], with the hexadecimal
    text written out. *)
Definition Hash_driver_Value (h : Hash) : driver_Value :=
  if bytes_eqb h EmptyHash then Value_nil
  else Value_string (hex_EncodeToString h).

(** [func (h *Hash) Scan(value interface{}) error]: the new contents of
    the receiver, which an error leaves as it was. *)
Definition Hash_Scan (h : Hash) (value : driver_Value) : result Hash :=
  match value with
  | Value_nil => Ok EmptyHash
  | Value_bytes v =>
    match hex_DecodeString v with
    | Err err =>
      Err (errors_Wrap err "cryptopuff: failed to hex decode hash")
    | Ok b =>
      if (length b =? 0)%nat then Ok EmptyHash
      else if negb (length b =? md5_Size)%nat then
        Err (errors_New "cryptopuff: invalid Hash length")
      else Ok (copy h b)
    end
  | _ => Err (errors_New "cryptopuff: can't convert to Hash")
  end.

(** [func (h Hash) String() string] *)
Definition Hash_String (h : Hash) : string := hex_EncodeToString h.

(** ** What a block is worth to its miner

    The value of the variable [fee] of [addBlock] when its loop ends: the
    reward amount and the fees of the transactions, added as [int64]. *)
Definition collected_fee (block : Block) : Z :=
  fold_left (fun fee (stx : SignedTx) => add64 fee (Fee stx))
            (Transactions block) (Amount (RewardOutput block)).

(** "The transaction list holds a transaction with this hash." *)
Definition holds_tx (l : list SignedTx) (x : Hash) : bool :=
  existsb (fun t => bytes_eqb (stx_Hash t) x) l.

(** The fields of a block are of the types the source gives them. *)
Definition Block_typed (b : Block) : Prop :=
  length (PreviousHash b) = md5_Size
  /\ is_int64 (Height b) /\ is_int64 (Nonce b)
  /\ is_int64 (Amount (RewardOutput b))
  /\ Z.of_nat (length (Destination (RewardOutput b))) <= MaxInt64.

(** "Some row of [block_txs] or of [included_txs] names the transaction
    hash [h]": the two NOT EXISTS tests of the DELETE in [PendingTxs]. *)
Definition tx_referenced (h : Hash) (s : Store) : bool :=
  existsb (fun r => bytes_eqb (lnk_tx_hash r) h) (block_txs s)
  || existsb (fun r => bytes_eqb (lnk_tx_hash r) h) (included_txs s).

(** "The store [s'] is [s] with some rows of [txs] gone, none of them
    referenced by a block." *)
Definition only_unreferenced_txs_gone (s s' : Store) : Prop :=
  blocks s' = blocks s /\ balances s' = balances s
  /\ block_txs s' = block_txs s /\ included_txs s' = included_txs s
  /\ peers s' = peers s
  /\ (forall r, In r (txs s') -> In r (txs s))
  /\ (forall r, In r (txs s) -> tx_referenced (txr_hash r) s = true ->
                In r (txs s')).

(** ** Block rows that carry the hash of their content

    [addBlock] stores the hash the block came with beside the text of the
    block, and reads a parent back with [DecodeBlock], which computes the
    hash afresh.  The two agree on a row when: *)
Definition row_self_hashed {P : Primitives} (r : BlockRow) : Prop :=
  blk_Hash (DecodeBlock (row_block r)) = row_hash r.

Definition blocks_self_hashed {P : Primitives} (s : Store) : Prop :=
  Forall row_self_hashed (blocks s).

(** ** server.go: receiving blocks *)

Section ServerBlocks.
Context {P : Primitives}.

(** What the handler [addBlock] answers and starts: the HTTP status, the
    peer [fetchBlocks] is started for, and whether [bestBlockVersion] was
    incremented. *)
Record AddBlockOutcome : Type := {
  status : Z;
  backfill : option string;
  bumped : bool
}.

(** [func (s *Server) addBlock(w http.ResponseWriter, r *http.Request)]
    from the point where the body is decoded into [b]; [xpeer] is the
    X-Peer header of the request. *)
Definition Server_addBlock (s : Server) (xpeer : string) (b : Block)
    (w : World) : AddBlockOutcome * World :=
  let b := Block_UpdateHash b in
  match DB_AddBlock (srv_db s) b w with
  | (Err ErrUnknownParent, w) =>
    ({| status := 200; backfill := Some xpeer; bumped := false |}, w)
  | (Err _, w) =>
    ({| status := 500; backfill := None; bumped := false |}, w)
  | (Ok _, w) =>
    ({| status := 200; backfill := None; bumped := true |}, w)
  end.

(** [func (c *PeerClient) Blocks(peer string) ([]Block, error)] from the
    point where the body is decoded into [blocks]. *)
Definition PeerClient_Blocks (blocks : list Block) : list Block :=
  map Block_UpdateHash blocks.

(** [func (s *Server) fetchBlocks(peer string) error]; [downloaded] is
    what [s.client.Blocks(peer)] returned.  The result is the error and
    whether [bestBlockVersion] was incremented. *)
Definition Server_fetchBlocks (s : Server) (downloaded : result (list Block))
    (w : World) : option error * bool * World :=
  match downloaded with
  | Err err =>
    (Some (errors_Wrap err "cryptopuff: failed to download blocks"), false, w)
  | Ok blocks =>
    match DB_AddBlocks (srv_db s) blocks w with
    | (Err err, w) =>
      (Some (errors_Wrap err "cryptopuff: failed to add blocks to database"),
       false, w)
    | (Ok _, w) => (None, true, w)
    end
  end.

End ServerBlocks.

(** ** db.go: AddTx

    The closure of [func (d *DB) AddTx(stx *SignedTx) error]; [best] is
    what [bestBlockHash] returned, the hash of a stored block of greatest
    height or the error of the query. *)
Section AddTx.
Context {P : Primitives}.

Definition AddTx_tx (best : result Hash) (stx : SignedTx) : M unit :=
  match best with
  | Err err => fail err
  | Ok tip => validTx stx tip ;; addTx stx
  end.

End AddTx.

(** ** db.go, server.go: removing a peer *)

Section PeerSync.
Context {P : Primitives}.

(** [func (d *DB) RemovePeer(peer string) error] *)
Definition DB_RemovePeer (d : database.DB) (peer : string) (w : World)
    : result unit * World :=
  database.TransactWithRetry d (run (RemovePeer_tx peer)) w.

(** [func createWellKnownPeers(peers []string) map[string]struct{}]: the
    keys of the map. *)
Definition createWellKnownPeers (peers : list string) : list string :=
  map ToLower peers.

(** The body of the goroutine [periodicFullPeerSync] starts for a stored
    [peer]; [wellKnownPeers] is the field of that name of the server, and
    [ping] is what [s.client.Ping(peer)] returns. *)
Definition periodicFullPeerSync_goroutine (wellKnownPeers : list string)
    (s : Server) (peer : string) (ping : option error) (w : World)
    : list Effect * World :=
  let wellKnown := existsb (String.eqb peer) wellKnownPeers in
  match ping with
  | Some _ =>
    if negb wellKnown then
      match DB_RemovePeer (srv_db s) peer w with
      | (Err _, w) =>
        ([Log_Printf "failed to remove unresponsive peer from the database"],
         w)
      | (Ok _, w) => ([FullPeerSync peer], w)
      end
    else ([FullPeerSync peer], w)
  | None => ([FullPeerSync peer], w)
  end.

End PeerSync.

(** ** Transaction rows that carry the hash of their content

    [addTx] stores the hash the transaction came with beside its text;
    [PendingTxs] reads the text back and computes the hash afresh.  The
    two agree on a row, and the row holds a hash (the column is NOT NULL
    and a primary key), when: *)
Definition txs_self_hashed {P : Primitives} (s : Store) : Prop :=
  Forall (fun r => stx_Hash (SignedTx_UpdateHash (txr_tx r)) = txr_hash r
                   /\ txr_hash r <> EmptyHash) (txs s)
  /\ NoDup (map txr_hash (txs s)).

(** "Applied in order to the balance map [f], each transaction of the
    list finds RequiredBalance at its source." *)
Fixpoint covered {P : Primitives} (f : Address -> Z) (l : list SignedTx)
    : Prop :=
  match l with
  | [] => True
  | t :: rest =>
    Tx_RequiredBalance t <= f (Source t) /\ covered (apply_tx f t) rest
  end.

(** ** db.go: the schema, the genesis row and the first key

    [migrate] creates the tables and indexes that are missing (CREATE ... IF
    NOT EXISTS leaves what exists as it is), puts the genesis block in with
    INSERT OR IGNORE, which skips the row when it meets NOT NULL or the
    primary key, and, when the table of keys is empty, generates a key,
    stores it and makes its address the miner address.  The tables [keys]
    and [miner_address] stand beside the [Store], in a [Wallet]. *)

Definition DefaultVersion : Version := V1.

Record KeyRow : Type := {
  key_address : Address;
  key_private_key : bytes
}.

Record Wallet : Type := {
  keys : list KeyRow;
  miner_address : list Address
}.

Definition empty_store : Store :=
  {| blocks := []; balances := []; txs := []; block_txs := [];
     included_txs := []; peers := [] |}.

Definition empty_wallet : Wallet := {| keys := []; miner_address := [] |}.

Section Migrate.
Context {P : Primitives}.

(** [*rsa.PrivateKey], its field [PublicKey], and [EncodePrivateKeyPEM],
    the PEM block around the PKCS #1 encoding of the key. *)
Variable rsa_PrivateKey : Type.
Variable PublicKey_of : rsa_PrivateKey -> rsa_PublicKey.
Variable EncodePrivateKeyPEM : rsa_PrivateKey -> bytes.

(** [INSERT OR IGNORE INTO blocks (hash, previous_hash, height, block)
     VALUES (?, ?, ?, ?)] with the fields of [GenesisBlock]. *)
Definition insert_genesis : M unit := fun s =>
  match Hash_Value (blk_Hash GenesisBlock) with
  | None => (Ok tt, s)
  | Some h =>
    if existsb (has_hash h) (blocks s) then (Ok tt, s)
    else
      (Ok tt,
       set_blocks s
         (blocks s ++
          [{| row_hash := h;
              row_previous_hash := Hash_Value (PreviousHash GenesisBlock);
              row_height := Height GenesisBlock;
              row_block := json_view_Block GenesisBlock |}]))
  end.

(** [func addKey(tx *sql.Tx, a Address, k *rsa.PrivateKey) error]:
    [INSERT OR IGNORE INTO keys (address, private_key) VALUES (?, ?)] *)
Definition addKey (a : Address) (k : rsa_PrivateKey) (w : Wallet) : Wallet :=
  if existsb (fun r => bytes_eqb (key_address r) a) (keys w) then w
  else
    {| keys := keys w ++ [{| key_address := a;
                             key_private_key := EncodePrivateKeyPEM k |}];
       miner_address := miner_address w |}.

(** The closure of [func migrate(db *database.DB) error].  [generated] is
    what [GenerateKey(DefaultKeyLength, time.Now().Unix())] returns if it
    is called, a key that depends on the time or the error of
    [RSAGenerateKey]; [SELECT 1 FROM keys LIMIT 1] gives [sql.ErrNoRows]
    exactly on an empty table. *)
Definition migrate_tx (generated : result rsa_PrivateKey)
    (st : Store * Wallet) : result unit * (Store * Wallet) :=
  let (s, w) := st in
  match insert_genesis s with
  | (Err err, s) => (Err err, (s, w))
  | (Ok _, s) =>
    match keys w with
    | [] =>
      match generated with
      | Err err => (Err err, (s, w))
      | Ok k =>
        let a := AddressFromKey DefaultVersion (PublicKey_of k) in
        let w := addKey a k w in
        (Ok tt, (s, {| keys := keys w;
                       miner_address := miner_address w ++ [a] |}))
      end
    | _ :: _ => (Ok tt, (s, w))
    end
  end.

End Migrate.

(** The store and the wallet of a node that has just been set up, with the
    sample key as the generated key. *)
Definition sample_migrated : Store * Wallet :=
  Eval vm_compute in
    snd (migrate_tx bytes (fun k => k) (fun k => k) (Ok sample_key)
                    (empty_store, empty_wallet)).

(** ** hash.go, tx.go: the JSON form of a hash and of a transaction id

    Both travel as JSON strings of hexadecimal digits.  The functions below
    are [MarshalJSON] up to the string it hands to [json.Marshal], and
    [UnmarshalJSON] from the string [json.Unmarshal] has read into [str]. *)

Definition Hash_MarshalJSON_string (h : Hash) : string :=
  hex_EncodeToString h.

Definition Hash_UnmarshalJSON_string (h : Hash) (str : string)
    : result Hash :=
  match hex_DecodeString str with
  | Err err => Err (errors_Wrap err "cryptopuff: failed to hex decode hash")
  | Ok v =>
    if (length v =? 0)%nat then Ok EmptyHash
    else if negb (length v =? md5_Size)%nat then
      Err (errors_New "cryptopuff: invalid Hash length")
    else Ok (copy h v)
  end.

Definition TxID_MarshalJSON_string (t : TxID) : string :=
  hex_EncodeToString t.

Definition TxID_UnmarshalJSON_string (t : TxID) (str : string)
    : result TxID :=
  match hex_DecodeString str with
  | Err err => Err (errors_Wrap err "cryptopuff: failed to hex decode TxID")
  | Ok v =>
    if negb (length v =? TxIDSize)%nat then
      Err (errors_New "cryptopuff: invalid TxID length")
    else Ok (copy t v)
  end.

(** ** The coins in circulation

    The sum of the balance rows of a block, and the sum of the fees of a
    list of transactions. *)
Definition sum_rows (h : Hash) (l : list BalanceRow) : Z :=
  fold_right (fun r acc =>
                (if bytes_eqb (bal_block_hash r) h then bal_balance r else 0)
                + acc) 0 l.

Definition supply (s : Store) (h : Hash) : Z := sum_rows h (balances s).

Definition fees (l : list SignedTx) : Z :=
  fold_right (fun (t : SignedTx) acc => Fee t + acc) 0 l.

(* ===================================================================== *)
(** * Part II: lemmas and theorems                                        *)
(* ===================================================================== *)

(** ** Bytes and machine integers *)

Lemma bytes_eqb_eq (a b : bytes) : bytes_eqb a b = true <-> a = b.
Proof.
  unfold bytes_eqb.
  destruct (list_eq_dec Byte.byte_eq_dec a b); split; congruence.
Qed.

Lemma bytes_eqb_refl (a : bytes) : bytes_eqb a a = true.
Proof. now apply bytes_eqb_eq. Qed.

Lemma bytes_eqb_neq (a b : bytes) : bytes_eqb a b = false <-> a <> b.
Proof.
  unfold bytes_eqb.
  destruct (list_eq_dec Byte.byte_eq_dec a b); split; congruence.
Qed.

Lemma bytes_eqb_sym (a b : bytes) : bytes_eqb a b = bytes_eqb b a.
Proof.
  destruct (bytes_eqb a b) eqn:E.
  - apply bytes_eqb_eq in E. subst. now rewrite bytes_eqb_refl.
  - apply bytes_eqb_neq in E. symmetry. apply bytes_eqb_neq. congruence.
Qed.

Lemma wrap64_id (x : Z) : is_int64 x -> wrap64 x = x.
Proof.
  unfold is_int64, wrap64, MinInt64, MaxInt64. intros H.
  rewrite Z.mod_small; lia.
Qed.

Lemma wrap64_range (x : Z) : is_int64 (wrap64 x).
Proof.
  unfold is_int64, wrap64, MinInt64, MaxInt64.
  pose proof (Z.mod_pos_bound (x + 2 ^ 63) (2 ^ 64) ltac:(lia)). lia.
Qed.

(** Outside the range, the sum wraps by exactly [2 ^ 64]. *)
Lemma add64_cases (a b : Z) :
  is_int64 a -> is_int64 b ->
  (is_int64 (a + b) /\ add64 a b = a + b)
  \/ (a + b > MaxInt64 /\ add64 a b = a + b - 2 ^ 64)
  \/ (a + b < MinInt64 /\ add64 a b = a + b + 2 ^ 64).
Proof.
  unfold is_int64, add64, wrap64, MinInt64, MaxInt64. intros Ha Hb.
  destruct (Z_lt_le_dec (a + b) (- 2 ^ 63)) as [Hlo | Hlo];
    [ | destruct (Z_lt_le_dec (2 ^ 63 - 1) (a + b)) as [Hhi | Hhi] ].
  - right; right. split; [lia | ].
    replace (a + b + 2 ^ 63) with (a + b + 2 ^ 64 + 2 ^ 63 + (-1) * 2 ^ 64)
      by lia.
    rewrite Z.mod_add by lia. rewrite Z.mod_small; lia.
  - right; left. split; [lia | ].
    replace (a + b + 2 ^ 63) with (a + b - 2 ^ 64 + 2 ^ 63 + 1 * 2 ^ 64)
      by lia.
    rewrite Z.mod_add by lia. rewrite Z.mod_small; lia.
  - left. split; [lia | ]. rewrite Z.mod_small; lia.
Qed.

(** [overflow.Add64] reports exactly the sums that fit. *)
Lemma overflow_Add64_ok (a b : Z) :
  is_int64 a -> is_int64 b ->
  (snd (overflow_Add64 a b) = true <-> is_int64 (a + b)).
Proof.
  intros Ha Hb. unfold overflow_Add64.
  destruct (add64_cases a b Ha Hb) as [[Hr E] | [[Hr E] | [Hr E]]];
    rewrite E; unfold is_int64, MinInt64, MaxInt64 in *;
    match goal with
    | |- context [Bool.eqb (?x >? ?y) (?u >? ?v)] =>
      destruct (Z.gtb_spec x y), (Z.gtb_spec u v)
    end; simpl; split; intros; try discriminate; try lia; try reflexivity.
Qed.

Lemma byte_val_of_Z (z : Z) : byte_val (byte_of_Z z) = z mod 256.
Proof.
  unfold byte_val, byte_of_Z.
  pose proof (Z.mod_pos_bound z 256 ltac:(lia)) as Hb.
  destruct (Byte.of_N (Z.to_N (z mod 256))) as [b | ] eqn:E.
  - apply Byte.to_of_N in E. rewrite E. lia.
  - apply Byte.of_N_None_iff in E. lia.
Qed.

Lemma BigEndian_PutUint64_value (v : Z) :
  0 <= v < 2 ^ 64 -> BigEndian_value (BigEndian_PutUint64 v) = v.
Proof.
  intros Hv. unfold BigEndian_value, BigEndian_PutUint64. cbn [fold_left].
  rewrite !byte_val_of_Z, !Z.shiftr_div_pow2 by lia.
  assert (E : forall k, 0 <= k ->
            v / 2 ^ k = 256 * (v / 2 ^ (k + 8)) + (v / 2 ^ k) mod 256).
  { intros k Hk. rewrite Z.pow_add_r by lia.
    rewrite <- Z.div_div by lia.
    change (2 ^ 8) with 256. apply Z.div_mod. lia. }
  pose proof (E 0 ltac:(lia)) as E0. pose proof (E 8 ltac:(lia)) as E1.
  pose proof (E 16 ltac:(lia)) as E2. pose proof (E 24 ltac:(lia)) as E3.
  pose proof (E 32 ltac:(lia)) as E4. pose proof (E 40 ltac:(lia)) as E5.
  pose proof (E 48 ltac:(lia)) as E6. pose proof (E 56 ltac:(lia)) as E7.
  cbn [Z.add Pos.add Pos.succ Pos.add_carry] in *.
  assert (E8 : v / 2 ^ 64 = 0) by (apply Z.div_small; lia).
  rewrite Z.pow_0_r, Z.div_1_r in E0.
  lia.
Qed.

Lemma be64_big_endian (x : Z) :
  length (be64 x) = 8%nat /\ BigEndian_value (be64 x) = x mod 2 ^ 64.
Proof.
  split; [reflexivity | ].
  unfold be64, uint64. apply BigEndian_PutUint64_value.
  apply Z.mod_pos_bound. lia.
Qed.

(** ** hash.go: proof-of-work validity *)

Lemma first_bits_zero_b (n : nat) (h : Hash) :
  first_bits_zero n h <-> leading_zeros_b n h = true.
Proof.
  unfold first_bits_zero, leading_zeros_b. rewrite forallb_forall. split.
  - intros H i Hi. apply in_seq in Hi. rewrite H by lia. reflexivity.
  - intros H i Hi. specialize (H i). rewrite in_seq in H.
    apply negb_true_iff, H. lia.
Qed.

Lemma top_bits_zero_iff (k : nat) (b : byte) :
  top_bits_zero k b <-> top_bits_zero_b k b = true.
Proof.
  unfold top_bits_zero, top_bits_zero_b. rewrite forallb_forall. split.
  - intros H i Hi. apply in_seq in Hi. rewrite H by lia. reflexivity.
  - intros H i Hi. specialize (H i). rewrite in_seq in H.
    apply negb_true_iff, H. lia.
Qed.

Lemma byte_zero_bits (b : byte) : top_bits_zero_b 8 b = (byte_val b =? 0).
Proof. destruct b; reflexivity. Qed.

Lemma byte_mask_fc_bits (b : byte) :
  top_bits_zero_b 6 b = (Z.land (byte_val b) 0xfc =? 0).
Proof. destruct b; reflexivity. Qed.

Lemma leading_zeros_22_split (h : Hash) :
  leading_zeros_b 22 h =
  top_bits_zero_b 8 (nth 0 h x00) && top_bits_zero_b 8 (nth 1 h x00)
  && top_bits_zero_b 6 (nth 2 h x00).
Proof.
  unfold leading_zeros_b, top_bits_zero_b, hash_bit, at_.
  cbn [seq forallb Nat.div Nat.modulo Nat.divmod fst snd Nat.sub].
  rewrite ?andb_true_r, ?andb_assoc. reflexivity.
Qed.

Lemma Hash_Valid_leading_22 (h : Hash) : Hash_Valid h = leading_zeros_b 22 h.
Proof.
  rewrite leading_zeros_22_split, !byte_zero_bits, byte_mask_fc_bits.
  reflexivity.
Qed.

(** C1, as the code has it: a 16-byte hash is PoW-valid exactly when its
    first 22 bits are zero, that is, when bytes 0 and 1 are zero and the
    top 6 bits of byte 2 are zero. *)
Theorem Hash_Valid_first_22_bits (h : Hash) :
  length h = md5_Size ->
  (Hash_Valid h = true <-> first_bits_zero 22 h)
  /\ (first_bits_zero 22 h <->
      at_ h 0 = 0 /\ at_ h 1 = 0 /\ top_bits_zero 6 (nth 2 h x00)).
Proof.
  intros _.
  assert (E : Hash_Valid h = true <-> first_bits_zero 22 h).
  { rewrite first_bits_zero_b, Hash_Valid_leading_22. reflexivity. }
  split; [exact E | ].
  rewrite <- E, top_bits_zero_iff, byte_mask_fc_bits.
  unfold Hash_Valid. rewrite !andb_true_iff, !Z.eqb_eq. tauto.
Qed.

Lemma Hash_Valid_first_22_bits_witness :
  (Hash_Valid EmptyHash = true <-> first_bits_zero 22 EmptyHash)
  /\ (first_bits_zero 22 EmptyHash <->
      at_ EmptyHash 0 = 0 /\ at_ EmptyHash 1 = 0
      /\ top_bits_zero 6 (nth 2 EmptyHash x00)).
Proof. apply (Hash_Valid_first_22_bits EmptyHash). reflexivity. Defined.

(** C1, as the claim words it, fails: this 16-byte hash has its first 18
    bits zero and is not PoW-valid. *)
Lemma Hash_Valid_not_first_18_bits :
  length hash_18_zero_bits = md5_Size
  /\ first_bits_zero 18 hash_18_zero_bits
  /\ Hash_Valid hash_18_zero_bits = false.
Proof.
  split; [reflexivity | split; [ | reflexivity ] ].
  apply first_bits_zero_b. reflexivity.
Qed.

(** ** block.go: the block hash *)

Section BlockHash.
Context {P : Primitives}.

Lemma copy_full (dst src : bytes) :
  length dst = length src -> copy dst src = src.
Proof.
  intros E. unfold copy. rewrite E, Nat.min_id.
  rewrite firstn_all. rewrite <- E, skipn_all. apply app_nil_r.
Qed.

(** C2: UpdateHash sets the hash to the MD5 of
    PreviousHash, Height, Nonce, len(RewardDest), RewardDest, RewardAmount
    and TxListHash in this order, TxListHash being the MD5 of the JSON
    encoding of the transaction list and every integer being written as 8
    bytes, big-endian. *)
Theorem Block_UpdateHash_hash (b : Block) :
  length (blk_Hash b) = md5_Size ->
  blk_Hash (Block_UpdateHash b) = md5_Sum (block_hash_input b)
  /\ TxListHash b = md5_Sum (json_Marshal_Transactions (Transactions b))
  /\ (forall x, length (be64 x) = 8%nat
                /\ BigEndian_value (be64 x) = x mod 2 ^ 64).
Proof.
  intros Hlen. split; [ | split; [reflexivity | apply be64_big_endian] ].
  unfold Block_UpdateHash, block_hash_input, TxListHash.
  cbn [blk_Hash set_Transactions set_blk_Hash].
  unfold binary_Write_BigEndian, digest_Sum, digest_Write, md5_New.
  cbn [written app].
  rewrite copy_full by (rewrite md5_Sum_length; exact Hlen).
  f_equal. rewrite <- !app_assoc. reflexivity.
Qed.

End BlockHash.

Lemma Block_UpdateHash_hash_witness :
  blk_Hash (Block_UpdateHash sample_block_once)
  = md5_Sum (block_hash_input sample_block_once)
  /\ TxListHash sample_block_once
     = md5_Sum (json_Marshal_Transactions (Transactions sample_block_once))
  /\ (forall x, length (be64 x) = 8%nat
                /\ BigEndian_value (be64 x) = x mod 2 ^ 64).
Proof. apply (Block_UpdateHash_hash sample_block_once). reflexivity. Defined.

(** ** tx.go, block.go: validation *)

Section ValidationFacts.
Context {P : Primitives}.

Lemma Tx_ValidAmounts_iff (t : Tx) :
  is_int64 (Fee t) -> is_int64 (Amount t) ->
  (Tx_ValidAmounts t = None <->
   Amount t > 0 /\ Fee t >= 0 /\ is_int64 (Fee t + Amount t)).
Proof.
  intros Hf Ha. unfold Tx_ValidAmounts.
  pose proof (overflow_Add64_ok (Fee t) (Amount t) Hf Ha) as Hov.
  destruct (Z.ltb_spec (Fee t) 0); [split; [discriminate | lia] | ].
  destruct (Z.leb_spec (Amount t) 0); [split; [discriminate | lia] | ].
  destruct (overflow_Add64 (Fee t) (Amount t)) as [c ok]. cbn [snd] in Hov.
  destruct ok; cbn [negb].
  - split; [intros _ | reflexivity]. repeat split; try lia; now apply Hov.
  - split; [discriminate | ]. intros (_ & _ & Hr). apply Hov in Hr.
    discriminate.
Qed.

Lemma SignedTx_ValidSignature_iff (s : SignedTx) :
  SignedTx_ValidSignature s = None <->
  exists k,
    x509_ParsePKCS1PublicKey (PublicKey s) = Ok k /\
    (Source s = AddressFromKey V1 k \/ Source s = AddressFromKey V2 k) /\
    rsa_VerifyPSS k (md5_Sum (json_Marshal_Tx s)) (Signature s) = None.
Proof.
  unfold SignedTx_ValidSignature, Address_Equal.
  destruct (x509_ParsePKCS1PublicKey (PublicKey s)) as [k | e].
  2: { split; [discriminate | intros (k & Hk & _); discriminate]. }
  destruct (bytes_eqb (AddressFromKey V1 k) (Source s)) eqn:E1;
    destruct (bytes_eqb (AddressFromKey V2 k) (Source s)) eqn:E2;
    cbn [negb andb];
    first [apply (proj1 (bytes_eqb_eq _ _)) in E1
          | apply (proj1 (bytes_eqb_neq _ _)) in E1];
    first [apply (proj1 (bytes_eqb_eq _ _)) in E2
          | apply (proj1 (bytes_eqb_neq _ _)) in E2].
  4: { split; [discriminate | ].
       intros (k' & Hk & [Hs | Hs] & _); inversion Hk; subst k';
         congruence. }
  all: destruct (rsa_VerifyPSS k (md5_Sum (json_Marshal_Tx s)) (Signature s))
         as [err | ] eqn:Ev;
       (split;
        [ intros H; try discriminate; exists k; repeat split; auto
        | intros (k' & Hk & _ & Hv); inversion Hk; subst k'; congruence ]).
Qed.

(** [Valid] accepts exactly the transactions that meet the SignedTx rules. *)
Lemma SignedTx_Valid_rules (s : SignedTx) :
  is_int64 (Fee s) -> is_int64 (Amount s) ->
  (SignedTx_Valid s = None <-> SignedTx_rules s).
Proof.
  intros Hf Ha. unfold SignedTx_Valid, SignedTx_rules.
  pose proof (Tx_ValidAmounts_iff s Hf Ha) as HA.
  pose proof (SignedTx_ValidSignature_iff s) as HS.
  destruct (Tx_ValidAmounts s).
  - split; [discriminate | ]. intros (H1 & H2 & H3 & _).
    assert (Some e = None) by (apply HA; auto). discriminate.
  - destruct (SignedTx_ValidSignature s).
    + split; [discriminate | ]. intros (_ & _ & _ & H).
      apply HS in H. discriminate.
    + split; [intros _ | reflexivity].
      destruct HA as [HA _]. destruct (HA eq_refl) as (H1 & H2 & H3).
      split; [exact H1 | split; [exact H2 | split; [exact H3 | ] ] ].
      now apply HS.
Qed.

(** Whatever [Valid] rejects, it rejects with an [InvalidBlockError]. *)
Lemma SignedTx_Valid_error (s : SignedTx) (e : error) :
  SignedTx_Valid s = Some e -> exists m c, e = InvalidBlockError m c.
Proof.
  unfold SignedTx_Valid.
  destruct (Tx_ValidAmounts s); [intros H; inversion H; eauto | ].
  destruct (SignedTx_ValidSignature s); intros H; inversion H; eauto.
Qed.

(** C3: a SignedTx is valid exactly when Amount > 0, Fee >= 0, Fee + Amount
    fits a signed 64-bit integer, the declared Source is the V1 or the V2
    address of the included public key, and the RSA-PSS signature over the
    MD5 of the encoded unsigned Tx verifies; every rejection is an
    InvalidBlockError. *)
Theorem SignedTx_Valid_iff (s : SignedTx) :
  is_int64 (Fee s) -> is_int64 (Amount s) ->
  (SignedTx_Valid s = None <->
   Amount s > 0 /\ Fee s >= 0 /\ is_int64 (Fee s + Amount s) /\
   exists k,
     x509_ParsePKCS1PublicKey (PublicKey s) = Ok k /\
     (Source s = AddressFromKey V1 k \/ Source s = AddressFromKey V2 k) /\
     rsa_VerifyPSS k (md5_Sum (json_Marshal_Tx s)) (Signature s) = None)
  /\ (forall e, SignedTx_Valid s = Some e ->
                exists m c, e = InvalidBlockError m c).
Proof.
  intros Hf Ha. split.
  - exact (SignedTx_Valid_rules s Hf Ha).
  - apply SignedTx_Valid_error.
Qed.

Lemma Transactions_Valid_iff (l : list SignedTx) :
  Transactions_Valid l = None <-> Forall (fun t => SignedTx_Valid t = None) l.
Proof.
  induction l as [ | t l IH]; cbn [Transactions_Valid].
  - split; auto.
  - destruct (SignedTx_Valid t) eqn:E.
    + split; [discriminate | ]. intros H. inversion H; subst. congruence.
    + rewrite IH. split; intros H; [constructor; auto | now inversion H].
Qed.

Lemma Transactions_Valid_error (l : list SignedTx) (e : error) :
  Transactions_Valid l = Some e -> exists m c, e = InvalidBlockError m c.
Proof.
  induction l as [ | t l IH]; cbn [Transactions_Valid]; [discriminate | ].
  destruct (SignedTx_Valid t) eqn:E; [ | exact IH].
  intros H. inversion H; subst. eapply SignedTx_Valid_error; eauto.
Qed.

(** Whatever [Block.Valid] rejects, it rejects with an [InvalidBlockError]. *)
Lemma Block_Valid_error (b p : Block) (e : error) :
  Block_Valid b p = Some e -> exists m c, e = InvalidBlockError m c.
Proof.
  unfold Block_Valid.
  repeat match goal with
         | |- context [if ?c then _ else _] => destruct c
         end;
    try (intros H; inversion H; eauto; fail).
  apply Transactions_Valid_error.
Qed.

(** C4: a block is valid against its parent exactly when its PreviousHash
    is the parent's Hash, its Height is the parent's plus one, its Hash is
    PoW-valid, 0 <= RewardAmount <= 1000, it has at most 100 transactions
    and every transaction is valid on its own; every rejection is an
    InvalidBlockError.  The sum is the 64-bit one, which is the plain sum
    below the largest height; valid transactions are those that meet the
    SignedTx rules. *)
Theorem Block_Valid_iff (b p : Block) :
  (Block_Valid b p = None <->
   PreviousHash b = blk_Hash p /\
   Height b = add64 (Height p) 1 /\
   Hash_Valid (blk_Hash b) = true /\
   0 <= Amount (RewardOutput b) <= 1000 /\
   (length (Transactions b) <= 100)%nat /\
   Forall (fun t => SignedTx_Valid t = None) (Transactions b))
  /\ (forall e, Block_Valid b p = Some e ->
                exists m c, e = InvalidBlockError m c)
  /\ (is_int64 (Height p) -> Height p < MaxInt64 ->
      add64 (Height p) 1 = Height p + 1)
  /\ (Forall (fun t : SignedTx => is_int64 (Fee t) /\ is_int64 (Amount t))
             (Transactions b) ->
      (Forall (fun t => SignedTx_Valid t = None) (Transactions b) <->
       Forall SignedTx_rules (Transactions b))).
Proof.
  split; [ | split; [apply Block_Valid_error | split] ].
  - unfold Block_Valid, MaxBlockReward, MaxTransactionsPerBlock.
    destruct (bytes_eqb (PreviousHash b) (blk_Hash p)) eqn:E1; cbn [negb].
    2: { apply bytes_eqb_neq in E1. split; [discriminate | tauto]. }
    apply bytes_eqb_eq in E1.
    destruct (Z.eqb_spec (Height b) (add64 (Height p) 1)); cbn [negb].
    2: { split; [discriminate | tauto]. }
    destruct (Hash_Valid (blk_Hash b)); cbn [negb].
    2: { split; [discriminate | ]. intros (_ & _ & H & _). discriminate. }
    destruct (Z.ltb_spec (Amount (RewardOutput b)) 0); cbn [orb].
    { split; [discriminate | lia]. }
    destruct (Z.gtb_spec (Amount (RewardOutput b)) 1000).
    { split; [discriminate | lia]. }
    destruct (Z.gtb_spec (Z.of_nat (length (Transactions b))) 100).
    { split; [discriminate | lia]. }
    rewrite Transactions_Valid_iff. split.
    + intros HT. repeat split; auto; lia.
    + tauto.
  - intros Hr Hlt. unfold add64. apply wrap64_id.
    unfold is_int64, MinInt64, MaxInt64 in *. lia.
  - intros Hwf. rewrite !Forall_forall in *. split; intros H t Ht.
    + apply SignedTx_Valid_rules; try apply Hwf; auto.
    + apply SignedTx_Valid_rules; try apply Hwf; auto.
Qed.

End ValidationFacts.

Lemma SignedTx_Valid_iff_witness :
  (SignedTx_Valid sample_stx = None <->
   Amount sample_stx > 0 /\ Fee sample_stx >= 0 /\
   is_int64 (Fee sample_stx + Amount sample_stx) /\
   exists k,
     x509_ParsePKCS1PublicKey (PublicKey sample_stx) = Ok k /\
     (Source sample_stx = AddressFromKey V1 k
      \/ Source sample_stx = AddressFromKey V2 k) /\
     rsa_VerifyPSS k (md5_Sum (json_Marshal_Tx sample_stx))
                   (Signature sample_stx) = None)
  /\ (forall e, SignedTx_Valid sample_stx = Some e ->
                exists m c, e = InvalidBlockError m c).
Proof.
  apply (SignedTx_Valid_iff sample_stx);
    unfold is_int64, MinInt64, MaxInt64; simpl; lia.
Defined.

(** ** database/tx.go: the retrying transaction *)

Section RetryFacts.
Import database.
Context {St A : Type}.
Variables (d : DB) (f : closure St A).

Lemma sleeps_app (l l' : list Event) : sleeps (l ++ l') = sleeps l ++ sleeps l'.
Proof. unfold sleeps. apply flat_map_app. Qed.

(** A transaction never sleeps. *)
Lemma Transact_sleeps (w : World St) :
  sleeps (events (snd (Transact d f w))) = sleeps (events w).
Proof.
  unfold Transact.
  destruct (drv_Begin (db d) (begun w)); cbn [snd events].
  { rewrite sleeps_app. cbn. apply app_nil_r. }
  cbn [committed].
  destruct (f (begun w) (committed w)) as [[a | e] st].
  - destruct (drv_Commit (db d) (begun w)); cbn [snd events emit];
      rewrite ?sleeps_app; cbn; rewrite ?app_nil_r; reflexivity.
  - destruct (drv_Rollback (db d) (begun w)); cbn [snd events emit];
      rewrite ?sleeps_app; cbn; rewrite ?app_nil_r; reflexivity.
Qed.

(** Before attempt [k], the call has slept [backoff 0], ..., [backoff (k-1)]. *)
Lemma world_before_sleeps (w : World St) (k : nat) :
  sleeps (events (world_before d f k w))
  = sleeps (events w) ++ map (fun j => backoff d (Z.of_nat j)) (seq 0 k).
Proof.
  induction k as [ | k IH]; cbn [world_before].
  - cbn. symmetry. apply app_nil_r.
  - unfold time_Sleep, emit. cbn [events].
    rewrite sleeps_app, Transact_sleeps, IH, seq_S, map_app, <- app_assoc.
    reflexivity.
Qed.

(** When the closure fails, its error is what the transaction returns, and
    the transaction is rolled back: the committed contents stay. *)
Lemma Transact_closure_error (w : World St) (e : error) (st : St) :
  drv_Begin (db d) (begun w) = None ->
  f (begun w) (committed w) = (Err e, st) ->
  fst (Transact d f w) = Err e
  /\ committed (snd (Transact d f w)) = committed w
  /\ In EvRollback (events (snd (Transact d f w))).
Proof.
  intros Hb Hf. unfold Transact. rewrite Hb. cbn [committed]. rewrite Hf.
  destruct (drv_Rollback (db d) (begun w)); cbn; repeat split;
    rewrite ?in_app_iff; cbn; tauto.
Qed.

(** The loop returns the outcome of the first attempt that does not fail
    with a deadlock. *)
Lemma retry_first_settled (w0 : World St) (j : nat) :
  (forall e, fst (attempt d f j w0) = Err e -> isDeadlock d e = false) ->
  forall n k err,
    (k <= j < k + n)%nat ->
    Z.of_nat (k + n) = tries d ->
    (forall i, (k <= i < j)%nat -> deadlocked d f i w0) ->
    retry d f n (Z.of_nat k) err (world_before d f k w0) = attempt d f j w0.
Proof.
  intros Hj n. induction n as [ | n IH]; intros k err Hk Ht Hd; [lia | ].
  cbn [retry]. fold (attempt d f k w0).
  destruct (Nat.eq_dec k j) as [-> | Hne].
  - destruct (attempt d f j w0) as [[a | e] w]; [reflexivity | ].
    rewrite (Hj e eq_refl). reflexivity.
  - destruct (Hd k ltac:(lia)) as (e & He & Hdl).
    destruct (attempt d f k w0) as [r w] eqn:E. cbn [fst] in He. subst r.
    rewrite Hdl. cbn [negb].
    destruct (Z.eqb_spec (Z.of_nat k) (tries d - 1)); [lia | ]. cbn [negb].
    replace (Z.of_nat k + 1) with (Z.of_nat (S k)) by lia.
    replace (time_Sleep (backoff d (Z.of_nat k)) w)
      with (world_before d f (S k) w0).
    2: { cbn [world_before]. fold (attempt d f k w0). rewrite E. reflexivity. }
    apply IH; [lia | lia | ]. intros i Hi. apply Hd. lia.
Qed.

(** When every attempt fails with a deadlock, the loop wraps the last
    error with the number of tries, and does not sleep after it. *)
Lemma retry_exhausted (w0 : World St) :
  forall n k err,
    Z.of_nat (k + S n) = tries d ->
    (forall i, (k <= i < k + S n)%nat -> deadlocked d f i w0) ->
    exists e,
      fst (attempt d f (k + n) w0) = Err e /\ isDeadlock d e = true /\
      retry d f (S n) (Z.of_nat k) err (world_before d f k w0)
      = (Err (TxError (Some e) (tries d)), snd (attempt d f (k + n) w0)).
Proof.
  induction n as [ | n IH]; intros k err Ht Hd.
  - destruct (Hd k ltac:(lia)) as (e & He & Hdl).
    exists e. rewrite Nat.add_0_r. split; [exact He | split; [exact Hdl | ] ].
    cbn [retry]. fold (attempt d f k w0).
    destruct (attempt d f k w0) as [r w]. cbn [fst] in He. subst r.
    rewrite Hdl. cbn [negb snd].
    destruct (Z.eqb_spec (Z.of_nat k) (tries d - 1)); [reflexivity | lia].
  - destruct (Hd k ltac:(lia)) as (e & He & Hdl).
    destruct (IH (S k) (Some e)) as (e' & He' & Hdl' & Hr).
    { lia. } { intros i Hi. apply Hd. lia. }
    exists e'. replace (k + S n)%nat with (S k + n)%nat by lia.
    split; [exact He' | split; [exact Hdl' | ] ].
    rewrite <- Hr. cbn [retry]. fold (attempt d f k w0).
    destruct (attempt d f k w0) as [r w] eqn:E. cbn [fst] in He. subst r.
    rewrite Hdl. cbn [negb].
    destruct (Z.eqb_spec (Z.of_nat k) (tries d - 1)); [lia | ]. cbn [negb].
    replace (Z.of_nat k + 1) with (Z.of_nat (S k)) by lia.
    replace (time_Sleep (backoff d (Z.of_nat k)) w)
      with (world_before d f (S k) w0).
    2: { cbn [world_before]. fold (attempt d f k w0). rewrite E. reflexivity. }
    reflexivity.
Qed.

(** C7: with at least one try allowed, [TransactWithRetry] returns the
    outcome of the first attempt that does not fail with a
    deadlock-classified error, so an error that is not a deadlock comes back
    as it is; a closure that fails is rolled back and its error is the
    attempt's; before attempt [k] the call has slept [backoff 0] to
    [backoff (k-1)], once between consecutive attempts; when all [tries]
    attempts fail with deadlocks, the result wraps the last error and the
    number of tries; and [Open] sets 3 tries. *)
Theorem TransactWithRetry_retries (w : World St) :
  1 <= tries d ->
  (forall k e,
      (Z.of_nat k < tries d) ->
      (forall j, (j < k)%nat -> deadlocked d f j w) ->
      fst (attempt d f k w) = Err e -> isDeadlock d e = false ->
      TransactWithRetry d f w = (Err e, snd (attempt d f k w)))
  /\ (forall k a,
      (Z.of_nat k < tries d) ->
      (forall j, (j < k)%nat -> deadlocked d f j w) ->
      fst (attempt d f k w) = Ok a ->
      TransactWithRetry d f w = (Ok a, snd (attempt d f k w)))
  /\ ((forall j, Z.of_nat j < tries d -> deadlocked d f j w) ->
      exists e,
        fst (attempt d f (Z.to_nat (tries d) - 1) w) = Err e /\
        isDeadlock d e = true /\
        TransactWithRetry d f w
        = (Err (TxError (Some e) (tries d)),
           snd (attempt d f (Z.to_nat (tries d) - 1) w)))
  /\ (forall (w' : World St) e st,
      drv_Begin (db d) (begun w') = None ->
      f (begun w') (committed w') = (Err e, st) ->
      fst (Transact d f w') = Err e
      /\ committed (snd (Transact d f w')) = committed w'
      /\ In EvRollback (events (snd (Transact d f w'))))
  /\ (forall k,
      sleeps (events (snd (attempt d f k w)))
      = sleeps (events w) ++ map (fun j => backoff d (Z.of_nat j)) (seq 0 k))
  /\ (forall drv rand_Intn isD, tries (Open drv rand_Intn isD []) = 3).
Proof.
  intros Ht.
  assert (Hz : (tries d =? 0) = false) by (apply Z.eqb_neq; lia).
  assert (Hsettled : forall k,
             Z.of_nat k < tries d ->
             (forall j, (j < k)%nat -> deadlocked d f j w) ->
             (forall e, fst (attempt d f k w) = Err e ->
                        isDeadlock d e = false) ->
             TransactWithRetry d f w = attempt d f k w).
  { intros k Hk Hd Hs. unfold TransactWithRetry. rewrite Hz.
    apply (retry_first_settled w k Hs (Z.to_nat (tries d)) 0%nat None).
    - lia.
    - lia.
    - intros i Hi. apply Hd. lia. }
  repeat apply conj.
  - intros k e Hk Hd He Hnd. rewrite (Hsettled k Hk Hd).
    + destruct (attempt d f k w); cbn in *; congruence.
    + intros e' He'. congruence.
  - intros k a Hk Hd Ha. rewrite (Hsettled k Hk Hd).
    + destruct (attempt d f k w); cbn in *; congruence.
    + intros e' He'. congruence.
  - intros Hd. unfold TransactWithRetry. rewrite Hz.
    destruct (retry_exhausted w (Z.to_nat (tries d) - 1) 0 None)
      as (e & He & Hdl & Hr).
    + lia.
    + intros i Hi. apply Hd. lia.
    + exists e. cbn [Nat.add] in *.
      replace (S (Z.to_nat (tries d) - 1)) with (Z.to_nat (tries d)) in Hr
        by lia.
      auto.
  - intros w' e st. apply Transact_closure_error.
  - intros k. unfold attempt. rewrite Transact_sleeps.
    apply world_before_sleeps.
  - reflexivity.
Qed.

End RetryFacts.

Lemma TransactWithRetry_retries_witness :
  1 <= database.tries sample_db
  /\ database.TransactWithRetry sample_db (sample_contended 2) sample_world
     = (Ok true,
        snd (database.attempt sample_db (sample_contended 2) 2 sample_world)).
Proof.
  assert (Ht : 1 <= database.tries sample_db) by (vm_compute; discriminate).
  split; [exact Ht | ].
  apply (proj1 (proj2 (TransactWithRetry_retries
                         sample_db (sample_contended 2) sample_world Ht))).
  - vm_compute. reflexivity.
  - intros j Hj. exists sample_busy.
    destruct j as [ | [ | j] ]; [split; reflexivity | split; reflexivity | lia].
  - reflexivity.
Defined.

(** Three tries against a database that stays busy: three transactions
    rolled back, a sleep after the first and after the second, and the
    busy error wrapped with the count. *)
Example TransactWithRetry_busy_run :
  database.TransactWithRetry sample_db (sample_contended 5) sample_world
  = (Err (TxError (Some sample_busy) 3),
     {| database.committed := sample_store;
        database.begun := 3;
        database.events :=
          [database.EvBegin; database.EvRollback;
           database.EvSleep 10000000;
           database.EvBegin; database.EvRollback;
           database.EvSleep 20000000;
           database.EvBegin; database.EvRollback] |}).
Proof. reflexivity. Qed.

(** An error that is not a deadlock ends the call at once. *)
Example TransactWithRetry_unknown_parent_run :
  fst (DB_AddBlock sample_db sample_block_orphan sample_world)
  = Err ErrUnknownParent.
Proof. reflexivity. Qed.

(** ** database/tx.go: what a transaction commits *)

Section Atomicity.
Import database.
Context {St A : Type}.
Variables (d : DB) (f : closure St A).

(** One transaction begins once, and commits what the closure left exactly
    when it returns the closure's value; on every error the committed
    contents stay. *)
Lemma Transact_atomic (w : World St) :
  begun (snd (Transact d f w)) = S (begun w)
  /\ match fst (Transact d f w) with
     | Ok a =>
       f (begun w) (committed w) = (Ok a, committed (snd (Transact d f w)))
     | Err _ => committed (snd (Transact d f w)) = committed w
     end.
Proof.
  unfold Transact. destruct (drv_Begin (db d) (begun w)); [split; reflexivity|].
  cbn [committed].
  destruct (f (begun w) (committed w)) as [[a | e] st].
  - destruct (drv_Commit (db d) (begun w)); split; reflexivity.
  - destruct (drv_Rollback (db d) (begun w)); split; reflexivity.
Qed.

Lemma retry_atomic (n : nat) :
  forall i err (w : World St),
    (begun (snd (retry d f n i err w)) <= begun w + n)%nat
    /\ match fst (retry d f n i err w) with
       | Ok a =>
         exists k, (begun w <= k < begun w + n)%nat
                   /\ f k (committed w)
                      = (Ok a, committed (snd (retry d f n i err w)))
       | Err _ => committed (snd (retry d f n i err w)) = committed w
       end.
Proof.
  induction n as [ | n IH]; intros i err w; cbn [retry].
  - split; [cbn; lia | reflexivity].
  - destruct (Transact_atomic w) as [Hb Hc].
    destruct (Transact d f w) as [[a | e] w1]; cbn [fst snd] in *.
    + split; [lia | ]. exists (begun w). split; [lia | exact Hc].
    + destruct (isDeadlock d e); cbn [negb fst snd]; [ | split; [lia | auto] ].
      set (w2 := if negb (i =? tries d - 1)
                 then time_Sleep (backoff d i) w1 else w1).
      assert (Hb2 : begun w2 = S (begun w))
        by (unfold w2; destruct (negb _); cbn; exact Hb).
      assert (Hc2 : committed w2 = committed w)
        by (unfold w2; destruct (negb _); cbn; exact Hc).
      destruct (IH (i + 1) (Some e) w2) as [Hn Hr]. rewrite Hb2, Hc2 in *.
      split; [lia | ].
      destruct (fst (retry d f n (i + 1) (Some e) w2)); [ | exact Hr].
      destruct Hr as (k & Hk & Hf). exists k. split; [lia | exact Hf].
Qed.

End Atomicity.

(** ** db.go: closures of the store under [TransactWithRetry] *)

Section StoreTransactions.
Import database.
Context {A : Type}.
Variables (d : DB) (m : M A) (w : database.World Store).

Hypothesis tries_positive : 1 <= tries d.
Hypothesis begin_ok : drv_Begin (db d) (begun w) = None.

(** A closure that succeeds is committed by the first attempt. *)
Lemma TransactWithRetry_run_ok (a : A) (s' : Store) :
  drv_Commit (db d) (begun w) = None ->
  m (committed w) = (Ok a, s') ->
  TransactWithRetry d (run m) w
  = (Ok a, {| committed := s'; begun := S (begun w);
              events := events w ++ [EvBegin; EvCommit] |}).
Proof.
  intros Hc Hm. unfold TransactWithRetry.
  destruct (Z.eqb_spec (tries d) 0); [lia | ].
  destruct (Z.to_nat (tries d)) as [ | n'] eqn:En; [lia | ].
  cbn [retry]. unfold Transact, run. rewrite begin_ok. cbn [committed].
  rewrite Hm, Hc. cbn [begun events]. rewrite <- app_assoc. reflexivity.
Qed.

(** A closure that fails with an error that is not a deadlock is rolled
    back, and the error is returned as it is. *)
Lemma TransactWithRetry_run_err (e : error) (s' : Store) :
  isDeadlock d e = false ->
  m (committed w) = (Err e, s') ->
  fst (TransactWithRetry d (run m) w) = Err e
  /\ committed (snd (TransactWithRetry d (run m) w)) = committed w.
Proof.
  intros Hd Hm. unfold TransactWithRetry.
  destruct (Z.eqb_spec (tries d) 0); [lia | ].
  destruct (Z.to_nat (tries d)) as [ | n'] eqn:En; [lia | ].
  cbn [retry]. unfold Transact, run. rewrite begin_ok. cbn [committed].
  rewrite Hm. rewrite Hd. cbn [negb].
  destruct (drv_Rollback (db d) (begun w)); split; reflexivity.
Qed.

End StoreTransactions.

(** ** db.go: AddBlock on a block that is already stored *)

Section AddBlockFacts.
Context {P : Primitives}.

Lemma Hash_Value_Some (h k : Hash) : Hash_Value h = Some k -> k = h.
Proof. unfold Hash_Value. destruct (bytes_eqb h EmptyHash); congruence. Qed.

Lemma Hash_Value_not_empty (h : Hash) :
  h <> EmptyHash -> Hash_Value h = Some h.
Proof.
  intros H. unfold Hash_Value. apply bytes_eqb_neq in H. now rewrite H.
Qed.

Lemma find_existsb {R : Type} (p : R -> bool) (l : list R) :
  existsb p l = match find p l with Some _ => true | None => false end.
Proof.
  induction l as [ | r l IH]; cbn; [reflexivity | ].
  destruct (p r); auto.
Qed.

(** A block whose row is stored meets the primary key of [blocks]. *)
Lemma insert_block_stored (block : Block) (s : Store) :
  select_block (blk_Hash block) s <> None ->
  insert_block block s
  = (Err (constraint_error sqlite3_ErrConstraintPrimaryKey), s).
Proof.
  unfold select_block, insert_block.
  destruct (Hash_Value (blk_Hash block)) as [h | ]; [ | congruence].
  rewrite find_existsb. destruct (find (has_hash h) (blocks s)); congruence.
Qed.

Lemma addBlock_stored (block : Block) (s : Store) :
  select_block (blk_Hash block) s <> None ->
  select_block (PreviousHash block) s <> None ->
  addBlock block s = (Ok tt, s).
Proof.
  intros Hrow Hparent. unfold addBlock.
  destruct (select_block (PreviousHash block) s); [ | congruence].
  rewrite (insert_block_stored block s Hrow). reflexivity.
Qed.

(** C6: adding a block whose row and whose parent are stored succeeds and
    leaves every table as it was, in the closure and, when the driver
    begins and commits the transaction, in the committed store. *)
Theorem AddBlock_idempotent (d : database.DB) (block : Block) (w : World) :
  select_block (blk_Hash block) (database.committed w) <> None ->
  select_block (PreviousHash block) (database.committed w) <> None ->
  1 <= database.tries d ->
  database.drv_Begin (database.db d) (database.begun w) = None ->
  database.drv_Commit (database.db d) (database.begun w) = None ->
  addBlock block (database.committed w) = (Ok tt, database.committed w)
  /\ fst (DB_AddBlock d block w) = Ok tt
  /\ database.committed (snd (DB_AddBlock d block w)) = database.committed w.
Proof.
  intros Hrow Hparent Ht Hb Hc.
  pose proof (addBlock_stored block _ Hrow Hparent) as E.
  split; [exact E | ]. unfold DB_AddBlock.
  rewrite (TransactWithRetry_run_ok d (addBlock block) w Ht Hb tt
                                    (database.committed w) Hc E).
  split; reflexivity.
Qed.

End AddBlockFacts.

(** Adding [sample_block_once] to the sample store: 6 coins leave the
    source, 5 reach the destination, and the reward of 10 plus the fee of 1
    goes back to the miner, who here is the source. *)
Example addBlock_sample_once :
  fst (addBlock sample_block_once sample_store) = Ok tt
  /\ balance_at sample_store_1 (blk_Hash sample_block_once) sample_address
     = 105
  /\ balance_at sample_store_1 (blk_Hash sample_block_once) [x02; x03] = 5
  /\ select_included (blk_Hash sample_block_once) (stx_Hash sample_stx)
                     sample_store_1 = true
  /\ Store_consistent sample_store_1.
Proof. repeat split; reflexivity. Qed.

Lemma AddBlock_idempotent_witness :
  addBlock sample_block_once (database.committed sample_world_1)
  = (Ok tt, database.committed sample_world_1)
  /\ fst (DB_AddBlock sample_db sample_block_once sample_world_1) = Ok tt
  /\ database.committed
       (snd (DB_AddBlock sample_db sample_block_once sample_world_1))
     = database.committed sample_world_1.
Proof.
  apply (AddBlock_idempotent sample_db sample_block_once sample_world_1).
  - vm_compute. discriminate.
  - vm_compute. discriminate.
  - vm_compute. discriminate.
  - reflexivity.
  - reflexivity.
Defined.

(** ** db.go: AddBlocks *)

Section AddBlocksFacts.
Context {P : Primitives}.

Lemma find_divergedAt_none (chain : list Block) (s : Store) (i : Z) :
  (forall b, In b chain -> select_block (blk_Hash b) s = None) ->
  find_divergedAt i chain s = -1.
Proof.
  revert i. induction chain as [ | b chain IH]; intros i H; cbn; auto.
  rewrite (H b) by now left. apply IH. intros b' Hb'. apply H. now right.
Qed.

Lemma find_divergedAt_first (chain : list Block) (s : Store) :
  forall (d : nat) (b : Block) (i : Z),
    nth_error chain d = Some b ->
    select_block (blk_Hash b) s <> None ->
    (forall j b', (j < d)%nat -> nth_error chain j = Some b' ->
                  select_block (blk_Hash b') s = None) ->
    find_divergedAt i chain s = i + Z.of_nat d.
Proof.
  induction chain as [ | c chain IH]; intros d b i Hd Hb Hbefore.
  - destruct d; discriminate.
  - destruct d as [ | d]; cbn [find_divergedAt].
    + cbn in Hd. inversion Hd; subst c.
      destruct (select_block (blk_Hash b) s); [lia | congruence].
    + rewrite (Hbefore 0%nat c) by (cbn; auto; lia).
      rewrite (IH d b (i + 1)); auto; [lia | ].
      intros j b' Hj Hn. apply (Hbefore (S j) b'); [lia | exact Hn].
Qed.

Lemma firstn_S_nth_error {T : Type} (l : list T) (i : nat) (x : T) :
  nth_error l i = Some x -> firstn (S i) l = firstn i l ++ [x].
Proof.
  revert i. induction l as [ | y l IH]; intros [ | i] H; try discriminate.
  - cbn in H. inversion H. reflexivity.
  - cbn in H. change (y :: firstn (S i) l = y :: (firstn i l ++ [x])).
    f_equal. exact (IH i H).
Qed.

(** The descending loop applies [addBlock] to the first [n] blocks, last
    one first. *)
Lemma addBlocks_down_each (chain : list Block) (n : nat) (s : Store) :
  (n <= length chain)%nat ->
  addBlocks_down n chain s = addBlock_each (rev (firstn n chain)) s.
Proof.
  revert s. induction n as [ | n IH]; intros s Hn; [reflexivity | ].
  cbn [addBlocks_down].
  destruct (nth_error chain n) as [b | ] eqn:E.
  2: { apply nth_error_None in E. lia. }
  rewrite (firstn_S_nth_error chain n b E), rev_unit. cbn [addBlock_each].
  unfold bind. destruct (addBlock b s) as [[[] | e] s']; [ | reflexivity].
  apply IH. lia.
Qed.

(** C5: when no block of the chain is stored, or the tip of the chain is,
    AddBlocks leaves the store as it is; when the first stored block is at
    index d > 0, AddBlocks is AddBlock applied to the blocks d-1, d-2, ...,
    0 in this order (ending at the first error); and what the closure does
    is what the committed store gets. *)
Theorem AddBlocks_fork_point (chain : list Block) (s : Store) :
  ((forall b, In b chain -> select_block (blk_Hash b) s = None) ->
   AddBlocks_tx chain s = (Ok tt, s))
  /\ (forall b rest,
         chain = b :: rest -> select_block (blk_Hash b) s <> None ->
         AddBlocks_tx chain s = (Ok tt, s))
  /\ (forall d b,
         (0 < d)%nat -> nth_error chain d = Some b ->
         select_block (blk_Hash b) s <> None ->
         (forall j b', (j < d)%nat -> nth_error chain j = Some b' ->
                       select_block (blk_Hash b') s = None) ->
         AddBlocks_tx chain s = addBlock_each (rev (firstn d chain)) s
         /\ rev (firstn d chain)
            = map (fun i => nth i chain b) (rev (seq 0 d)))
  /\ (forall (db : database.DB) (w : World) s',
         database.committed w = s ->
         1 <= database.tries db ->
         database.drv_Begin (database.db db) (database.begun w) = None ->
         database.drv_Commit (database.db db) (database.begun w) = None ->
         AddBlocks_tx chain s = (Ok tt, s') ->
         fst (DB_AddBlocks db chain w) = Ok tt
         /\ database.committed (snd (DB_AddBlocks db chain w)) = s').
Proof.
  repeat apply conj.
  - intros H. unfold AddBlocks_tx. now rewrite find_divergedAt_none.
  - intros b rest -> Hb. unfold AddBlocks_tx. cbn [find_divergedAt].
    destruct (select_block (blk_Hash b) s); [reflexivity | congruence].
  - intros d b Hpos Hnth Hb Hbefore.
    assert (Hd : (d <= length chain)%nat).
    { apply Nat.lt_le_incl, nth_error_Some. congruence. }
    split.
    + unfold AddBlocks_tx.
      rewrite (find_divergedAt_first chain s d b 0 Hnth Hb Hbefore).
      destruct (Z.leb_spec (0 + Z.of_nat d) 0); [lia | ].
      replace (Z.to_nat (0 + Z.of_nat d)) with d by lia.
      now apply addBlocks_down_each.
    + clear - Hd. rewrite map_rev. f_equal.
      revert chain Hd.
      induction d as [ | d IH]; intros chain Hd; [reflexivity | ].
      destruct chain as [ | c chain]; [cbn in Hd; lia | ].
      cbn [firstn seq map nth]. f_equal. rewrite <- seq_shift, map_map.
      apply IH. cbn in Hd. lia.
  - intros db w s' <- Ht Hb Hc E. unfold DB_AddBlocks.
    rewrite (TransactWithRetry_run_ok db (AddBlocks_tx chain) w Ht Hb tt s'
                                      Hc E).
    split; reflexivity.
Qed.

End AddBlocksFacts.

Example AddBlocks_sample_chain :
  AddBlocks_tx [sample_block_once; sample_genesis] sample_store
  = (Ok tt, sample_store_1)
  /\ AddBlocks_tx [sample_genesis] sample_store = (Ok tt, sample_store)
  /\ AddBlocks_tx [sample_block_orphan] sample_store = (Ok tt, sample_store).
Proof. repeat split; reflexivity. Qed.

(** ** db.go, server.go: adding a peer *)

Lemma existsb_eqb_In (p : string) (l : list string) :
  existsb (String.eqb p) l = true <-> In p l.
Proof.
  rewrite existsb_exists. split.
  - intros (x & Hx & E). apply String.eqb_eq in E. now subst.
  - intros H. exists p. split; [exact H | apply String.eqb_refl].
Qed.

(** [AddPeer] on a string that is in the table creates nothing. *)
Lemma AddPeer_tx_present (p : string) (s : Store) :
  In p (peers s) -> AddPeer_tx p s = (Ok false, s).
Proof.
  intros H. unfold AddPeer_tx. apply existsb_eqb_In in H. now rewrite H.
Qed.

(** After [AddPeer], the string is in the table. *)
Lemma AddPeer_tx_adds (p : string) (s : Store) :
  In p (peers (snd (AddPeer_tx p s))).
Proof.
  unfold AddPeer_tx. destruct (existsb (String.eqb p) (peers s)) eqn:E.
  - now apply existsb_eqb_In.
  - cbn. apply in_or_app. right. now left.
Qed.

(** C9, as the code has it: AddPeer is idempotent on the exact string, and
    validateAndAddPeer folds the case before it reaches the store.  Once the
    lower-case form of p is in the peer set (which is what adding p through
    validateAndAddPeer leaves there), for q any capitalization of p:
    AddPeer of the lower-case form of q creates no entry and reports so, in
    the closure and in the committed store, and validateAndAddPeer of q
    starts no goroutine and leaves the store as it is. *)
Theorem AddPeer_idempotent_lower_case (srv : Server) (p q : string)
    (w : World) :
  same_peer p q ->
  In (ToLower p) (peers (database.committed w)) ->
  1 <= database.tries (srv_db srv) ->
  database.drv_Begin (database.db (srv_db srv)) (database.begun w) = None ->
  database.drv_Commit (database.db (srv_db srv)) (database.begun w) = None ->
  (forall s, In (ToLower p) (peers (snd (AddPeer_tx (ToLower p) s))))
  /\ AddPeer_tx (ToLower q) (database.committed w)
     = (Ok false, database.committed w)
  /\ (fst (DB_AddPeer (srv_db srv) (ToLower q) w) = Ok false
      /\ database.committed (snd (DB_AddPeer (srv_db srv) (ToLower q) w))
         = database.committed w)
  /\ (exists w',
         validateAndAddPeer srv q w = (None, None, w')
         /\ database.committed w' = database.committed w).
Proof.
  intros Hpq Hin Ht Hb Hc. unfold same_peer in Hpq. rewrite Hpq in Hin.
  split; [intros s; apply AddPeer_tx_adds | ].
  pose proof (AddPeer_tx_present _ _ Hin) as E.
  split; [exact E | split].
  - unfold DB_AddPeer.
    rewrite (TransactWithRetry_run_ok (srv_db srv) (AddPeer_tx (ToLower q)) w
                                      Ht Hb false _ Hc E).
    split; reflexivity.
  - unfold validateAndAddPeer.
    destruct (String.eqb (ToLower q) (extAddr srv)); [now exists w | ].
    unfold DB_PeerExists.
    assert (E' : PeerExists_tx (ToLower q) (database.committed w)
                 = (Ok tt, database.committed w)).
    { unfold PeerExists_tx. apply existsb_eqb_In in Hin. now rewrite Hin. }
    rewrite (TransactWithRetry_run_ok (srv_db srv) (PeerExists_tx (ToLower q))
                                      w Ht Hb tt _ Hc E').
    eexists. split; reflexivity.
Qed.

Lemma AddPeer_idempotent_lower_case_witness :
  (forall s,
      In (ToLower "node1:8080")
         (peers (snd (AddPeer_tx (ToLower "node1:8080") s))))
  /\ AddPeer_tx (ToLower "Node1:8080") (database.committed sample_world)
     = (Ok false, database.committed sample_world)
  /\ (fst (DB_AddPeer sample_db (ToLower "Node1:8080") sample_world)
      = Ok false
      /\ database.committed
           (snd (DB_AddPeer sample_db (ToLower "Node1:8080") sample_world))
         = database.committed sample_world)
  /\ (exists w',
         validateAndAddPeer (NewServer "Self:8080" sample_db) "Node1:8080"
                            sample_world = (None, None, w')
         /\ database.committed w' = database.committed sample_world).
Proof.
  apply (AddPeer_idempotent_lower_case
           (NewServer "Self:8080" sample_db) "node1:8080" "Node1:8080"
           sample_world).
  - reflexivity.
  - simpl. left. reflexivity.
  - vm_compute. discriminate.
  - reflexivity.
  - reflexivity.
Defined.

(** C9, as the claim words it, fails for AddPeer: after "node2:8080" was
    added, adding it in capitals creates a second entry and reports a new
    peer. *)
Lemma AddPeer_case_sensitive :
  same_peer "node2:8080" "NODE2:8080"
  /\ exists w1 w2,
       DB_AddPeer sample_db "node2:8080" sample_world = (Ok true, w1)
       /\ DB_AddPeer sample_db "NODE2:8080" w1 = (Ok true, w2)
       /\ peers (database.committed w2)
          = ["node1:8080"; "node2:8080"; "NODE2:8080"].
Proof.
  split; [reflexivity | ].
  eexists. eexists. split; [reflexivity | split; reflexivity].
Qed.

(** The goroutine of validateAndAddPeer on the sample store: a new peer is
    announced to the others and synchronised with; a second run for the
    same peer does nothing. *)
Example addPeer_goroutine_run :
  let srv := NewServer "Self:8080" sample_db in
  validateAndAddPeer srv "NODE2:8080" sample_world
  = (None, Some "node2:8080",
     snd (DB_PeerExists sample_db "node2:8080" sample_world))
  /\ fst (addPeer_goroutine srv "node2:8080" None sample_world)
     = [Notify "node1:8080" "node2:8080"; FullPeerSync "node2:8080"]
  /\ fst (addPeer_goroutine srv "node2:8080" None
            (snd (addPeer_goroutine srv "node2:8080" None sample_world)))
     = [].
Proof. repeat split; reflexivity. Qed.

(** ** Tables: inserting under a primary key *)

Section Tables.
Context {R : Type}.
Variable same_key : R -> R -> bool.
Hypothesis same_key_sym : forall r r', same_key r r' = same_key r' r.

Lemma insert_rows_Some (rows tbl t : list R) :
  insert_rows same_key rows tbl = Some t -> t = tbl ++ rows.
Proof.
  revert tbl. induction rows as [ | r rows IH]; intros tbl; cbn.
  - intros H. inversion H. now rewrite app_nil_r.
  - destruct (existsb (same_key r) tbl); [discriminate | ].
    intros H. rewrite (IH _ H), <- app_assoc. reflexivity.
Qed.

(** Rows with distinct keys that meet no key of the table all go in. *)
Lemma insert_rows_ok (rows : list R) :
  unique_b same_key rows = true ->
  forall tbl,
    (forall r r', In r rows -> In r' tbl -> same_key r r' = false) ->
    insert_rows same_key rows tbl = Some (tbl ++ rows).
Proof.
  induction rows as [ | r rows IH]; intros Hu tbl Hd; cbn.
  - now rewrite app_nil_r.
  - cbn in Hu. apply andb_true_iff in Hu. destruct Hu as [Hr Hu].
    apply negb_true_iff in Hr.
    assert (E : existsb (same_key r) tbl = false).
    { apply not_true_is_false. intros H. apply existsb_exists in H.
      destruct H as (r' & Hin & Hk). rewrite (Hd r r') in Hk; auto.
      - discriminate.
      - now left. }
    rewrite E, IH; auto.
    + now rewrite <- app_assoc.
    + intros r1 r' H1 H'. apply in_app_or in H'. destruct H' as [H' | H'].
      * apply Hd; auto. now right.
      * destruct H' as [<- | []]. rewrite same_key_sym.
        apply not_true_is_false. intros Hk.
        assert (existsb (same_key r) rows = true)
          by (apply existsb_exists; eauto).
        congruence.
Qed.

End Tables.

(** Selecting rows and renaming them keeps keys distinct when the new keys
    agree with the old ones on the selected rows. *)
Lemma unique_b_map_filter {R R' : Type} (k : R -> R -> bool)
    (k' : R' -> R' -> bool) (g : R -> R') (q : R -> bool) (l : list R) :
  (forall r r', q r = true -> q r' = true -> k' (g r) (g r') = k r r') ->
  unique_b k l = true -> unique_b k' (map g (filter q l)) = true.
Proof.
  intros Hk. induction l as [ | r l IH]; cbn; [reflexivity | ].
  intros Hu. apply andb_true_iff in Hu. destruct Hu as [Hr Hu].
  destruct (q r) eqn:Eq; cbn; [ | auto].
  rewrite IH by exact Hu. rewrite andb_true_r.
  apply negb_true_iff in Hr. apply negb_true_iff.
  apply not_true_is_false. intros H. apply existsb_exists in H.
  destruct H as (x & Hin & Hx). apply in_map_iff in Hin.
  destruct Hin as (r' & <- & Hin). apply filter_In in Hin.
  destruct Hin as [Hin Hq]. rewrite Hk in Hx by auto.
  assert (existsb (k r) l = true) by (apply existsb_exists; eauto).
  congruence.
Qed.

(** ** db.go: PendingTxs *)

Section PendingFacts.
Context {P : Primitives}.

Lemma temp_balance_debit (v : Z) (a : Address) (temp : list TempRow)
    (a' : Address) :
  temp_balance (debit_temp v a temp) a'
  = match select_temp a' temp with
    | Some b => if bytes_eqb a' a then b - v else b
    | None => 0
    end.
Proof.
  unfold temp_balance, select_temp, debit_temp.
  induction temp as [ | [x b] temp IH]; cbn [map find]; [reflexivity | ].
  unfold temp_key in *. cbn [fst snd] in *.
  destruct (bytes_eqb x a) eqn:Ea; cbn [fst snd];
    destruct (bytes_eqb x a') eqn:E1; cbn [option_map snd]; try exact IH;
    apply bytes_eqb_eq in E1; subst x; rewrite Ea; reflexivity.
Qed.

Lemma find_app_last {T : Type} (p : T -> bool) (l : list T) (x : T) :
  find p (l ++ [x])
  = match find p l with
    | Some y => Some y
    | None => if p x then Some x else None
    end.
Proof.
  induction l as [ | y l IH]; cbn; [reflexivity | ].
  destruct (p y); auto.
Qed.

Lemma temp_balance_credit (a : Address) (v : Z) (temp : list TempRow)
    (a' : Address) :
  temp_balance (credit_temp a v temp) a'
  = temp_balance temp a' + (if bytes_eqb a' a then v else 0).
Proof.
  unfold credit_temp. rewrite find_existsb.
  destruct (find (temp_key a) temp) as [r0 | ] eqn:Ex.
  - assert (Hmap :
      match option_map snd
              (find (temp_key a')
                 (map (fun r : TempRow =>
                         if temp_key a r then (fst r, snd r + v) else r) temp))
      with Some x => x | None => 0 end
      = match option_map snd (find (temp_key a') temp) with
        | Some b => if bytes_eqb a' a then b + v else b
        | None => 0
        end).
    { clear Ex. induction temp as [ | [x b] temp IH]; cbn [map find];
        [reflexivity | ].
      unfold temp_key in *. cbn [fst snd] in *.
      destruct (bytes_eqb x a) eqn:Ea; cbn [fst snd];
        destruct (bytes_eqb x a') eqn:E1; cbn [option_map snd];
        try exact IH;
        apply bytes_eqb_eq in E1; subst x; rewrite Ea; reflexivity. }
    unfold temp_balance, select_temp. rewrite Hmap.
    destruct (find (temp_key a') temp) as [r | ] eqn:Ef; cbn [option_map].
    + destruct (bytes_eqb a' a); lia.
    + destruct (bytes_eqb a' a) eqn:E; [ | lia].
      apply bytes_eqb_eq in E. subst a'. congruence.
  - unfold temp_balance, select_temp. rewrite find_app_last.
    destruct (find (temp_key a') temp) as [r | ] eqn:Ef; cbn.
    + destruct (bytes_eqb a' a) eqn:E; [ | lia].
      apply bytes_eqb_eq in E. subst a'. rewrite Ef in Ex. discriminate.
    + unfold temp_key. cbn. rewrite (bytes_eqb_sym a a').
      destruct (bytes_eqb a' a); reflexivity.
Qed.

(** What [Valid] guarantees about the amounts of an [int64] transaction. *)
Lemma SignedTx_Valid_amounts (stx : SignedTx) :
  int64_amounts stx -> SignedTx_Valid stx = None ->
  Amount stx > 0 /\ Fee stx >= 0
  /\ Tx_RequiredBalance stx = Amount stx + Fee stx.
Proof.
  intros [Hf Ha] Hv. apply (SignedTx_Valid_rules stx Hf Ha) in Hv.
  destruct Hv as (H1 & H2 & H3 & _). repeat split; auto.
  unfold Tx_RequiredBalance, add64. rewrite wrap64_id; [lia | exact H3].
Qed.

(** A transaction the scratch table accepts is applied to it as to a
    balance map, and leaves no balance below zero. *)
Lemma accepted_step (temp : list TempRow) (stx : SignedTx) :
  int64_amounts stx ->
  validTemporaryTx temp stx = None ->
  (forall a, 0 <= temp_balance temp a) ->
  let temp' :=
    credit_temp (Destination stx) (Amount stx)
      (debit_temp (Tx_RequiredBalance stx) (Source stx) temp) in
  (forall a, temp_balance temp' a = apply_tx (temp_balance temp) stx a)
  /\ (forall a, 0 <= temp_balance temp' a).
Proof.
  intros Hty Hv Hpos. unfold validTemporaryTx in Hv.
  destruct (SignedTx_Valid stx) eqn:Ev; [discriminate | ].
  destruct (SignedTx_Valid_amounts stx Hty Ev) as (Ha & Hf & Hreq).
  fold (temp_balance temp (Source stx)) in Hv.
  destruct (Z.ltb_spec (temp_balance temp (Source stx))
                       (Tx_RequiredBalance stx)) as [ | Hb];
    [discriminate | ].
  cbn zeta.
  assert (E : forall a,
             temp_balance
               (credit_temp (Destination stx) (Amount stx)
                  (debit_temp (Tx_RequiredBalance stx) (Source stx) temp)) a
             = apply_tx (temp_balance temp) stx a).
  { intros a. rewrite temp_balance_credit, temp_balance_debit.
    unfold apply_tx. rewrite Hreq.
    destruct (bytes_eqb a (Source stx)) eqn:Es.
    - apply bytes_eqb_eq in Es. subst a.
      unfold temp_balance in Hb |- *.
      destruct (select_temp (Source stx) temp); lia.
    - unfold temp_balance. destruct (select_temp a temp); lia. }
  split; [exact E | ].
  intros a. rewrite E. unfold apply_tx. specialize (Hpos a).
  destruct (bytes_eqb a (Source stx)) eqn:Es;
    destruct (bytes_eqb a (Destination stx)); try lia;
    apply bytes_eqb_eq in Es; subst a; lia.
Qed.

Lemma apply_txs_ext (l : list SignedTx) (f g : Address -> Z) :
  (forall a, f a = g a) -> forall a, apply_txs f l a = apply_txs g l a.
Proof.
  revert f g. induction l as [ | t l IH]; intros f g H a; cbn; [apply H | ].
  apply IH. intros a'. unfold apply_tx. now rewrite H.
Qed.



(** The loop is left by [break] only with [limit] transactions or more in
    [stxs]; when it runs to the end of the rows, it has appended nothing or
    [stxs] is shorter than [limit]. *)
Lemma PendingTxs_rows_open (limit : Z) (rows : list TxRow) :
  forall temp acc s res o s',
    PendingTxs_rows limit rows temp acc s = (Ok (res, o), s') ->
    if o then limit <= Z.of_nat (length res)
    else res = acc \/ Z.of_nat (length res) < limit.
Proof.
  induction rows as [ | row rows IH]; intros temp acc s res o s'.
  - cbn. intros H. inversion H; subst. now left.
  - cbn [PendingTxs_rows].
    set (stx := SignedTx_UpdateHash (txr_tx row)).
    destruct (validTemporaryTx temp stx) as [e | ].
    + destruct (is_InvalidBlockError e); [ | discriminate].
      unfold bind.
      destruct (delete_unreferenced_tx (stx_Hash stx) s) as [[[] | e'] s1];
        [ | discriminate].
      apply IH.
    + destruct (Z.geb_spec (Z.of_nat (length (acc ++ [stx]))) limit)
        as [Hge | Hlt].
      * intros H. inversion H; subst. lia.
      * intros H. specialize (IH _ _ _ _ _ _ H).
        destruct o; [exact IH | ].
        destruct IH as [-> | IH]; right; [exact Hlt | exact IH].
Qed.

End PendingFacts.

Section PendingTxsFacts.
Context {P : Primitives}.

Lemma same_temp_key_sym (r r' : TempRow) :
  same_temp_key r r' = same_temp_key r' r.
Proof. unfold same_temp_key, temp_key. apply bytes_eqb_sym. Qed.

Lemma Store_consistent_balances (s : Store) :
  Store_consistent s -> unique_b same_balance_key (balances s) = true.
Proof.
  unfold Store_consistent, Store_consistent_b. rewrite !andb_true_iff. tauto.
Qed.

(** The scratch table, once filled, is the balance map of the tip. *)
Lemma fill_temp_balances_map (tip : Hash) (s : Store) (temp : list TempRow) :
  fill_temp_balances tip s = Some temp ->
  forall a, temp_balance temp a = balance_at s tip a.
Proof.
  unfold fill_temp_balances. intros H a.
  apply insert_rows_Some in H. subst temp. cbn [app].
  unfold balance_at, select_balance.
  destruct (Hash_Value tip) as [k | ]; [ | reflexivity].
  unfold temp_balance, select_temp.
  induction (balances s) as [ | r l IH]; cbn [filter map find];
    [reflexivity | ].
  unfold balance_key at 1.
  destruct (bytes_eqb (bal_block_hash r) k); cbn [map find andb];
    [ | exact IH].
  unfold temp_key at 1. cbn [fst].
  destruct (bytes_eqb (bal_address r) a); [reflexivity | exact IH].
Qed.

(** With unique balance keys the scratch table can be filled. *)
Lemma fill_temp_balances_tip (tip : Hash) (s : Store) :
  unique_b same_balance_key (balances s) = true ->
  exists temp,
    fill_temp_balances tip s = Some temp
    /\ forall a, temp_balance temp a = balance_at s tip a.
Proof.
  intros Hu.
  assert (H : exists temp, fill_temp_balances tip s = Some temp).
  { unfold fill_temp_balances.
    destruct (Hash_Value tip) as [k | ]; [ | exists []; reflexivity].
    eexists. apply (insert_rows_ok same_temp_key same_temp_key_sym).
    - apply (unique_b_map_filter same_balance_key); [ | exact Hu].
      intros r r' Hr Hr'. apply bytes_eqb_eq in Hr, Hr'.
      unfold same_temp_key, temp_key, same_balance_key, balance_key.
      cbn [fst]. rewrite Hr, Hr', bytes_eqb_refl. reflexivity.
    - intros r r' _ []. }
  destruct H as [temp H]. exists temp. split; [exact H | ].
  now apply fill_temp_balances_map.
Qed.

Lemma select_pending_typed (tip : Hash) (s : Store) :
  rows_typed (txs s) -> rows_typed (select_pending tip s).
Proof.
  unfold rows_typed, select_pending. intros H.
  destruct (Hash_Value tip); [ | exact H].
  rewrite Forall_forall in *. intros r Hr. apply filter_In in Hr.
  apply H, Hr.
Qed.


(** The closure ends where the loop ends, and its list is the list of a
    loop that ran to the end of the rows. *)
Lemma PendingTxs_tx_inv (tip : Hash) (limit : Z) (s s' : Store)
    (r : result (list SignedTx)) :
  PendingTxs_tx tip limit s = (r, s') ->
  (fill_temp_balances tip s = None /\ s' = s /\ exists e, r = Err e)
  \/ exists temp rr,
       fill_temp_balances tip s = Some temp
       /\ PendingTxs_rows limit (select_pending tip s) temp [] s = (rr, s')
       /\ forall res, r = Ok res -> rr = Ok (res, false).
Proof.
  unfold PendingTxs_tx.
  destruct (fill_temp_balances tip s) as [temp | ].
  2: { intros H. inversion H; subst. left. eauto. }
  unfold bind.
  destruct (PendingTxs_rows limit (select_pending tip s) temp [] s)
    as [[[res o] | e] s1] eqn:E.
  - destruct o; cbn [snd fst drop_temp_balances fail ret];
      intros H; inversion H; subst; right; exists temp; eexists;
      (split; [reflexivity | split; [exact E | ] ]);
      intros res' Hr; [discriminate | now inversion Hr].
  - intros H. inversion H; subst. right. exists temp. eexists.
    split; [reflexivity | split; [exact E | discriminate] ].
Qed.

End PendingTxsFacts.

Section PendingTxsLimit.
Context {P : Primitives}.


End PendingTxsLimit.



(** At limit 0, and whenever the loop reaches the limit, the call returns
    no list: the closing DROP TABLE is refused on every attempt. *)
Example PendingTxs_sample_limit_zero :
  fst (DB_PendingTxs sample_db (blk_Hash sample_genesis) 0 sample_world)
  = Err (TxError (Some (sqlite3_Error sqlite3_ErrLocked sqlite3_ErrLocked)) 3)
  /\ fst (DB_PendingTxs sample_db (blk_Hash sample_genesis) 1 sample_world)
     = Err (TxError (Some (sqlite3_Error sqlite3_ErrLocked sqlite3_ErrLocked))
                    3).
Proof. split; vm_compute; reflexivity. Qed.

Example PendingTxs_sample_limit_ten :
  fst (PendingTxs_tx (blk_Hash sample_genesis) 10 sample_store)
  = Ok [sample_stx]
  /\ fst (PendingTxs_tx (blk_Hash sample_block_once) 10 sample_store_1)
     = Ok [].
Proof. split; reflexivity. Qed.

(** ** db.go: AddBlock on a block that repeats a transaction *)

Section RepeatedTx.
Context {P : Primitives}.

Lemma bind_Ok {A B : Type} (m : M A) (k : A -> M B) (s s' : Store) (a : A) :
  m s = (Ok a, s') -> bind m k s = k a s'.
Proof. intros H. unfold bind. now rewrite H. Qed.

Lemma bind_Err {A B : Type} (m : M A) (k : A -> M B) (s s' : Store)
    (e : error) :
  m s = (Err e, s') -> bind m k s = (Err e, s').
Proof. intros H. unfold bind. now rewrite H. Qed.

Lemma bind_rejected {A B : Type} (m : M A) (k : A -> M B) (s : Store) :
  rejected (m s) -> rejected (bind m k s).
Proof.
  intros (msg & c & s' & E). exists msg, c, s'. now apply bind_Err.
Qed.

(** [validTx] rejects with an InvalidBlockError or passes, and passes only
    a transaction whose hash is not in the inclusion set of the tip. *)
Lemma validTx_cases (t : SignedTx) (tip : Hash) (s : Store) :
  rejected (validTx t tip s)
  \/ (validTx t tip s = (Ok tt, s)
      /\ select_included tip (stx_Hash t) s = false).
Proof.
  unfold validTx, bind, check.
  destruct (SignedTx_Valid t) as [e | ] eqn:Ev.
  { left. destruct (SignedTx_Valid_error t e Ev) as (m & c & ->).
    exists m, c, s. reflexivity. }
  cbn [ret].
  destruct (_ <? _); [left; eexists _, _, _; reflexivity | ].
  destruct (select_included tip (stx_Hash t) s);
    [left; eexists _, _, _; reflexivity | right; auto].
Qed.

(** One turn of the loop either rejects with an InvalidBlockError or adds
    the hash of the transaction, which was not there, to the inclusion set
    of the new block and to its rows of [block_txs]. *)
Lemma addBlock_tx_step (block : Block) (t : SignedTx) (s : Store) :
  blk_Hash block <> EmptyHash ->
  stx_Hash t <> EmptyHash ->
  linked_included (blk_Hash block) s ->
  rejected (addBlock_tx block t s)
  \/ exists s',
      addBlock_tx block t s = (Ok tt, s')
      /\ existsb (link_key (blk_Hash block) (stx_Hash t)) (included_txs s)
         = false
      /\ included_txs s'
         = included_txs s
           ++ [{| lnk_block_hash := blk_Hash block;
                  lnk_tx_hash := stx_Hash t |}]
      /\ block_txs s'
         = block_txs s
           ++ [{| lnk_block_hash := blk_Hash block;
                  lnk_tx_hash := stx_Hash t |}].
Proof.
  intros Hn Hh Hinv. unfold addBlock_tx.
  destruct (validTx_cases t (blk_Hash block) s) as [Hrej | [Hok Hnot] ].
  { left. now apply bind_rejected. }
  right. rewrite (bind_Ok _ _ _ _ _ Hok).
  unfold select_included in Hnot.
  pose proof (Hash_Value_not_empty _ Hn) as En.
  pose proof (Hash_Value_not_empty _ Hh) as Eh.
  rewrite En, Eh in Hnot.
  assert (Hnot' : existsb (link_key (blk_Hash block) (stx_Hash t))
                          (block_txs s) = false).
  { apply not_true_is_false. intros H. apply Hinv in H. congruence. }
  unfold bind, debit_balance, credit_balance, addTx, insert_included_tx,
    insert_block_tx.
  rewrite En, Eh. cbn [balances set_balances].
  match goal with
  | |- context [existsb ?p ?l] =>
    match p with
    | balance_key _ _ => destruct (existsb p l)
    end
  end;
    cbn [txs set_balances];
    destruct (existsb (tx_key (stx_Hash t)) (txs s));
    cbn [included_txs set_balances set_txs]; rewrite Hnot;
    cbn [block_txs set_included_txs set_balances set_txs]; rewrite Hnot';
    eexists; repeat split; reflexivity.
Qed.

Lemma existsb_app_l {T : Type} (p : T -> bool) (l l' : list T) :
  existsb p l = true -> existsb p (l ++ l') = true.
Proof. intros H. rewrite existsb_app, H. reflexivity. Qed.

Lemma link_key_refl (n h : Hash) :
  link_key n h {| lnk_block_hash := n; lnk_tx_hash := h |} = true.
Proof. unfold link_key. cbn. now rewrite !bytes_eqb_refl. Qed.

Lemma link_key_tx (n x h : Hash) :
  link_key n x {| lnk_block_hash := n; lnk_tx_hash := h |} = true -> x = h.
Proof.
  unfold link_key. cbn. rewrite andb_true_iff, !bytes_eqb_eq.
  intros [_ H]. congruence.
Qed.

(** A transaction list that repeats a hash, or holds one that is already
    in the inclusion set of the new block, never gets through the loop. *)
Lemma addBlock_txs_rejects (block : Block) (l : list SignedTx) :
  blk_Hash block <> EmptyHash ->
  Forall (fun t => stx_Hash t <> EmptyHash) l ->
  forall s fee,
    linked_included (blk_Hash block) s ->
    (exists t, In t l
               /\ existsb (link_key (blk_Hash block) (stx_Hash t))
                          (included_txs s) = true)
    \/ repeats l ->
    rejected (addBlock_txs block fee l s).
Proof.
  intros Hn. induction l as [ | t l IH]; intros Hne s fee Hinv Hcause.
  - destruct Hcause as [(t & [] & _) | [] ].
  - inversion Hne as [ | ? ? Ht Hl]; subst. cbn [addBlock_txs].
    destruct (addBlock_tx_step block t s Hn Ht Hinv)
      as [Hrej | (s' & Hok & Hnew & Hinc & Hblk)].
    { now apply bind_rejected. }
    rewrite (bind_Ok _ _ _ _ _ Hok). apply IH; [exact Hl | | ].
    + intros x. rewrite Hinc, Hblk, !existsb_app. cbn [existsb].
      rewrite !orb_false_r. intros H. apply orb_true_iff in H.
      destruct H as [H | H].
      * rewrite (Hinv x H). reflexivity.
      * rewrite H. apply orb_true_r.
    + rewrite Hinc. destruct Hcause as [(t0 & [<- | Hin] & Hhit) | Hrep].
      * congruence.
      * left. exists t0. split; [exact Hin | now apply existsb_app_l].
      * cbn [repeats] in Hrep. destruct Hrep as [(t' & Hin & E) | Hrep];
          [ | right; exact Hrep].
        left. exists t'. split; [exact Hin | ].
        rewrite existsb_app, E. cbn [existsb].
        rewrite link_key_refl. apply orb_true_iff. right. reflexivity.
Qed.

(** Two positions with the same hash make the list repeat a hash. *)
Lemma nth_error_repeats (l : list SignedTx) :
  forall i j t t',
    (i < j)%nat -> nth_error l i = Some t -> nth_error l j = Some t' ->
    stx_Hash t = stx_Hash t' -> repeats l.
Proof.
  induction l as [ | x l IH]; intros i j t t' Hij Hi Hj E.
  - destruct i; discriminate.
  - destruct j as [ | j]; [lia | ]. cbn in Hj.
    destruct i as [ | i]; cbn in Hi.
    + inversion Hi; subst x. left. exists t'. split.
      * eapply nth_error_In; eauto.
      * auto.
    + right. apply (IH i j t t'); auto. lia.
Qed.

End RepeatedTx.

Section RepeatedTxBlock.
Context {P : Primitives}.

Lemma same_balance_key_sym (r r' : BalanceRow) :
  same_balance_key r r' = same_balance_key r' r.
Proof.
  unfold same_balance_key, balance_key.
  now rewrite (bytes_eqb_sym (bal_block_hash r')),
              (bytes_eqb_sym (bal_address r')).
Qed.

Lemma same_link_key_sym (r r' : LinkRow) :
  same_link_key r r' = same_link_key r' r.
Proof.
  unfold same_link_key, link_key.
  now rewrite (bytes_eqb_sym (lnk_block_hash r')),
              (bytes_eqb_sym (lnk_tx_hash r')).
Qed.

(** In a consistent store, no row refers to a block that is not stored. *)
Lemma not_stored_no_rows (s : Store) (n : Hash) :
  Store_consistent s -> n <> EmptyHash -> select_block n s = None ->
  (forall r, In r (balances s) -> bytes_eqb (bal_block_hash r) n = false)
  /\ (forall r, In r (included_txs s) ->
                bytes_eqb (lnk_block_hash r) n = false)
  /\ (forall r, In r (block_txs s) ->
                bytes_eqb (lnk_block_hash r) n = false).
Proof.
  intros Hc Hn Hs. unfold select_block in Hs.
  rewrite (Hash_Value_not_empty n Hn) in Hs.
  assert (Hb : existsb (has_hash n) (blocks s) = false).
  { rewrite find_existsb, Hs. reflexivity. }
  unfold Store_consistent, Store_consistent_b in Hc.
  rewrite !andb_true_iff, !forallb_forall in Hc.
  destruct Hc as ((((_ & _) & H1) & H2) & H3).
  assert (K : forall h, refers_to_block s h = true -> bytes_eqb h n = false).
  { intros h Hr. apply not_true_is_false. intros E.
    apply bytes_eqb_eq in E. subst h. unfold refers_to_block in Hr.
    congruence. }
  repeat split; intros r Hr; apply K; auto.
Qed.

Lemma copy_balances_ok (n p : Hash) (s : Store) :
  n <> EmptyHash ->
  unique_b same_balance_key (balances s) = true ->
  (forall r, In r (balances s) -> bytes_eqb (bal_block_hash r) n = false) ->
  exists s',
    copy_balances n p s = (Ok tt, s')
    /\ included_txs s' = included_txs s /\ block_txs s' = block_txs s.
Proof.
  intros Hn Hu Hfree. unfold copy_balances.
  destruct (Hash_Value p) as [k | ]; [ | exists s; auto].
  destruct (filter _ (balances s)) as [ | r0 sel] eqn:Esel;
    [exists s; auto | ].
  rewrite (Hash_Value_not_empty n Hn). rewrite <- Esel.
  rewrite (insert_rows_ok same_balance_key same_balance_key_sym).
  - eexists. repeat split; reflexivity.
  - apply (unique_b_map_filter same_balance_key); [ | exact Hu].
    intros r r' Hr Hr'. apply bytes_eqb_eq in Hr, Hr'.
    unfold same_balance_key, balance_key. cbn.
    rewrite Hr, Hr', !bytes_eqb_refl. reflexivity.
  - intros r r' Hr Hr'. apply in_map_iff in Hr. destruct Hr as (x & <- & _).
    unfold same_balance_key, balance_key. cbn.
    rewrite (Hfree r' Hr'). reflexivity.
Qed.

Lemma copy_included_txs_ok (n p : Hash) (s : Store) :
  n <> EmptyHash ->
  unique_b same_link_key (included_txs s) = true ->
  (forall r, In r (included_txs s) ->
             bytes_eqb (lnk_block_hash r) n = false) ->
  exists s', copy_included_txs n p s = (Ok tt, s')
             /\ block_txs s' = block_txs s.
Proof.
  intros Hn Hu Hfree. unfold copy_included_txs.
  destruct (Hash_Value p) as [k | ]; [ | exists s; auto].
  destruct (filter _ (included_txs s)) as [ | r0 sel] eqn:Esel;
    [exists s; auto | ].
  rewrite (Hash_Value_not_empty n Hn). rewrite <- Esel.
  rewrite (insert_rows_ok same_link_key same_link_key_sym).
  - eexists. repeat split; reflexivity.
  - apply (unique_b_map_filter same_link_key); [ | exact Hu].
    intros r r' Hr Hr'. apply bytes_eqb_eq in Hr, Hr'.
    unfold same_link_key, link_key. cbn.
    rewrite Hr, Hr', !bytes_eqb_refl. reflexivity.
  - intros r r' Hr Hr'. apply in_map_iff in Hr. destruct Hr as (x & <- & _).
    unfold same_link_key, link_key. cbn.
    rewrite (Hfree r' Hr'). reflexivity.
Qed.

(** A new block that repeats a transaction hash is rejected by the closure
    with an InvalidBlockError. *)
Lemma addBlock_repeats_rejected (block : Block) (s : Store) :
  Store_consistent s ->
  select_block (PreviousHash block) s <> None ->
  select_block (blk_Hash block) s = None ->
  blk_Hash block <> EmptyHash ->
  Forall (fun t => stx_Hash t <> EmptyHash) (Transactions block) ->
  repeats (Transactions block) ->
  rejected (addBlock block s).
Proof.
  intros Hc Hparent Hnew Hn Hne Hrep.
  destruct (not_stored_no_rows s _ Hc Hn Hnew) as (Fb & Fi & Fl).
  unfold addBlock.
  destruct (select_block (PreviousHash block) s) as [row | ];
    [ | congruence].
  unfold insert_block. rewrite (Hash_Value_not_empty _ Hn).
  unfold select_block in Hnew. rewrite (Hash_Value_not_empty _ Hn) in Hnew.
  rewrite find_existsb, Hnew.
  set (s1 := set_blocks s _).
  unfold Store_consistent, Store_consistent_b in Hc.
  rewrite !andb_true_iff in Hc. destruct Hc as ((((Ub & Ui) & _) & _) & _).
  unfold addBlock_body.
  destruct (copy_balances_ok (blk_Hash block) (PreviousHash block) s1 Hn Ub Fb)
    as (s2 & E2 & I2 & L2).
  rewrite (bind_Ok _ _ _ _ _ E2).
  destruct (copy_included_txs_ok (blk_Hash block) (PreviousHash block) s2 Hn)
    as (s3 & E3 & L3).
  { rewrite I2. exact Ui. } { rewrite I2. exact Fi. }
  rewrite (bind_Ok _ _ _ _ _ E3).
  destruct (Block_Valid block (DecodeBlock (row_block row))) as [e | ] eqn:Ev.
  { destruct (Block_Valid_error _ _ _ Ev) as (m & c & ->).
    exists m, c, s3. reflexivity. }
  cbn [check]. rewrite (bind_Ok _ _ s3 s3 tt eq_refl).
  apply bind_rejected. apply addBlock_txs_rejects; auto.
  intros x Hx. rewrite L3, L2 in Hx. cbn [block_txs s1 set_blocks] in Hx.
  apply existsb_exists in Hx. destruct Hx as (r & Hr & Hk).
  unfold link_key in Hk. rewrite (Fl r Hr) in Hk. discriminate.
Qed.

(** C10, as the code has it: a block that holds the same transaction hash
    at two positions, whose parent is stored, which is not stored itself,
    and whose hash and transaction hashes are not the empty hash (the one
    the store cannot hold), is rejected by AddBlock on a consistent store
    with an InvalidBlockError, and the committed store stays as it was. *)
Theorem AddBlock_rejects_repeated_tx (d : database.DB) (block : Block)
    (w : World) (i j : nat) (t t' : SignedTx) :
  Store_consistent (database.committed w) ->
  select_block (PreviousHash block) (database.committed w) <> None ->
  select_block (blk_Hash block) (database.committed w) = None ->
  blk_Hash block <> EmptyHash ->
  Forall (fun t => stx_Hash t <> EmptyHash) (Transactions block) ->
  (i < j)%nat ->
  nth_error (Transactions block) i = Some t ->
  nth_error (Transactions block) j = Some t' ->
  stx_Hash t = stx_Hash t' ->
  database.isDeadlock d = sqlite.isDeadlock ->
  1 <= database.tries d ->
  database.drv_Begin (database.db d) (database.begun w) = None ->
  (exists m c s',
      addBlock block (database.committed w)
      = (Err (InvalidBlockError m c), s'))
  /\ (exists m c,
         fst (DB_AddBlock d block w) = Err (InvalidBlockError m c))
  /\ database.committed (snd (DB_AddBlock d block w)) = database.committed w.
Proof.
  intros Hc Hparent Hnew Hn Hne Hij Hi Hj E Hd Ht Hb.
  pose proof (nth_error_repeats _ i j t t' Hij Hi Hj E) as Hrep.
  destruct (addBlock_repeats_rejected block _ Hc Hparent Hnew Hn Hne Hrep)
    as (m & c & s' & Erej).
  split; [exists m, c, s'; exact Erej | ].
  unfold DB_AddBlock.
  destruct (TransactWithRetry_run_err d (addBlock block) w Ht Hb
              (InvalidBlockError m c) s') as [E1 E2].
  - rewrite Hd. reflexivity.
  - exact Erej.
  - split; [exists m, c; exact E1 | exact E2].
Qed.

End RepeatedTxBlock.

Lemma AddBlock_rejects_repeated_tx_witness :
  (exists m c s',
      addBlock sample_block_twice (database.committed sample_world)
      = (Err (InvalidBlockError m c), s'))
  /\ (exists m c,
         fst (DB_AddBlock sample_db sample_block_twice sample_world)
         = Err (InvalidBlockError m c))
  /\ database.committed
       (snd (DB_AddBlock sample_db sample_block_twice sample_world))
     = database.committed sample_world.
Proof.
  apply (AddBlock_rejects_repeated_tx sample_db sample_block_twice
           sample_world 0 1 sample_stx sample_stx).
  - reflexivity.
  - vm_compute. discriminate.
  - reflexivity.
  - vm_compute. discriminate.
  - repeat constructor; vm_compute; discriminate.
  - lia.
  - reflexivity.
  - reflexivity.
  - reflexivity.
  - reflexivity.
  - vm_compute. discriminate.
  - reflexivity.
Defined.

(** On the sample store the repeated transaction gets as far as the
    inclusion check of its second occurrence. *)
Example addBlock_sample_twice :
  fst (addBlock sample_block_twice sample_store)
  = Err (InvalidBlockError
           "cryptopuff: transaction already included in blockchain" None)
  /\ Block_Valid sample_block_twice sample_genesis = None.
Proof. split; reflexivity. Qed.

(** C10, as the claim words it, fails: a block that repeats a transaction
    and whose parent is unknown is turned down with ErrUnknownParent, which
    is not an InvalidBlockError. *)
Lemma AddBlock_repeated_tx_unknown_parent :
  nth_error (Transactions sample_block_orphan) 0 = Some sample_stx
  /\ nth_error (Transactions sample_block_orphan) 1 = Some sample_stx
  /\ fst (DB_AddBlock sample_db sample_block_orphan sample_world)
     = Err ErrUnknownParent
  /\ is_InvalidBlockError ErrUnknownParent = false.
Proof. repeat split; reflexivity. Qed.

(** ** Further runs of the embedding *)

(** With no try allowed the closure is never run. *)
Lemma TransactWithRetry_no_tries {St A : Type} (d : database.DB)
    (f : database.closure St A) (w : database.World St) :
  (database.tries d = 0 ->
   database.TransactWithRetry d f w
   = (Err (errors_New "database: tries must be 1 or greater"), w))
  /\ (database.tries d < 0 ->
      database.TransactWithRetry d f w
      = (Err (TxError None (database.tries d)), w)).
Proof.
  unfold database.TransactWithRetry. split; intros H.
  - rewrite H. reflexivity.
  - destruct (Z.eqb_spec (database.tries d) 0); [lia | ].
    replace (Z.to_nat (database.tries d)) with 0%nat by lia. reflexivity.
Qed.

(** ** Consistency is kept by AddBlock

    The conditions [Store_consistent] puts on a store hold again after
    every successful [addBlock], so they hold on every store that AddBlock
    and AddBlocks build from a consistent one. *)

Section UniqueKeys.
Context {R : Type}.
Variable same_key : R -> R -> bool.
Hypothesis same_key_sym : forall r r', same_key r r' = same_key r' r.

Lemma unique_b_app_one (l : list R) (r : R) :
  unique_b same_key (l ++ [r])
  = unique_b same_key l && negb (existsb (same_key r) l).
Proof.
  induction l as [ | x l IH]; cbn [app unique_b existsb].
  - reflexivity.
  - rewrite IH, existsb_app. cbn [existsb].
    rewrite (same_key_sym r x), orb_false_r.
    destruct (existsb (same_key x) l), (same_key x r), (unique_b same_key l),
      (existsb (same_key r) l); reflexivity.
Qed.

Lemma insert_rows_unique (rows : list R) :
  forall tbl t,
    unique_b same_key tbl = true ->
    insert_rows same_key rows tbl = Some t ->
    unique_b same_key t = true.
Proof.
  induction rows as [ | r rows IH]; intros tbl t Hu; cbn [insert_rows].
  - intros H. inversion H. now subst.
  - destruct (existsb (same_key r) tbl) eqn:E; [discriminate | ].
    apply IH. rewrite unique_b_app_one, Hu, E. reflexivity.
Qed.

Lemma unique_b_map_key (g : R -> R) (l : list R) :
  (forall r r', same_key (g r) (g r') = same_key r r') ->
  unique_b same_key (map g l) = unique_b same_key l.
Proof.
  intros Hg. induction l as [ | x l IH]; cbn [map unique_b]; [reflexivity | ].
  rewrite IH. f_equal. f_equal.
  clear IH. induction l as [ | y l IH]; cbn [map existsb]; [reflexivity | ].
  now rewrite Hg, IH.
Qed.

Lemma unique_b_filter (q : R -> bool) (l : list R) :
  unique_b same_key l = true -> unique_b same_key (filter q l) = true.
Proof.
  intros H. rewrite <- (map_id (filter q l)).
  now apply (unique_b_map_filter same_key same_key (fun r => r) q l).
Qed.

End UniqueKeys.

Section Consistency.
Context {P : Primitives}.

Lemma Store_consistent_parts (s : Store) :
  Store_consistent s <-> consistent_parts s.
Proof.
  unfold Store_consistent, Store_consistent_b, consistent_parts.
  rewrite !andb_true_iff, !forallb_forall, !Forall_forall. tauto.
Qed.

Lemma debit_balance_consistent (v : Z) (n : Hash) (a : Address)
    (s s' : Store) :
  consistent_parts s -> debit_balance v n a s = (Ok tt, s') ->
  consistent_parts s'
  /\ blocks s' = blocks s /\ included_txs s' = included_txs s
  /\ block_txs s' = block_txs s.
Proof.
  intros (U1 & U2 & F1 & F2 & F3). unfold debit_balance.
  destruct (Hash_Value n) as [k | ]; intros H; inversion H; subst;
    [ | repeat split; auto].
  repeat split; auto; cbn [balances set_balances].
  - rewrite unique_b_map_key; [exact U1 | ].
    intros r r'. unfold same_balance_key.
    destruct (balance_key k a r), (balance_key k a r'); reflexivity.
  - rewrite Forall_map. revert F1. apply Forall_impl. intros r Hr.
    destruct (balance_key k a r); exact Hr.
Qed.

Lemma credit_balance_consistent (n : Hash) (a : Address) (v : Z)
    (s s' : Store) :
  consistent_parts s -> refers_to_block s n = true ->
  credit_balance n a v s = (Ok tt, s') ->
  consistent_parts s'
  /\ blocks s' = blocks s /\ included_txs s' = included_txs s
  /\ block_txs s' = block_txs s.
Proof.
  intros (U1 & U2 & F1 & F2 & F3) Hn. unfold credit_balance.
  destruct (Hash_Value n) as [k | ] eqn:Ek; [ | discriminate].
  apply Hash_Value_Some in Ek. subst k.
  destruct (existsb (balance_key n a) (balances s)) eqn:Ex;
    intros H; inversion H; subst; repeat split; auto;
    cbn [balances set_balances].
  - rewrite unique_b_map_key; [exact U1 | ].
    intros r r'. unfold same_balance_key.
    destruct (balance_key n a r), (balance_key n a r'); reflexivity.
  - rewrite Forall_map. revert F1. apply Forall_impl. intros r Hr.
    destruct (balance_key n a r); exact Hr.
  - rewrite (unique_b_app_one same_balance_key same_balance_key_sym), U1.
    match goal with
    | |- context [existsb (same_balance_key ?r) ?l] =>
      change (existsb (same_balance_key r) l)
        with (existsb (balance_key n a) l)
    end.
    rewrite Ex. reflexivity.
  - apply Forall_app. split; [exact F1 | ]. repeat constructor. exact Hn.
Qed.

Lemma refers_to_block_link (n h : Hash) (s : Store) (l : list LinkRow) :
  refers_to_block s n = true ->
  Forall (fun r => refers_to_block s (lnk_block_hash r) = true) l ->
  Forall (fun r => refers_to_block s (lnk_block_hash r) = true)
         (l ++ [{| lnk_block_hash := n; lnk_tx_hash := h |}]).
Proof.
  intros Hn F. apply Forall_app. split; [exact F | ].
  repeat constructor. exact Hn.
Qed.

Lemma consistent_parts_ext (s s' : Store) :
  blocks s' = blocks s -> balances s' = balances s ->
  included_txs s' = included_txs s -> block_txs s' = block_txs s ->
  consistent_parts s -> consistent_parts s'.
Proof.
  unfold consistent_parts, refers_to_block. intros -> -> -> ->. auto.
Qed.

Lemma addTx_consistent (t : SignedTx) (s s' : Store) :
  consistent_parts s -> addTx t s = (Ok tt, s') ->
  consistent_parts s' /\ blocks s' = blocks s.
Proof.
  intros Hc. unfold addTx.
  destruct (Hash_Value (stx_Hash t)) as [h | ].
  2: { intros H. inversion H; subst. auto. }
  destruct (existsb (tx_key h) (txs s)); intros H; inversion H; subst;
    [auto | ].
  split; [ | reflexivity]. revert Hc. now apply consistent_parts_ext.
Qed.

Lemma insert_included_tx_consistent (n h : Hash) (s s' : Store) :
  consistent_parts s -> refers_to_block s n = true ->
  insert_included_tx n h s = (Ok tt, s') ->
  consistent_parts s' /\ blocks s' = blocks s.
Proof.
  intros (U1 & U2 & F1 & F2 & F3) Hn. unfold insert_included_tx.
  destruct (Hash_Value n) as [k | ] eqn:Ek; [ | discriminate].
  apply Hash_Value_Some in Ek. subst k.
  destruct (Hash_Value h) as [x | ]; [ | discriminate].
  destruct (existsb (link_key n x) (included_txs s)) eqn:Ei;
    [discriminate | ].
  intros H. inversion H; subst s'. clear H.
  repeat split; auto; cbn [included_txs set_included_txs].
  - rewrite (unique_b_app_one same_link_key same_link_key_sym), U2.
    match goal with
    | |- context [existsb (same_link_key ?r) ?l] =>
      change (existsb (same_link_key r) l) with (existsb (link_key n x) l)
    end.
    rewrite Ei. reflexivity.
  - now apply refers_to_block_link.
Qed.

Lemma insert_block_tx_consistent (n h : Hash) (s s' : Store) :
  consistent_parts s -> refers_to_block s n = true ->
  insert_block_tx n h s = (Ok tt, s') ->
  consistent_parts s' /\ blocks s' = blocks s.
Proof.
  intros (U1 & U2 & F1 & F2 & F3) Hn. unfold insert_block_tx.
  destruct (Hash_Value n) as [k | ] eqn:Ek; [ | discriminate].
  apply Hash_Value_Some in Ek. subst k.
  destruct (Hash_Value h) as [x | ]; [ | discriminate].
  destruct (existsb (link_key n x) (block_txs s)); [discriminate | ].
  intros H. inversion H; subst s'. clear H.
  repeat split; auto; cbn [block_txs set_block_txs].
  now apply refers_to_block_link.
Qed.

(** One turn of the loop of [addBlock] keeps the store consistent. *)
Lemma addBlock_tx_consistent (block : Block) (t : SignedTx) (s s' : Store) :
  consistent_parts s -> refers_to_block s (blk_Hash block) = true ->
  addBlock_tx block t s = (Ok tt, s') ->
  consistent_parts s' /\ blocks s' = blocks s.
Proof.
  intros Hc Hn. unfold addBlock_tx.
  destruct (validTx_cases t (blk_Hash block) s)
    as [(m & c & s0 & Hrej) | [Hok _] ].
  { rewrite (bind_Err _ _ _ _ _ Hrej). discriminate. }
  rewrite (bind_Ok _ _ _ _ _ Hok). unfold bind.
  destruct (debit_balance _ _ _ s) as [[[] | e] s1] eqn:E1; [ | discriminate].
  destruct (debit_balance_consistent _ _ _ _ _ Hc E1) as (C1 & B1 & _).
  assert (Hn1 : refers_to_block s1 (blk_Hash block) = true)
    by (unfold refers_to_block in *; now rewrite B1).
  destruct (credit_balance _ _ _ s1) as [[[] | e] s2] eqn:E2;
    [ | discriminate].
  destruct (credit_balance_consistent _ _ _ _ _ C1 Hn1 E2) as (C2 & B2 & _).
  assert (Hn2 : refers_to_block s2 (blk_Hash block) = true)
    by (unfold refers_to_block in *; now rewrite B2).
  destruct (addTx t s2) as [[[] | e] s3] eqn:E3; [ | discriminate].
  destruct (addTx_consistent _ _ _ C2 E3) as (C3 & B3).
  assert (Hn3 : refers_to_block s3 (blk_Hash block) = true)
    by (unfold refers_to_block in *; now rewrite B3).
  destruct (insert_included_tx _ _ s3) as [[[] | e] s4] eqn:E4;
    [ | discriminate].
  destruct (insert_included_tx_consistent _ _ _ _ C3 Hn3 E4) as (C4 & B4).
  assert (Hn4 : refers_to_block s4 (blk_Hash block) = true)
    by (unfold refers_to_block in *; now rewrite B4).
  intros E5.
  destruct (insert_block_tx_consistent _ _ _ _ C4 Hn4 E5) as (C5 & B5).
  split; [exact C5 | congruence].
Qed.

Lemma addBlock_txs_consistent (block : Block) (l : list SignedTx) :
  forall fee fee' s s',
    consistent_parts s -> refers_to_block s (blk_Hash block) = true ->
    addBlock_txs block fee l s = (Ok fee', s') ->
    consistent_parts s' /\ blocks s' = blocks s.
Proof.
  induction l as [ | t l IH]; intros fee fee' s s' Hc Hn; cbn [addBlock_txs].
  - intros H. inversion H; subst. auto.
  - unfold bind.
    destruct (addBlock_tx block t s) as [[[] | e] s1] eqn:E1;
      [ | discriminate].
    destruct (addBlock_tx_consistent _ _ _ _ Hc Hn E1) as [C1 B1].
    intros H. destruct (IH _ _ _ _ C1 ltac:(unfold refers_to_block in *;
                                            now rewrite B1) H) as [C2 B2].
    split; [exact C2 | congruence].
Qed.

Lemma copy_balances_consistent (n p : Hash) (s s' : Store) :
  consistent_parts s -> refers_to_block s n = true ->
  copy_balances n p s = (Ok tt, s') ->
  consistent_parts s' /\ blocks s' = blocks s.
Proof.
  intros (U1 & U2 & F1 & F2 & F3) Hn. unfold copy_balances.
  destruct (match Hash_Value p with
            | Some k => filter _ (balances s)
            | None => []
            end) as [ | r0 sel] eqn:Esel.
  { intros H. inversion H; subst. repeat split; auto. }
  destruct (Hash_Value n) as [k | ] eqn:Ek; [ | discriminate].
  apply Hash_Value_Some in Ek. subst k.
  destruct (insert_rows _ _ _) as [tbl | ] eqn:Ei; [ | discriminate].
  intros H. inversion H; subst s'. clear H.
  pose proof (insert_rows_unique same_balance_key same_balance_key_sym
                _ _ _ U1 Ei) as U1'.
  apply insert_rows_Some in Ei. subst tbl.
  repeat split; auto. cbn [balances set_balances].
  apply Forall_app. split; [exact F1 | ].
  apply Forall_map, Forall_forall. intros r _. exact Hn.
Qed.

Lemma copy_included_txs_consistent (n p : Hash) (s s' : Store) :
  consistent_parts s -> refers_to_block s n = true ->
  copy_included_txs n p s = (Ok tt, s') ->
  consistent_parts s' /\ blocks s' = blocks s.
Proof.
  intros (U1 & U2 & F1 & F2 & F3) Hn. unfold copy_included_txs.
  destruct (match Hash_Value p with
            | Some k => filter _ (included_txs s)
            | None => []
            end) as [ | r0 sel] eqn:Esel.
  { intros H. inversion H; subst. repeat split; auto. }
  destruct (Hash_Value n) as [k | ] eqn:Ek; [ | discriminate].
  apply Hash_Value_Some in Ek. subst k.
  destruct (insert_rows _ _ _) as [tbl | ] eqn:Ei; [ | discriminate].
  intros H. inversion H; subst s'. clear H.
  pose proof (insert_rows_unique same_link_key same_link_key_sym
                _ _ _ U2 Ei) as U2'.
  apply insert_rows_Some in Ei. subst tbl.
  repeat split; auto. cbn [included_txs set_included_txs].
  apply Forall_app. split; [exact F2 | ].
  apply Forall_map, Forall_forall. intros r _. exact Hn.
Qed.

(** A successful [addBlock] takes a consistent store to a consistent
    store. *)
Lemma addBlock_consistent (block : Block) (s s' : Store) :
  Store_consistent s -> addBlock block s = (Ok tt, s') ->
  Store_consistent s'.
Proof.
  rewrite !Store_consistent_parts. intros Hc. unfold addBlock.
  destruct (select_block (PreviousHash block) s) as [row | ];
    [ | discriminate].
  unfold insert_block.
  destruct (Hash_Value (blk_Hash block)) as [n | ] eqn:En.
  2: { cbn. discriminate. }
  apply Hash_Value_Some in En. subst n.
  destruct (existsb (has_hash (blk_Hash block)) (blocks s)) eqn:Ex.
  { cbn. intros H. inversion H; subst. exact Hc. }
  set (s1 := set_blocks s _).
  assert (Hn1 : refers_to_block s1 (blk_Hash block) = true).
  { unfold refers_to_block, s1. cbn [blocks set_blocks].
    rewrite existsb_app. cbn. unfold has_hash. cbn.
    rewrite bytes_eqb_refl. apply orb_true_iff. right. reflexivity. }
  assert (C1 : consistent_parts s1).
  { destruct Hc as (U1 & U2 & F1 & F2 & F3).
    assert (M : forall h, refers_to_block s h = true ->
                          refers_to_block s1 h = true).
    { intros h Hh. unfold refers_to_block, s1 in *. cbn [blocks set_blocks].
      now apply existsb_app_l. }
    repeat split; auto; cbn [balances included_txs block_txs s1 set_blocks];
      [revert F1 | revert F2 | revert F3]; apply Forall_impl;
      intros r; apply M. }
  unfold addBlock_body, bind.
  destruct (copy_balances _ _ s1) as [[[] | e] s2] eqn:E2; [ | discriminate].
  destruct (copy_balances_consistent _ _ _ _ C1 Hn1 E2) as [C2 B2].
  assert (Hn2 : refers_to_block s2 (blk_Hash block) = true)
    by (unfold refers_to_block in *; now rewrite B2).
  destruct (copy_included_txs _ _ s2) as [[[] | e] s3] eqn:E3;
    [ | discriminate].
  destruct (copy_included_txs_consistent _ _ _ _ C2 Hn2 E3) as [C3 B3].
  assert (Hn3 : refers_to_block s3 (blk_Hash block) = true)
    by (unfold refers_to_block in *; now rewrite B3).
  destruct (Block_Valid block (DecodeBlock (row_block row)));
    cbn [check fail ret]; [discriminate | ].
  destruct (addBlock_txs _ _ _ s3) as [[fee | e] s4] eqn:E4;
    [ | discriminate].
  destruct (addBlock_txs_consistent _ _ _ _ _ _ C3 Hn3 E4) as [C4 B4].
  assert (Hn4 : refers_to_block s4 (blk_Hash block) = true)
    by (unfold refers_to_block in *; now rewrite B4).
  assert (K : forall s5, consistent_parts s5 ->
                         delete_zero_balances s5 = (Ok tt, s') ->
                         consistent_parts s').
  { intros s5 (U1 & U2 & F1 & F2 & F3) H. unfold delete_zero_balances in H.
    inversion H; subst s'. clear H.
    repeat split; auto; cbn [balances set_balances].
    - now apply unique_b_filter.
    - apply Forall_forall. intros r Hr. apply filter_In in Hr.
      rewrite Forall_forall in F1. apply F1, Hr. }
  destruct (fee >? 0).
  - destruct (credit_balance _ _ _ s4) as [[[] | e] s5] eqn:E5;
      [ | discriminate].
    destruct (credit_balance_consistent _ _ _ _ _ C4 Hn4 E5) as (C5 & _).
    apply K. exact C5.
  - cbn [ret]. apply K. exact C4.
Qed.

(** So does a successful [AddBlocks]. *)
Lemma addBlock_each_consistent (l : list Block) :
  forall s s',
    Store_consistent s -> addBlock_each l s = (Ok tt, s') ->
    Store_consistent s'.
Proof.
  induction l as [ | b l IH]; intros s s' Hc; cbn [addBlock_each].
  - intros H. inversion H; subst. exact Hc.
  - unfold bind. destruct (addBlock b s) as [[[] | e] s1] eqn:E;
      [ | discriminate].
    apply IH. eapply addBlock_consistent; eauto.
Qed.

End Consistency.

(* ===================================================================== *)
(** * Part III: further properties of the code                            *)
(* ===================================================================== *)

(** ** database/tx.go: transactions are all or nothing *)

Section TransactionFacts.
Import database.
Context {St A : Type}.
Variables (d : DB) (f : closure St A).

(** X1: whatever the closure, the driver and the configuration,
    TransactWithRetry begins at most [tries] transactions; when it returns
    an error the committed contents are those it started from, and when it
    returns a value the committed contents are what one single run of the
    closure made of them. *)
Theorem TransactWithRetry_all_or_nothing (w : World St) :
  (begun (snd (TransactWithRetry d f w))
   <= begun w + Z.to_nat (tries d))%nat
  /\ match fst (TransactWithRetry d f w) with
     | Ok a =>
       exists k, (begun w <= k < begun w + Z.to_nat (tries d))%nat
                 /\ f k (committed w)
                    = (Ok a, committed (snd (TransactWithRetry d f w)))
     | Err _ => committed (snd (TransactWithRetry d f w)) = committed w
     end.
Proof.
  unfold TransactWithRetry. destruct (tries d =? 0).
  - split; [cbn; lia | reflexivity].
  - apply retry_atomic.
Qed.

End TransactionFacts.

(** ** database/backoff.go *)

(** X2: for a try between 0 and 39 (where the product fits an int64) and a
    draw in [0, cMax), the default backoff is at least 10 ms doubled [try]
    times; it is at most 1.28 s while [try] is below cMax, and exactly
    10 ms doubled [try] times from there on. *)
Theorem BinaryExponentialBackoff_bounds (rand_Intn : Z -> Z) (try : Z) :
  0 <= rand_Intn try < database.cMax ->
  0 <= try <= 39 ->
  let delay := database.BinaryExponentialBackoff rand_Intn try in
  2 ^ try * 10000000 <= delay
  /\ delay <= MaxInt64
  /\ (try < database.cMax -> delay <= 1280000000)
  /\ (database.cMax <= try -> delay = 2 ^ try * 10000000).
Proof.
  unfold database.BinaryExponentialBackoff, database.cMax, database.scale,
    MaxInt64.
  intros Hr Ht. cbn zeta.
  set (c := if rand_Intn try <? try then try else rand_Intn try).
  assert (Hc : try <= c /\ 0 <= c <= 39 /\ (try < 8 -> c <= 7)
               /\ (8 <= try -> c = try)).
  { unfold c. destruct (Z.ltb_spec (rand_Intn try) try); lia. }
  destruct Hc as (H1 & H2 & H3 & H4).
  assert (Hm : forall a b, 0 <= a <= b -> 2 ^ a <= 2 ^ b)
    by (intros a b Hab; apply Z.pow_le_mono_r; lia).
  pose proof (Hm try c ltac:(lia)). pose proof (Hm c 39 ltac:(lia)).
  repeat split.
  - lia.
  - change (2 ^ 39) with 549755813888 in *. lia.
  - intros Hlt. pose proof (Hm c 7 ltac:(lia)).
    change (2 ^ 7) with 128 in *. lia.
  - intros Hge. rewrite (H4 Hge). lia.
Qed.

Lemma BinaryExponentialBackoff_bounds_witness :
  let delay := database.BinaryExponentialBackoff (fun _ => 5) 2 in
  2 ^ 2 * 10000000 <= delay
  /\ delay <= MaxInt64
  /\ (2 < database.cMax -> delay <= 1280000000)
  /\ (database.cMax <= 2 -> delay = 2 ^ 2 * 10000000).
Proof.
  apply (BinaryExponentialBackoff_bounds (fun _ => 5) 2);
    unfold database.cMax; lia.
Defined.

(** ** hash.go: a hash and its SQL value *)

Lemma hex_byte_round_trip (v : byte) :
  fromHexChar (hex_digit (Z.shiftr (byte_val v) 4)) = Some (Z.shiftr (byte_val v) 4)
  /\ fromHexChar (hex_digit (Z.land (byte_val v) 0x0f))
     = Some (Z.land (byte_val v) 0x0f)
  /\ byte_of_Z (Z.lor (Z.shiftl (Z.shiftr (byte_val v) 4) 4)
                      (Z.land (byte_val v) 0x0f)) = v.
Proof. destruct v; repeat split; reflexivity. Qed.

(** Decoding the hexadecimal text of a byte string gives it back. *)
Lemma hex_round_trip (b : bytes) :
  hex_DecodeString (hex_EncodeToString b) = Ok b.
Proof.
  induction b as [ | v b IH]; [reflexivity | ].
  cbn [hex_EncodeToString hex_DecodeString].
  destruct (hex_byte_round_trip v) as (-> & -> & ->). now rewrite IH.
Qed.

Lemma hex_EncodeToString_injective (a b : bytes) :
  hex_EncodeToString a = hex_EncodeToString b -> a = b.
Proof.
  intros H. pose proof (hex_round_trip a) as Ea. rewrite H in Ea.
  rewrite hex_round_trip in Ea. congruence.
Qed.

Lemma hex_DecodeString_length (s : string) (b : bytes) :
  hex_DecodeString s = Ok b -> String.length s = (2 * length b)%nat.
Proof.
  revert b. induction s as [s IH] using
    (well_founded_induction
       (Wf_nat.well_founded_ltof _ String.length)).
  intros b. destruct s as [ | p [ | q rest] ]; cbn [hex_DecodeString].
  - intros H. inversion H. reflexivity.
  - destruct (fromHexChar p); discriminate.
  - destruct (fromHexChar p); [ | discriminate].
    destruct (fromHexChar q); [ | discriminate].
    destruct (hex_DecodeString rest) as [l | ] eqn:E; [ | discriminate].
    intros H. inversion H; subst. cbn [String.length length].
    rewrite (IH rest) with (b := l); [lia | | exact E].
    unfold Wf_nat.ltof. cbn. lia.
Qed.

(** X3: a 16-byte hash comes back from the store as it went in.  Value
    gives nil exactly for the empty hash, and Scan of nil gives the empty
    hash; for any other hash Value gives its hexadecimal text, Scan of that
    text as a byte slice gives the hash back, and Scan of the text as the
    string Value returned is refused. *)
Theorem Hash_Scan_Value (h h0 : Hash) :
  length h = md5_Size -> length h0 = md5_Size ->
  match Hash_driver_Value h with
  | Value_nil => h = EmptyHash /\ Hash_Scan h0 Value_nil = Ok h
  | Value_string s =>
    h <> EmptyHash /\ s = Hash_String h
    /\ Hash_Scan h0 (Value_bytes s) = Ok h
    /\ exists e, Hash_Scan h0 (Value_string s) = Err e
  | _ => False
  end.
Proof.
  intros Hh H0. unfold Hash_driver_Value.
  destruct (bytes_eqb h EmptyHash) eqn:E.
  - apply bytes_eqb_eq in E. subst h. split; reflexivity.
  - apply bytes_eqb_neq in E. split; [exact E | split; [reflexivity | split] ].
    + cbn [Hash_Scan]. rewrite hex_round_trip, Hh. cbn.
      apply f_equal. apply copy_full. congruence.
    + eexists. reflexivity.
Qed.

Lemma Hash_Scan_Value_witness :
  match Hash_driver_Value (stx_Hash sample_stx) with
  | Value_nil =>
    stx_Hash sample_stx = EmptyHash
    /\ Hash_Scan EmptyHash Value_nil = Ok (stx_Hash sample_stx)
  | Value_string s =>
    stx_Hash sample_stx <> EmptyHash /\ s = Hash_String (stx_Hash sample_stx)
    /\ Hash_Scan EmptyHash (Value_bytes s) = Ok (stx_Hash sample_stx)
    /\ exists e, Hash_Scan EmptyHash (Value_string s) = Err e
  | _ => False
  end.
Proof.
  apply (Hash_Scan_Value (stx_Hash sample_stx) EmptyHash); reflexivity.
Defined.

(** X4: Scan never leaves a hash of the wrong size and fails without
    touching the receiver's size otherwise: from a 16-byte receiver every
    successful Scan gives 16 bytes; text with an odd number of digits or
    that decodes to a number of bytes other than 0 and 16 is refused; and
    the empty text is read as the empty hash. *)
Theorem Hash_Scan_sizes (h0 : Hash) (v : string) :
  length h0 = md5_Size ->
  (forall h, Hash_Scan h0 (Value_bytes v) = Ok h -> length h = md5_Size)
  /\ (String.length v <> 0%nat -> String.length v <> 32%nat ->
      exists e, Hash_Scan h0 (Value_bytes v) = Err e)
  /\ Hash_Scan h0 (Value_bytes EmptyString) = Ok EmptyHash.
Proof.
  intros H0. cbn [Hash_Scan]. split; [ | split; [ | reflexivity] ].
  - intros h. destruct (hex_DecodeString v) as [b | ]; [ | discriminate].
    destruct (Nat.eqb_spec (length b) 0).
    { intros H. inversion H. reflexivity. }
    destruct (Nat.eqb_spec (length b) md5_Size); [ | discriminate].
    cbn [negb]. intros H. inversion H. unfold copy.
    rewrite H0, e, Nat.min_id, length_app, length_firstn, length_skipn.
    rewrite H0, e. unfold md5_Size. lia.
  - intros Hn0 Hn32.
    destruct (hex_DecodeString v) as [b | e] eqn:E; [ | eauto].
    apply hex_DecodeString_length in E.
    destruct (Nat.eqb_spec (length b) 0); [lia | ].
    destruct (Nat.eqb_spec (length b) md5_Size) as [e | ];
      [unfold md5_Size in e; lia | ].
    cbn [negb]. eauto.
Qed.

Lemma Hash_Scan_sizes_witness :
  (forall h, Hash_Scan EmptyHash (Value_bytes "00ff") = Ok h ->
             length h = md5_Size)
  /\ (String.length "00ff" <> 0%nat -> String.length "00ff" <> 32%nat ->
      exists e, Hash_Scan EmptyHash (Value_bytes "00ff") = Err e)
  /\ Hash_Scan EmptyHash (Value_bytes EmptyString) = Ok EmptyHash.
Proof. apply (Hash_Scan_sizes EmptyHash "00ff"). reflexivity. Defined.

(** X5: Value is injective: two hashes bound to the same SQL value are the
    same bytes, so comparing a hash column with a bound hash compares the
    hashes; and the abstract binding of the store model is this one with
    the text left out. *)
Theorem Hash_driver_Value_injective (h h' : Hash) :
  (Hash_driver_Value h = Hash_driver_Value h' -> h = h')
  /\ Hash_driver_Value h
     = match Hash_Value h with
       | None => Value_nil
       | Some k => Value_string (hex_EncodeToString k)
       end.
Proof.
  unfold Hash_driver_Value, Hash_Value. split.
  - destruct (bytes_eqb h EmptyHash) eqn:E; destruct (bytes_eqb h' EmptyHash) eqn:E';
      intros H; try discriminate.
    + apply bytes_eqb_eq in E, E'. congruence.
    + inversion H. now apply hex_EncodeToString_injective.
  - destruct (bytes_eqb h EmptyHash); reflexivity.
Qed.

(** ** tx.go, block.go: hashes that do not cover themselves *)

Section HashFacts.
Context {P : Primitives}.

Lemma json_view_set_stx_Hash (s : SignedTx) (h : Hash) :
  json_view_SignedTx (set_stx_Hash s h) = json_view_SignedTx s.
Proof. reflexivity. Qed.

Lemma SignedTx_UpdateHash_set (s : SignedTx) (h : Hash) :
  SignedTx_UpdateHash (set_stx_Hash s h) = SignedTx_UpdateHash s.
Proof. reflexivity. Qed.

Lemma SignedTx_UpdateHash_twice (s : SignedTx) :
  SignedTx_UpdateHash (SignedTx_UpdateHash s) = SignedTx_UpdateHash s.
Proof. reflexivity. Qed.

Lemma map_SignedTx_UpdateHash_view (l : list SignedTx) :
  map SignedTx_UpdateHash (map json_view_SignedTx l)
  = map SignedTx_UpdateHash l.
Proof. rewrite map_map. apply map_ext. intros s. reflexivity. Qed.

Lemma map_view_SignedTx_UpdateHash (l : list SignedTx) :
  map json_view_SignedTx (map SignedTx_UpdateHash l)
  = map json_view_SignedTx l.
Proof. rewrite map_map. apply map_ext. intros s. reflexivity. Qed.

Lemma copy_length (dst src : bytes) : length (copy dst src) = length dst.
Proof.
  unfold copy. rewrite length_app, length_firstn, length_skipn. lia.
Qed.

Lemma copy_twice (dst src : bytes) : copy (copy dst src) src = copy dst src.
Proof.
  unfold copy at 1. rewrite copy_length. unfold copy.
  set (m := Nat.min (length dst) (length src)). f_equal.
  rewrite skipn_app, length_firstn.
  replace (Nat.min m (length src)) with m by (unfold m; lia).
  rewrite Nat.sub_diag. cbn [skipn].
  rewrite (skipn_all2 (firstn m src)) by (rewrite length_firstn; lia).
  reflexivity.
Qed.

(** The digest [Block.UpdateHash] computes does not read the fields it
    writes. *)
Lemma Block_UpdateHash_digest (b : Block) :
  blk_Hash (Block_UpdateHash b)
  = copy (blk_Hash b) (md5_Sum (block_hash_input b)).
Proof.
  unfold Block_UpdateHash, block_hash_input, TxListHash, digest_Sum,
    binary_Write_BigEndian, digest_Write, md5_New.
  cbn. rewrite <- !app_assoc. reflexivity.
Qed.

Lemma block_hash_input_UpdateHash (b : Block) :
  block_hash_input (Block_UpdateHash b) = block_hash_input b.
Proof.
  unfold block_hash_input, TxListHash, Block_UpdateHash,
    json_Marshal_Transactions.
  cbn. rewrite map_view_SignedTx_UpdateHash. reflexivity.
Qed.

Lemma Block_UpdateHash_fields (b : Block) :
  Block_UpdateHash b
  = {| blk_Hash := copy (blk_Hash b) (md5_Sum (block_hash_input b));
       PreviousHash := PreviousHash b; Height := Height b;
       Nonce := Nonce b; RewardOutput := RewardOutput b;
       Transactions := map SignedTx_UpdateHash (Transactions b) |}.
Proof.
  rewrite <- Block_UpdateHash_digest. reflexivity.
Qed.

Lemma Block_UpdateHash_twice (b : Block) :
  Block_UpdateHash (Block_UpdateHash b) = Block_UpdateHash b.
Proof.
  rewrite (Block_UpdateHash_fields (Block_UpdateHash b)).
  rewrite block_hash_input_UpdateHash, (Block_UpdateHash_fields b).
  cbn [blk_Hash PreviousHash Height Nonce RewardOutput Transactions].
  rewrite copy_twice, map_map. reflexivity.
Qed.

(** What [DecodeBlock] makes of the stored text of a block is what
    [UpdateHash] makes of the block. *)
Lemma DecodeBlock_json_view (b : Block) :
  length (blk_Hash b) = md5_Size ->
  DecodeBlock (json_view_Block b) = Block_UpdateHash b.
Proof.
  intros Hlen.
  assert (Hin : block_hash_input (json_view_Block b) = block_hash_input b).
  { unfold block_hash_input, TxListHash, json_Marshal_Transactions. cbn.
    rewrite map_map. reflexivity. }
  unfold DecodeBlock. rewrite !Block_UpdateHash_fields, Hin.
  cbn [json_view_Block set_Transactions set_blk_Hash blk_Hash PreviousHash
       Height Nonce RewardOutput Transactions].
  rewrite map_SignedTx_UpdateHash_view.
  rewrite !copy_full; [reflexivity | | ];
    rewrite md5_Sum_length; [exact Hlen | reflexivity].
Qed.

Lemma json_view_Block_UpdateHash (b : Block) :
  json_view_Block (Block_UpdateHash b) = json_view_Block b.
Proof.
  unfold json_view_Block. rewrite Block_UpdateHash_fields. cbn.
  rewrite map_view_SignedTx_UpdateHash. reflexivity.
Qed.

(** X7: UpdateHash of a block is idempotent, and a block survives the
    store: the text stored for a block does not depend on its hashes, and
    DecodeBlock of that text is the block as UpdateHash makes it, so a
    block that carries its own hashes is read back unchanged. *)
Theorem DecodeBlock_round_trip (b : Block) :
  length (blk_Hash b) = md5_Size ->
  Block_UpdateHash (Block_UpdateHash b) = Block_UpdateHash b
  /\ DecodeBlock (json_view_Block b) = Block_UpdateHash b
  /\ DecodeBlock (json_view_Block (Block_UpdateHash b)) = Block_UpdateHash b
  /\ json_view_Block (Block_UpdateHash b) = json_view_Block b.
Proof.
  intros Hlen.
  split; [apply Block_UpdateHash_twice | ].
  split; [now apply DecodeBlock_json_view | ].
  split; [ | apply json_view_Block_UpdateHash].
  rewrite json_view_Block_UpdateHash. now apply DecodeBlock_json_view.
Qed.

(** X8: a block made by NewBlock on top of [previous] always passes the
    link and the height tests of Valid against [previous], also at the
    largest height, where both sides wrap; it is valid exactly when its
    hash meets the difficulty, the reward is between 0 and 1000, it has at
    most 100 transactions and each transaction is valid. *)
Theorem NewBlock_Valid (previous : Block) (nonce : Z) (addr : Address)
    (blockReward : Z) (stxs : list SignedTx) :
  Block_Valid (NewBlock previous nonce addr blockReward stxs) previous = None
  <-> Hash_Valid (blk_Hash (NewBlock previous nonce addr blockReward stxs))
      = true
      /\ 0 <= blockReward <= MaxBlockReward
      /\ (length stxs <= 100)%nat
      /\ Forall (fun t => SignedTx_Valid t = None) stxs.
Proof.
  unfold NewBlock. rewrite Block_UpdateHash_fields.
  unfold Block_Valid, MaxBlockReward, MaxTransactionsPerBlock. cbn.
  rewrite bytes_eqb_refl, Z.eqb_refl. cbn [negb].
  match goal with |- context [Hash_Valid ?h] => destruct (Hash_Valid h) end;
    cbn [negb].
  2: { split; [discriminate | ]. intros (H & _). discriminate. }
  destruct (Z.ltb_spec blockReward 0); cbn [orb].
  { split; [discriminate | lia]. }
  destruct (Z.gtb_spec blockReward 1000).
  { split; [discriminate | lia]. }
  rewrite length_map.
  destruct (Z.gtb_spec (Z.of_nat (length stxs)) 100).
  { split; [discriminate | lia]. }
  rewrite Transactions_Valid_iff, Forall_map.
  split.
  - intros HT. repeat split; auto; lia.
  - tauto.
Qed.

End HashFacts.

Lemma DecodeBlock_round_trip_witness :
  Block_UpdateHash (Block_UpdateHash sample_block_once)
  = Block_UpdateHash sample_block_once
  /\ DecodeBlock (json_view_Block sample_block_once)
     = Block_UpdateHash sample_block_once
  /\ DecodeBlock (json_view_Block (Block_UpdateHash sample_block_once))
     = Block_UpdateHash sample_block_once
  /\ json_view_Block (Block_UpdateHash sample_block_once)
     = json_view_Block sample_block_once.
Proof. apply (DecodeBlock_round_trip sample_block_once). reflexivity. Defined.

(** ** db.go: what addBlock does to the ledger *)

Section LedgerFacts.
Context {P : Primitives}.

Lemma balance_key_found (h : Hash) (b : Address) (l : list BalanceRow)
    (r : BalanceRow) :
  find (balance_key h b) l = Some r ->
  bal_block_hash r = h /\ bal_address r = b.
Proof.
  intros H. apply find_some in H. destruct H as [_ H].
  unfold balance_key in H. apply andb_true_iff in H.
  rewrite !bytes_eqb_eq in H. exact H.
Qed.

Lemma find_balance_map (g : BalanceRow -> BalanceRow) (h : Hash)
    (b : Address) (l : list BalanceRow) :
  (forall r, bal_block_hash (g r) = bal_block_hash r
             /\ bal_address (g r) = bal_address r) ->
  find (balance_key h b) (map g l) = option_map g (find (balance_key h b) l).
Proof.
  intros Hg. induction l as [ | r l IH]; [reflexivity | ].
  cbn [map find]. unfold balance_key at 1 3.
  destruct (Hg r) as [-> ->].
  destruct (bytes_eqb (bal_block_hash r) h && bytes_eqb (bal_address r) b);
    [reflexivity | exact IH].
Qed.

Lemma balance_at_rows (s : Store) (h : Hash) (a : Address) :
  h <> EmptyHash ->
  balance_at s h a
  = match find (balance_key h a) (balances s) with
    | Some r => bal_balance r
    | None => 0
    end.
Proof.
  intros Hh. unfold balance_at, select_balance.
  rewrite (Hash_Value_not_empty h Hh).
  destruct (find _ _); reflexivity.
Qed.

Lemma balance_at_EmptyHash (s : Store) (a : Address) :
  balance_at s EmptyHash a = 0.
Proof. reflexivity. Qed.

(** Two stores with the same balance rows have the same balance maps. *)
Lemma balance_at_ext (s s' : Store) :
  balances s' = balances s ->
  forall h a, balance_at s' h a = balance_at s h a.
Proof.
  intros E h a. unfold balance_at, select_balance. now rewrite E.
Qed.

(** Updating the balance of the rows of one key. *)
Lemma balance_at_update (f : Z -> Z) (n : Hash) (a : Address) (s : Store)
    (h : Hash) (b : Address) :
  balance_at
    (set_balances s
       (map (fun r =>
               if balance_key n a r then
                 {| bal_block_hash := bal_block_hash r;
                    bal_address := bal_address r;
                    bal_balance := f (bal_balance r) |}
               else r) (balances s))) h b
  = if bytes_eqb h n && bytes_eqb b a
       && existsb (balance_key n a) (balances s)
       && negb (bytes_eqb h EmptyHash)
    then f (balance_at s h b) else balance_at s h b.
Proof.
  unfold balance_at, select_balance, Hash_Value.
  destruct (bytes_eqb h EmptyHash) eqn:Eh.
  { rewrite !andb_false_r. reflexivity. }
  rewrite andb_true_r. cbn [balances set_balances].
  rewrite find_balance_map.
  2: { intros r. destruct (balance_key n a r); split; reflexivity. }
  destruct (find (balance_key h b) (balances s)) as [r | ] eqn:Ef;
    cbn [option_map].
  - destruct (balance_key_found _ _ _ _ Ef) as [Er1 Er2].
    unfold balance_key at 1. rewrite Er1, Er2.
    destruct (bytes_eqb h n && bytes_eqb b a) eqn:Ek; cbn [andb].
    + apply andb_true_iff in Ek. rewrite !bytes_eqb_eq in Ek.
      destruct Ek; subst n a. rewrite find_existsb, Ef. reflexivity.
    + reflexivity.
  - destruct (bytes_eqb h n && bytes_eqb b a) eqn:Ek; cbn [andb];
      [ | reflexivity].
    apply andb_true_iff in Ek. rewrite !bytes_eqb_eq in Ek.
    destruct Ek; subst n a. rewrite find_existsb, Ef. reflexivity.
Qed.

Lemma balance_at_exists (s : Store) (n : Hash) (a : Address) :
  balance_at s n a <> 0 ->
  existsb (balance_key n a) (balances s) = true
  /\ bytes_eqb n EmptyHash = false.
Proof.
  unfold balance_at, select_balance, Hash_Value.
  destruct (bytes_eqb n EmptyHash); [intros H; now contradiction H | ].
  rewrite find_existsb.
  destruct (find _ _); [auto | intros H; now contradiction H].
Qed.

(** The UPDATE of [addBlock] takes [v] from the balance at [n], [a], when
    there is a row for it. *)
Lemma balance_at_debit (v : Z) (n : Hash) (a : Address) (s s' : Store) :
  balance_at s n a <> 0 ->
  debit_balance v n a s = (Ok tt, s') ->
  (forall h b,
      balance_at s' h b
      = balance_at s h b
        - (if bytes_eqb h n && bytes_eqb b a then v else 0))
  /\ blocks s' = blocks s /\ txs s' = txs s
  /\ included_txs s' = included_txs s /\ block_txs s' = block_txs s
  /\ peers s' = peers s.
Proof.
  intros Hb. destruct (balance_at_exists s n a Hb) as [Hex Hn].
  unfold debit_balance, Hash_Value. rewrite Hn.
  intros H. inversion H; subst s'. clear H.
  split; [ | repeat split].
  intros h b. rewrite (balance_at_update (fun x => x - v)), Hex, andb_true_r.
  destruct (bytes_eqb h n && bytes_eqb b a) eqn:Ek; cbn [andb]; [ | lia].
  apply andb_true_iff in Ek. destruct Ek as [Ek _].
  apply bytes_eqb_eq in Ek. subst h. rewrite Hn. cbn [negb]. lia.
Qed.

(** The upsert of [addBlock] adds [v] to the balance at [n], [a]. *)
Lemma balance_at_credit (n : Hash) (a : Address) (v : Z) (s s' : Store) :
  credit_balance n a v s = (Ok tt, s') ->
  (forall h b,
      balance_at s' h b
      = balance_at s h b
        + (if bytes_eqb h n && bytes_eqb b a then v else 0))
  /\ blocks s' = blocks s /\ txs s' = txs s
  /\ included_txs s' = included_txs s /\ block_txs s' = block_txs s
  /\ peers s' = peers s.
Proof.
  unfold credit_balance, Hash_Value.
  destruct (bytes_eqb n EmptyHash) eqn:Hn; [discriminate | ].
  destruct (existsb (balance_key n a) (balances s)) eqn:Hex;
    intros H; inversion H; subst s'; clear H;
    (split; [ | repeat split]); intros h b.
  - rewrite (balance_at_update (fun x => x + v)), Hex, andb_true_r.
    destruct (bytes_eqb h n && bytes_eqb b a) eqn:Ek; cbn [andb]; [ | lia].
    apply andb_true_iff in Ek. destruct Ek as [Ek _].
    apply bytes_eqb_eq in Ek. subst h. rewrite Hn. cbn [negb]. lia.
  - unfold balance_at, select_balance, Hash_Value.
    destruct (bytes_eqb h EmptyHash) eqn:Eh.
    { destruct (bytes_eqb h n) eqn:E; [ | reflexivity].
      apply bytes_eqb_eq in E. congruence. }
    cbn [balances set_balances option_map].
    rewrite find_existsb in Hex.
    destruct (find (balance_key h b) (balances s)) as [r | ] eqn:Ef.
    + rewrite find_app_last, Ef. cbn [option_map].
      destruct (bytes_eqb h n && bytes_eqb b a) eqn:Ek; [ | lia].
      apply andb_true_iff in Ek. rewrite !bytes_eqb_eq in Ek.
      destruct Ek; subst h b. rewrite Ef in Hex. discriminate.
    + rewrite find_app_last, Ef.
      unfold balance_key at 1. cbn [bal_block_hash bal_address].
      rewrite (bytes_eqb_sym n h), (bytes_eqb_sym a b).
      destruct (bytes_eqb h n && bytes_eqb b a); cbn [option_map bal_balance];
        lia.
Qed.


Lemma validTx_ok (t : SignedTx) (tip : Hash) (s s' : Store) :
  validTx t tip s = (Ok tt, s') ->
  s' = s /\ SignedTx_Valid t = None
  /\ Tx_RequiredBalance t <= balance_at s tip (Source t)
  /\ select_included tip (stx_Hash t) s = false.
Proof.
  unfold validTx, bind, check.
  destruct (SignedTx_Valid t) eqn:Ev; [discriminate | ]. cbn [ret].
  fold (balance_at s tip (Source t)).
  destruct (Z.ltb_spec (balance_at s tip (Source t)) (Tx_RequiredBalance t));
    [discriminate | ].
  destruct (select_included tip (stx_Hash t) s) eqn:Ei; [discriminate | ].
  intros E. inversion E; subst s'. repeat split; auto.
Qed.

(** One turn of the loop of [addBlock] that goes through: the transaction
    is valid and covered by the balance of its source under the new block,
    it was not in the inclusion set of the new block and now is, it is
    stored, and the balance map of the new block is the old one with the
    transaction applied; the balance maps of other blocks are as before. *)
Lemma addBlock_tx_effect (block : Block) (t : SignedTx) (s s' : Store) :
  int64_amounts t ->
  addBlock_tx block t s = (Ok tt, s') ->
  SignedTx_Valid t = None
  /\ (Amount t > 0 /\ Fee t >= 0
      /\ Amount t + Fee t <= balance_at s (blk_Hash block) (Source t))
  /\ select_included (blk_Hash block) (stx_Hash t) s = false
  /\ (forall h a,
        balance_at s' h a
        = if bytes_eqb h (blk_Hash block)
          then apply_tx (balance_at s h) t a else balance_at s h a)
  /\ blocks s' = blocks s /\ peers s' = peers s
  /\ included_txs s'
     = included_txs s
       ++ [{| lnk_block_hash := blk_Hash block; lnk_tx_hash := stx_Hash t |}]
  /\ block_txs s'
     = block_txs s
       ++ [{| lnk_block_hash := blk_Hash block; lnk_tx_hash := stx_Hash t |}]
  /\ stx_Hash t <> EmptyHash /\ blk_Hash block <> EmptyHash
  /\ existsb (tx_key (stx_Hash t)) (txs s') = true
  /\ (forall r, In r (txs s) -> In r (txs s')).
Proof.
  intros Hty. unfold addBlock_tx, bind.
  destruct (validTx t (blk_Hash block) s) as [[[] | e] s0] eqn:Ev;
    [ | discriminate].
  apply validTx_ok in Ev. destruct Ev as (-> & Hv & Hbal & Hinc).
  destruct (SignedTx_Valid_amounts t Hty Hv) as (Ha & Hf & Hreq).
  rewrite Hreq in Hbal.
  destruct (debit_balance _ _ _ s) as [[[] | e] s1] eqn:E1; [ | discriminate].
  rewrite Hreq in E1.
  apply balance_at_debit in E1; [ | lia].
  destruct E1 as (D & D1 & D2 & D3 & D4 & D5).
  destruct (credit_balance _ _ _ s1) as [[[] | e] s2] eqn:E2;
    [ | discriminate].
  assert (Hn : blk_Hash block <> EmptyHash).
  { intros En. unfold credit_balance in E2. rewrite En in E2. discriminate. }
  apply balance_at_credit in E2.
  destruct E2 as (C & C1 & C2 & C3 & C4 & C5).
  unfold addTx, insert_included_tx, insert_block_tx.
  rewrite (Hash_Value_not_empty _ Hn).
  destruct (Hash_Value (stx_Hash t)) as [x | ] eqn:Ex; [ | discriminate].
  pose proof (Hash_Value_Some _ _ Ex) as ->.
  assert (Hx : stx_Hash t <> EmptyHash).
  { intros En. rewrite En in Ex. discriminate. }
  set (s3 := if existsb (tx_key (stx_Hash t)) (txs s2) then s2
             else set_txs s2 (txs s2
                              ++ [{| txr_hash := stx_Hash t;
                                     txr_tx := json_view_SignedTx t |}])).
  assert (E3 : (if existsb (tx_key (stx_Hash t)) (txs s2)
                then (Ok tt, s2)
                else (Ok tt, set_txs s2 (txs s2
                              ++ [{| txr_hash := stx_Hash t;
                                     txr_tx := json_view_SignedTx t |}])))
               = (Ok tt, s3)).
  { unfold s3. destruct (existsb _ _); reflexivity. }
  rewrite E3.
  assert (T3 : blocks s3 = blocks s2 /\ balances s3 = balances s2
               /\ included_txs s3 = included_txs s2
               /\ block_txs s3 = block_txs s2 /\ peers s3 = peers s2
               /\ existsb (tx_key (stx_Hash t)) (txs s3) = true
               /\ (forall r, In r (txs s2) -> In r (txs s3))).
  { unfold s3. destruct (existsb _ (txs s2)) eqn:Et; repeat split; auto.
    - cbn [txs set_txs]. rewrite existsb_app. cbn. unfold tx_key. cbn.
      rewrite bytes_eqb_refl. apply orb_true_iff. right. reflexivity.
    - intros r Hr. cbn [txs set_txs]. apply in_or_app. now left. }
  destruct T3 as (T1 & T2 & T3 & T4 & T5 & T6 & T7).
  unfold select_included in Hinc.
  rewrite (Hash_Value_not_empty _ Hn), Ex in Hinc.
  rewrite T3, C3, D3, Hinc.
  cbn [block_txs set_included_txs].
  destruct (existsb _ (block_txs s3)); [discriminate | ].
  intros H. inversion H; subst s'. clear H.
  cbn [blocks peers included_txs block_txs txs set_block_txs
       set_included_txs].
  split; [exact Hv | ]. split; [lia | ].
  split.
  { unfold select_included.
    now rewrite (Hash_Value_not_empty _ Hn), Ex. }
  split.
  { intros h a.
    rewrite (balance_at_ext s3) by reflexivity.
    rewrite (balance_at_ext _ _ T2), C, D. unfold apply_tx.
    destruct (bytes_eqb h (blk_Hash block)); cbn [andb]; [ | lia].
    destruct (bytes_eqb a (Source t)), (bytes_eqb a (Destination t)); lia. }
  split; [congruence | ]. split; [congruence | ].
  split; [congruence | ]. split; [congruence | ].
  split; [exact Hx | ]. split; [exact Hn | ].
  split; [exact T6 | ].
  intros r Hr. apply T7. rewrite C2, D2. exact Hr.
Qed.


Lemma apply_tx_nonneg (f : Address -> Z) (t : SignedTx) :
  Amount t > 0 -> Fee t >= 0 -> Amount t + Fee t <= f (Source t) ->
  (forall a, 0 <= f a) -> forall a, 0 <= apply_tx f t a.
Proof.
  intros Ha Hf Hb Hpos a. unfold apply_tx. specialize (Hpos a).
  destruct (bytes_eqb a (Source t)) eqn:Es;
    destruct (bytes_eqb a (Destination t)); try lia;
    apply bytes_eqb_eq in Es; subst a; lia.
Qed.

Lemma select_included_app (n x : Hash) (s s' : Store) (l : list LinkRow) :
  included_txs s' = included_txs s ++ l ->
  select_included n x s' = false -> select_included n x s = false.
Proof.
  unfold select_included. intros ->.
  destruct (Hash_Value n); [ | auto]. destruct (Hash_Value x); [ | auto].
  rewrite existsb_app. intros H. apply orb_false_iff in H. tauto.
Qed.

(** The loop of [addBlock] when it goes through. *)
Lemma addBlock_txs_effect (block : Block) (l : list SignedTx) :
  Forall (fun t : SignedTx => int64_amounts t) l ->
  forall fee fee' s s',
    addBlock_txs block fee l s = (Ok fee', s') ->
    fee' = fold_left (fun f (t : SignedTx) => add64 f (Fee t)) l fee
    /\ (forall a, balance_at s' (blk_Hash block) a
                  = apply_txs (balance_at s (blk_Hash block)) l a)
    /\ (forall h a, h <> blk_Hash block ->
                    balance_at s' h a = balance_at s h a)
    /\ ((forall a, 0 <= balance_at s (blk_Hash block) a) ->
        forall k a,
          0 <= apply_txs (balance_at s (blk_Hash block)) (firstn k l) a)
    /\ blocks s' = blocks s /\ peers s' = peers s
    /\ included_txs s'
       = included_txs s
         ++ map (fun t => {| lnk_block_hash := blk_Hash block;
                             lnk_tx_hash := stx_Hash t |}) l
    /\ block_txs s'
       = block_txs s
         ++ map (fun t => {| lnk_block_hash := blk_Hash block;
                             lnk_tx_hash := stx_Hash t |}) l
    /\ Forall (fun t => SignedTx_Valid t = None
                        /\ stx_Hash t <> EmptyHash
                        /\ existsb (tx_key (stx_Hash t)) (txs s') = true) l
    /\ (forall r, In r (txs s) -> In r (txs s'))
    /\ (forall t, In t l ->
                  select_included (blk_Hash block) (stx_Hash t) s = false)
    /\ NoDup (map stx_Hash l).
Proof.
  induction l as [ | t l IH]; intros Hty fee fee' s s'; cbn [addBlock_txs].
  - intros H. inversion H; subst.
    split; [reflexivity | ]. split; [reflexivity | ].
    split; [reflexivity | ].
    split; [intros Hpos k a; rewrite firstn_nil; apply Hpos | ].
    split; [reflexivity | ]. split; [reflexivity | ].
    split; [now rewrite app_nil_r | ]. split; [now rewrite app_nil_r | ].
    split; [constructor | ]. split; [auto | ].
    split; [intros t [] | constructor].
  - inversion Hty as [ | ? ? Ht Hl]; subst. unfold bind.
    destruct (addBlock_tx block t s) as [[[] | e] s1] eqn:E1;
      [ | discriminate].
    destruct (addBlock_tx_effect block t s s1 Ht E1)
      as (Hv & (Ha & Hf & Hb) & Hinc & B & Bk & Pk & I1 & K1 & Hx & Hn
          & T1 & M1).
    intros E. destruct (IH Hl _ _ _ _ E)
      as (F' & B' & O' & N' & Bk' & Pk' & I' & K' & V' & M' & S' & D').
    assert (Bn : forall a, balance_at s1 (blk_Hash block) a
                           = apply_tx (balance_at s (blk_Hash block)) t a).
    { intros a. rewrite B, bytes_eqb_refl. reflexivity. }
    split; [exact F' | ].
    split.
    { intros a. rewrite B'. cbn [apply_txs fold_left].
      apply (apply_txs_ext l). exact Bn. }
    split.
    { intros h a Hh. rewrite (O' h a Hh), B.
      apply bytes_eqb_neq in Hh. now rewrite Hh. }
    split.
    { intros Hpos [ | k] a; cbn [firstn]; [apply Hpos | ].
      cbn [apply_txs fold_left].
      fold (apply_txs (apply_tx (balance_at s (blk_Hash block)) t)
                      (firstn k l)).
      rewrite <- (apply_txs_ext (firstn k l) _ _ Bn).
      apply N'. intros a'. rewrite Bn.
      now apply apply_tx_nonneg. }
    split; [congruence | ]. split; [congruence | ].
    split; [rewrite I', I1, <- app_assoc; reflexivity | ].
    split; [rewrite K', K1, <- app_assoc; reflexivity | ].
    split.
    { constructor; [ | exact V'].
      split; [exact Hv | split; [exact Hx | ] ].
      apply existsb_exists in T1. destruct T1 as (r & Hr & Hk).
      apply existsb_exists. exists r. split; [now apply M' | exact Hk]. }
    split; [intros r Hr; now apply M', M1 | ].
    split.
    { intros t' [<- | Ht']; [exact Hinc | ].
      apply (select_included_app _ _ s s1 _ I1). now apply S'. }
    cbn [map]. constructor; [ | exact D'].
    intros Hin. apply in_map_iff in Hin. destruct Hin as (t' & Eh & Ht').
    specialize (S' t' Ht'). unfold select_included in S'.
    rewrite (Hash_Value_not_empty _ Hn) in S'. rewrite Eh in S'.
    rewrite (Hash_Value_not_empty _ Hx), I1, existsb_app in S'.
    cbn [existsb] in S'. rewrite link_key_refl in S'.
    rewrite orb_true_r in S'. discriminate.
Qed.


Lemma find_app_first {T : Type} (q : T -> bool) (l l' : list T) :
  find q (l ++ l')
  = match find q l with Some y => Some y | None => find q l' end.
Proof.
  induction l as [ | y l IH]; cbn; [reflexivity | ].
  destruct (q y); auto.
Qed.

Lemma find_none_free (n : Hash) (a : Address) (l : list BalanceRow) :
  (forall r, In r l -> bytes_eqb (bal_block_hash r) n = false) ->
  find (balance_key n a) l = None.
Proof.
  intros Hfree. destruct (find _ l) as [r | ] eqn:Ef; [ | reflexivity].
  destruct (balance_key_found _ _ _ _ Ef) as [E _].
  apply find_some in Ef. destruct Ef as [Hin _].
  apply Hfree in Hin. rewrite E, bytes_eqb_refl in Hin. discriminate.
Qed.

Lemma find_copied_balance (n p : Hash) (a : Address) (l : list BalanceRow) :
  option_map bal_balance
    (find (balance_key n a)
       (map (fun r => {| bal_block_hash := n; bal_address := bal_address r;
                         bal_balance := bal_balance r |})
            (filter (fun r => bytes_eqb (bal_block_hash r) p) l)))
  = option_map bal_balance (find (balance_key p a) l).
Proof.
  induction l as [ | r l IH]; [reflexivity | ].
  cbn [filter find]. unfold balance_key at 2.
  destruct (bytes_eqb (bal_block_hash r) p); cbn [andb map find].
  - unfold balance_key at 1. cbn [bal_block_hash bal_address].
    rewrite bytes_eqb_refl. cbn [andb].
    destruct (bytes_eqb (bal_address r) a); [reflexivity | exact IH].
  - exact IH.
Qed.

Lemma find_other_copied (n h : Hash) (a : Address) (l : list BalanceRow) :
  h <> n ->
  find (balance_key h a)
       (map (fun r => {| bal_block_hash := n; bal_address := bal_address r;
                         bal_balance := bal_balance r |}) l) = None.
Proof.
  intros Hh. induction l as [ | r l IH]; [reflexivity | ].
  cbn [map find]. unfold balance_key at 1. cbn [bal_block_hash].
  assert (E : bytes_eqb n h = false) by (apply bytes_eqb_neq; congruence).
  rewrite E. exact IH.
Qed.

(** The first INSERT ... SELECT of [addBlock] gives the new block the
    balance map of its parent. *)
Lemma balance_at_copy (n p : Hash) (s s' : Store) :
  n <> EmptyHash ->
  (forall r, In r (balances s) -> bytes_eqb (bal_block_hash r) n = false) ->
  copy_balances n p s = (Ok tt, s') ->
  (forall a, balance_at s' n a = balance_at s p a)
  /\ (forall h a, h <> n -> balance_at s' h a = balance_at s h a)
  /\ blocks s' = blocks s /\ txs s' = txs s
  /\ included_txs s' = included_txs s /\ block_txs s' = block_txs s
  /\ peers s' = peers s.
Proof.
  intros Hn Hfree. unfold copy_balances.
  assert (Hrows : forall a,
             option_map bal_balance
               (find (balance_key n a)
                  (balances s
                   ++ map (fun r => {| bal_block_hash := n;
                                       bal_address := bal_address r;
                                       bal_balance := bal_balance r |})
                          match Hash_Value p with
                          | Some k =>
                            filter (fun r => bytes_eqb (bal_block_hash r) k)
                                   (balances s)
                          | None => []
                          end))
             = select_balance p a s).
  { intros a. rewrite find_app_first, (find_none_free n a _ Hfree).
    unfold select_balance. destruct (Hash_Value p) as [k | ];
      [apply find_copied_balance | reflexivity]. }
  assert (Hothers : forall h a l,
             h <> n ->
             find (balance_key h a)
                  (balances s
                   ++ map (fun r => {| bal_block_hash := n;
                                       bal_address := bal_address r;
                                       bal_balance := bal_balance r |}) l)
             = find (balance_key h a) (balances s)).
  { intros h a l Hh. rewrite find_app_first, (find_other_copied n h a l Hh).
    destruct (find _ (balances s)); reflexivity. }
  destruct (match Hash_Value p with
            | Some k => filter _ (balances s)
            | None => []
            end) as [ | r0 sel] eqn:Esel.
  - intros H. inversion H; subst s'. clear H.
    split; [ | repeat split].
    intros a. unfold balance_at at 2. rewrite <- Hrows. cbn [map].
    rewrite app_nil_r. unfold balance_at, select_balance.
    rewrite (Hash_Value_not_empty n Hn). reflexivity.
  - rewrite (Hash_Value_not_empty n Hn).
    destruct (insert_rows _ _ _) as [tbl | ] eqn:Ei; [ | discriminate].
    apply insert_rows_Some in Ei. subst tbl.
    intros H. injection H as <-.
    split; [ | split; [ | repeat split] ].
    + intros a. unfold balance_at at 2. rewrite <- Hrows.
      unfold balance_at, select_balance.
      rewrite (Hash_Value_not_empty n Hn). reflexivity.
    + intros h a Hh. unfold balance_at, select_balance.
      destruct (Hash_Value h) as [k | ] eqn:Ek; [ | reflexivity].
      apply Hash_Value_Some in Ek. subst k.
      generalize (Hothers h a (r0 :: sel) Hh).
      cbn [map balances set_balances]. intros ->. reflexivity.
Qed.


Lemma existsb_copied_link (n p x : Hash) (l : list LinkRow) :
  existsb (link_key n x)
          (map (fun r => {| lnk_block_hash := n; lnk_tx_hash := lnk_tx_hash r |})
               (filter (fun r => bytes_eqb (lnk_block_hash r) p) l))
  = existsb (link_key p x) l.
Proof.
  induction l as [ | r l IH]; [reflexivity | ].
  cbn [filter existsb]. unfold link_key at 2.
  destruct (bytes_eqb (lnk_block_hash r) p); cbn [andb map existsb].
  - unfold link_key at 1. cbn [lnk_block_hash lnk_tx_hash].
    rewrite bytes_eqb_refl, IH. reflexivity.
  - exact IH.
Qed.

Lemma existsb_other_link (n h x : Hash) (l : list LinkRow) :
  h <> n ->
  existsb (link_key h x)
          (map (fun r => {| lnk_block_hash := n; lnk_tx_hash := lnk_tx_hash r |})
               l) = false.
Proof.
  intros Hh. induction l as [ | r l IH]; [reflexivity | ].
  cbn [map existsb]. unfold link_key at 1. cbn [lnk_block_hash].
  assert (E : bytes_eqb n h = false) by (apply bytes_eqb_neq; congruence).
  rewrite E. exact IH.
Qed.

Lemma existsb_free_link (n x : Hash) (l : list LinkRow) :
  (forall r, In r l -> bytes_eqb (lnk_block_hash r) n = false) ->
  existsb (link_key n x) l = false.
Proof.
  intros Hfree. apply not_true_is_false. intros H.
  apply existsb_exists in H. destruct H as (r & Hin & Hk).
  unfold link_key in Hk. apply andb_true_iff in Hk.
  rewrite (Hfree r Hin) in Hk. destruct Hk. discriminate.
Qed.

(** The second INSERT ... SELECT of [addBlock] gives the new block the
    inclusion set of its parent. *)
Lemma select_included_copy (n p : Hash) (s s' : Store) :
  n <> EmptyHash ->
  (forall r, In r (included_txs s) ->
             bytes_eqb (lnk_block_hash r) n = false) ->
  copy_included_txs n p s = (Ok tt, s') ->
  (forall x, select_included n x s' = select_included p x s)
  /\ (forall h x, h <> n -> select_included h x s' = select_included h x s)
  /\ blocks s' = blocks s /\ balances s' = balances s /\ txs s' = txs s
  /\ block_txs s' = block_txs s /\ peers s' = peers s.
Proof.
  intros Hn Hfree. unfold copy_included_txs.
  assert (Hrows : forall x,
             existsb (link_key n x)
               (included_txs s
                ++ map (fun r => {| lnk_block_hash := n;
                                    lnk_tx_hash := lnk_tx_hash r |})
                       match Hash_Value p with
                       | Some k =>
                         filter (fun r => bytes_eqb (lnk_block_hash r) k)
                                (included_txs s)
                       | None => []
                       end)
             = match Hash_Value p with
               | Some k => existsb (link_key k x) (included_txs s)
               | None => false
               end).
  { intros x. rewrite existsb_app, (existsb_free_link n x _ Hfree).
    cbn [orb]. destruct (Hash_Value p) as [k | ];
      [apply existsb_copied_link | reflexivity]. }
  assert (Hsel : forall x l,
             included_txs s
             ++ map (fun r => {| lnk_block_hash := n;
                                 lnk_tx_hash := lnk_tx_hash r |})
                    match Hash_Value p with
                    | Some k =>
                      filter (fun r => bytes_eqb (lnk_block_hash r) k)
                             (included_txs s)
                    | None => []
                    end = l ->
             match Hash_Value n, Hash_Value x with
             | Some k, Some t => existsb (link_key k t) l
             | _, _ => false
             end = select_included p x s).
  { intros x l <-. unfold select_included.
    rewrite (Hash_Value_not_empty n Hn).
    destruct (Hash_Value x) as [t | ].
    - apply Hrows.
    - destruct (Hash_Value p); reflexivity. }
  assert (Hothers : forall h x l,
             h <> n ->
             existsb (link_key h x)
                     (included_txs s
                      ++ map (fun r => {| lnk_block_hash := n;
                                          lnk_tx_hash := lnk_tx_hash r |}) l)
             = existsb (link_key h x) (included_txs s)).
  { intros h x l Hh. rewrite existsb_app, (existsb_other_link n h x l Hh).
    apply orb_false_r. }
  destruct (match Hash_Value p with
            | Some k => filter _ (included_txs s)
            | None => []
            end) as [ | r0 sel] eqn:Esel.
  - intros H. injection H as <-.
    split; [ | repeat split].
    intros x. apply Hsel. cbn [map]. apply app_nil_r.
  - rewrite (Hash_Value_not_empty n Hn).
    destruct (insert_rows _ _ _) as [tbl | ] eqn:Ei; [ | discriminate].
    apply insert_rows_Some in Ei. subst tbl.
    intros H. injection H as <-.
    split; [ | split; [ | repeat split] ].
    + intros x. apply Hsel. reflexivity.
    + intros h x Hh. unfold select_included.
      destruct (Hash_Value h) as [k | ] eqn:Ek; [ | reflexivity].
      apply Hash_Value_Some in Ek. subst k.
      destruct (Hash_Value x) as [t | ]; [ | reflexivity].
      generalize (Hothers h t (r0 :: sel) Hh).
      cbn [map included_txs set_included_txs]. intros ->. reflexivity.
Qed.

Lemma find_filter_nonzero (h : Hash) (a : Address) (l : list BalanceRow) :
  unique_b same_balance_key l = true ->
  match find (balance_key h a)
             (filter (fun r => negb (bal_balance r =? 0)) l) with
  | Some r => bal_balance r
  | None => 0
  end
  = match find (balance_key h a) l with
    | Some r => bal_balance r
    | None => 0
    end.
Proof.
  induction l as [ | r l IH]; [reflexivity | ].
  cbn [unique_b filter find]. intros Hu.
  apply andb_true_iff in Hu. destruct Hu as [Hr Hu].
  destruct (balance_key h a r) eqn:Ek.
  - destruct (Z.eqb_spec (bal_balance r) 0) as [E0 | E0]; cbn [negb find].
    + rewrite (IH Hu), E0.
      unfold balance_key in Ek. apply andb_true_iff in Ek.
      rewrite !bytes_eqb_eq in Ek. destruct Ek as [E1 E2].
      unfold same_balance_key in Hr. rewrite E1, E2 in Hr.
      rewrite find_existsb in Hr.
      destruct (find (balance_key h a) l); [discriminate | reflexivity].
    + rewrite Ek. reflexivity.
  - destruct (negb (bal_balance r =? 0)); cbn [find];
      [rewrite Ek | ]; exact (IH Hu).
Qed.

(** The DELETE that ends [addBlock] changes no balance map and leaves no
    row that holds zero. *)
Lemma balance_at_delete_zero (s s' : Store) :
  unique_b same_balance_key (balances s) = true ->
  delete_zero_balances s = (Ok tt, s') ->
  (forall h a, balance_at s' h a = balance_at s h a)
  /\ (forall r, In r (balances s') -> bal_balance r <> 0)
  /\ blocks s' = blocks s /\ txs s' = txs s
  /\ included_txs s' = included_txs s /\ block_txs s' = block_txs s
  /\ peers s' = peers s.
Proof.
  intros Hu. unfold delete_zero_balances. intros H. injection H as <-.
  split; [ | split; [ | repeat split] ].
  - intros h a. unfold balance_at, select_balance.
    destruct (Hash_Value h) as [k | ]; [ | reflexivity].
    cbn [balances set_balances].
    pose proof (find_filter_nonzero k a (balances s) Hu) as E.
    destruct (find _ (filter _ _)), (find _ (balances s)); exact E.
  - intros r Hr. cbn [balances set_balances] in Hr.
    apply filter_In in Hr. destruct Hr as [_ Hr].
    destruct (Z.eqb_spec (bal_balance r) 0); [discriminate | assumption].
Qed.


Lemma existsb_tx_links (n x : Hash) (l : list SignedTx) :
  existsb (link_key n x)
          (map (fun t => {| lnk_block_hash := n; lnk_tx_hash := stx_Hash t |})
               l)
  = holds_tx l x.
Proof.
  unfold holds_tx. induction l as [ | t l IH]; [reflexivity | ].
  cbn [map existsb]. unfold link_key at 1. cbn [lnk_block_hash lnk_tx_hash].
  now rewrite bytes_eqb_refl, IH.
Qed.

Lemma existsb_other_tx_links (n h x : Hash) (l : list SignedTx) :
  h <> n ->
  existsb (link_key h x)
          (map (fun t => {| lnk_block_hash := n; lnk_tx_hash := stx_Hash t |})
               l)
  = false.
Proof.
  intros Hh. induction l as [ | t l IH]; [reflexivity | ].
  cbn [map existsb]. unfold link_key at 1. cbn [lnk_block_hash].
  assert (E : bytes_eqb n h = false) by (apply bytes_eqb_neq; congruence).
  rewrite E. exact IH.
Qed.

Lemma holds_tx_EmptyHash (l : list SignedTx) :
  Forall (fun t => stx_Hash t <> EmptyHash) l -> holds_tx l EmptyHash = false.
Proof.
  unfold holds_tx. induction 1 as [ | t l Ht _ IH]; [reflexivity | ].
  cbn [existsb]. rewrite IH. apply bytes_eqb_neq in Ht. now rewrite Ht.
Qed.

(** What a successful [addBlock] of a block that was not stored has
    done. *)
Lemma addBlock_new_effect (block : Block) (s s' : Store) :
  Store_consistent s ->
  select_block (blk_Hash block) s = None ->
  Forall (fun t : SignedTx => int64_amounts t) (Transactions block) ->
  addBlock block s = (Ok tt, s') ->
  exists row,
    select_block (PreviousHash block) s = Some row
    /\ Block_Valid block (DecodeBlock (row_block row)) = None
    /\ blk_Hash block <> EmptyHash
    /\ blocks s'
       = blocks s
         ++ [{| row_hash := blk_Hash block;
                row_previous_hash := Hash_Value (PreviousHash block);
                row_height := Height block;
                row_block := json_view_Block block |}]
    /\ peers s' = peers s
    /\ (forall a,
          balance_at s' (blk_Hash block) a
          = apply_txs (balance_at s (PreviousHash block))
                      (Transactions block) a
            + (if bytes_eqb a (Destination (RewardOutput block))
               then Z.max 0 (collected_fee block) else 0))
    /\ (forall h a, h <> blk_Hash block ->
                    balance_at s' h a = balance_at s h a)
    /\ ((forall a, 0 <= balance_at s (PreviousHash block) a) ->
        forall k a,
          0 <= apply_txs (balance_at s (PreviousHash block))
                         (firstn k (Transactions block)) a)
    /\ (forall r, In r (balances s') -> bal_balance r <> 0)
    /\ (forall x,
          select_included (blk_Hash block) x s'
          = select_included (PreviousHash block) x s
            || holds_tx (Transactions block) x)
    /\ (forall h x, h <> blk_Hash block ->
                    select_included h x s' = select_included h x s)
    /\ block_txs s'
       = block_txs s
         ++ map (fun t => {| lnk_block_hash := blk_Hash block;
                             lnk_tx_hash := stx_Hash t |})
                (Transactions block)
    /\ Forall (fun t => SignedTx_Valid t = None
                        /\ stx_Hash t <> EmptyHash
                        /\ existsb (tx_key (stx_Hash t)) (txs s') = true)
              (Transactions block)
    /\ (forall r, In r (txs s) -> In r (txs s'))
    /\ (forall t, In t (Transactions block) ->
                  select_included (PreviousHash block) (stx_Hash t) s = false)
    /\ NoDup (map stx_Hash (Transactions block)).
Proof.
  intros Hcons Hnew Hty.
  pose proof (proj1 (Store_consistent_parts s) Hcons) as Hc.
  unfold addBlock.
  destruct (select_block (PreviousHash block) s) as [row | ];
    [ | discriminate].
  unfold insert_block.
  destruct (Hash_Value (blk_Hash block)) as [n | ] eqn:En.
  2: { cbn. discriminate. }
  pose proof (Hash_Value_Some _ _ En) as ->.
  assert (Hn : blk_Hash block <> EmptyHash).
  { intros E. rewrite E in En. discriminate. }
  destruct (not_stored_no_rows s _ Hcons Hn Hnew) as (Fb & Fi & Fk).
  assert (Ex : existsb (has_hash (blk_Hash block)) (blocks s) = false).
  { unfold select_block in Hnew. rewrite En in Hnew.
    rewrite find_existsb, Hnew. reflexivity. }
  rewrite Ex.
  set (newrow := {| row_hash := blk_Hash block;
                    row_previous_hash := Hash_Value (PreviousHash block);
                    row_height := Height block;
                    row_block := json_view_Block block |}).
  set (s1 := set_blocks s (blocks s ++ [newrow])).
  assert (Hn1 : refers_to_block s1 (blk_Hash block) = true).
  { unfold refers_to_block, s1. cbn [blocks set_blocks].
    rewrite existsb_app. cbn. unfold has_hash. cbn.
    rewrite bytes_eqb_refl. apply orb_true_iff. right. reflexivity. }
  assert (C1 : consistent_parts s1).
  { destruct Hc as (U1 & U2 & F1 & F2 & F3).
    assert (M : forall h, refers_to_block s h = true ->
                          refers_to_block s1 h = true).
    { intros h Hh. unfold refers_to_block, s1 in *. cbn [blocks set_blocks].
      now apply existsb_app_l. }
    repeat split; auto; cbn [balances included_txs block_txs s1 set_blocks];
      [revert F1 | revert F2 | revert F3]; apply Forall_impl;
      intros r; apply M. }
  unfold addBlock_body, bind.
  destruct (copy_balances _ _ s1) as [[[] | e] s2] eqn:E2; [ | discriminate].
  destruct (copy_balances_consistent _ _ _ _ C1 Hn1 E2) as [C2 B2].
  assert (Hn2 : refers_to_block s2 (blk_Hash block) = true)
    by (unfold refers_to_block in *; now rewrite B2).
  destruct (balance_at_copy _ _ s1 s2 Hn Fb E2)
    as (Q1 & Q2 & _ & Q4 & Q5 & Q6 & Q7).
  destruct (copy_included_txs _ _ s2) as [[[] | e] s3] eqn:E3;
    [ | discriminate].
  destruct (copy_included_txs_consistent _ _ _ _ C2 Hn2 E3) as [C3 B3].
  assert (Hn3 : refers_to_block s3 (blk_Hash block) = true)
    by (unfold refers_to_block in *; now rewrite B3).
  assert (Fi2 : forall r, In r (included_txs s2) ->
                          bytes_eqb (lnk_block_hash r) (blk_Hash block)
                          = false)
    by (rewrite Q5; exact Fi).
  destruct (select_included_copy _ _ s2 s3 Hn Fi2 E3)
    as (R1 & R2 & _ & R4 & R5 & R6 & R7).
  destruct (Block_Valid block (DecodeBlock (row_block row))) eqn:Ebv;
    cbn [check fail ret]; [discriminate | ].
  destruct (addBlock_txs _ _ _ s3) as [[fee | e] s4] eqn:E4;
    [ | discriminate].
  destruct (addBlock_txs_consistent _ _ _ _ _ _ C3 Hn3 E4) as [C4 B4].
  assert (Hn4 : refers_to_block s4 (blk_Hash block) = true)
    by (unfold refers_to_block in *; now rewrite B4).
  destruct (addBlock_txs_effect block _ Hty _ _ _ _ E4)
    as (L1 & L2 & L3 & L4 & L5 & L6 & L7 & L8 & L9 & L10 & L11 & L12).
  fold (collected_fee block) in L1. subst fee.
  assert (Hparent : forall a, balance_at s3 (blk_Hash block) a
                              = balance_at s (PreviousHash block) a).
  { intros a. rewrite (balance_at_ext _ _ R4), Q1.
    apply (balance_at_ext s s1). reflexivity. }
  assert (Hinc : forall x h, select_included h x s2 = select_included h x s).
  { intros x h. unfold select_included. now rewrite Q5. }
  intros Hend.
  assert (K : exists s5,
             delete_zero_balances s5 = (Ok tt, s')
             /\ consistent_parts s5
             /\ (forall h a,
                    balance_at s5 h a
                    = balance_at s4 h a
                      + (if bytes_eqb h (blk_Hash block)
                            && bytes_eqb a (Destination (RewardOutput block))
                         then Z.max 0 (collected_fee block) else 0))
             /\ blocks s5 = blocks s4 /\ txs s5 = txs s4
             /\ included_txs s5 = included_txs s4
             /\ block_txs s5 = block_txs s4 /\ peers s5 = peers s4).
  { destruct (Z.gtb_spec (collected_fee block) 0) as [Hpos | Hneg].
    - destruct (credit_balance _ _ _ s4) as [[[] | e] s5] eqn:E5;
        [ | discriminate].
      destruct (credit_balance_consistent _ _ _ _ _ C4 Hn4 E5) as (C5 & _).
      destruct (balance_at_credit _ _ _ _ _ E5)
        as (G1 & G2 & G3 & G4 & G5 & G6).
      exists s5. split; [exact Hend | ]. split; [exact C5 | ].
      split; [ | auto].
      intros h a. rewrite G1. rewrite Z.max_r by lia. reflexivity.
    - cbn [ret] in Hend. exists s4. split; [exact Hend | ].
      split; [exact C4 | ]. split; [ | auto].
      intros h a. rewrite Z.max_l by lia.
      destruct (_ && _); lia. }
  destruct K as (s5 & Ed & C5 & G & G2 & G3 & G4 & G5 & G6).
  destruct C5 as (U5 & _).
  destruct (balance_at_delete_zero s5 s' U5 Ed)
    as (Z1 & Z2 & Z3 & Z4 & Z5 & Z6 & Z7).
  assert (Hhashes : Forall (fun t => stx_Hash t <> EmptyHash)
                           (Transactions block)).
  { revert L9. apply Forall_impl. tauto. }
  assert (Hlinks : forall h x,
             select_included h x s'
             = select_included h x s3
               || match Hash_Value h, Hash_Value x with
                  | Some k, Some t =>
                    existsb (link_key k t)
                      (map (fun t => {| lnk_block_hash := blk_Hash block;
                                        lnk_tx_hash := stx_Hash t |})
                           (Transactions block))
                  | _, _ => false
                  end).
  { intros h x. unfold select_included. rewrite Z5, G4, L7.
    destruct (Hash_Value h); [ | reflexivity].
    destruct (Hash_Value x); [ | reflexivity].
    apply existsb_app. }
  exists row. split; [reflexivity | ]. split; [exact Ebv | ].
  split; [exact Hn | ].
  split; [rewrite Z3, G2, L5, B3, B2; reflexivity | ].
  split; [rewrite Z7, G6, L6, R7, Q7; reflexivity | ].
  split.
  { intros a. rewrite Z1, G, L2, bytes_eqb_refl. cbn [andb]. f_equal.
    apply apply_txs_ext. exact Hparent. }
  split.
  { intros h a Hh. rewrite Z1, G, (L3 h a Hh).
    rewrite (balance_at_ext _ _ R4), (Q2 h a Hh).
    apply bytes_eqb_neq in Hh. rewrite Hh. cbn [andb].
    rewrite Z.add_0_r. apply (balance_at_ext s s1). reflexivity. }
  split.
  { intros Hpos k a.
    rewrite <- (apply_txs_ext (firstn k (Transactions block)) _ _ Hparent).
    apply L4. intros a'. rewrite Hparent. apply Hpos. }
  split; [exact Z2 | ].
  split.
  { intros x. rewrite Hlinks, R1, Hinc. f_equal.
    rewrite (Hash_Value_not_empty _ Hn).
    destruct (Hash_Value x) as [t | ] eqn:Et.
    - apply Hash_Value_Some in Et. subst t. apply existsb_tx_links.
    - unfold Hash_Value in Et.
      destruct (bytes_eqb x EmptyHash) eqn:E0; [ | discriminate].
      apply bytes_eqb_eq in E0. subst x.
      symmetry. now apply holds_tx_EmptyHash. }
  split.
  { intros h x Hh. rewrite Hlinks, (R2 h x Hh), Hinc.
    destruct (Hash_Value h) as [k | ] eqn:Ek; [ | apply orb_false_r].
    apply Hash_Value_Some in Ek. subst k.
    destruct (Hash_Value x); [ | apply orb_false_r].
    rewrite (existsb_other_tx_links _ _ _ _ Hh). apply orb_false_r. }
  split; [rewrite Z6, G5, L8, R6, Q6; reflexivity | ].
  split.
  { revert L9. apply Forall_impl. intros t (V1 & V2 & V3).
    rewrite Z4, G3. auto. }
  split.
  { intros r Hr. rewrite Z4, G3. apply L10. rewrite R5, Q4. exact Hr. }
  split; [ | exact L12].
  intros t Ht. rewrite <- (Hinc (stx_Hash t)), <- R1. now apply L11.
Qed.


(** X10: addBlock never overdraws.  If no balance of any block is negative
    before a block that was not stored is accepted, then applying the
    transactions of the block one after the other to the balance map of
    the parent never takes a balance below zero, and no balance of any
    block is negative afterwards. *)
Theorem addBlock_no_negative_balance (block : Block) (s s' : Store) :
  Store_consistent s ->
  select_block (blk_Hash block) s = None ->
  Forall (fun t : SignedTx => int64_amounts t) (Transactions block) ->
  (forall h a, 0 <= balance_at s h a) ->
  addBlock block s = (Ok tt, s') ->
  (forall k a,
      0 <= apply_txs (balance_at s (PreviousHash block))
                     (firstn k (Transactions block)) a)
  /\ (forall h a, 0 <= balance_at s' h a).
Proof.
  intros Hc Hnew Hty Hpos E.
  destruct (addBlock_new_effect block s s' Hc Hnew Hty E)
    as (row & _ & _ & _ & _ & _ & H1 & H2 & H3 & _).
  specialize (H3 (Hpos (PreviousHash block))).
  split; [exact H3 | ].
  intros h a. destruct (bytes_eqb h (blk_Hash block)) eqn:Eh.
  - apply bytes_eqb_eq in Eh. subst h. rewrite H1.
    specialize (H3 (length (Transactions block)) a).
    rewrite firstn_all in H3.
    destruct (bytes_eqb a _); lia.
  - apply bytes_eqb_neq in Eh. rewrite (H2 h a Eh). apply Hpos.
Qed.

(** X11: the inclusion set of a newly added block.  When addBlock accepts
    a block that was not stored, a transaction hash is in the inclusion set
    of the new block exactly when it is in the inclusion set of the parent
    or is the hash of a transaction of the block; the inclusion sets of
    other blocks are as they were; no transaction of the block was in the
    inclusion set of the parent, no two transactions of the block have the
    same hash, every transaction of the block is in the table of
    transactions, and [block_txs] has gained one row for each of them. *)
Theorem addBlock_inclusion (block : Block) (s s' : Store) :
  Store_consistent s ->
  select_block (blk_Hash block) s = None ->
  Forall (fun t : SignedTx => int64_amounts t) (Transactions block) ->
  addBlock block s = (Ok tt, s') ->
  (forall x,
      select_included (blk_Hash block) x s'
      = select_included (PreviousHash block) x s
        || holds_tx (Transactions block) x)
  /\ (forall h x, h <> blk_Hash block ->
                  select_included h x s' = select_included h x s)
  /\ (forall t, In t (Transactions block) ->
                select_included (PreviousHash block) (stx_Hash t) s = false)
  /\ NoDup (map stx_Hash (Transactions block))
  /\ Forall (fun t => existsb (tx_key (stx_Hash t)) (txs s') = true)
            (Transactions block)
  /\ block_txs s'
     = block_txs s
       ++ map (fun t => {| lnk_block_hash := blk_Hash block;
                           lnk_tx_hash := stx_Hash t |})
              (Transactions block).
Proof.
  intros Hc Hnew Hty E.
  destruct (addBlock_new_effect block s s' Hc Hnew Hty E)
    as (row & _ & _ & _ & _ & _ & _ & _ & _ & _ & H1 & H2 & H3 & H4 & _
        & H5 & H6).
  repeat split; auto.
  revert H4. apply Forall_impl. tauto.
Qed.

(** X12: addBlock stores only valid blocks.  When addBlock accepts a block
    that was not stored, the parent is stored, the block is valid against
    the parent as decoded from its row, every transaction of the block is
    valid, the table of blocks has gained exactly the row of the block,
    which is now found under its hash, and the stored transactions and the
    peers have lost nothing. *)
Theorem addBlock_stores_valid_block (block : Block) (s s' : Store) :
  Store_consistent s ->
  select_block (blk_Hash block) s = None ->
  Forall (fun t : SignedTx => int64_amounts t) (Transactions block) ->
  addBlock block s = (Ok tt, s') ->
  exists row,
    select_block (PreviousHash block) s = Some row
    /\ Block_Valid block (DecodeBlock (row_block row)) = None
    /\ Forall (fun t => SignedTx_Valid t = None) (Transactions block)
    /\ blocks s'
       = blocks s
         ++ [{| row_hash := blk_Hash block;
                row_previous_hash := Hash_Value (PreviousHash block);
                row_height := Height block;
                row_block := json_view_Block block |}]
    /\ select_block (blk_Hash block) s'
       = Some {| row_hash := blk_Hash block;
                 row_previous_hash := Hash_Value (PreviousHash block);
                 row_height := Height block;
                 row_block := json_view_Block block |}
    /\ (forall r, In r (txs s) -> In r (txs s'))
    /\ peers s' = peers s.
Proof.
  intros Hc Hnew Hty E.
  destruct (addBlock_new_effect block s s' Hc Hnew Hty E)
    as (row & H1 & H2 & Hn & H3 & H4 & _ & _ & _ & _ & _ & _ & _ & H5 & H6
        & _).
  exists row. split; [exact H1 | ]. split; [exact H2 | ].
  split; [revert H5; apply Forall_impl; tauto | ].
  split; [exact H3 | ].
  split; [ | auto].
  unfold select_block in *. rewrite (Hash_Value_not_empty _ Hn) in *.
  rewrite H3, find_app_last, Hnew. unfold has_hash. cbn [row_hash].
  now rewrite bytes_eqb_refl.
Qed.

End LedgerFacts.

Lemma addBlock_no_negative_balance_witness :
  (forall k a,
      0 <= apply_txs (balance_at sample_store (PreviousHash sample_block_once))
                     (firstn k (Transactions sample_block_once)) a)
  /\ (forall h a, 0 <= balance_at sample_store_1 h a).
Proof.
  apply (addBlock_no_negative_balance sample_block_once sample_store
                                      sample_store_1).
  - reflexivity.
  - reflexivity.
  - repeat constructor; unfold is_int64, MinInt64, MaxInt64; simpl; lia.
  - intros h a. unfold balance_at, select_balance, sample_store.
    cbn [balances find option_map].
    destruct (Hash_Value h); [ | lia].
    destruct (balance_key h0 a _); cbn; lia.
  - vm_compute. reflexivity.
Defined.

Lemma addBlock_inclusion_witness :
  (forall x,
      select_included (blk_Hash sample_block_once) x sample_store_1
      = select_included (PreviousHash sample_block_once) x sample_store
        || holds_tx (Transactions sample_block_once) x)
  /\ (forall h x, h <> blk_Hash sample_block_once ->
                  select_included h x sample_store_1
                  = select_included h x sample_store)
  /\ (forall t, In t (Transactions sample_block_once) ->
                select_included (PreviousHash sample_block_once) (stx_Hash t)
                                sample_store = false)
  /\ NoDup (map stx_Hash (Transactions sample_block_once))
  /\ Forall (fun t => existsb (tx_key (stx_Hash t)) (txs sample_store_1)
                      = true)
            (Transactions sample_block_once)
  /\ block_txs sample_store_1
     = block_txs sample_store
       ++ map (fun t => {| lnk_block_hash := blk_Hash sample_block_once;
                           lnk_tx_hash := stx_Hash t |})
              (Transactions sample_block_once).
Proof.
  apply (addBlock_inclusion sample_block_once sample_store sample_store_1).
  - reflexivity.
  - reflexivity.
  - repeat constructor; unfold is_int64, MinInt64, MaxInt64; simpl; lia.
  - vm_compute. reflexivity.
Defined.

Lemma addBlock_stores_valid_block_witness :
  exists row,
    select_block (PreviousHash sample_block_once) sample_store = Some row
    /\ Block_Valid sample_block_once (DecodeBlock (row_block row)) = None
    /\ Forall (fun t => SignedTx_Valid t = None)
              (Transactions sample_block_once)
    /\ blocks sample_store_1
       = blocks sample_store
         ++ [{| row_hash := blk_Hash sample_block_once;
                row_previous_hash
                := Hash_Value (PreviousHash sample_block_once);
                row_height := Height sample_block_once;
                row_block := json_view_Block sample_block_once |}]
    /\ select_block (blk_Hash sample_block_once) sample_store_1
       = Some {| row_hash := blk_Hash sample_block_once;
                 row_previous_hash
                 := Hash_Value (PreviousHash sample_block_once);
                 row_height := Height sample_block_once;
                 row_block := json_view_Block sample_block_once |}
    /\ (forall r, In r (txs sample_store) -> In r (txs sample_store_1))
    /\ peers sample_store_1 = peers sample_store.
Proof.
  apply (addBlock_stores_valid_block sample_block_once sample_store
                                     sample_store_1).
  - reflexivity.
  - reflexivity.
  - repeat constructor; unfold is_int64, MinInt64, MaxInt64; simpl; lia.
  - vm_compute. reflexivity.
Defined.

(** ** db.go: AddBlock and AddBlocks on the committed store *)

Section ChainFacts.
Context {P : Primitives}.

(** A stored block stays stored when rows are added to [blocks]. *)
Lemma select_block_app (h : Hash) (s s' : Store) (l : list BlockRow) :
  blocks s' = blocks s ++ l ->
  select_block h s <> None -> select_block h s' <> None.
Proof.
  unfold select_block. intros ->. destruct (Hash_Value h); [ | auto].
  rewrite find_app_first. destruct (find _ (blocks s)); congruence.
Qed.

Lemma addBlock_tx_blocks (block : Block) (t : SignedTx) (s s' : Store) :
  addBlock_tx block t s = (Ok tt, s') -> blocks s' = blocks s.
Proof.
  unfold addBlock_tx. intros H.
  destruct (validTx_cases t (blk_Hash block) s)
    as [(m & c & s0 & Hr) | [Hok _] ].
  { rewrite (bind_Err _ _ _ _ _ Hr) in H. discriminate. }
  rewrite (bind_Ok _ _ _ _ _ Hok) in H.
  unfold bind, debit_balance, credit_balance, addTx, insert_included_tx,
    insert_block_tx in H.
  destruct (Hash_Value (blk_Hash block)); [ | discriminate].
  cbn [balances set_balances txs included_txs block_txs set_txs
       set_included_txs] in H.
  repeat match type of H with
         | context [if ?c then _ else _] => destruct c
         | context [match Hash_Value ?h with _ => _ end] =>
           destruct (Hash_Value h)
         end;
    cbn [balances set_balances txs included_txs block_txs set_txs
         set_included_txs] in H;
    try discriminate; inversion H; reflexivity.
Qed.

Lemma addBlock_txs_blocks (block : Block) (l : list SignedTx) :
  forall fee fee' s s',
    addBlock_txs block fee l s = (Ok fee', s') -> blocks s' = blocks s.
Proof.
  induction l as [ | t l IH]; intros fee fee' s s'; cbn [addBlock_txs].
  - intros H. inversion H. reflexivity.
  - unfold bind.
    destruct (addBlock_tx block t s) as [[[] | e1] s1] eqn:E1;
      [ | discriminate].
    intros H. rewrite (IH _ _ _ _ H). eapply addBlock_tx_blocks; eauto.
Qed.

Lemma addBlock_body_blocks (block previous : Block) (s s' : Store) :
  addBlock_body block previous s = (Ok tt, s') -> blocks s' = blocks s.
Proof.
  unfold addBlock_body, bind.
  destruct (copy_balances _ _ s) as [[[] | e1] s1] eqn:E1; [ | discriminate].
  assert (B1 : blocks s1 = blocks s).
  { unfold copy_balances in E1.
    destruct (match Hash_Value (PreviousHash block) with
              | Some k => filter _ (balances s)
              | None => []
              end); [inversion E1; reflexivity | ].
    destruct (Hash_Value (blk_Hash block)); [ | discriminate].
    destruct (insert_rows _ _ _); [ | discriminate].
    inversion E1; reflexivity. }
  destruct (copy_included_txs _ _ s1) as [[[] | e2] s2] eqn:E2;
    [ | discriminate].
  assert (B2 : blocks s2 = blocks s1).
  { unfold copy_included_txs in E2.
    destruct (match Hash_Value (PreviousHash block) with
              | Some k => filter _ (included_txs s1)
              | None => []
              end); [inversion E2; reflexivity | ].
    destruct (Hash_Value (blk_Hash block)); [ | discriminate].
    destruct (insert_rows _ _ _); [ | discriminate].
    inversion E2; reflexivity. }
  destruct (Block_Valid block previous); cbn [check fail ret];
    [discriminate | ].
  destruct (addBlock_txs _ _ _ s2) as [[fee | e4] s4] eqn:E4;
    [ | discriminate].
  apply addBlock_txs_blocks in E4.
  assert (K : forall s5, blocks s5 = blocks s4 ->
                         delete_zero_balances s5 = (Ok tt, s') ->
                         blocks s' = blocks s).
  { intros s5 B5 H. unfold delete_zero_balances in H. inversion H.
    cbn [blocks set_balances]. congruence. }
  destruct (fee >? 0).
  - unfold credit_balance.
    destruct (Hash_Value (blk_Hash block)); [ | discriminate].
    destruct (existsb _ _); apply K; reflexivity.
  - apply K. reflexivity.
Qed.

(** A block [addBlock] accepts is stored afterwards, and so is every
    block that was stored before. *)
Lemma addBlock_Ok_stored (block : Block) (s s' : Store) :
  addBlock block s = (Ok tt, s') ->
  select_block (blk_Hash block) s' <> None
  /\ (forall h, select_block h s <> None -> select_block h s' <> None).
Proof.
  unfold addBlock.
  destruct (select_block (PreviousHash block) s) as [row | ];
    [ | discriminate].
  unfold insert_block.
  destruct (Hash_Value (blk_Hash block)) as [n | ] eqn:En.
  2: { cbn. discriminate. }
  pose proof (Hash_Value_Some _ _ En) as ->.
  destruct (existsb (has_hash (blk_Hash block)) (blocks s)) eqn:Ex.
  - cbn. intros H. inversion H; subst s'. split; [ | auto].
    unfold select_block. rewrite En. rewrite find_existsb in Ex.
    destruct (find _ _); congruence.
  - intros H. apply addBlock_body_blocks in H.
    cbn [blocks set_blocks] in H. split.
    + unfold select_block. rewrite En, H, find_app_last.
      destruct (find _ (blocks s)); [discriminate | ].
      unfold has_hash. cbn [row_hash]. rewrite bytes_eqb_refl. discriminate.
    + intros h. eapply select_block_app. exact H.
Qed.

Lemma addBlocks_down_stored (chain : list Block) (n : nat) :
  forall s s',
    addBlocks_down n chain s = (Ok tt, s') ->
    (forall h, select_block h s <> None -> select_block h s' <> None)
    /\ (forall j b, (j < n)%nat -> nth_error chain j = Some b ->
                    select_block (blk_Hash b) s' <> None).
Proof.
  induction n as [ | n IH]; intros s s'; cbn [addBlocks_down].
  - intros H. inversion H; subst. split; [auto | intros j b Hj; lia].
  - destruct (nth_error chain n) as [block | ] eqn:En; [ | discriminate].
    unfold bind. destruct (addBlock block s) as [[[] | e] s1] eqn:E1;
      [ | discriminate].
    destruct (addBlock_Ok_stored _ _ _ E1) as [Hb Hkeep].
    intros H. destruct (IH _ _ H) as [Hkeep' Hrest].
    split; [auto | ].
    intros j b Hj Hnth. destruct (Nat.eq_dec j n) as [-> | Hne].
    + rewrite En in Hnth. inversion Hnth; subst. auto.
    + apply (Hrest j b); [lia | exact Hnth].
Qed.

Lemma addBlocks_down_consistent (chain : list Block) (n : nat) :
  forall s s',
    Store_consistent s -> addBlocks_down n chain s = (Ok tt, s') ->
    Store_consistent s'.
Proof.
  induction n as [ | n IH]; intros s s' Hc; cbn [addBlocks_down].
  - intros H. inversion H; subst. exact Hc.
  - destruct (nth_error chain n) as [block | ]; [ | discriminate].
    unfold bind. destruct (addBlock block s) as [[[] | e] s1] eqn:E1;
      [ | discriminate].
    apply IH. eapply addBlock_consistent; eauto.
Qed.

(** The fork point the first loop of [AddBlocks] finds is the index of a
    stored block of the chain. *)
Lemma find_divergedAt_spec (chain : list Block) (s : Store) :
  forall i,
    find_divergedAt i chain s = -1
    \/ exists k b,
        find_divergedAt i chain s = i + Z.of_nat k
        /\ nth_error chain k = Some b
        /\ select_block (blk_Hash b) s <> None.
Proof.
  induction chain as [ | c chain IH]; intros i; cbn [find_divergedAt].
  - now left.
  - destruct (select_block (blk_Hash c) s) eqn:Ec.
    + right. exists 0%nat, c. split; [lia | ]. split; [reflexivity | ].
      congruence.
    + destruct (IH (i + 1)) as [H | (k & b & H1 & H2 & H3)]; [now left | ].
      right. exists (S k), b. split; [lia | ]. split; assumption.
Qed.

Lemma AddBlocks_tx_down (chain : list Block) (s s' : Store) :
  AddBlocks_tx chain s = (Ok tt, s') ->
  s' = s \/ exists n, addBlocks_down n chain s = (Ok tt, s').
Proof.
  unfold AddBlocks_tx. destruct (_ <=? 0).
  - intros H. inversion H. now left.
  - intros H. right. eauto.
Qed.

(** X14: what a successful AddBlocks leaves.  When the closure of AddBlocks
    succeeds, every block that was stored is still stored, and, if some
    block of the chain was stored, every block of the chain from index 0
    to the first stored one is stored; a consistent store stays
    consistent. *)
Theorem AddBlocks_stores_chain (chain : list Block) (s s' : Store) :
  AddBlocks_tx chain s = (Ok tt, s') ->
  (forall h, select_block h s <> None -> select_block h s' <> None)
  /\ (forall j b,
         0 <= Z.of_nat j <= find_divergedAt 0 chain s ->
         nth_error chain j = Some b ->
         select_block (blk_Hash b) s' <> None)
  /\ (find_divergedAt 0 chain s <= 0 -> s' = s)
  /\ (Store_consistent s -> Store_consistent s').
Proof.
  unfold AddBlocks_tx.
  destruct (find_divergedAt_spec chain s 0) as [E | (k & b & E & Hk & Hb)];
    rewrite E.
  - cbn. intros H. inversion H; subst s'.
    repeat split; auto. intros j b' Hj. lia.
  - destruct (Z.leb_spec (0 + Z.of_nat k) 0) as [Hle | Hgt].
    + intros H. inversion H; subst s'.
      repeat split; auto. intros j b' Hj Hnth.
      assert (j = 0%nat) by lia. assert (k = 0%nat) by lia. subst j k.
      congruence.
    + replace (Z.to_nat (0 + Z.of_nat k)) with k by lia.
      intros H. destruct (addBlocks_down_stored _ _ _ _ H) as [Hkeep Hdown].
      split; [exact Hkeep | ]. split.
      * intros j b' Hj Hnth.
        destruct (Nat.eq_dec j k) as [-> | Hne].
        -- apply Hkeep. congruence.
        -- apply (Hdown j b'); [lia | exact Hnth].
      * split; [lia | ].
        intros Hc. eapply addBlocks_down_consistent; eauto.
Qed.


(** A property of the committed contents that every successful run of the
    closure keeps is kept by [TransactWithRetry], whatever it returns. *)
Lemma TransactWithRetry_invariant {St A : Type} (I : St -> Prop)
    (d : database.DB) (f : database.closure St A) (w : database.World St) :
  (forall k a st', f k (database.committed w) = (Ok a, st') -> I st') ->
  I (database.committed w) ->
  I (database.committed (snd (database.TransactWithRetry d f w))).
Proof.
  intros Hf Hw. unfold database.TransactWithRetry.
  destruct (database.tries d =? 0); [exact Hw | ].
  destruct (retry_atomic d f (Z.to_nat (database.tries d)) 0 None w)
    as [_ H].
  destruct (fst (database.retry d f _ 0 None w)) as [a | e].
  - destruct H as (k & _ & E). eapply Hf. exact E.
  - rewrite H. exact Hw.
Qed.

(** X15: AddBlock and AddBlocks keep the committed store in order,
    whatever they return and whatever the driver does at Begin, Commit and
    Rollback: a consistent store stays consistent (keys unique, every row
    of balances, included_txs and block_txs under a stored block), and a
    block that was stored stays stored. *)
Theorem DB_AddBlock_keeps_store (d : database.DB) (block : Block)
    (chain : list Block) (w : World) :
  Store_consistent (database.committed w) ->
  (Store_consistent (database.committed (snd (DB_AddBlock d block w)))
   /\ Store_consistent (database.committed (snd (DB_AddBlocks d chain w))))
  /\ (forall h,
         select_block h (database.committed w) <> None ->
         select_block h (database.committed (snd (DB_AddBlock d block w)))
         <> None
         /\ select_block h
                         (database.committed (snd (DB_AddBlocks d chain w)))
            <> None).
Proof.
  intros Hc. unfold DB_AddBlock, DB_AddBlocks. split; [split | ].
  - apply (TransactWithRetry_invariant Store_consistent); [ | exact Hc].
    intros k [] st' E. eapply addBlock_consistent; eauto.
  - apply (TransactWithRetry_invariant Store_consistent); [ | exact Hc].
    intros k [] st' E.
    destruct (AddBlocks_tx_down _ _ _ E) as [-> | [n En] ]; [exact Hc | ].
    eapply addBlocks_down_consistent; eauto.
  - intros h Hh. split.
    + apply (TransactWithRetry_invariant
               (fun st => select_block h st <> None)); [ | exact Hh].
      intros k [] st' E. now apply (addBlock_Ok_stored _ _ _ E).
    + apply (TransactWithRetry_invariant
               (fun st => select_block h st <> None)); [ | exact Hh].
      intros k [] st' E.
      destruct (AddBlocks_tx_down _ _ _ E) as [-> | [n En] ]; [exact Hh | ].
      now apply (addBlocks_down_stored _ _ _ _ En).
Qed.

End ChainFacts.

Lemma AddBlocks_stores_chain_witness :
  (forall h, select_block h sample_store <> None ->
             select_block h sample_store_1 <> None)
  /\ (forall j b,
         0 <= Z.of_nat j
         <= find_divergedAt 0 [sample_block_once; sample_genesis] sample_store ->
         nth_error [sample_block_once; sample_genesis] j = Some b ->
         select_block (blk_Hash b) sample_store_1 <> None)
  /\ (find_divergedAt 0 [sample_block_once; sample_genesis] sample_store <= 0
      -> sample_store_1 = sample_store)
  /\ (Store_consistent sample_store -> Store_consistent sample_store_1).
Proof.
  apply (AddBlocks_stores_chain [sample_block_once; sample_genesis]
                                sample_store sample_store_1).
  reflexivity.
Defined.

Lemma DB_AddBlock_keeps_store_witness :
  (Store_consistent
     (database.committed
        (snd (DB_AddBlock sample_db sample_block_once sample_world)))
   /\ Store_consistent
        (database.committed
           (snd (DB_AddBlocks sample_db [sample_block_once; sample_genesis]
                              sample_world))))
  /\ (forall h,
         select_block h (database.committed sample_world) <> None ->
         select_block h
           (database.committed
              (snd (DB_AddBlock sample_db sample_block_once sample_world)))
         <> None
         /\ select_block h
              (database.committed
                 (snd (DB_AddBlocks sample_db
                                    [sample_block_once; sample_genesis]
                                    sample_world)))
            <> None).
Proof.
  apply (DB_AddBlock_keeps_store sample_db sample_block_once
           [sample_block_once; sample_genesis] sample_world).
  reflexivity.
Defined.

(** ** db.go: what PendingTxs does to the store *)

Section PendingFrame.
Context {P : Primitives}.

Lemma only_unreferenced_txs_gone_refl (s : Store) :
  only_unreferenced_txs_gone s s.
Proof. repeat split; auto. Qed.

Lemma only_unreferenced_txs_gone_trans (s1 s2 s3 : Store) :
  only_unreferenced_txs_gone s1 s2 -> only_unreferenced_txs_gone s2 s3 ->
  only_unreferenced_txs_gone s1 s3.
Proof.
  intros (A1 & A2 & A3 & A4 & A5 & A6 & A7) (B1 & B2 & B3 & B4 & B5 & B6 & B7).
  repeat split; try congruence; auto.
  intros r Hr Href. apply B7; [now apply A7 | ].
  unfold tx_referenced in *. now rewrite A3, A4.
Qed.

Lemma delete_unreferenced_tx_frame (h : Hash) (s s' : Store) (r : result unit) :
  delete_unreferenced_tx h s = (r, s') ->
  r = Ok tt /\ only_unreferenced_txs_gone s s'.
Proof.
  unfold delete_unreferenced_tx.
  destruct (Hash_Value h) as [k | ] eqn:Ek.
  2: { intros H. inversion H; subst. split; [reflexivity | ].
       apply only_unreferenced_txs_gone_refl. }
  apply Hash_Value_Some in Ek. subst k.
  destruct (_ || _) eqn:Eref; intros H; inversion H; subst;
    (split; [reflexivity | ]);
    [apply only_unreferenced_txs_gone_refl | ].
  repeat split; cbn [txs set_txs].
  - intros r0 Hr. apply filter_In in Hr. tauto.
  - intros r0 Hr Href. apply filter_In. split; [exact Hr | ].
    unfold tx_key. destruct (bytes_eqb (txr_hash r0) h) eqn:E; [ | reflexivity].
    apply bytes_eqb_eq in E. unfold tx_referenced in Href.
    rewrite E in Href. congruence.
Qed.

(** The loop of [PendingTxs] only ever drops unreferenced rows of [txs],
    and what it appends to its result are valid transactions read from the
    rows it was given. *)
Lemma PendingTxs_rows_frame (limit : Z) (rows : list TxRow) :
  forall temp acc s r s',
    PendingTxs_rows limit rows temp acc s = (r, s') ->
    only_unreferenced_txs_gone s s'
    /\ forall res o, r = Ok (res, o) ->
         exists new,
           res = acc ++ new
           /\ Forall (fun t => SignedTx_Valid t = None
                               /\ exists row, In row rows
                                  /\ t = SignedTx_UpdateHash (txr_tx row))
                     new.
Proof.
  induction rows as [ | row rows IH]; intros temp acc s r s';
    cbn [PendingTxs_rows].
  - intros H. inversion H; subst.
    split; [apply only_unreferenced_txs_gone_refl | ].
    intros res o E. inversion E; subst. exists []. rewrite app_nil_r. auto.
  - set (stx := SignedTx_UpdateHash (txr_tx row)).
    assert (Hmono : forall new,
               Forall (fun t => SignedTx_Valid t = None
                                /\ exists row', In row' rows
                                   /\ t = SignedTx_UpdateHash (txr_tx row'))
                      new ->
               Forall (fun t => SignedTx_Valid t = None
                                /\ exists row', In row' (row :: rows)
                                   /\ t = SignedTx_UpdateHash (txr_tx row'))
                      new).
    { apply Forall_impl. intros t (Hv & row' & Hin & Et).
      split; [exact Hv | ]. exists row'. split; [now right | exact Et]. }
    destruct (validTemporaryTx temp stx) as [e | ] eqn:Ev.
    + destruct (is_InvalidBlockError e).
      * unfold bind.
        destruct (delete_unreferenced_tx (stx_Hash stx) s) as [r1 s1] eqn:Ed.
        destruct (delete_unreferenced_tx_frame _ _ _ _ Ed) as [-> F1].
        intros H. destruct (IH _ _ _ _ _ H) as [F2 Hres].
        split; [eapply only_unreferenced_txs_gone_trans; eauto | ].
        intros res o E. destruct (Hres res o E) as (new & -> & Hnew).
        exists new. split; [reflexivity | now apply Hmono].
      * intros H. inversion H; subst.
        split; [apply only_unreferenced_txs_gone_refl | discriminate].
    + assert (Hv : SignedTx_Valid stx = None).
      { unfold validTemporaryTx in Ev.
        destruct (SignedTx_Valid stx); [discriminate | reflexivity]. }
      assert (Hstx : SignedTx_Valid stx = None
                     /\ exists row', In row' (row :: rows)
                        /\ stx = SignedTx_UpdateHash (txr_tx row')).
      { split; [exact Hv | ]. exists row. split; [now left | reflexivity]. }
      destruct (Z.of_nat (length (acc ++ [stx])) >=? limit).
      * intros H. inversion H; subst.
        split; [apply only_unreferenced_txs_gone_refl | ].
        intros res o E. inversion E; subst. exists [stx]. split; auto.
      * intros H. destruct (IH _ _ _ _ _ H) as [F2 Hres].
        split; [exact F2 | ].
        intros res o E. destruct (Hres res o E) as (new & -> & Hnew).
        exists (stx :: new). rewrite <- app_assoc. split; [reflexivity | ].
        constructor; [exact Hstx | now apply Hmono].
Qed.

Lemma select_pending_rows (tip : Hash) (s : Store) (row : TxRow) :
  In row (select_pending tip s) ->
  In row (txs s)
  /\ select_included tip (txr_hash row) s = false.
Proof.
  unfold select_pending, select_included.
  destruct (Hash_Value tip) as [k | ]; [ | auto].
  intros H. apply filter_In in H. destruct H as [Hin Hn].
  split; [exact Hin | ].
  destruct (Hash_Value (txr_hash row)) as [t | ] eqn:Et; [ | reflexivity].
  apply Hash_Value_Some in Et. subst t.
  now apply negb_true_iff in Hn.
Qed.

Lemma only_unreferenced_txs_gone_consistent (s s' : Store) :
  only_unreferenced_txs_gone s s' ->
  Store_consistent s -> Store_consistent s'.
Proof.
  intros (A1 & A2 & A3 & A4 & _).
  unfold Store_consistent, Store_consistent_b, refers_to_block.
  now rewrite A1, A2, A3, A4.
Qed.

(** X16: what PendingTxs does to the database, whatever it returns and
    whatever the driver does: the committed blocks, balances, block_txs,
    included_txs and peers are as before; the table of transactions has
    gained nothing and has lost no transaction that a row of block_txs or
    of included_txs names; a consistent store stays consistent; and every
    transaction PendingTxs returns is valid on its own and is the content
    of a stored transaction that is not in the inclusion set of the tip,
    with its hash computed afresh. *)
Theorem DB_PendingTxs_frame (d : database.DB) (tip : Hash) (limit : Z)
    (w : World) :
  only_unreferenced_txs_gone
    (database.committed w)
    (database.committed (snd (DB_PendingTxs d tip limit w)))
  /\ (Store_consistent (database.committed w) ->
      Store_consistent
        (database.committed (snd (DB_PendingTxs d tip limit w))))
  /\ (forall res,
         fst (DB_PendingTxs d tip limit w) = Ok res ->
         Forall (fun t =>
                   SignedTx_Valid t = None
                   /\ exists row,
                       In row (txs (database.committed w))
                       /\ select_included tip (txr_hash row)
                                          (database.committed w) = false
                       /\ t = SignedTx_UpdateHash (txr_tx row))
                res).
Proof.
  assert (Hclosure : forall k r st',
             run (PendingTxs_tx tip limit) k (database.committed w) = (r, st')
             -> only_unreferenced_txs_gone (database.committed w) st'
                /\ forall res, r = Ok res ->
                     Forall (fun t =>
                               SignedTx_Valid t = None
                               /\ exists row,
                                   In row (txs (database.committed w))
                                   /\ select_included tip (txr_hash row)
                                        (database.committed w) = false
                                   /\ t = SignedTx_UpdateHash (txr_tx row))
                            res).
  { intros k r st'. unfold run. intros H.
    destruct (PendingTxs_tx_inv _ _ _ _ _ H)
      as [(_ & -> & e & ->) | (temp & rr & _ & Hrows & Hok)].
    { split; [apply only_unreferenced_txs_gone_refl | discriminate]. }
    destruct (PendingTxs_rows_frame _ _ _ _ _ _ _ Hrows) as [F Hres].
    split; [exact F | ].
    intros res E. destruct (Hres res false (Hok res E)) as (new & -> & Hnew).
    cbn [app]. revert Hnew. apply Forall_impl.
    intros t (Hv & row & Hin & Et). split; [exact Hv | ].
    exists row. destruct (select_pending_rows _ _ _ Hin). auto. }
  assert (Hgone : only_unreferenced_txs_gone
                    (database.committed w)
                    (database.committed (snd (DB_PendingTxs d tip limit w)))).
  { unfold DB_PendingTxs.
    apply (TransactWithRetry_invariant
             (only_unreferenced_txs_gone (database.committed w))).
    - intros k a st' E. now apply (Hclosure k (Ok a) st').
    - apply only_unreferenced_txs_gone_refl. }
  split; [exact Hgone | ].
  split; [now apply only_unreferenced_txs_gone_consistent | ].
  intros res. unfold DB_PendingTxs, database.TransactWithRetry.
  destruct (database.tries d =? 0); [cbn [fst]; discriminate | ].
  destruct (retry_atomic d (run (PendingTxs_tx tip limit))
                         (Z.to_nat (database.tries d)) 0 None w) as [_ H].
  intros E. unfold World in E. rewrite E in H. destruct H as (k & _ & Ek).
  now apply (Hclosure k (Ok res) _ Ek).
Qed.

End PendingFrame.

(** ** db.go, server.go: block rows carry the hash of their content *)

Section SelfHashed.
Context {P : Primitives}.

Lemma addBlock_blocks_cases (block : Block) (s s' : Store) :
  addBlock block s = (Ok tt, s') ->
  blocks s' = blocks s
  \/ blocks s'
     = blocks s
       ++ [{| row_hash := blk_Hash block;
              row_previous_hash := Hash_Value (PreviousHash block);
              row_height := Height block;
              row_block := json_view_Block block |}].
Proof.
  unfold addBlock.
  destruct (select_block (PreviousHash block) s) as [row | ];
    [ | discriminate].
  unfold insert_block.
  destruct (Hash_Value (blk_Hash block)) as [n | ] eqn:En.
  2: { cbn. discriminate. }
  pose proof (Hash_Value_Some _ _ En) as ->.
  destruct (existsb (has_hash (blk_Hash block)) (blocks s)).
  - cbn. intros H. inversion H. now left.
  - intros H. apply addBlock_body_blocks in H. now right.
Qed.

Lemma Block_UpdateHash_length (b : Block) :
  length (blk_Hash (Block_UpdateHash b)) = length (blk_Hash b).
Proof. rewrite Block_UpdateHash_digest. apply copy_length. Qed.

(** A block that went through [UpdateHash] gets a self-hashed row. *)
Lemma addBlock_self_hashed (b : Block) (s s' : Store) :
  length (blk_Hash b) = md5_Size ->
  addBlock (Block_UpdateHash b) s = (Ok tt, s') ->
  blocks_self_hashed s -> blocks_self_hashed s'.
Proof.
  intros Hlen E Hs. unfold blocks_self_hashed in *.
  destruct (addBlock_blocks_cases _ _ _ E) as [-> | ->]; [exact Hs | ].
  apply Forall_app. split; [exact Hs | ]. constructor; [ | constructor].
  unfold row_self_hashed. cbn [row_block row_hash].
  rewrite DecodeBlock_json_view
    by (rewrite Block_UpdateHash_length; exact Hlen).
  now rewrite Block_UpdateHash_twice.
Qed.

Lemma addBlocks_down_self_hashed (chain : list Block) (n : nat) :
  Forall (fun b => length (blk_Hash b) = md5_Size) chain ->
  forall s s',
    addBlocks_down n (map Block_UpdateHash chain) s = (Ok tt, s') ->
    blocks_self_hashed s -> blocks_self_hashed s'.
Proof.
  intros Hlen. induction n as [ | n IH]; intros s s'; cbn [addBlocks_down].
  - intros H. inversion H; subst. auto.
  - rewrite nth_error_map.
    destruct (nth_error chain n) as [b | ] eqn:En; cbn [option_map];
      [ | discriminate].
    unfold bind.
    destruct (addBlock (Block_UpdateHash b) s) as [[[] | e] s1] eqn:E1;
      [ | discriminate].
    intros H Hs. apply (IH _ _ H).
    apply (addBlock_self_hashed b s s1); auto.
    rewrite Forall_forall in Hlen. apply Hlen.
    eapply nth_error_In; eauto.
Qed.

(** X17: in a store whose block rows carry the hash of their content, the
    parent addBlock reads back has the hash the block names, so Valid is
    given a parent that passes its previous-hash test; and such a store
    stays such when addBlock accepts a block that went through UpdateHash,
    as every block the server adds has. *)
Theorem addBlock_self_hashed_store (block : Block) (s : Store) :
  blocks_self_hashed s ->
  (forall row,
      select_block (PreviousHash block) s = Some row ->
      blk_Hash (DecodeBlock (row_block row)) = PreviousHash block
      /\ forall e,
           Block_Valid block (DecodeBlock (row_block row)) = Some e ->
           e <> InvalidBlockError "cryptopuff: previous hash mismatch" None)
  /\ (forall b s',
         length (blk_Hash b) = md5_Size ->
         addBlock (Block_UpdateHash b) s = (Ok tt, s') ->
         blocks_self_hashed s').
Proof.
  intros Hs. split.
  - intros row Hrow.
    assert (E : blk_Hash (DecodeBlock (row_block row)) = PreviousHash block).
    { unfold select_block in Hrow.
      destruct (Hash_Value (PreviousHash block)) as [k | ] eqn:Ek;
        [ | discriminate].
      apply Hash_Value_Some in Ek. subst k.
      apply find_some in Hrow. destruct Hrow as [Hin Hk].
      unfold has_hash in Hk. apply bytes_eqb_eq in Hk.
      unfold blocks_self_hashed in Hs. rewrite Forall_forall in Hs.
      rewrite (Hs row Hin). exact Hk. }
    split; [exact E | ].
    intros e. unfold Block_Valid. rewrite E, bytes_eqb_refl. cbn [negb].
    repeat match goal with
           | |- context [if ?c then _ else _] => destruct c
           end;
      try (intros H; inversion H; discriminate).
    intros H Ee. subst e.
    clear - H. induction (Transactions block) as [ | t l IH];
      cbn [Transactions_Valid] in H; [discriminate | ].
    unfold SignedTx_Valid in H at 1.
    destruct (Tx_ValidAmounts t); [discriminate | ].
    destruct (SignedTx_ValidSignature t); [discriminate | auto].
  - intros b s' Hlen E. eapply addBlock_self_hashed; eauto.
Qed.

(** X18: the handler of POST /api/blocks and fetchBlocks keep the store in
    order, whatever the driver does: after either, a consistent committed
    store is consistent, block rows that carried the hash of their content
    still do, and stored blocks are still stored; the handler leaves the
    committed store as it was unless it answers 200 without a backfill. *)
Theorem Server_addBlock_keeps_store (srv : Server) (xpeer : string)
    (b : Block) (chain : list Block) (w : World) :
  length (blk_Hash b) = md5_Size ->
  Forall (fun b => length (blk_Hash b) = md5_Size) chain ->
  Store_consistent (database.committed w) ->
  blocks_self_hashed (database.committed w) ->
  let w1 := snd (Server_addBlock srv xpeer b w) in
  let w2 := snd (Server_fetchBlocks srv (Ok (PeerClient_Blocks chain)) w) in
  (Store_consistent (database.committed w1)
   /\ blocks_self_hashed (database.committed w1)
   /\ (bumped (fst (Server_addBlock srv xpeer b w)) = false ->
       database.committed w1 = database.committed w))
  /\ (Store_consistent (database.committed w2)
      /\ blocks_self_hashed (database.committed w2)
      /\ (snd (fst (Server_fetchBlocks srv (Ok (PeerClient_Blocks chain)) w))
          = false ->
          database.committed w2 = database.committed w)).
Proof.
  intros Hb Hchain Hc Hs. cbn zeta.
  pose (I := fun st => Store_consistent st /\ blocks_self_hashed st).
  assert (I1 : I (database.committed
                    (snd (DB_AddBlock (srv_db srv) (Block_UpdateHash b) w)))).
  { unfold DB_AddBlock. apply (TransactWithRetry_invariant I).
    - intros k [] st' E. split.
      + eapply addBlock_consistent; eauto.
      + eapply addBlock_self_hashed; eauto.
    - split; assumption. }
  assert (I2 : I (database.committed
                    (snd (DB_AddBlocks (srv_db srv)
                                       (PeerClient_Blocks chain) w)))).
  { unfold DB_AddBlocks. apply (TransactWithRetry_invariant I).
    - intros k [] st' E.
      destruct (AddBlocks_tx_down _ _ _ E) as [-> | [n En] ];
        [split; assumption | ].
      split.
      + eapply addBlocks_down_consistent; eauto.
      + eapply addBlocks_down_self_hashed; eauto.
    - split; assumption. }
  assert (E1 : forall e,
             fst (DB_AddBlock (srv_db srv) (Block_UpdateHash b) w) = Err e ->
             database.committed
               (snd (DB_AddBlock (srv_db srv) (Block_UpdateHash b) w))
             = database.committed w).
  { intros e. unfold DB_AddBlock, database.TransactWithRetry.
    destruct (database.tries (srv_db srv) =? 0); [reflexivity | ].
    destruct (retry_atomic (srv_db srv) (run (addBlock (Block_UpdateHash b)))
                (Z.to_nat (database.tries (srv_db srv))) 0 None w) as [_ H].
    intros E. unfold World in E. rewrite E in H. exact H. }
  assert (E2 : forall e,
             fst (DB_AddBlocks (srv_db srv) (PeerClient_Blocks chain) w)
             = Err e ->
             database.committed
               (snd (DB_AddBlocks (srv_db srv) (PeerClient_Blocks chain) w))
             = database.committed w).
  { intros e. unfold DB_AddBlocks, database.TransactWithRetry.
    destruct (database.tries (srv_db srv) =? 0); [reflexivity | ].
    destruct (retry_atomic (srv_db srv)
                (run (AddBlocks_tx (PeerClient_Blocks chain)))
                (Z.to_nat (database.tries (srv_db srv))) 0 None w) as [_ H].
    intros E. unfold World in E. rewrite E in H. exact H. }
  destruct I1 as [C1 S1]. destruct I2 as [C2 S2].
  unfold Server_addBlock, Server_fetchBlocks. cbn zeta. split.
  - destruct (DB_AddBlock (srv_db srv) (Block_UpdateHash b) w)
      as [[[] | e] w1] eqn:E; cbn [fst snd] in *.
    + repeat split; auto. discriminate.
    + specialize (E1 e eq_refl).
      destruct e; cbn [fst snd bumped]; repeat split; auto.
  - destruct (DB_AddBlocks (srv_db srv) (PeerClient_Blocks chain) w)
      as [[[] | e] w2] eqn:E; cbn [fst snd] in *.
    + repeat split; auto. discriminate.
    + specialize (E2 e eq_refl). repeat split; auto.
Qed.

End SelfHashed.

Lemma addBlock_self_hashed_store_witness :
  (forall row,
      select_block (PreviousHash sample_block_once) sample_store = Some row ->
      blk_Hash (DecodeBlock (row_block row)) = PreviousHash sample_block_once
      /\ forall e,
           Block_Valid sample_block_once (DecodeBlock (row_block row))
           = Some e ->
           e <> InvalidBlockError "cryptopuff: previous hash mismatch" None)
  /\ (forall b s',
         length (blk_Hash b) = md5_Size ->
         addBlock (Block_UpdateHash b) sample_store = (Ok tt, s') ->
         blocks_self_hashed s').
Proof.
  apply (addBlock_self_hashed_store sample_block_once sample_store).
  repeat constructor.
Defined.

Lemma Server_addBlock_keeps_store_witness :
  let srv := NewServer "node0:8080" sample_db in
  let chain := [sample_block_once; sample_genesis] in
  let w1 := snd (Server_addBlock srv "node1:8080" sample_block_once
                                 sample_world) in
  let w2 := snd (Server_fetchBlocks srv (Ok (PeerClient_Blocks chain))
                                    sample_world) in
  (Store_consistent (database.committed w1)
   /\ blocks_self_hashed (database.committed w1)
   /\ (bumped (fst (Server_addBlock srv "node1:8080" sample_block_once
                                    sample_world)) = false ->
       database.committed w1 = database.committed sample_world))
  /\ (Store_consistent (database.committed w2)
      /\ blocks_self_hashed (database.committed w2)
      /\ (snd (fst (Server_fetchBlocks srv (Ok (PeerClient_Blocks chain))
                                       sample_world))
          = false ->
          database.committed w2 = database.committed sample_world)).
Proof.
  apply (Server_addBlock_keeps_store (NewServer "node0:8080" sample_db)
           "node1:8080" sample_block_once
           [sample_block_once; sample_genesis] sample_world).
  - reflexivity.
  - repeat constructor.
  - reflexivity.
  - repeat constructor.
Defined.

(** ** db.go: AddTx *)

Section AddTxFacts.
Context {P : Primitives}.

(** X19: what AddTx does, whichever block bestBlockHash named.  It touches
    no table but that of the transactions, and that one only by adding at
    most one row; when it does not succeed the store is as it was.  When it
    succeeds on [tip], the transaction is valid, the balance of its source
    under [tip] covers Amount + Fee as RequiredBalance adds them, and its
    hash is not in the inclusion set of [tip]; the transaction is then
    stored under its hash and pending for [tip], unless its hash is the
    empty hash, in which case the INSERT OR IGNORE has dropped it without
    an error; and the same AddTx run again on the store it left is accepted
    again and changes nothing. *)
Theorem AddTx_effect (best : result Hash) (stx : SignedTx) (s s' : Store)
    (r : result unit) :
  AddTx_tx best stx s = (r, s') ->
  (blocks s' = blocks s /\ balances s' = balances s
   /\ block_txs s' = block_txs s /\ included_txs s' = included_txs s
   /\ peers s' = peers s
   /\ exists added, txs s' = txs s ++ added /\ (length added <= 1)%nat)
  /\ (r <> Ok tt -> s' = s)
  /\ (r = Ok tt ->
      exists tip,
        best = Ok tip
        /\ SignedTx_Valid stx = None
        /\ Tx_RequiredBalance stx <= balance_at s tip (Source stx)
        /\ select_included tip (stx_Hash stx) s = false
        /\ (stx_Hash stx = EmptyHash -> s' = s)
        /\ (stx_Hash stx <> EmptyHash ->
            exists row,
              In row (select_pending tip s')
              /\ txr_hash row = stx_Hash stx)
        /\ AddTx_tx best stx s' = (Ok tt, s')).
Proof.
  unfold AddTx_tx. destruct best as [tip | err].
  2: { intros H. inversion H; subst.
       split; [repeat split; auto; exists []; rewrite app_nil_r; auto | ].
       split; [reflexivity | discriminate]. }
  destruct (validTx_cases stx tip s) as [(m & c & s0 & Hr) | [Hok Hinc] ].
  { rewrite (bind_Err _ _ _ _ _ Hr). intros H.
    injection H as Hr' Hs'. subst r s'.
    assert (s0 = s).
    { unfold validTx, bind, check in Hr.
      destruct (SignedTx_Valid stx); cbn [fail ret] in Hr;
        [inversion Hr; reflexivity | ].
      destruct (_ <? _); [inversion Hr; reflexivity | ].
      destruct (select_included _ _ _); inversion Hr; reflexivity. }
    subst s0.
    split; [repeat split; auto; exists []; rewrite app_nil_r; auto | ].
    split; [reflexivity | discriminate]. }
  rewrite (bind_Ok _ _ _ _ _ Hok).
  destruct (validTx_ok _ _ _ _ Hok) as (_ & Hv & Hbal & _).
  assert (Hagain : forall s1,
             balances s1 = balances s -> included_txs s1 = included_txs s ->
             validTx stx tip s1 = (Ok tt, s1)).
  { intros s1 B I. unfold validTx, bind, check. rewrite Hv. cbn [ret].
    fold (balance_at s1 tip (Source stx)).
    rewrite (balance_at_ext _ _ B).
    destruct (Z.ltb_spec (balance_at s tip (Source stx))
                         (Tx_RequiredBalance stx)); [lia | ].
    unfold select_included in *. rewrite I, Hinc. reflexivity. }
  unfold addTx.
  destruct (Hash_Value (stx_Hash stx)) as [h | ] eqn:Eh.
  2: { intros H. inversion H; subst.
       split; [repeat split; auto; exists []; rewrite app_nil_r; auto | ].
       split; [reflexivity | ].
       intros _. exists tip. repeat split; auto.
       - intros Hne. rewrite (Hash_Value_not_empty _ Hne) in Eh.
         discriminate.
       - rewrite (bind_Ok _ _ _ _ _ Hok). unfold addTx.
         rewrite ?Eh. reflexivity. }
  pose proof (Hash_Value_Some _ _ Eh) as ->.
  assert (Hne : stx_Hash stx <> EmptyHash).
  { intros E. rewrite E in Eh. discriminate. }
  assert (Hpending : forall s1 row,
             included_txs s1 = included_txs s ->
             In row (txs s1) -> txr_hash row = stx_Hash stx ->
             In row (select_pending tip s1)).
  { intros s1 row I Hin Hrow. unfold select_pending.
    unfold select_included in Hinc.
    destruct (Hash_Value tip) as [k | ]; [ | exact Hin].
    apply filter_In. split; [exact Hin | ].
    rewrite Eh in Hinc. now rewrite I, Hrow, Hinc. }
  destruct (existsb (tx_key (stx_Hash stx)) (txs s)) eqn:Ex;
    intros H; injection H as <- <-.
  - split; [repeat split; auto; exists []; rewrite app_nil_r; auto | ].
    split; [reflexivity | ].
    intros _. exists tip.
    split; [reflexivity | ]. split; [exact Hv | ]. split; [exact Hbal | ].
    split; [exact Hinc | ]. split; [reflexivity | ]. split.
    + intros _. apply existsb_exists in Ex. destruct Ex as (row & Hin & Hk).
      exists row. unfold tx_key in Hk. apply bytes_eqb_eq in Hk.
      split; [now apply Hpending | exact Hk].
    + rewrite (bind_Ok _ _ _ _ _ Hok). now rewrite Ex.
  - split.
    { repeat split; auto. eexists. split; [reflexivity | ]. cbn. lia. }
    split; [intros Hr; now contradiction Hr | ].
    intros _. exists tip.
    split; [reflexivity | ]. split; [exact Hv | ]. split; [exact Hbal | ].
    split; [exact Hinc | ]. split; [intros E; contradiction | ]. split.
    + intros _.
      exists {| txr_hash := stx_Hash stx; txr_tx := json_view_SignedTx stx |}.
      split.
      * apply Hpending; [reflexivity | | reflexivity].
        cbn [txs set_txs]. apply in_or_app. right. now left.
      * reflexivity.
    + erewrite bind_Ok by (apply Hagain; reflexivity).
      cbn [txs set_txs]. rewrite existsb_app. cbn [existsb].
      unfold tx_key at 2. cbn [txr_hash]. rewrite bytes_eqb_refl.
      rewrite orb_true_r. reflexivity.
Qed.

End AddTxFacts.

Lemma AddTx_effect_witness :
  (blocks sample_store = blocks (set_txs sample_store [])
   /\ balances sample_store = balances (set_txs sample_store [])
   /\ block_txs sample_store = block_txs (set_txs sample_store [])
   /\ included_txs sample_store = included_txs (set_txs sample_store [])
   /\ peers sample_store = peers (set_txs sample_store [])
   /\ exists added,
       txs sample_store = txs (set_txs sample_store []) ++ added
       /\ (length added <= 1)%nat)
  /\ (Ok tt <> Ok tt -> sample_store = set_txs sample_store [])
  /\ (Ok tt = Ok tt ->
      exists tip,
        Ok (blk_Hash sample_genesis) = Ok tip
        /\ SignedTx_Valid sample_stx = None
        /\ Tx_RequiredBalance sample_stx
           <= balance_at (set_txs sample_store []) tip (Source sample_stx)
        /\ select_included tip (stx_Hash sample_stx)
                           (set_txs sample_store []) = false
        /\ (stx_Hash sample_stx = EmptyHash ->
            sample_store = set_txs sample_store [])
        /\ (stx_Hash sample_stx <> EmptyHash ->
            exists row,
              In row (select_pending tip sample_store)
              /\ txr_hash row = stx_Hash sample_stx)
        /\ AddTx_tx (Ok (blk_Hash sample_genesis)) sample_stx sample_store
           = (Ok tt, sample_store)).
Proof.
  apply (AddTx_effect (Ok (blk_Hash sample_genesis)) sample_stx
                      (set_txs sample_store []) sample_store (Ok tt)).
  vm_compute. reflexivity.
Defined.

(** ** db.go, server.go: the peer table *)

Section PeerFacts.
Context {P : Primitives}.

Lemma set_peers_same (s : Store) : set_peers s (peers s) = s.
Proof. destruct s. reflexivity. Qed.

Lemma filter_absent (p : string) (l : list string) :
  ~ In p l -> filter (fun q => negb (String.eqb q p)) l = l.
Proof.
  induction l as [ | x l IH]; [reflexivity | ].
  intros H. cbn [filter].
  destruct (String.eqb_spec x p) as [-> | Hne]; cbn [negb].
  - exfalso. apply H. now left.
  - rewrite IH; [reflexivity | ]. intros Hin. apply H. now right.
Qed.

Lemma In_filter_peer (p q : string) (l : list string) :
  In q (filter (fun x => negb (String.eqb x p)) l) <-> q <> p /\ In q l.
Proof.
  rewrite filter_In. split; intros [H1 H2]; split; auto.
  - intros ->. rewrite String.eqb_refl in H2. discriminate.
  - apply negb_true_iff. now apply String.eqb_neq.
Qed.

(** X20: the peer table as a set.  AddPeer reports that it created an
    entry exactly when the string was not there, and afterwards the table
    holds the string and what it held; RemovePeer takes out the string and
    nothing else; PeerExists finds exactly the strings of the table;
    neither AddPeer nor RemovePeer ever leaves a string twice in a table
    that had none twice; and RemovePeer undoes an AddPeer that created an
    entry. *)
Theorem Peers_set_laws (p : string) (s : Store) :
  fst (AddPeer_tx p s) = Ok (negb (existsb (String.eqb p) (peers s)))
  /\ (forall q, In q (peers (snd (AddPeer_tx p s))) <-> q = p \/ In q (peers s))
  /\ (forall q, In q (peers (snd (RemovePeer_tx p s)))
                <-> q <> p /\ In q (peers s))
  /\ (forall q, fst (PeerExists_tx q s) = Ok tt <-> In q (peers s))
  /\ (NoDup (peers s) ->
      NoDup (peers (snd (AddPeer_tx p s)))
      /\ NoDup (peers (snd (RemovePeer_tx p s))))
  /\ (~ In p (peers s) ->
      RemovePeer_tx p (snd (AddPeer_tx p s)) = (Ok tt, s)).
Proof.
  unfold AddPeer_tx, RemovePeer_tx, PeerExists_tx. cbn [fst snd].
  split; [destruct (existsb _ _); reflexivity | ].
  split.
  { intros q. destruct (existsb (String.eqb p) (peers s)) eqn:E;
      cbn [snd peers set_peers].
    - apply existsb_eqb_In in E. split; [auto | ].
      intros [-> | H]; assumption.
    - rewrite in_app_iff. cbn [In]. split; intros H.
      + destruct H as [H | [-> | [] ] ]; auto.
      + destruct H as [-> | H]; auto. }
  split; [intros q; cbn [peers set_peers]; apply In_filter_peer | ].
  split.
  { intros q. rewrite <- existsb_eqb_In.
    destruct (existsb (String.eqb q) (peers s)); cbn [fst];
      split; congruence. }
  split.
  { intros Hnd. split.
    - destruct (existsb (String.eqb p) (peers s)) eqn:E;
        cbn [snd peers set_peers]; [exact Hnd | ].
      apply NoDup_app; [exact Hnd | repeat constructor; auto | ].
      intros x Hx [<- | [] ]. apply existsb_eqb_In in Hx. congruence.
    - cbn [peers set_peers]. now apply NoDup_filter. }
  intros Hp.
  assert (E : existsb (String.eqb p) (peers s) = false).
  { apply not_true_is_false. intros H. apply existsb_eqb_In in H. auto. }
  rewrite E. cbn [snd peers set_peers].
  rewrite filter_app, (filter_absent p _ Hp). cbn [filter].
  rewrite String.eqb_refl. cbn [negb]. rewrite app_nil_r.
  f_equal. destruct s. reflexivity.
Qed.

Lemma ToLower_ascii_idempotent (c : ascii) :
  ToLower_ascii (ToLower_ascii c) = ToLower_ascii c.
Proof.
  destruct c as [[] [] [] [] [] [] [] []]; reflexivity.
Qed.

Lemma ToLower_idempotent (s : string) : ToLower (ToLower s) = ToLower s.
Proof.
  induction s as [ | c s IH]; [reflexivity | ].
  cbn [ToLower]. now rewrite ToLower_ascii_idempotent, IH.
Qed.



(** PeerExists reads: the committed store is the same after it. *)
Lemma DB_PeerExists_committed (d : database.DB) (peer : string) (w : World) :
  database.committed (snd (DB_PeerExists d peer w)) = database.committed w.
Proof.
  unfold DB_PeerExists.
  pose proof (TransactWithRetry_invariant
                (fun st => st = database.committed w) d
                (run (PeerExists_tx peer)) w) as H.
  destruct (database.TransactWithRetry d (run (PeerExists_tx peer)) w)
    as [[[] | e] w1]; cbn [snd] in *.
  - apply H; [ | reflexivity].
    intros k a st'. unfold run, PeerExists_tx.
    destruct (existsb _ _); intros E; inversion E; reflexivity.
  - assert (E : database.committed w1 = database.committed w).
    { apply H; [ | reflexivity].
      intros k a st'. unfold run, PeerExists_tx.
      destruct (existsb _ _); intros E; inversion E; reflexivity. }
    destruct e; exact E.
Qed.

(** X21: validateAndAddPeer never writes to the store and is careful
    about whom it starts a goroutine for: the peer it starts one for is the
    lower-case form of the argument, is in lower case, and is not the
    external address of the server; nothing is started when it returns an
    error, which is then the wrapped error of PeerExists; and on a server
    made by NewServer, the external address in any capitalization is
    dropped before the database is asked. *)
Theorem validateAndAddPeer_spawn (srv : Server) (peer : string) (w : World) :
  database.committed (snd (validateAndAddPeer srv peer w))
  = database.committed w
  /\ (forall q,
         snd (fst (validateAndAddPeer srv peer w)) = Some q ->
         q = ToLower peer /\ ToLower q = q /\ q <> extAddr srv
         /\ fst (fst (validateAndAddPeer srv peer w)) = None)
  /\ (forall e,
         fst (fst (validateAndAddPeer srv peer w)) = Some e ->
         snd (fst (validateAndAddPeer srv peer w)) = None
         /\ exists cause,
             e = errors_Wrap cause
                             "cryptopuff: failed to check if peer exists")
  /\ (forall ext d,
         same_peer peer ext ->
         validateAndAddPeer (NewServer ext d) peer w = (None, None, w)).
Proof.
  split; [ | split; [ | split] ].
  - unfold validateAndAddPeer.
    destruct (String.eqb (ToLower peer) (extAddr srv)); [reflexivity | ].
    pose proof (DB_PeerExists_committed (srv_db srv) (ToLower peer) w) as H.
    destruct (DB_PeerExists (srv_db srv) (ToLower peer) w)
      as [[[] | e] w1]; exact H.
  - intros q. unfold validateAndAddPeer.
    destruct (String.eqb_spec (ToLower peer) (extAddr srv)) as [E | Hne];
      [discriminate | ].
    destruct (DB_PeerExists (srv_db srv) (ToLower peer) w)
      as [[[] | e] w1]; cbn [fst snd]; try discriminate.
    intros H. inversion H; subst q.
    repeat split; auto. apply ToLower_idempotent.
  - intros e. unfold validateAndAddPeer.
    destruct (String.eqb (ToLower peer) (extAddr srv)); [discriminate | ].
    destruct (DB_PeerExists (srv_db srv) (ToLower peer) w)
      as [[[] | e'] w1]; cbn [fst snd]; try discriminate.
    intros H. inversion H; subst e. split; [reflexivity | eauto].
  - intros ext d Hsame. unfold validateAndAddPeer, NewServer.
    cbn [extAddr]. unfold same_peer in Hsame.
    rewrite Hsame, String.eqb_refl. reflexivity.
Qed.

Lemma DB_RemovePeer_cases (d : database.DB) (peer : string) (w : World) :
  database.committed (snd (DB_RemovePeer d peer w)) = database.committed w
  \/ database.committed (snd (DB_RemovePeer d peer w))
     = snd (RemovePeer_tx peer (database.committed w)).
Proof.
  unfold DB_RemovePeer.
  apply (TransactWithRetry_invariant
           (fun st => st = database.committed w
                      \/ st = snd (RemovePeer_tx peer (database.committed w)))).
  - intros k a st' E. right. unfold run in E. now rewrite E.
  - now left.
Qed.

(** X22: the periodic sync removes at most the peer it pinged, and never a
    well-known one.  Whatever the driver does, every other peer is in the
    table afterwards exactly when it was before, and no other table
    changes; when the ping succeeded, or the peer is the lower-case form of
    a peer the server was started with, the store is not touched and the
    full sync with the peer is started. *)
Theorem periodicFullPeerSync_removes (configured : list string)
    (srv : Server) (peer : string) (ping : option error) (w : World) :
  let r := periodicFullPeerSync_goroutine (createWellKnownPeers configured)
                                          srv peer ping w in
  (forall q, q <> peer ->
             (In q (peers (database.committed (snd r)))
              <-> In q (peers (database.committed w))))
  /\ (forall q, In q (peers (database.committed (snd r))) ->
                In q (peers (database.committed w)))
  /\ set_peers (database.committed (snd r)) (peers (database.committed w))
     = database.committed w
  /\ (ping = None \/ (exists c, In c configured /\ ToLower c = peer) ->
      r = ([FullPeerSync peer], w)).
Proof.
  cbn zeta. unfold periodicFullPeerSync_goroutine.
  assert (Hsame : forall q,
             In q (peers (database.committed w))
             <-> In q (peers (database.committed w))) by tauto.
  assert (Hset : set_peers (database.committed w)
                           (peers (database.committed w))
                 = database.committed w) by apply set_peers_same.
  assert (Hremove :
            let w1 := snd (DB_RemovePeer (srv_db srv) peer w) in
            (forall q, q <> peer ->
                       (In q (peers (database.committed w1))
                        <-> In q (peers (database.committed w))))
            /\ (forall q, In q (peers (database.committed w1)) ->
                          In q (peers (database.committed w)))
            /\ set_peers (database.committed w1)
                         (peers (database.committed w))
               = database.committed w).
  { cbn zeta.
    destruct (DB_RemovePeer_cases (srv_db srv) peer w) as [-> | ->];
      [repeat split; auto; tauto | ].
    unfold RemovePeer_tx. cbn [snd peers set_peers].
    split; [ | split].
    - intros q Hq. rewrite In_filter_peer. tauto.
    - intros q Hq. apply In_filter_peer in Hq. tauto.
    - destruct (database.committed w). reflexivity. }
  cbn zeta in Hremove.
  destruct ping as [err | ].
  2: { cbn [snd]. repeat split; auto; tauto. }
  destruct (existsb (String.eqb peer) (createWellKnownPeers configured))
    eqn:Ewk; cbn [negb].
  { cbn [snd]. repeat split; auto; tauto. }
  destruct Hremove as (R1 & R2 & R3).
  destruct (DB_RemovePeer (srv_db srv) peer w) as [[[] | e] w1];
    cbn [snd] in *.
  - split; [exact R1 | ]. split; [exact R2 | ]. split; [exact R3 | ].
    intros [H | (c & Hc & Hl)]; [discriminate | ].
    exfalso. apply not_true_iff_false in Ewk. apply Ewk.
    apply existsb_eqb_In. unfold createWellKnownPeers.
    apply in_map_iff. eauto.
  - split; [exact R1 | ]. split; [exact R2 | ]. split; [exact R3 | ].
    intros [H | (c & Hc & Hl)]; [discriminate | ].
    exfalso. apply not_true_iff_false in Ewk. apply Ewk.
    apply existsb_eqb_In. unfold createWellKnownPeers.
    apply in_map_iff. eauto.
Qed.

End PeerFacts.

(** ** block.go: the hash input is unambiguous *)

Section HashInput.
Context {P : Primitives}.

Lemma app_inj_length {T : Type} (a a' b b' : list T) :
  length a = length a' -> a ++ b = a' ++ b' -> a = a' /\ b = b'.
Proof.
  revert a'. induction a as [ | x a IH]; intros [ | x' a'] Hl H;
    cbn in Hl; try discriminate.
  - auto.
  - cbn in H. inversion H; subst. destruct (IH a' ltac:(lia) H2) as [-> ->].
    auto.
Qed.

Lemma be64_injective (x y : Z) :
  is_int64 x -> is_int64 y -> be64 x = be64 y -> x = y.
Proof.
  unfold is_int64, MinInt64, MaxInt64. intros Hx Hy H.
  assert (E : x mod 2 ^ 64 = y mod 2 ^ 64).
  { rewrite <- (proj2 (be64_big_endian x)), <- (proj2 (be64_big_endian y)).
    now rewrite H. }
  assert (Hd : (x - y) mod 2 ^ 64 = 0).
  { rewrite Zminus_mod, E, Z.sub_diag. reflexivity. }
  apply Z.mod_divide in Hd; [ | lia]. destruct Hd as [k Hk].
  assert (k = 0) by nia. lia.
Qed.

(** X23: the bytes a block hash is computed from determine the hashed
    fields.  For blocks whose fields are of the types the source gives
    them, equal hash inputs mean equal PreviousHash, Height, Nonce, reward
    destination and amount, and equal digests of the transaction lists:
    the length written before the destination keeps the variable-length
    field from running into its neighbours. *)
Theorem block_hash_input_injective (b b' : Block) :
  Block_typed b -> Block_typed b' ->
  block_hash_input b = block_hash_input b' ->
  PreviousHash b = PreviousHash b'
  /\ Height b = Height b' /\ Nonce b = Nonce b'
  /\ RewardOutput b = RewardOutput b'
  /\ TxListHash b = TxListHash b'.
Proof.
  intros (Hp & Hh & Hn & Ha & Hd) (Hp' & Hh' & Hn' & Ha' & Hd') H.
  unfold block_hash_input in H.
  apply app_inj_length in H; [ | congruence]. destruct H as [E1 H].
  apply app_inj_length in H; [ | reflexivity]. destruct H as [E2 H].
  apply app_inj_length in H; [ | reflexivity]. destruct H as [E3 H].
  apply app_inj_length in H; [ | reflexivity]. destruct H as [E4 H].
  apply be64_injective in E2; [ | assumption | assumption].
  apply be64_injective in E3; [ | assumption | assumption].
  apply be64_injective in E4;
    [ | unfold is_int64, MinInt64, MaxInt64 in *; lia
      | unfold is_int64, MinInt64, MaxInt64 in *; lia ].
  apply app_inj_length in H; [ | lia]. destruct H as [E5 H].
  apply app_inj_length in H; [ | reflexivity]. destruct H as [E6 E7].
  apply be64_injective in E6; [ | assumption | assumption].
  repeat split; auto.
  destruct (RewardOutput b), (RewardOutput b'). cbn in *. congruence.
Qed.

End HashInput.

Lemma block_hash_input_injective_witness :
  let b' := set_blk_Hash sample_block_once EmptyHash in
  PreviousHash sample_block_once = PreviousHash b'
  /\ Height sample_block_once = Height b'
  /\ Nonce sample_block_once = Nonce b'
  /\ RewardOutput sample_block_once = RewardOutput b'
  /\ TxListHash sample_block_once = TxListHash b'.
Proof.
  apply (block_hash_input_injective
           sample_block_once (set_blk_Hash sample_block_once EmptyHash)).
  - unfold Block_typed, is_int64, MinInt64, MaxInt64. simpl.
    repeat split; lia.
  - unfold Block_typed, is_int64, MinInt64, MaxInt64. simpl.
    repeat split; lia.
  - reflexivity.
Defined.

(** ** server.go, db.go: the block a miner builds is accepted *)

Section MinedBlock.
Context {P : Primitives}.

Lemma covered_ext (l : list SignedTx) :
  forall f g, (forall a, f a = g a) -> covered f l -> covered g l.
Proof.
  induction l as [ | t l IH]; intros f g H; cbn [covered]; [auto | ].
  intros [H1 H2]. split; [now rewrite <- H | ].
  apply (IH (apply_tx f t)); [ | exact H2].
  intros a. unfold apply_tx. now rewrite H.
Qed.

(** What the loop of [PendingTxs] appends is covered by the scratch
    balances, valid, and read from distinct rows. *)
Lemma PendingTxs_rows_covered (limit : Z) (rows : list TxRow) :
  rows_typed rows ->
  forall temp acc s res o s',
    (forall a, 0 <= temp_balance temp a) ->
    PendingTxs_rows limit rows temp acc s = (Ok (res, o), s') ->
    exists new,
      res = acc ++ new
      /\ covered (temp_balance temp) new
      /\ Forall (fun t => SignedTx_Valid t = None /\ int64_amounts t
                          /\ exists row, In row rows
                             /\ t = SignedTx_UpdateHash (txr_tx row)) new
      /\ (NoDup (map (fun r => stx_Hash (SignedTx_UpdateHash (txr_tx r)))
                     rows) ->
          NoDup (map stx_Hash new)).
Proof.
  induction rows as [ | row rows IH]; intros Hty temp acc s res o s' Hpos;
    cbn [PendingTxs_rows].
  - intros H. inversion H; subst. exists []. rewrite app_nil_r.
    split; [reflexivity | ]. split; [exact I | ].
    split; [constructor | intros _; constructor].
  - inversion Hty as [ | ? ? Hrow Hrest]; subst.
    set (stx := SignedTx_UpdateHash (txr_tx row)).
    assert (Hmono : forall new,
               Forall (fun t => SignedTx_Valid t = None /\ int64_amounts t
                                /\ exists row', In row' rows
                                   /\ t = SignedTx_UpdateHash (txr_tx row'))
                      new ->
               Forall (fun t => SignedTx_Valid t = None /\ int64_amounts t
                                /\ exists row', In row' (row :: rows)
                                   /\ t = SignedTx_UpdateHash (txr_tx row'))
                      new).
    { apply Forall_impl. intros t (Hv & Hi & row' & Hin & Et).
      split; [exact Hv | ]. split; [exact Hi | ].
      exists row'. split; [now right | exact Et]. }
    destruct (validTemporaryTx temp stx) as [e | ] eqn:Ev.
    + destruct (is_InvalidBlockError e); [ | discriminate].
      unfold bind.
      destruct (delete_unreferenced_tx (stx_Hash stx) s) as [[[] | e'] s1];
        [ | discriminate].
      intros H. destruct (IH Hrest _ _ _ _ _ _ Hpos H)
        as (new & -> & Hc & Hf & Hn).
      exists new. split; [reflexivity | ]. split; [exact Hc | ].
      split; [now apply Hmono | ].
      intros Hnd. cbn [map] in Hnd. inversion Hnd; subst. auto.
    + assert (Hstx : int64_amounts stx) by exact Hrow.
      destruct (accepted_step temp stx Hstx Ev Hpos) as [Happ Hpos'].
      cbn zeta in Happ, Hpos'.
      assert (Hv : SignedTx_Valid stx = None
                   /\ Tx_RequiredBalance stx <= temp_balance temp (Source stx)).
      { unfold validTemporaryTx in Ev.
        destruct (SignedTx_Valid stx); [discriminate | ].
        fold (temp_balance temp (Source stx)) in Ev.
        destruct (Z.ltb_spec (temp_balance temp (Source stx))
                             (Tx_RequiredBalance stx)); [discriminate | ].
        split; [reflexivity | lia]. }
      destruct Hv as [Hv Hb].
      assert (Hhead : SignedTx_Valid stx = None /\ int64_amounts stx
                      /\ exists row', In row' (row :: rows)
                         /\ stx = SignedTx_UpdateHash (txr_tx row')).
      { split; [exact Hv | ]. split; [exact Hstx | ].
        exists row. split; [now left | reflexivity]. }
      destruct (Z.of_nat (length (acc ++ [stx])) >=? limit).
      * intros H. inversion H; subst. exists [stx].
        split; [reflexivity | ]. split; [cbn; auto | ].
        split; [constructor; auto | ].
        intros _. repeat constructor. intros [].
      * intros H. destruct (IH Hrest _ _ _ _ _ _ Hpos' H)
          as (new & -> & Hc & Hf & Hn).
        exists (stx :: new). rewrite <- app_assoc.
        split; [reflexivity | ]. split.
        { cbn [covered]. split; [exact Hb | ].
          apply (covered_ext new _ _ Happ). exact Hc. }
        split; [constructor; [exact Hhead | now apply Hmono] | ].
        intros Hnd. cbn [map] in Hnd. inversion Hnd as [ | ? ? Hnotin Hnd'];
          subst.
        cbn [map]. constructor; [ | auto].
        intros Hin. apply Hnotin. apply in_map_iff in Hin.
        destruct Hin as (t & Et & Ht).
        rewrite Forall_forall in Hf.
        destruct (Hf t Ht) as (_ & _ & row' & Hrow' & ->).
        apply in_map_iff. exists row'. split; [exact Et | exact Hrow'].
Qed.


(** One turn of the loop of [addBlock] goes through for a valid
    transaction that is covered and whose hash is new to the block. *)
Lemma addBlock_tx_succeeds (block : Block) (t : SignedTx) (s : Store) :
  blk_Hash block <> EmptyHash ->
  stx_Hash t <> EmptyHash ->
  SignedTx_Valid t = None ->
  Tx_RequiredBalance t <= balance_at s (blk_Hash block) (Source t) ->
  existsb (link_key (blk_Hash block) (stx_Hash t)) (included_txs s) = false ->
  existsb (link_key (blk_Hash block) (stx_Hash t)) (block_txs s) = false ->
  exists s', addBlock_tx block t s = (Ok tt, s').
Proof.
  intros Hn Hh Hv Hb Hi Hk.
  pose proof (Hash_Value_not_empty _ Hn) as En.
  pose proof (Hash_Value_not_empty _ Hh) as Eh.
  assert (Hok : validTx t (blk_Hash block) s = (Ok tt, s)).
  { unfold validTx, bind, check. rewrite Hv. cbn [ret].
    fold (balance_at s (blk_Hash block) (Source t)).
    destruct (Z.ltb_spec (balance_at s (blk_Hash block) (Source t))
                         (Tx_RequiredBalance t)); [lia | ].
    unfold select_included. now rewrite En, Eh, Hi. }
  unfold addBlock_tx. rewrite (bind_Ok _ _ _ _ _ Hok).
  unfold bind, debit_balance, credit_balance, addTx, insert_included_tx,
    insert_block_tx.
  rewrite En, Eh. cbn [balances set_balances].
  match goal with
  | |- context [existsb ?p ?l] =>
    match p with
    | balance_key _ _ => destruct (existsb p l)
    end
  end;
    cbn [txs set_balances];
    destruct (existsb (tx_key (stx_Hash t)) (txs s));
    cbn [included_txs set_balances set_txs]; rewrite Hi;
    cbn [block_txs set_included_txs set_balances set_txs]; rewrite Hk;
    eexists; reflexivity.
Qed.

Lemma existsb_link_app_one (n x h : Hash) (l : list LinkRow) :
  x <> h ->
  existsb (link_key n x) (l ++ [{| lnk_block_hash := n; lnk_tx_hash := h |}])
  = existsb (link_key n x) l.
Proof.
  intros Hne. rewrite existsb_app. cbn [existsb].
  unfold link_key at 2. cbn [lnk_block_hash lnk_tx_hash].
  assert (E : bytes_eqb h x = false) by (apply bytes_eqb_neq; congruence).
  rewrite E, andb_false_r. now rewrite !orb_false_r.
Qed.

(** The loop of [addBlock] goes through for transactions that are valid,
    covered in order, new to the block and pairwise distinct. *)
Lemma addBlock_txs_succeeds (block : Block) (l : list SignedTx) :
  blk_Hash block <> EmptyHash ->
  Forall (fun t => SignedTx_Valid t = None /\ int64_amounts t
                   /\ stx_Hash t <> EmptyHash) l ->
  NoDup (map stx_Hash l) ->
  forall fee s,
    covered (balance_at s (blk_Hash block)) l ->
    (forall t, In t l ->
       existsb (link_key (blk_Hash block) (stx_Hash t)) (included_txs s)
       = false
       /\ existsb (link_key (blk_Hash block) (stx_Hash t)) (block_txs s)
          = false) ->
    exists fee' s', addBlock_txs block fee l s = (Ok fee', s').
Proof.
  intros Hn. induction l as [ | t l IH]; intros Hf Hnd fee s Hc Hfresh;
    cbn [addBlock_txs].
  - eexists _, _. reflexivity.
  - inversion Hf as [ | ? ? (Hv & Hty & Hh) Hf']; subst.
    cbn [map] in Hnd. inversion Hnd as [ | ? ? Hnotin Hnd']; subst.
    cbn [covered] in Hc. destruct Hc as [Hb Hc].
    destruct (Hfresh t (or_introl eq_refl)) as [Hi Hk].
    destruct (addBlock_tx_succeeds block t s Hn Hh Hv Hb Hi Hk) as [s1 E1].
    rewrite (bind_Ok _ _ _ _ _ E1).
    destruct (addBlock_tx_effect block t s s1 Hty E1)
      as (_ & _ & _ & B & _ & _ & I1 & K1 & _).
    apply (IH Hf' Hnd').
    + apply (covered_ext l (apply_tx (balance_at s (blk_Hash block)) t));
        [ | exact Hc].
      intros a. now rewrite B, bytes_eqb_refl.
    + intros t' Ht'.
      assert (Hne : stx_Hash t' <> stx_Hash t).
      { intros E. apply Hnotin. rewrite <- E. now apply in_map. }
      rewrite I1, K1, !existsb_link_app_one by exact Hne.
      apply Hfresh. now right.
Qed.

Lemma NoDup_map_filter {A B : Type} (f : A -> B) (q : A -> bool)
    (l : list A) :
  NoDup (map f l) -> NoDup (map f (filter q l)).
Proof.
  induction l as [ | x l IH]; cbn [map filter]; [auto | ].
  intros H. inversion H as [ | ? ? Hnotin Hnd]; subst.
  destruct (q x); cbn [map]; [ | auto].
  constructor; [ | auto].
  intros Hin. apply Hnotin. apply in_map_iff in Hin.
  destruct Hin as (y & Ey & Hy). apply filter_In in Hy.
  apply in_map_iff. exists y. tauto.
Qed.

Lemma PendingTxs_tx_frame (tip : Hash) (limit : Z) (s s' : Store)
    (r : result (list SignedTx)) :
  PendingTxs_tx tip limit s = (r, s') -> only_unreferenced_txs_gone s s'.
Proof.
  intros H.
  destruct (PendingTxs_tx_inv _ _ _ _ _ H)
    as [(_ & -> & _) | (temp & rr & _ & Hrows & _)].
  - apply only_unreferenced_txs_gone_refl.
  - now apply (PendingTxs_rows_frame _ _ _ _ _ _ _ Hrows).
Qed.

(** Sufficient conditions for a block made by [NewBlock] to be valid. *)
Lemma NewBlock_Valid_intro (previous : Block) (nonce : Z) (addr : Address)
    (blockReward : Z) (stxs : list SignedTx) :
  Hash_Valid (blk_Hash (NewBlock previous nonce addr blockReward stxs))
  = true ->
  0 <= blockReward <= MaxBlockReward ->
  Z.of_nat (length stxs) <= MaxTransactionsPerBlock ->
  Forall (fun t => SignedTx_Valid t = None) stxs ->
  Block_Valid (NewBlock previous nonce addr blockReward stxs) previous = None.
Proof.
  unfold NewBlock. rewrite Block_UpdateHash_fields.
  unfold Block_Valid, MaxBlockReward, MaxTransactionsPerBlock.
  cbn [blk_Hash PreviousHash Height Nonce RewardOutput Transactions Amount].
  intros Hpow Hr Hl Hf. rewrite bytes_eqb_refl, Z.eqb_refl, Hpow.
  cbn [negb]. rewrite length_map.
  destruct (Z.ltb_spec blockReward 0); [lia | ].
  destruct (Z.gtb_spec blockReward 1000); [lia | ]. cbn [orb].
  destruct (Z.gtb_spec (Z.of_nat (length stxs)) 100); [lia | ].
  apply Transactions_Valid_iff, Forall_map. exact Hf.
Qed.


(** X24: the block a miner builds is accepted.  Take a consistent store
    whose block and transaction rows carry the hash of their content and
    int64 amounts, a stored block none of whose balances is negative, the
    transactions PendingTxs returns for that block with a limit of at most
    100, and the block NewBlock makes of them on top of the stored block
    as DecodeBlock reads it, with a reward between 0 and 1000.  If its
    hash meets the difficulty and is not the empty hash, addBlock accepts
    it in the store PendingTxs left, and the block is stored afterwards. *)
Theorem mined_block_accepted (s s1 : Store) (row : BlockRow)
    (limit nonce reward : Z) (addr : Address) (stxs : list SignedTx) :
  Store_consistent s ->
  blocks_self_hashed s -> txs_self_hashed s -> rows_typed (txs s) ->
  select_block (row_hash row) s = Some row ->
  (forall a, 0 <= balance_at s (row_hash row) a) ->
  limit <= MaxTransactionsPerBlock ->
  0 <= reward <= MaxBlockReward ->
  PendingTxs_tx (blk_Hash (DecodeBlock (row_block row))) limit s
  = (Ok stxs, s1) ->
  Hash_Valid
    (blk_Hash (NewBlock (DecodeBlock (row_block row)) nonce addr reward stxs))
  = true ->
  blk_Hash (NewBlock (DecodeBlock (row_block row)) nonce addr reward stxs)
  <> EmptyHash ->
  exists s2,
    addBlock (NewBlock (DecodeBlock (row_block row)) nonce addr reward stxs)
             s1 = (Ok tt, s2)
    /\ select_block
         (blk_Hash (NewBlock (DecodeBlock (row_block row)) nonce addr reward
                             stxs)) s2 <> None.
Proof.
  intros Hc Hbs [Hts Htn] Hty Hrow Hpos Hlim Hrew Hpend Hpow Hne.
  set (block := DecodeBlock (row_block row)) in *.
  set (next := NewBlock block nonce addr reward stxs) in *.
  assert (Hrne : row_hash row <> EmptyHash).
  { intros E. unfold select_block in Hrow. rewrite E in Hrow. discriminate. }
  assert (Etip : blk_Hash block = row_hash row).
  { unfold select_block in Hrow.
    rewrite (Hash_Value_not_empty _ Hrne) in Hrow.
    apply find_some in Hrow. destruct Hrow as [Hin _].
    unfold blocks_self_hashed in Hbs. rewrite Forall_forall in Hbs.
    exact (Hbs row Hin). }
  (* what PendingTxs returned *)
  pose proof (PendingTxs_tx_frame _ _ _ _ _ Hpend)
    as (G1 & G2 & G3 & G4 & G5 & G6 & G7).
  assert (Hc1 : Store_consistent s1).
  { apply (only_unreferenced_txs_gone_consistent s s1); [ | exact Hc].
    repeat split; auto. }
  destruct (PendingTxs_tx_inv _ _ _ _ _ Hpend)
    as [(_ & _ & e & He) | (temp & rr & Et & Hrows & Hok)];
    [discriminate | ].
  rewrite (Hok stxs eq_refl) in Hrows. clear Hok rr.
  pose proof (fill_temp_balances_map _ _ _ Et) as Htemp.
  assert (Hpos' : forall a, 0 <= temp_balance temp a).
  { intros a. rewrite Htemp, Etip. apply Hpos. }
  destruct (PendingTxs_rows_covered limit _
              (select_pending_typed (blk_Hash block) s Hty)
              temp [] s stxs false s1 Hpos' Hrows)
    as (new & En & Hcov & Hf & Hnd).
  cbn [app] in En. subst new.
  assert (Hlen : Z.of_nat (length stxs) <= MaxTransactionsPerBlock).
  { unfold MaxTransactionsPerBlock in *.
    destruct (PendingTxs_rows_open _ _ _ _ _ _ _ _ Hrows) as [-> | Hl];
      [cbn [length]; lia | lia]. }
  assert (Hall : Forall (fun t => SignedTx_Valid t = None /\ int64_amounts t
                                  /\ stx_Hash t <> EmptyHash
                                  /\ select_included (blk_Hash block)
                                                     (stx_Hash t) s = false
                                  /\ SignedTx_UpdateHash t = t) stxs).
  { revert Hf. apply Forall_impl. intros t (Hv & Hi & r & Hr & ->).
    destruct (select_pending_rows _ _ _ Hr) as [Hin Hinc].
    rewrite Forall_forall in Hts. destruct (Hts r Hin) as [Eh Hh].
    rewrite Eh. auto. }
  assert (Hnodup : NoDup (map stx_Hash stxs)).
  { apply Hnd.
    rewrite (map_ext_in _ txr_hash).
    - unfold select_pending.
      destruct (Hash_Value (blk_Hash block)); [ | exact Htn].
      now apply NoDup_map_filter.
    - intros r Hr. apply select_pending_rows in Hr.
      rewrite Forall_forall in Hts. now apply Hts. }
  (* the fields of the new block *)
  assert (Hp : PreviousHash next = row_hash row) by exact Etip.
  assert (Htx : Transactions next = stxs).
  { change (Transactions next) with (map SignedTx_UpdateHash stxs).
    rewrite <- (map_id stxs) at 2. apply map_ext_in.
    intros t Ht. rewrite Forall_forall in Hall. now apply Hall. }
  assert (Hvalid : Block_Valid next block = None).
  { apply NewBlock_Valid_intro; auto.
    revert Hall. apply Forall_impl. tauto. }
  (* addBlock *)
  assert (Hadd : exists s2, addBlock next s1 = (Ok tt, s2)).
  { unfold addBlock. rewrite Hp.
    assert (Hrow1 : select_block (row_hash row) s1 = Some row).
    { unfold select_block in *. now rewrite G1. }
    rewrite Hrow1. fold block.
    unfold insert_block. rewrite (Hash_Value_not_empty _ Hne).
    destruct (existsb (has_hash (blk_Hash next)) (blocks s1)) eqn:Ex.
    { cbn. eauto. }
    assert (Hnew : select_block (blk_Hash next) s1 = None).
    { unfold select_block. rewrite (Hash_Value_not_empty _ Hne).
      rewrite find_existsb in Ex. destruct (find _ _); congruence. }
    destruct (not_stored_no_rows s1 _ Hc1 Hne Hnew) as (Fb & Fi & Fk).
    pose proof (proj1 (Store_consistent_parts s1) Hc1) as (U1 & U2 & _).
    set (s2 := set_blocks s1 _).
    unfold addBlock_body.
    destruct (copy_balances_ok (blk_Hash next) (PreviousHash next) s2 Hne
                               U1 Fb) as (s3 & E3 & I3 & K3).
    rewrite (bind_Ok _ _ _ _ _ E3).
    destruct (balance_at_copy _ _ s2 s3 Hne Fb E3)
      as (Q1 & _ & _ & _ & _ & _ & _).
    assert (U3 : unique_b same_link_key (included_txs s3) = true)
      by (rewrite I3; exact U2).
    assert (Fi3 : forall r, In r (included_txs s3) ->
                            bytes_eqb (lnk_block_hash r) (blk_Hash next)
                            = false)
      by (rewrite I3; exact Fi).
    destruct (copy_included_txs_ok (blk_Hash next) (PreviousHash next) s3
                                   Hne U3 Fi3) as (s4 & E4 & K4).
    rewrite (bind_Ok _ _ _ _ _ E4).
    destruct (select_included_copy _ _ s3 s4 Hne Fi3 E4)
      as (R1 & _ & _ & R4 & _ & _ & _).
    rewrite Hvalid. cbn [check]. rewrite (bind_Ok _ _ s4 s4 tt eq_refl).
    rewrite Htx.
    assert (Hbal : forall a, temp_balance temp a
                             = balance_at s4 (blk_Hash next) a).
    { intros a. rewrite Htemp, (balance_at_ext _ _ R4), Q1, Hp, Etip.
      transitivity (balance_at s1 (row_hash row) a).
      - symmetry. now apply balance_at_ext.
      - symmetry. apply (balance_at_ext s1 s2). reflexivity. }
    destruct (addBlock_txs_succeeds next stxs Hne) with
      (fee := Amount (RewardOutput next)) (s := s4) as (fee' & s5 & E5).
    - revert Hall. apply Forall_impl. tauto.
    - exact Hnodup.
    - apply (covered_ext stxs _ _ Hbal). exact Hcov.
    - intros t Ht. rewrite Forall_forall in Hall.
      destruct (Hall t Ht) as (_ & _ & Hh & Hinc & _).
      split.
      + specialize (R1 (stx_Hash t)). unfold select_included in R1 at 1.
        rewrite (Hash_Value_not_empty _ Hne),
          (Hash_Value_not_empty _ Hh) in R1.
        rewrite R1, Hp, <- Etip. unfold select_included in *.
        rewrite I3. unfold s2. cbn [included_txs set_blocks].
        rewrite G4. exact Hinc.
      + rewrite K4, K3. apply existsb_free_link. exact Fk.
    - rewrite (bind_Ok _ _ _ _ _ E5).
      unfold bind, delete_zero_balances.
      destruct (fee' >? 0); [ | cbn [ret]; eexists; reflexivity].
      unfold credit_balance. rewrite (Hash_Value_not_empty _ Hne).
      destruct (existsb _ (balances s5)); eexists; reflexivity. }
  destruct Hadd as [s2 E2]. exists s2. split; [exact E2 | ].
  exact (proj1 (addBlock_Ok_stored _ _ _ E2)).
Qed.

End MinedBlock.

Lemma mined_block_accepted_witness :
  exists s2,
    addBlock (NewBlock (DecodeBlock (json_view_Block sample_genesis)) 185
                       sample_address 10 [sample_stx])
             sample_store = (Ok tt, s2)
    /\ select_block
         (blk_Hash (NewBlock (DecodeBlock (json_view_Block sample_genesis))
                             185 sample_address 10 [sample_stx])) s2
       <> None.
Proof.
  apply (mined_block_accepted
           sample_store sample_store
           {| row_hash := blk_Hash sample_genesis;
              row_previous_hash := None;
              row_height := 0;
              row_block := json_view_Block sample_genesis |}
           10 185 10 sample_address [sample_stx]).
  - reflexivity.
  - repeat constructor.
  - split; [repeat constructor; vm_compute; discriminate | ].
    repeat constructor; simpl; tauto.
  - repeat constructor; vm_compute; discriminate.
  - reflexivity.
  - intros a. unfold balance_at, select_balance, sample_store.
    cbn [balances find option_map row_hash].
    destruct (Hash_Value (blk_Hash sample_genesis)); [ | lia].
    destruct (balance_key h a _); cbn; lia.
  - unfold MaxTransactionsPerBlock. lia.
  - unfold MaxBlockReward. lia.
  - vm_compute. reflexivity.
  - vm_compute. reflexivity.
  - vm_compute. discriminate.
Defined.

(** ** db.go: transaction rows carry the hash of their content *)

Section TxsSelfHashed.
Context {P : Primitives}.

Lemma addTx_self_hashed (t : SignedTx) (s s' : Store) :
  SignedTx_UpdateHash t = t ->
  addTx t s = (Ok tt, s') ->
  txs_self_hashed s -> txs_self_hashed s'.
Proof.
  intros Ht. unfold addTx.
  destruct (Hash_Value (stx_Hash t)) as [h | ] eqn:Eh.
  2: { intros H. inversion H; subst. auto. }
  pose proof (Hash_Value_Some _ _ Eh) as ->.
  destruct (existsb (tx_key (stx_Hash t)) (txs s)) eqn:Ex;
    intros H; inversion H; subst; [auto | ].
  intros [Hf Hn]. unfold txs_self_hashed. cbn [txs set_txs]. split.
  - apply Forall_app. split; [exact Hf | ].
    constructor; [ | constructor]. cbn [txr_hash txr_tx]. split.
    + rewrite <- Ht at 2. reflexivity.
    + intros E. rewrite E in Eh. discriminate.
  - rewrite map_app. cbn [map txr_hash].
    apply NoDup_app; [exact Hn | repeat constructor; auto | ].
    intros x Hx [<- | [] ]. apply in_map_iff in Hx.
    destruct Hx as (r & Er & Hr).
    apply not_true_iff_false in Ex. apply Ex.
    apply existsb_exists. exists r. split; [exact Hr | ].
    unfold tx_key. rewrite Er. apply bytes_eqb_refl.
Qed.



Lemma txs_self_hashed_ext (s s' : Store) :
  txs s' = txs s -> txs_self_hashed s -> txs_self_hashed s'.
Proof. unfold txs_self_hashed. now intros ->. Qed.

Lemma addTx_Ok (t : SignedTx) (s : Store) :
  addTx t s = (Ok tt, snd (addTx t s)).
Proof.
  unfold addTx. destruct (Hash_Value (stx_Hash t)); [ | reflexivity].
  destruct (existsb _ _); reflexivity.
Qed.

Lemma addBlock_tx_txs (block : Block) (t : SignedTx) (s s' : Store) :
  addBlock_tx block t s = (Ok tt, s') -> txs s' = txs (snd (addTx t s)).
Proof.
  unfold addBlock_tx. intros H.
  destruct (validTx_cases t (blk_Hash block) s)
    as [(m & c & s0 & Hr) | [Hok _] ].
  { rewrite (bind_Err _ _ _ _ _ Hr) in H. discriminate. }
  rewrite (bind_Ok _ _ _ _ _ Hok) in H.
  unfold bind, debit_balance, credit_balance, addTx, insert_included_tx,
    insert_block_tx in *.
  destruct (Hash_Value (blk_Hash block)); [ | discriminate].
  destruct (Hash_Value (stx_Hash t)).
  2: { cbn [balances set_balances] in H.
       destruct (existsb _ _) in H; discriminate. }
  cbn [balances set_balances txs included_txs block_txs set_txs
       set_included_txs] in H.
  destruct (existsb (balance_key _ _) _) in H;
    cbn [balances set_balances txs included_txs block_txs set_txs
         set_included_txs] in H;
    destruct (existsb (tx_key h0) (txs s));
    cbn [balances set_balances txs included_txs block_txs set_txs
         set_included_txs] in H;
    repeat match type of H with
           | context [if ?c then _ else _] => destruct c
           end;
    cbn [balances set_balances txs included_txs block_txs set_txs
         set_included_txs] in H;
    try discriminate; inversion H; reflexivity.
Qed.

Lemma addBlock_txs_self_hashed (block : Block) (l : list SignedTx) :
  Forall (fun t => SignedTx_UpdateHash t = t) l ->
  forall fee fee' s s',
    addBlock_txs block fee l s = (Ok fee', s') ->
    txs_self_hashed s -> txs_self_hashed s'.
Proof.
  induction 1 as [ | t l Ht _ IH]; intros fee fee' s s'; cbn [addBlock_txs].
  - intros H. inversion H; subst. auto.
  - unfold bind.
    destruct (addBlock_tx block t s) as [[[] | e] s1] eqn:E1;
      [ | discriminate].
    intros H Hs. apply (IH _ _ _ _ H).
    apply (txs_self_hashed_ext _ _ (addBlock_tx_txs _ _ _ _ E1)).
    apply (addTx_self_hashed t s _ Ht (addTx_Ok t s) Hs).
Qed.

Lemma addBlock_body_self_hashed (block previous : Block) (s s' : Store) :
  Forall (fun t => SignedTx_UpdateHash t = t) (Transactions block) ->
  addBlock_body block previous s = (Ok tt, s') ->
  txs_self_hashed s -> txs_self_hashed s'.
Proof.
  intros Ht. unfold addBlock_body, bind.
  destruct (copy_balances _ _ s) as [[[] | e1] s1] eqn:E1; [ | discriminate].
  assert (T1 : txs s1 = txs s).
  { unfold copy_balances in E1.
    destruct (match Hash_Value (PreviousHash block) with
              | Some k => filter _ (balances s)
              | None => []
              end); [inversion E1; reflexivity | ].
    destruct (Hash_Value (blk_Hash block)); [ | discriminate].
    destruct (insert_rows _ _ _); [ | discriminate].
    inversion E1; reflexivity. }
  destruct (copy_included_txs _ _ s1) as [[[] | e2] s2] eqn:E2;
    [ | discriminate].
  assert (T2 : txs s2 = txs s1).
  { unfold copy_included_txs in E2.
    destruct (match Hash_Value (PreviousHash block) with
              | Some k => filter _ (included_txs s1)
              | None => []
              end); [inversion E2; reflexivity | ].
    destruct (Hash_Value (blk_Hash block)); [ | discriminate].
    destruct (insert_rows _ _ _); [ | discriminate].
    inversion E2; reflexivity. }
  destruct (Block_Valid block previous); cbn [check fail ret];
    [discriminate | ].
  destruct (addBlock_txs _ _ _ s2) as [[fee | e4] s4] eqn:E4;
    [ | discriminate].
  intros H Hs.
  assert (H4 : txs_self_hashed s4).
  { apply (addBlock_txs_self_hashed block _ Ht _ _ _ _ E4).
    apply (txs_self_hashed_ext s). { congruence. } exact Hs. }
  assert (K : forall s5, txs s5 = txs s4 ->
                         delete_zero_balances s5 = (Ok tt, s') ->
                         txs_self_hashed s').
  { intros s5 T5 Hd. unfold delete_zero_balances in Hd. inversion Hd.
    apply (txs_self_hashed_ext s4); [exact T5 | exact H4]. }
  destruct (fee >? 0).
  - unfold credit_balance in H.
    destruct (Hash_Value (blk_Hash block)); [ | discriminate].
    destruct (existsb _ _); (eapply K; [ | exact H]; reflexivity).
  - eapply K; [ | exact H]; reflexivity.
Qed.

Lemma delete_unreferenced_tx_self_hashed (h : Hash) (s s' : Store)
    (r : result unit) :
  delete_unreferenced_tx h s = (r, s') ->
  txs_self_hashed s -> txs_self_hashed s'.
Proof.
  unfold delete_unreferenced_tx.
  destruct (Hash_Value h); [ | intros H; inversion H; subst; auto].
  destruct (_ || _); intros H; inversion H; subst; [auto | ].
  intros [Hf Hn]. unfold txs_self_hashed. cbn [txs set_txs]. split.
  - apply Forall_forall. intros x Hx. apply filter_In in Hx.
    rewrite Forall_forall in Hf. apply Hf, Hx.
  - now apply NoDup_map_filter.
Qed.

Lemma PendingTxs_rows_self_hashed (limit : Z) (rows : list TxRow) :
  forall temp acc s r s',
    PendingTxs_rows limit rows temp acc s = (r, s') ->
    txs_self_hashed s -> txs_self_hashed s'.
Proof.
  induction rows as [ | row rows IH]; intros temp acc s r s';
    cbn [PendingTxs_rows].
  - intros H. inversion H; subst. auto.
  - destruct (validTemporaryTx temp _) as [e | ].
    + destruct (is_InvalidBlockError e).
      * unfold bind.
        destruct (delete_unreferenced_tx _ s) as [r1 s1] eqn:Ed.
        destruct (delete_unreferenced_tx_frame _ _ _ _ Ed) as [-> _].
        intros H Hs. apply (IH _ _ _ _ _ H).
        eapply delete_unreferenced_tx_self_hashed; eauto.
      * intros H. inversion H; subst. auto.
    + destruct (_ >=? limit).
      * intros H. inversion H; subst. auto.
      * apply IH.
Qed.

(** X25: the writers of the transaction table keep its rows in step with
    their content.  If every row of txs holds the hash UpdateHash computes
    from its text, none holds the empty hash and no hash is held twice,
    then the same is true after addBlock has accepted a block that went
    through UpdateHash, after AddTx of a transaction that went through
    UpdateHash, whatever AddTx returns, and after PendingTxs, whatever it
    returns. *)
Theorem txs_self_hashed_kept (s : Store) :
  txs_self_hashed s ->
  (forall b s',
      addBlock (Block_UpdateHash b) s = (Ok tt, s') -> txs_self_hashed s')
  /\ (forall best stx r s',
         AddTx_tx best (SignedTx_UpdateHash stx) s = (r, s') ->
         txs_self_hashed s')
  /\ (forall tip limit r s',
         PendingTxs_tx tip limit s = (r, s') -> txs_self_hashed s').
Proof.
  intros Hs. split; [ | split].
  - intros b s'. unfold addBlock.
    destruct (select_block _ s) as [row | ]; [ | discriminate].
    unfold insert_block.
    destruct (Hash_Value (blk_Hash (Block_UpdateHash b))) as [n | ].
    2: { cbn. discriminate. }
    destruct (existsb _ _).
    + cbn. intros H. inversion H; subst. exact Hs.
    + intros H. apply (addBlock_body_self_hashed _ _ _ _) in H; auto.
      rewrite Block_UpdateHash_fields. cbn [Transactions].
      apply Forall_map, Forall_forall. intros t _. reflexivity.
  - intros best stx r s'. unfold AddTx_tx.
    destruct best as [tip | err]; [ | intros H; inversion H; subst; auto].
    destruct (validTx_cases (SignedTx_UpdateHash stx) tip s)
      as [(m & c & s0 & Hr) | [Hok _] ].
    + rewrite (bind_Err _ _ _ _ _ Hr). intros H. inversion H; subst.
      unfold validTx, bind, check in Hr.
      destruct (SignedTx_Valid _); cbn [fail ret] in Hr;
        [inversion Hr; subst; auto | ].
      destruct (_ <? _); [inversion Hr; subst; auto | ].
      destruct (select_included _ _ _); inversion Hr; subst; auto.
    + rewrite (bind_Ok _ _ _ _ _ Hok). rewrite addTx_Ok.
      intros H. inversion H; subst.
      apply (addTx_self_hashed (SignedTx_UpdateHash stx) s _ eq_refl
                               (addTx_Ok _ s) Hs).
  - intros tip limit r s' H.
    destruct (PendingTxs_tx_inv _ _ _ _ _ H)
      as [(_ & -> & _) | (temp & rr & _ & Hrows & _)]; [exact Hs | ].
    eapply PendingTxs_rows_self_hashed; eauto.
Qed.

End TxsSelfHashed.

Lemma txs_self_hashed_kept_witness :
  (forall b s',
      addBlock (Block_UpdateHash b) sample_store = (Ok tt, s') ->
      txs_self_hashed s')
  /\ (forall best stx r s',
         AddTx_tx best (SignedTx_UpdateHash stx) sample_store = (r, s') ->
         txs_self_hashed s')
  /\ (forall tip limit r s',
         PendingTxs_tx tip limit sample_store = (r, s') ->
         txs_self_hashed s').
Proof.
  apply (txs_self_hashed_kept sample_store).
  split; [repeat constructor; vm_compute; discriminate | ].
  repeat constructor; simpl; tauto.
Defined.

(** ** db.go: migrate *)

Section MigrateFacts.
Context {P : Primitives}.

Lemma GenesisBlock_hashed :
  Block_UpdateHash GenesisBlock = GenesisBlock
  /\ length (blk_Hash GenesisBlock) = md5_Size
  /\ PreviousHash GenesisBlock = EmptyHash /\ Height GenesisBlock = 0
  /\ Transactions GenesisBlock = [].
Proof.
  unfold GenesisBlock. split; [apply Block_UpdateHash_twice | ].
  split; [rewrite Block_UpdateHash_length; reflexivity | ].
  repeat split.
Qed.

Variable rsa_PrivateKey : Type.
Variable PublicKey_of : rsa_PrivateKey -> rsa_PublicKey.
Variable EncodePrivateKeyPEM : rsa_PrivateKey -> bytes.

(** The genesis INSERT never fails, changes no table but [blocks], keeps a
    consistent store consistent and self-hashed block rows self-hashed,
    and has no effect when it is repeated. *)
Lemma insert_genesis_effect (s : Store) :
  exists s',
    insert_genesis s = (Ok tt, s')
    /\ set_blocks s' (blocks s) = s
    /\ (Store_consistent s -> Store_consistent s')
    /\ (blocks_self_hashed s -> blocks_self_hashed s')
    /\ insert_genesis s' = (Ok tt, s')
    /\ (blocks s' = blocks s
        \/ blocks s'
           = blocks s
             ++ [{| row_hash := blk_Hash GenesisBlock;
                    row_previous_hash := None;
                    row_height := 0;
                    row_block := json_view_Block GenesisBlock |}])
    /\ (blk_Hash GenesisBlock <> EmptyHash ->
        existsb (has_hash (blk_Hash GenesisBlock)) (blocks s') = true).
Proof.
  destruct GenesisBlock_hashed as (Hg & Hlen & Hp & Hh & Ht).
  assert (Hrow : row_self_hashed
                   {| row_hash := blk_Hash GenesisBlock;
                      row_previous_hash
                      := Hash_Value (PreviousHash GenesisBlock);
                      row_height := Height GenesisBlock;
                      row_block := json_view_Block GenesisBlock |}).
  { unfold row_self_hashed. cbn [row_block row_hash].
    rewrite (DecodeBlock_json_view _ Hlen), Hg. reflexivity. }
  unfold insert_genesis.
  destruct (Hash_Value (blk_Hash GenesisBlock)) as [h | ] eqn:Eh.
  2: { exists s. repeat split; auto; [destruct s; reflexivity | ].
       intros Hne. rewrite (Hash_Value_not_empty _ Hne) in Eh.
       discriminate. }
  pose proof (Hash_Value_Some _ _ Eh) as ->.
  destruct (existsb (has_hash (blk_Hash GenesisBlock)) (blocks s)) eqn:Ex.
  { exists s. rewrite Ex. repeat split; auto. destruct s; reflexivity. }
  eexists. split; [reflexivity | ].
  split; [destruct s; reflexivity | ].
  split; [ | split; [ | split; [ | split] ] ].
  - rewrite !Store_consistent_parts.
    intros (U1 & U2 & F1 & F2 & F3).
    assert (M : forall x l, refers_to_block s x = true ->
                            refers_to_block (set_blocks s (blocks s ++ l)) x
                            = true).
    { intros x l Hx. unfold refers_to_block in *. cbn [blocks set_blocks].
      now apply existsb_app_l. }
    repeat split; auto; cbn [balances included_txs block_txs set_blocks];
      [revert F1 | revert F2 | revert F3]; apply Forall_impl;
      intros r; apply M.
  - unfold blocks_self_hashed. cbn [blocks set_blocks]. intros Hs.
    apply Forall_app. split; [exact Hs | ]. constructor; [exact Hrow | ].
    constructor.
  - cbn [blocks set_blocks]. rewrite existsb_app. cbn [existsb].
    unfold has_hash at 2. cbn [row_hash]. rewrite bytes_eqb_refl.
    rewrite orb_true_r. reflexivity.
  - right. cbn [blocks set_blocks]. rewrite Hp, Hh. reflexivity.
  - intros _. cbn [blocks set_blocks]. rewrite existsb_app. cbn [existsb].
    unfold has_hash at 2. cbn [row_hash]. rewrite bytes_eqb_refl.
    rewrite orb_true_r. reflexivity.
Qed.

(** X26: what a migrate that succeeds has done.  Of the tables of the
    chain only [blocks] can have changed, by gaining the genesis row; a
    consistent store is still consistent, block rows that carried the hash
    of their content still do, and the genesis block is stored unless its
    MD5 is the empty hash.  On the empty store the result is consistent,
    its block and transaction rows carry the hash of their content, every
    balance is zero and the only block is the genesis block, at height 0
    and without a parent.  If the table of keys was empty, a key was
    generated, it is now the only key, stored under its address of the
    default version, and that address was appended to the miner addresses;
    otherwise the keys and the miner address are untouched.  Running
    migrate again, whatever key generation would give, succeeds and
    changes nothing. *)
Theorem migrate_genesis (generated : result rsa_PrivateKey)
    (s s' : Store) (w w' : Wallet) :
  migrate_tx rsa_PrivateKey PublicKey_of EncodePrivateKeyPEM generated (s, w)
  = (Ok tt, (s', w')) ->
  (set_blocks s' (blocks s) = s
   /\ (forall row, In row (blocks s) -> In row (blocks s'))
   /\ (Store_consistent s -> Store_consistent s')
   /\ (blocks_self_hashed s -> blocks_self_hashed s')
   /\ (blk_Hash GenesisBlock <> EmptyHash ->
       select_block (blk_Hash GenesisBlock) s' <> None))
  /\ (s = empty_store ->
      Store_consistent s' /\ blocks_self_hashed s' /\ txs_self_hashed s'
      /\ (forall h a, balance_at s' h a = 0)
      /\ (blk_Hash GenesisBlock <> EmptyHash ->
          exists row,
            blocks s' = [row]
            /\ row_hash row = blk_Hash GenesisBlock
            /\ row_height row = 0 /\ row_previous_hash row = None
            /\ DecodeBlock (row_block row) = GenesisBlock))
  /\ (keys w = [] ->
      exists k,
        generated = Ok k
        /\ keys w'
           = [{| key_address := AddressFromKey DefaultVersion (PublicKey_of k);
                 key_private_key := EncodePrivateKeyPEM k |}]
        /\ miner_address w'
           = miner_address w
             ++ [AddressFromKey DefaultVersion (PublicKey_of k)])
  /\ (keys w <> [] -> w' = w)
  /\ (forall generated',
         migrate_tx rsa_PrivateKey PublicKey_of EncodePrivateKeyPEM
                    generated' (s', w')
         = (Ok tt, (s', w'))).
Proof.
  destruct GenesisBlock_hashed as (Hg & Hlen & Hp & Hh & Ht).
  unfold migrate_tx.
  destruct (insert_genesis_effect s)
    as (s1 & E1 & Hset & Hc & Hb & Hagain & Hblocks & Hstored).
  rewrite E1. intros H.
  assert (Es : s' = s1).
  { destruct (keys w); [destruct generated | ]; inversion H; reflexivity. }
  subst s1.
  assert (Hkeys : keys w' <> []).
  { destruct (keys w) as [ | r l] eqn:Ek.
    - destruct generated as [k | e]; inversion H; subst. unfold addKey.
      rewrite Ek. cbn. discriminate.
    - inversion H; subst. rewrite Ek. discriminate. }
  split; [ | split; [ | split; [ | split] ] ].
  - split; [exact Hset | ].
    split. { intros row Hin. destruct Hblocks as [-> | ->]; [exact Hin | ].
             apply in_or_app. now left. }
    split; [exact Hc | ]. split; [exact Hb | ].
    intros Hne. unfold select_block.
    rewrite (Hash_Value_not_empty _ Hne).
    specialize (Hstored Hne). rewrite find_existsb in Hstored.
    destruct (find _ _); [discriminate | discriminate].
  - intros Es. subst s. split; [apply Hc; reflexivity | ].
    split; [apply Hb; constructor | ].
    assert (Hrest : balances s' = [] /\ txs s' = []).
    { split; [exact (f_equal balances Hset) | exact (f_equal txs Hset)]. }
    destruct Hrest as [Eb Et].
    split. { unfold txs_self_hashed. rewrite Et. split; constructor. }
    split. { intros h a. unfold balance_at, select_balance. rewrite Eb.
             destruct (Hash_Value h); reflexivity. }
    intros Hne. specialize (Hstored Hne).
    destruct Hblocks as [Eq | Eq]; cbn [blocks empty_store app] in Eq.
    { rewrite Eq in Hstored. discriminate. }
    eexists. split; [exact Eq | ]. cbn [row_hash row_height
                                        row_previous_hash row_block].
    split; [reflexivity | ]. split; [reflexivity | ].
    split; [reflexivity | ].
    rewrite (DecodeBlock_json_view _ Hlen). exact Hg.
  - intros Ek. rewrite Ek in H.
    destruct generated as [k | e]; [ | discriminate].
    exists k. inversion H; subst. unfold addKey. rewrite Ek.
    cbn [existsb keys miner_address app]. auto.
  - intros Ek. destruct (keys w); [now contradiction Ek | ].
    now inversion H.
  - intros generated'. rewrite Hagain.
    destruct (keys w'); [now contradiction Hkeys | reflexivity].
Qed.

End MigrateFacts.

Lemma migrate_genesis_witness :
  (set_blocks (fst sample_migrated) (blocks empty_store) = empty_store
   /\ (forall row, In row (blocks empty_store) ->
                   In row (blocks (fst sample_migrated)))
   /\ (Store_consistent empty_store -> Store_consistent (fst sample_migrated))
   /\ (blocks_self_hashed empty_store ->
       blocks_self_hashed (fst sample_migrated))
   /\ (blk_Hash GenesisBlock <> EmptyHash ->
       select_block (blk_Hash GenesisBlock) (fst sample_migrated) <> None))
  /\ (empty_store = empty_store ->
      Store_consistent (fst sample_migrated)
      /\ blocks_self_hashed (fst sample_migrated)
      /\ txs_self_hashed (fst sample_migrated)
      /\ (forall h a, balance_at (fst sample_migrated) h a = 0)
      /\ (blk_Hash GenesisBlock <> EmptyHash ->
          exists row,
            blocks (fst sample_migrated) = [row]
            /\ row_hash row = blk_Hash GenesisBlock
            /\ row_height row = 0 /\ row_previous_hash row = None
            /\ DecodeBlock (row_block row) = GenesisBlock))
  /\ (keys empty_wallet = [] ->
      exists k : bytes,
        Ok sample_key = Ok k
        /\ keys (snd sample_migrated)
           = [{| key_address
                 := @AddressFromKey sample_primitives DefaultVersion k;
                 key_private_key := k |}]
        /\ miner_address (snd sample_migrated)
           = miner_address empty_wallet
             ++ [@AddressFromKey sample_primitives DefaultVersion k])
  /\ (keys empty_wallet <> [] -> snd sample_migrated = empty_wallet)
  /\ (forall generated',
         migrate_tx bytes (fun k => k) (fun k => k) generated'
                    (fst sample_migrated, snd sample_migrated)
         = (Ok tt, (fst sample_migrated, snd sample_migrated))).
Proof.
  apply (@migrate_genesis sample_primitives bytes (fun k => k) (fun k => k)
                          (Ok sample_key) empty_store (fst sample_migrated)
                          empty_wallet (snd sample_migrated)).
  vm_compute. reflexivity.
Defined.

(** ** hash.go, tx.go: hashes and transaction ids in JSON *)

(** X27: hashes and transaction ids survive JSON.  For 16-byte values,
    UnmarshalJSON of the string MarshalJSON writes gives the value back,
    the empty hash included (its string is 32 zeros); whatever
    UnmarshalJSON accepts is 16 bytes long; and the empty string is read as
    the empty hash by Hash but refused by TxID. *)
Theorem Hash_JSON_round_trip (h h0 : Hash) (str : string) :
  length h = md5_Size -> length h0 = md5_Size ->
  Hash_UnmarshalJSON_string h0 (Hash_MarshalJSON_string h) = Ok h
  /\ TxID_UnmarshalJSON_string h0 (TxID_MarshalJSON_string h) = Ok h
  /\ (forall v, Hash_UnmarshalJSON_string h0 str = Ok v ->
                length v = md5_Size)
  /\ (forall v, TxID_UnmarshalJSON_string h0 str = Ok v ->
                length v = TxIDSize /\ String.length str = 32%nat)
  /\ Hash_UnmarshalJSON_string h0 EmptyString = Ok EmptyHash
  /\ exists e, TxID_UnmarshalJSON_string h0 EmptyString = Err e.
Proof.
  intros Hh H0.
  unfold Hash_UnmarshalJSON_string, TxID_UnmarshalJSON_string,
    Hash_MarshalJSON_string, TxID_MarshalJSON_string.
  rewrite hex_round_trip, Hh.
  split; [cbn; f_equal; apply copy_full; congruence | ].
  split; [cbn; f_equal; apply copy_full; congruence | ].
  split; [ | split; [ | split; [reflexivity | eexists; reflexivity] ] ].
  - intros v. destruct (hex_DecodeString str) as [b | ]; [ | discriminate].
    destruct (Nat.eqb_spec (length b) 0).
    { intros H. inversion H. reflexivity. }
    destruct (Nat.eqb_spec (length b) md5_Size); [ | discriminate].
    cbn [negb]. intros H. inversion H. rewrite copy_length. exact H0.
  - intros v. destruct (hex_DecodeString str) as [b | ] eqn:E;
      [ | discriminate].
    destruct (Nat.eqb_spec (length b) TxIDSize) as [e | ]; [ | discriminate].
    cbn [negb]. intros H. inversion H. rewrite copy_length.
    split; [exact H0 | ].
    apply hex_DecodeString_length in E. unfold TxIDSize in e. lia.
Qed.

Lemma Hash_JSON_round_trip_witness :
  Hash_UnmarshalJSON_string EmptyHash
    (Hash_MarshalJSON_string (stx_Hash sample_stx)) = Ok (stx_Hash sample_stx)
  /\ TxID_UnmarshalJSON_string EmptyHash
       (TxID_MarshalJSON_string (stx_Hash sample_stx))
     = Ok (stx_Hash sample_stx)
  /\ (forall v, Hash_UnmarshalJSON_string EmptyHash "00ff" = Ok v ->
                length v = md5_Size)
  /\ (forall v, TxID_UnmarshalJSON_string EmptyHash "00ff" = Ok v ->
                length v = TxIDSize /\ String.length "00ff" = 32%nat)
  /\ Hash_UnmarshalJSON_string EmptyHash EmptyString = Ok EmptyHash
  /\ exists e, TxID_UnmarshalJSON_string EmptyHash EmptyString = Err e.
Proof.
  apply (Hash_JSON_round_trip (stx_Hash sample_stx) EmptyHash "00ff");
    reflexivity.
Defined.

(** ** server.go: the goroutine that adds a peer *)

Section AddPeerGoroutine.
Context {P : Primitives}.

(** What [DB.AddPeer] returned is what its closure did to the committed
    peers. *)
Lemma DB_AddPeer_cases (d : database.DB) (peer : string) (w : World) :
  match fst (DB_AddPeer d peer w) with
  | Ok true =>
    ~ In peer (peers (database.committed w))
    /\ database.committed (snd (DB_AddPeer d peer w))
       = set_peers (database.committed w)
                   (peers (database.committed w) ++ [peer])
  | _ => database.committed (snd (DB_AddPeer d peer w)) = database.committed w
  end.
Proof.
  unfold DB_AddPeer, database.TransactWithRetry, World in *.
  destruct (database.tries d =? 0); [reflexivity | ].
  destruct (retry_atomic d (run (AddPeer_tx peer))
                         (Z.to_nat (database.tries d)) 0 None w) as [_ H].
  remember (database.retry d (run (AddPeer_tx peer))
                           (Z.to_nat (database.tries d)) 0 None w) as res.
  clear Heqres.
  destruct (fst res) as [created | e]; [ | exact H].
  destruct H as (k & _ & E). unfold run, AddPeer_tx in E.
  destruct (existsb (String.eqb peer) (peers (database.committed w))) eqn:Ex;
    injection E as <- E2.
  - now rewrite <- E2.
  - split; [ | now rewrite <- E2].
    intros Hin. apply existsb_eqb_In in Hin. congruence.
Qed.

(** What [DB.Peers] returns is the committed table, which it leaves. *)
Lemma DB_Peers_cases (d : database.DB) (w : World) :
  database.committed (snd (DB_Peers d w)) = database.committed w
  /\ forall l, fst (DB_Peers d w) = Ok l -> l = peers (database.committed w).
Proof.
  unfold DB_Peers, database.TransactWithRetry, World in *.
  destruct (database.tries d =? 0); [split; [reflexivity | discriminate] | ].
  destruct (retry_atomic d (run Peers_tx)
                         (Z.to_nat (database.tries d)) 0 None w) as [_ H].
  remember (database.retry d (run Peers_tx)
                           (Z.to_nat (database.tries d)) 0 None w) as res.
  clear Heqres.
  destruct (fst res) as [l | e].
  - destruct H as (k & _ & E). unfold run, Peers_tx in E.
    injection E as <- E2.
    split; [now rewrite <- E2 | ]. intros l' El. congruence.
  - split; [exact H | discriminate].
Qed.

(** X28: the goroutine validateAndAddPeer starts.  When the ping fails it
    does not go to the database.  Whatever the driver does, the committed
    store afterwards is the one before, or the one before with the peer
    added at the end of the peer table, and no other table changes.  The
    full sync with the peer is started only if the peer was not in the
    table and now is, and then the goroutine has announced the peer to
    exactly the peers that were in the table before, once each and in
    table order, and to nobody else: never to the peer itself. *)
Theorem addPeer_goroutine_effects (srv : Server) (peer : string)
    (ping : option error) (w : World) :
  let r := addPeer_goroutine srv peer ping w in
  (ping <> None -> snd r = w /\ exists msg, fst r = [Log_Printf msg])
  /\ (database.committed (snd r) = database.committed w
      \/ (~ In peer (peers (database.committed w))
          /\ database.committed (snd r)
             = set_peers (database.committed w)
                         (peers (database.committed w) ++ [peer])))
  /\ (forall p q, In (Notify p q) (fst r) ->
                  q = peer /\ p <> peer
                  /\ In p (peers (database.committed w)))
  /\ (forall p, In (FullPeerSync p) (fst r) ->
                p = peer
                /\ ~ In peer (peers (database.committed w))
                /\ In peer (peers (database.committed (snd r)))
                /\ fst r = map (fun p => Notify p peer)
                               (peers (database.committed w))
                           ++ [FullPeerSync peer]).
Proof.
  cbn zeta. unfold addPeer_goroutine.
  destruct ping as [err | ].
  { cbn [fst snd]. split; [intros _; split; [reflexivity | eauto] | ].
    split; [now left | ].
    split; intros ? ; [intros q [H | [] ]; discriminate | ].
    intros [H | [] ]. discriminate. }
  split; [intros H; now contradiction H | ].
  pose proof (DB_AddPeer_cases (srv_db srv) peer w) as Ha.
  destruct (DB_AddPeer (srv_db srv) peer w) as [[[] | e] w1];
    cbn [fst snd] in *.
  2: { split; [now left | ]. split; [intros p q [] | intros p [] ]. }
  2: { split; [now left | ].
       split; [intros p q [H | [] ]; discriminate | ].
       intros p [H | [] ]. discriminate. }
  destruct Ha as [Hnot Hw1].
  destruct (DB_Peers_cases (srv_db srv) w1) as [Hw2 Hl].
  destruct (DB_Peers (srv_db srv) w1) as [[l | e] w2]; cbn [fst snd] in *.
  2: { split; [right; split; [exact Hnot | congruence] | ].
       split; [intros p q [H | [] ]; discriminate | ].
       intros p [H | [] ]. discriminate. }
  specialize (Hl l eq_refl). subst l. rewrite Hw1. cbn [peers set_peers].
  assert (Hf : filter (fun p => negb (String.eqb p peer))
                      (peers (database.committed w) ++ [peer])
               = peers (database.committed w)).
  { rewrite filter_app, (filter_absent peer _ Hnot). cbn [filter].
    rewrite String.eqb_refl. cbn [negb]. apply app_nil_r. }
  rewrite Hf.
  split; [right; split; [exact Hnot | congruence] | ].
  split.
  - intros p q Hin. apply in_app_or in Hin.
    destruct Hin as [Hin | [H | [] ] ]; [ | discriminate].
    apply in_map_iff in Hin. destruct Hin as (x & Ex & Hx).
    inversion Ex; subst. repeat split; auto.
    intros ->. contradiction.
  - intros p Hin. apply in_app_or in Hin.
    destruct Hin as [Hin | [H | [] ] ].
    + apply in_map_iff in Hin. destruct Hin as (x & Ex & _). discriminate.
    + inversion H; subst. repeat split; auto.
      rewrite Hw2, Hw1. cbn [peers set_peers].
      apply in_or_app. right. now left.
Qed.

End AddPeerGoroutine.

(** ** db.go: a block mints its reward *)

Section Supply.
Context {P : Primitives}.

Lemma sum_rows_app (h : Hash) (l l' : list BalanceRow) :
  sum_rows h (l ++ l') = sum_rows h l + sum_rows h l'.
Proof.
  induction l as [ | r l IH]; cbn [app sum_rows fold_right]; [reflexivity | ].
  fold (sum_rows h (l ++ l')). fold (sum_rows h l). rewrite IH. lia.
Qed.

Lemma sum_rows_cons (h : Hash) (r : BalanceRow) (l : list BalanceRow) :
  sum_rows h (r :: l)
  = (if bytes_eqb (bal_block_hash r) h then bal_balance r else 0)
    + sum_rows h l.
Proof. reflexivity. Qed.

(** Changing by [d] the balance of the one row of a key. *)
Lemma sum_rows_update (f : Z -> Z) (d : Z) (n : Hash) (a : Address)
    (h : Hash) (l : list BalanceRow) :
  (forall x, f x = x + d) ->
  unique_b same_balance_key l = true ->
  sum_rows h
    (map (fun r => if balance_key n a r then
                     {| bal_block_hash := bal_block_hash r;
                        bal_address := bal_address r;
                        bal_balance := f (bal_balance r) |}
                   else r) l)
  = sum_rows h l
    + (if existsb (balance_key n a) l && bytes_eqb n h then d else 0).
Proof.
  intros Hf.
  induction l as [ | r l IH]; [reflexivity | ].
  cbn [unique_b map existsb]. intros Hu.
  apply andb_true_iff in Hu. destruct Hu as [Hr Hu].
  rewrite !sum_rows_cons, (IH Hu).
  destruct (balance_key n a r) eqn:Ek; cbn [orb bal_block_hash bal_balance].
  - unfold balance_key in Ek. apply andb_true_iff in Ek.
    rewrite !bytes_eqb_eq in Ek. destruct Ek as [E1 E2].
    apply negb_true_iff in Hr. unfold same_balance_key in Hr.
    rewrite E1, E2 in Hr.
    change (existsb (balance_key n a) l = false) in Hr.
    rewrite Hr, E1, Hf. cbn [andb].
    destruct (bytes_eqb n h); lia.
  - lia.
Qed.

Lemma sum_rows_free (n : Hash) (l : list BalanceRow) :
  (forall r, In r l -> bytes_eqb (bal_block_hash r) n = false) ->
  sum_rows n l = 0.
Proof.
  induction l as [ | r l IH]; intros H; [reflexivity | ].
  rewrite sum_rows_cons, (H r (or_introl eq_refl)), IH; [reflexivity | ].
  intros x Hx. apply H. now right.
Qed.

Lemma sum_rows_copied (n p : Hash) (l : list BalanceRow) :
  sum_rows n
    (map (fun r => {| bal_block_hash := n; bal_address := bal_address r;
                      bal_balance := bal_balance r |})
         (filter (fun r => bytes_eqb (bal_block_hash r) p) l))
  = sum_rows p l.
Proof.
  induction l as [ | r l IH]; [reflexivity | ].
  cbn [filter]. rewrite sum_rows_cons.
  destruct (bytes_eqb (bal_block_hash r) p); [ | rewrite IH; lia].
  cbn [map]. rewrite sum_rows_cons, IH. cbn [bal_block_hash bal_balance].
  now rewrite bytes_eqb_refl.
Qed.

Lemma sum_rows_other_copied (n h : Hash) (l : list BalanceRow) :
  h <> n ->
  sum_rows h
    (map (fun r => {| bal_block_hash := n; bal_address := bal_address r;
                      bal_balance := bal_balance r |}) l) = 0.
Proof.
  intros Hh. apply sum_rows_free. intros r Hr.
  apply in_map_iff in Hr. destruct Hr as (x & <- & _). cbn.
  apply bytes_eqb_neq. congruence.
Qed.

Lemma sum_rows_nonzero (h : Hash) (l : list BalanceRow) :
  sum_rows h (filter (fun r => negb (bal_balance r =? 0)) l) = sum_rows h l.
Proof.
  induction l as [ | r l IH]; [reflexivity | ].
  cbn [filter]. rewrite sum_rows_cons.
  destruct (Z.eqb_spec (bal_balance r) 0) as [E | E]; cbn [negb].
  - rewrite IH, E. destruct (bytes_eqb _ _); lia.
  - rewrite sum_rows_cons, IH. reflexivity.
Qed.

(** With unique keys, a balance map without negative balance has no
    negative row. *)
Lemma balance_rows_nonneg (s : Store) (h : Hash) :
  unique_b same_balance_key (balances s) = true ->
  h <> EmptyHash ->
  (forall a, 0 <= balance_at s h a) ->
  forall r, In r (balances s) ->
            bytes_eqb (bal_block_hash r) h = true -> 0 <= bal_balance r.
Proof.
  intros Hu Hh Hpos r Hr Hk. specialize (Hpos (bal_address r)).
  rewrite (balance_at_rows s h _ Hh) in Hpos.
  destruct (find (balance_key h (bal_address r)) (balances s)) as [r' | ]
    eqn:Ef.
  - assert (r' = r); [ | congruence].
    pose proof (find_some _ _ Ef) as [Hin' Hk'].
    clear - Hu Hr Hin' Hk Hk' Ef.
    induction (balances s) as [ | x l IH]; [contradiction | ].
    cbn [unique_b] in Hu. apply andb_true_iff in Hu.
    destruct Hu as [Hx Hu]. apply negb_true_iff in Hx.
    cbn [find] in Ef.
    assert (Hkey : balance_key h (bal_address r) r = true).
    { unfold balance_key. now rewrite Hk, bytes_eqb_refl. }
    destruct (balance_key h (bal_address r) x) eqn:Ekx.
    + inversion Ef; subst x. destruct Hr as [-> | Hr]; [reflexivity | ].
      exfalso. apply not_true_iff_false in Hx. apply Hx.
      apply existsb_exists. exists r. split; [exact Hr | ].
      unfold same_balance_key.
      unfold balance_key in Ekx. apply andb_true_iff in Ekx.
      rewrite !bytes_eqb_eq in Ekx. destruct Ekx as [-> ->]. exact Hkey.
    + destruct Hr as [-> | Hr]; [congruence | ].
      apply IH; auto. apply find_some in Ef. tauto.
  - exfalso.
    assert (Hex : existsb (balance_key h (bal_address r)) (balances s)
                  = true).
    { apply existsb_exists. exists r. split; [exact Hr | ].
      unfold balance_key. now rewrite Hk, bytes_eqb_refl. }
    rewrite find_existsb, Ef in Hex. discriminate.
Qed.

(** The sum of rows that are not negative is not negative, and no balance
    is above it. *)
Lemma sum_rows_bounds (h : Hash) (a : Address) (l : list BalanceRow) :
  (forall r, In r l -> bytes_eqb (bal_block_hash r) h = true ->
             0 <= bal_balance r) ->
  0 <= sum_rows h l
  /\ match find (balance_key h a) l with
     | Some r => bal_balance r
     | None => 0
     end <= sum_rows h l.
Proof.
  induction l as [ | r l IH]; intros Hrows; [cbn; lia | ].
  rewrite sum_rows_cons. cbn [find].
  destruct IH as [I1 I2]. { intros x Hx. apply Hrows. now right. }
  unfold balance_key at 1.
  destruct (bytes_eqb (bal_block_hash r) h) eqn:E; cbn [andb].
  - specialize (Hrows r (or_introl eq_refl) E).
    destruct (bytes_eqb (bal_address r) a); split; lia.
  - split; lia.
Qed.

(** With unique keys and no negative balance, the sum is not negative. *)
Lemma sum_rows_nonneg (s : Store) (h : Hash) :
  unique_b same_balance_key (balances s) = true ->
  h <> EmptyHash ->
  (forall a, 0 <= balance_at s h a) -> 0 <= supply s h.
Proof.
  intros Hu Hh Hpos. unfold supply.
  apply (sum_rows_bounds h []). now apply balance_rows_nonneg.
Qed.

(** ... and no balance is above the sum. *)
Lemma balance_le_supply (s : Store) (h : Hash) (a : Address) :
  unique_b same_balance_key (balances s) = true ->
  h <> EmptyHash ->
  (forall b, 0 <= balance_at s h b) -> balance_at s h a <= supply s h.
Proof.
  intros Hu Hh Hpos. rewrite (balance_at_rows s h a Hh). unfold supply.
  apply sum_rows_bounds. now apply balance_rows_nonneg.
Qed.

Lemma debit_balance_supply (v : Z) (n : Hash) (a : Address) (s s' : Store) :
  unique_b same_balance_key (balances s) = true ->
  balance_at s n a <> 0 ->
  debit_balance v n a s = (Ok tt, s') ->
  forall h, supply s' h = supply s h - (if bytes_eqb n h then v else 0).
Proof.
  intros Hu Hb. destruct (balance_at_exists s n a Hb) as [Hex Hn].
  unfold debit_balance, Hash_Value. rewrite Hn.
  intros H h. inversion H; subst s'. clear H.
  unfold supply. cbn [balances set_balances].
  rewrite (sum_rows_update (fun x => x - v) (- v)); [ | intros; lia | exact Hu].
  rewrite Hex. cbn [andb]. destruct (bytes_eqb n h); lia.
Qed.

Lemma credit_balance_supply (n : Hash) (a : Address) (v : Z) (s s' : Store) :
  unique_b same_balance_key (balances s) = true ->
  credit_balance n a v s = (Ok tt, s') ->
  forall h, supply s' h = supply s h + (if bytes_eqb n h then v else 0).
Proof.
  intros Hu. unfold credit_balance, Hash_Value.
  destruct (bytes_eqb n EmptyHash) eqn:Hn; [discriminate | ].
  destruct (existsb (balance_key n a) (balances s)) eqn:Hex;
    intros H h; inversion H; subst s'; clear H;
    unfold supply; cbn [balances set_balances].
  - rewrite (sum_rows_update (fun x => x + v) v); [ | intros; lia | exact Hu].
    rewrite Hex. reflexivity.
  - rewrite sum_rows_app, sum_rows_cons. cbn [bal_block_hash bal_balance].
    cbn [sum_rows fold_right]. destruct (bytes_eqb n h); lia.
Qed.

Lemma addTx_balances (t : SignedTx) (s s' : Store) (r : result unit) :
  addTx t s = (r, s') -> balances s' = balances s.
Proof.
  unfold addTx. destruct (Hash_Value _); [destruct (existsb _ _) | ];
    intros H; inversion H; reflexivity.
Qed.

Lemma insert_included_tx_balances (h x : Hash) (s s' : Store)
    (r : result unit) :
  insert_included_tx h x s = (r, s') -> balances s' = balances s.
Proof.
  unfold insert_included_tx.
  destruct (Hash_Value h); [destruct (Hash_Value x);
                            [destruct (existsb _ _) | ] | ];
    intros H; inversion H; reflexivity.
Qed.

Lemma insert_block_tx_balances (h x : Hash) (s s' : Store)
    (r : result unit) :
  insert_block_tx h x s = (r, s') -> balances s' = balances s.
Proof.
  unfold insert_block_tx.
  destruct (Hash_Value h); [destruct (Hash_Value x);
                            [destruct (existsb _ _) | ] | ];
    intros H; inversion H; reflexivity.
Qed.

(** One turn of the loop of [addBlock]: the fee of the transaction leaves
    the sum of the balances of the new block. *)
Lemma addBlock_tx_supply (block : Block) (t : SignedTx) (s s' : Store) :
  unique_b same_balance_key (balances s) = true ->
  int64_amounts t ->
  addBlock_tx block t s = (Ok tt, s') ->
  0 <= Fee t
  /\ forall h,
       supply s' h
       = supply s h - (if bytes_eqb (blk_Hash block) h then Fee t else 0).
Proof.
  intros Hu Hty. unfold addBlock_tx, bind.
  destruct (validTx t (blk_Hash block) s) as [[[] | e] s0] eqn:Ev;
    [ | discriminate].
  apply validTx_ok in Ev. destruct Ev as (-> & Hv & Hbal & Hinc).
  destruct (SignedTx_Valid_amounts t Hty Hv) as (Ha & Hf & Hreq).
  rewrite Hreq in Hbal.
  destruct (debit_balance _ _ _ s) as [[[] | e] s1] eqn:E1; [ | discriminate].
  rewrite Hreq in E1.
  assert (Hb : balance_at s (blk_Hash block) (Source t) <> 0) by lia.
  pose proof (debit_balance_supply _ _ _ _ _ Hu Hb E1) as D.
  assert (Hu1 : unique_b same_balance_key (balances s1) = true).
  { unfold debit_balance in E1.
    destruct (Hash_Value (blk_Hash block)) as [k | ];
      inversion E1; subst s1; [ | exact Hu].
    cbn [balances set_balances].
    rewrite unique_b_map_key; [exact Hu | ].
    intros r r'. unfold same_balance_key.
    destruct (balance_key k _ r), (balance_key k _ r'); reflexivity. }
  destruct (credit_balance _ _ _ s1) as [[[] | e] s2] eqn:E2;
    [ | discriminate].
  pose proof (credit_balance_supply _ _ _ _ _ Hu1 E2) as C.
  destruct (addTx t s2) as [[[] | e] s3] eqn:E3; [ | discriminate].
  apply addTx_balances in E3.
  destruct (insert_included_tx _ _ s3) as [[[] | e] s4] eqn:E4;
    [ | discriminate].
  apply insert_included_tx_balances in E4.
  intros E5. apply insert_block_tx_balances in E5.
  split; [lia | ]. intros h. unfold supply in *.
  rewrite E5, E4, E3, C, D. destruct (bytes_eqb (blk_Hash block) h); lia.
Qed.

(** The loop of [addBlock]: the fees leave the sum of the balances of the
    new block, and no fee is negative. *)
Lemma addBlock_txs_supply (block : Block) (l : list SignedTx) :
  Forall (fun t : SignedTx => int64_amounts t) l ->
  forall fee fee' s s',
    consistent_parts s -> refers_to_block s (blk_Hash block) = true ->
    addBlock_txs block fee l s = (Ok fee', s') ->
    Forall (fun t : SignedTx => 0 <= Fee t) l
    /\ forall h,
         supply s' h
         = supply s h - (if bytes_eqb (blk_Hash block) h then fees l else 0).
Proof.
  induction 1 as [ | t l Ht Hl IH]; intros fee fee' s s' Hc Hn;
    cbn [addBlock_txs].
  - intros H. inversion H; subst. split; [constructor | ].
    intros h. cbn [fees fold_right]. destruct (bytes_eqb _ _); lia.
  - unfold bind.
    destruct (addBlock_tx block t s) as [[[] | e] s1] eqn:E1;
      [ | discriminate].
    destruct (addBlock_tx_consistent _ _ _ _ Hc Hn E1) as [C1 B1].
    destruct (addBlock_tx_supply _ _ _ _ (proj1 Hc) Ht E1) as [F1 S1].
    intros H.
    destruct (IH _ _ _ _ C1 ltac:(unfold refers_to_block in *; now rewrite B1)
                 H) as [F2 S2].
    split; [now constructor | ].
    intros h. rewrite S2, S1. cbn [fees fold_right]. fold (fees l).
    destruct (bytes_eqb (blk_Hash block) h); lia.
Qed.

(** Without wrap-around, the variable [fee] of [addBlock] ends as its
    first value plus the fees. *)
Lemma fold_add64_fees (l : list SignedTx) :
  Forall (fun t : SignedTx => 0 <= Fee t) l ->
  forall fee,
    0 <= fee -> fee + fees l <= MaxInt64 ->
    fold_left (fun f (t : SignedTx) => add64 f (Fee t)) l fee = fee + fees l.
Proof.
  induction 1 as [ | t l Ht Hl IH]; intros fee Hfee Hmax;
    cbn [fold_left fees fold_right] in *; [lia | ].
  fold (fees l) in *.
  assert (Hl' : 0 <= fees l).
  { clear - Hl. induction Hl; cbn [fees fold_right]; [lia | ].
    fold (fees l). lia. }
  assert (E : add64 fee (Fee t) = fee + Fee t).
  { unfold add64. apply wrap64_id. unfold is_int64, MinInt64, MaxInt64 in *.
    lia. }
  rewrite E, IH; lia.
Qed.

Lemma copy_balances_supply (n p : Hash) (s s' : Store) :
  p <> EmptyHash ->
  (forall r, In r (balances s) -> bytes_eqb (bal_block_hash r) n = false) ->
  copy_balances n p s = (Ok tt, s') ->
  supply s' n = supply s p
  /\ forall h, h <> n -> supply s' h = supply s h.
Proof.
  intros Hp Hfree. unfold copy_balances.
  rewrite (Hash_Value_not_empty p Hp).
  pose proof (sum_rows_copied n p (balances s)) as Hsum.
  destruct (filter _ (balances s)) as [ | r0 sel] eqn:Esel.
  { intros H. inversion H; subst s'. split; [ | reflexivity].
    unfold supply. rewrite <- Hsum. now apply sum_rows_free. }
  destruct (Hash_Value n) as [k | ] eqn:Ek; [ | discriminate].
  apply Hash_Value_Some in Ek. subst k.
  destruct (insert_rows _ _ _) as [tbl | ] eqn:Ei; [ | discriminate].
  intros H. inversion H; subst s'. clear H.
  apply insert_rows_Some in Ei. subst tbl.
  unfold supply. cbn [balances set_balances]. split.
  - rewrite sum_rows_app, Hsum, (sum_rows_free n (balances s) Hfree). lia.
  - intros h Hh. rewrite sum_rows_app, sum_rows_other_copied by exact Hh.
    lia.
Qed.


(** What a block that is accepted does to the sum of the balances, when
    the parent has no negative balance and its balances leave room for a
    reward below 2^63. *)
Lemma addBlock_new_supply (block : Block) (s s' : Store) :
  Store_consistent s ->
  select_block (blk_Hash block) s = None ->
  Forall (fun t : SignedTx => int64_amounts t) (Transactions block) ->
  (forall a, 0 <= balance_at s (PreviousHash block) a) ->
  supply s (PreviousHash block) + MaxBlockReward <= MaxInt64 ->
  addBlock block s = (Ok tt, s') ->
  (0 <= fees (Transactions block) <= supply s (PreviousHash block)
   /\ collected_fee block
      = Amount (RewardOutput block) + fees (Transactions block)
   /\ supply s' (blk_Hash block)
      = supply s (PreviousHash block) + Amount (RewardOutput block)
   /\ (forall h, h <> blk_Hash block -> supply s' h = supply s h))
  /\ 0 <= Amount (RewardOutput block) <= MaxBlockReward
  /\ blk_Hash block <> EmptyHash.
Proof.
  intros Hcons Hnew Hty Hpos Hroom.
  pose proof (proj1 (Store_consistent_parts s) Hcons) as Hc.
  unfold addBlock.
  destruct (select_block (PreviousHash block) s) as [row | ] eqn:Eprev;
    [ | discriminate].
  assert (Hp : PreviousHash block <> EmptyHash).
  { intros E. unfold select_block in Eprev. rewrite E in Eprev.
    discriminate. }
  unfold insert_block.
  destruct (Hash_Value (blk_Hash block)) as [n | ] eqn:En.
  2: { cbn. discriminate. }
  pose proof (Hash_Value_Some _ _ En) as ->.
  assert (Hn : blk_Hash block <> EmptyHash).
  { intros E. rewrite E in En. discriminate. }
  destruct (not_stored_no_rows s _ Hcons Hn Hnew) as (Fb & Fi & Fk).
  assert (Ex : existsb (has_hash (blk_Hash block)) (blocks s) = false).
  { unfold select_block in Hnew. rewrite En in Hnew.
    rewrite find_existsb, Hnew. reflexivity. }
  rewrite Ex.
  set (newrow := {| row_hash := blk_Hash block;
                    row_previous_hash := Hash_Value (PreviousHash block);
                    row_height := Height block;
                    row_block := json_view_Block block |}).
  set (s1 := set_blocks s (blocks s ++ [newrow])).
  assert (Hn1 : refers_to_block s1 (blk_Hash block) = true).
  { unfold refers_to_block, s1. cbn [blocks set_blocks].
    rewrite existsb_app. cbn. unfold has_hash. cbn.
    rewrite bytes_eqb_refl. apply orb_true_iff. right. reflexivity. }
  assert (C1 : consistent_parts s1).
  { destruct Hc as (U1 & U2 & F1 & F2 & F3).
    assert (M : forall h, refers_to_block s h = true ->
                          refers_to_block s1 h = true).
    { intros h Hh. unfold refers_to_block, s1 in *. cbn [blocks set_blocks].
      now apply existsb_app_l. }
    repeat split; auto; cbn [balances included_txs block_txs s1 set_blocks];
      [revert F1 | revert F2 | revert F3]; apply Forall_impl;
      intros r; apply M. }
  unfold addBlock_body, bind.
  destruct (copy_balances _ _ s1) as [[[] | e] s2] eqn:E2; [ | discriminate].
  destruct (copy_balances_consistent _ _ _ _ C1 Hn1 E2) as [C2 B2].
  assert (Hn2 : refers_to_block s2 (blk_Hash block) = true)
    by (unfold refers_to_block in *; now rewrite B2).
  destruct (balance_at_copy _ _ s1 s2 Hn Fb E2)
    as (Q1 & Q2 & _ & Q4 & Q5 & Q6 & Q7).
  destruct (copy_balances_supply _ _ s1 s2 Hp Fb E2) as [S1 S2].
  destruct (copy_included_txs _ _ s2) as [[[] | e] s3] eqn:E3;
    [ | discriminate].
  destruct (copy_included_txs_consistent _ _ _ _ C2 Hn2 E3) as [C3 B3].
  assert (Hn3 : refers_to_block s3 (blk_Hash block) = true)
    by (unfold refers_to_block in *; now rewrite B3).
  assert (Fi2 : forall r, In r (included_txs s2) ->
                          bytes_eqb (lnk_block_hash r) (blk_Hash block)
                          = false)
    by (rewrite Q5; exact Fi).
  destruct (select_included_copy _ _ s2 s3 Hn Fi2 E3)
    as (R1 & R2 & _ & R4 & R5 & R6 & R7).
  destruct (Block_Valid block (DecodeBlock (row_block row))) eqn:Ebv;
    cbn [check fail ret]; [discriminate | ].
  destruct (addBlock_txs _ _ _ s3) as [[fee | e] s4] eqn:E4;
    [ | discriminate].
  destruct (addBlock_txs_consistent _ _ _ _ _ _ C3 Hn3 E4) as [C4 B4].
  destruct (addBlock_txs_effect block _ Hty _ _ _ _ E4)
    as (L1 & L2 & _ & L4 & _).
  destruct (addBlock_txs_supply block _ Hty _ _ _ _ C3 Hn3 E4) as [G1 G2].
  fold (collected_fee block) in L1.
  assert (Hparent : forall a, balance_at s3 (blk_Hash block) a
                              = balance_at s (PreviousHash block) a).
  { intros a. rewrite (balance_at_ext _ _ R4), Q1.
    apply (balance_at_ext s s1). reflexivity. }
  assert (Hs3 : forall h, supply s3 h = supply s2 h).
  { intros h. unfold supply. now rewrite R4. }
  assert (Hs4 : 0 <= supply s4 (blk_Hash block)).
  { apply sum_rows_nonneg; [exact (proj1 C4) | exact Hn | ].
    intros a. rewrite L2.
    rewrite <- (firstn_all (Transactions block)).
    apply L4. intros b. rewrite Hparent. apply Hpos. }
  assert (Hfees : 0 <= fees (Transactions block)).
  { clear - G1. induction G1; cbn [fees fold_right]; [lia | ].
    fold (fees l). lia. }
  assert (Hs : supply s1 (PreviousHash block) = supply s (PreviousHash block))
    by reflexivity.
  pose proof (G2 (blk_Hash block)) as G3.
  rewrite bytes_eqb_refl, Hs3, S1, Hs in G3.
  assert (Hrew : 0 <= Amount (RewardOutput block) <= MaxBlockReward).
  { unfold Block_Valid in Ebv.
    destruct (bytes_eqb _ _); [ | discriminate].
    destruct (_ =? _); [ | discriminate].
    destruct (Hash_Valid _); [ | discriminate].
    destruct (Z.ltb_spec (Amount (RewardOutput block)) 0); [discriminate | ].
    destruct (Z.gtb_spec (Amount (RewardOutput block)) MaxBlockReward);
      [discriminate | ].
    lia. }
  assert (Hfee : fee
                 = Amount (RewardOutput block) + fees (Transactions block)).
  { rewrite L1. unfold collected_fee.
    apply fold_add64_fees; [exact G1 | lia | lia]. }
  intros Hend.
  assert (K : exists s5,
             delete_zero_balances s5 = (Ok tt, s')
             /\ forall h,
                  supply s5 h
                  = supply s4 h
                    + (if bytes_eqb (blk_Hash block) h then fee else 0)).
  { destruct (Z.gtb_spec fee 0) as [Hgt | Hle].
    - destruct (credit_balance _ _ _ s4) as [[[] | e] s5] eqn:E5;
        [ | discriminate].
      exists s5. split; [exact Hend | ].
      exact (credit_balance_supply _ _ _ _ _ (proj1 C4) E5).
    - exists s4. split; [exact Hend | ].
      intros h. assert (fee = 0) by lia.
      destruct (bytes_eqb _ _); lia. }
  destruct K as (s5 & E6 & K1).
  assert (Hs' : forall h, supply s' h = supply s5 h).
  { intros h. unfold delete_zero_balances in E6. inversion E6; subst s'.
    unfold supply. cbn [balances set_balances]. apply sum_rows_nonzero. }
  split; [ | split; [exact Hrew | exact Hn] ].
  split; [lia | ].
  split; [rewrite <- L1; exact Hfee | ].
  split.
  - rewrite Hs', K1, bytes_eqb_refl, G3. lia.
  - intros h Hh. rewrite Hs', K1, G2, Hs3, (S2 h Hh).
    assert (E : bytes_eqb (blk_Hash block) h = false)
      by (apply bytes_eqb_neq; congruence).
    rewrite E. unfold supply, s1. cbn [balances set_blocks]. lia.
Qed.

(** X29: a block mints its reward.  When addBlock accepts a block that was
    not stored, and no balance of the parent is negative and the sum of the
    parent's balances leaves room for a reward below 2^63, then the fees of
    the block are not more than the sum of the parent's balances, the
    variable fee ends as the reward amount plus the fees without
    wrap-around, the sum of the balances of the new block is the sum of the
    balances of its parent plus the reward amount (the fees only move from
    the sources to the reward destination), and the sum of the balances of
    every other block is as it was. *)
Theorem addBlock_supply (block : Block) (s s' : Store) :
  Store_consistent s ->
  select_block (blk_Hash block) s = None ->
  Forall (fun t : SignedTx => int64_amounts t) (Transactions block) ->
  (forall a, 0 <= balance_at s (PreviousHash block) a) ->
  supply s (PreviousHash block) + MaxBlockReward <= MaxInt64 ->
  addBlock block s = (Ok tt, s') ->
  0 <= fees (Transactions block) <= supply s (PreviousHash block)
  /\ collected_fee block
     = Amount (RewardOutput block) + fees (Transactions block)
  /\ supply s' (blk_Hash block)
     = supply s (PreviousHash block) + Amount (RewardOutput block)
  /\ (forall h, h <> blk_Hash block -> supply s' h = supply s h).
Proof.
  intros Hc Hnew Hty Hpos Hroom E.
  exact (proj1 (addBlock_new_supply block s s' Hc Hnew Hty Hpos Hroom E)).
Qed.

(** X9: the ledger of a newly added block.  Take a block that was not
    stored, whose parent has no negative balance and balances that sum to
    at most MaxInt64 - 1000.  When addBlock accepts the block, the balance
    map of the new block is the balance map of its parent with the
    transactions of the block applied in order (Amount + Fee off the
    source, Amount onto the destination), plus, at the reward destination,
    the reward amount and the fees; every balance of the new block is
    between 0 and MaxInt64; the balance map of every other block is as it
    was; and no balance row of the store holds zero. *)
Theorem addBlock_ledger (block : Block) (s s' : Store) :
  Store_consistent s ->
  select_block (blk_Hash block) s = None ->
  Forall (fun t : SignedTx => int64_amounts t) (Transactions block) ->
  (forall a, 0 <= balance_at s (PreviousHash block) a) ->
  supply s (PreviousHash block) + MaxBlockReward <= MaxInt64 ->
  addBlock block s = (Ok tt, s') ->
  (forall a,
      balance_at s' (blk_Hash block) a
      = apply_txs (balance_at s (PreviousHash block)) (Transactions block) a
        + (if bytes_eqb a (Destination (RewardOutput block))
           then Amount (RewardOutput block) + fees (Transactions block)
           else 0))
  /\ (forall a, 0 <= balance_at s' (blk_Hash block) a <= MaxInt64)
  /\ (forall h a, h <> blk_Hash block ->
                  balance_at s' h a = balance_at s h a)
  /\ (forall r, In r (balances s') -> bal_balance r <> 0).
Proof.
  intros Hc Hnew Hty Hpos Hroom E.
  destruct (addBlock_new_effect block s s' Hc Hnew Hty E)
    as (row & _ & _ & _ & _ & _ & H1 & H2 & H3 & H4 & _).
  destruct (addBlock_new_supply block s s' Hc Hnew Hty Hpos Hroom E)
    as ((F1 & F2 & F3 & _) & Hrew & Hn).
  assert (Hmax : Z.max 0 (collected_fee block)
                 = Amount (RewardOutput block) + fees (Transactions block))
    by lia.
  assert (Hnonneg : forall a, 0 <= balance_at s' (blk_Hash block) a).
  { intros a. rewrite H1, Hmax.
    specialize (H3 Hpos (length (Transactions block)) a).
    rewrite firstn_all in H3.
    destruct (bytes_eqb a (Destination (RewardOutput block))); lia. }
  split; [intros a; rewrite H1, Hmax; reflexivity | ].
  split; [ | split; [exact H2 | exact H4] ].
  intros a. split; [apply Hnonneg | ].
  pose proof (Store_consistent_balances s' (addBlock_consistent _ _ _ Hc E))
    as Hu.
  pose proof (balance_le_supply s' (blk_Hash block) a Hu Hn Hnonneg).
  lia.
Qed.


End Supply.

Lemma addBlock_supply_witness :
  0 <= fees (Transactions sample_block_once)
    <= supply sample_store (PreviousHash sample_block_once)
  /\ collected_fee sample_block_once
     = Amount (RewardOutput sample_block_once)
       + fees (Transactions sample_block_once)
  /\ supply sample_store_1 (blk_Hash sample_block_once)
     = supply sample_store (PreviousHash sample_block_once)
       + Amount (RewardOutput sample_block_once)
  /\ (forall h, h <> blk_Hash sample_block_once ->
                supply sample_store_1 h = supply sample_store h).
Proof.
  apply (addBlock_supply sample_block_once sample_store sample_store_1).
  - reflexivity.
  - reflexivity.
  - repeat constructor; unfold is_int64, MinInt64, MaxInt64; simpl; lia.
  - intros a. unfold balance_at, select_balance, sample_store.
    cbn [balances find option_map].
    destruct (Hash_Value _); [ | lia].
    destruct (balance_key h a _); cbn; lia.
  - vm_compute. discriminate.
  - vm_compute. reflexivity.
Defined.

Lemma addBlock_ledger_witness :
  (forall a,
      balance_at sample_store_1 (blk_Hash sample_block_once) a
      = apply_txs (balance_at sample_store (PreviousHash sample_block_once))
                  (Transactions sample_block_once) a
        + (if bytes_eqb a (Destination (RewardOutput sample_block_once))
           then Amount (RewardOutput sample_block_once)
                + fees (Transactions sample_block_once)
           else 0))
  /\ (forall a,
         0 <= balance_at sample_store_1 (blk_Hash sample_block_once) a
           <= MaxInt64)
  /\ (forall h a, h <> blk_Hash sample_block_once ->
                  balance_at sample_store_1 h a = balance_at sample_store h a)
  /\ (forall r, In r (balances sample_store_1) -> bal_balance r <> 0).
Proof.
  apply (addBlock_ledger sample_block_once sample_store sample_store_1).
  - reflexivity.
  - reflexivity.
  - repeat constructor; unfold is_int64, MinInt64, MaxInt64; simpl; lia.
  - intros a. unfold balance_at, select_balance, sample_store.
    cbn [balances find option_map].
    destruct (Hash_Value _); [ | lia].
    destruct (balance_key h a _); cbn; lia.
  - vm_compute. discriminate.
  - vm_compute. reflexivity.
Defined.

(** ** db.go: PendingTxs when the limit is reached *)

Section PendingLimit.
Context {P : Primitives}.

(** If the loop runs to the end of the rows with one limit and appends
    [limit] transactions or more, with [limit] it is left by [break]. *)
Lemma PendingTxs_rows_reach (limit limit' : Z) (rows : list TxRow) :
  forall temp acc s res s',
    PendingTxs_rows limit' rows temp acc s = (Ok (res, false), s') ->
    res <> acc ->
    limit <= Z.of_nat (length res) ->
    exists res2 s2,
      PendingTxs_rows limit rows temp acc s = (Ok (res2, true), s2).
Proof.
  induction rows as [ | row rows IH]; intros temp acc s res s';
    cbn [PendingTxs_rows].
  - intros H Hne. inversion H; subst. now contradiction Hne.
  - set (stx := SignedTx_UpdateHash (txr_tx row)).
    destruct (validTemporaryTx temp stx) as [e | ].
    + destruct (is_InvalidBlockError e); [ | discriminate].
      unfold bind.
      destruct (delete_unreferenced_tx (stx_Hash stx) s) as [[[] | e'] s1];
        [ | discriminate].
      apply IH.
    + destruct (Z.of_nat (length (acc ++ [stx])) >=? limit'); [discriminate | ].
      intros H Hne Hlen.
      destruct (Z.geb_spec (Z.of_nat (length (acc ++ [stx]))) limit)
        as [Hge | Hlt]; [eexists; eexists; reflexivity | ].
      apply (IH _ _ _ _ _ H); [ | exact Hlen].
      intros E. subst res. lia.
Qed.

(** X30: PendingTxs never hands out a full list.  If, with some limit, the
    closure of PendingTxs returns a list that is not empty, then with every
    limit up to the length of that list the closure returns no list: its
    loop is left by [break] with the rows still open, and the DROP TABLE
    that follows is refused.  Whatever the driver does, the call then
    returns an error and leaves the committed store as it was. *)
Theorem PendingTxs_limit_reached (d : database.DB) (tip : Hash)
    (limit limit' : Z) (w : World) (res : list SignedTx) (s' : Store) :
  PendingTxs_tx tip limit' (database.committed w) = (Ok res, s') ->
  res <> [] ->
  limit <= Z.of_nat (length res) ->
  (forall r st,
      PendingTxs_tx tip limit (database.committed w) <> (Ok r, st))
  /\ (exists e, fst (DB_PendingTxs d tip limit w) = Err e)
  /\ database.committed (snd (DB_PendingTxs d tip limit w))
     = database.committed w.
Proof.
  intros Hrun Hne Hlen.
  assert (Hclosure : forall r st,
             PendingTxs_tx tip limit (database.committed w) <> (Ok r, st)).
  { destruct (PendingTxs_tx_inv _ _ _ _ _ Hrun)
      as [(_ & _ & e & He) | (temp & rr & Et & Hrows & Hok)];
      [discriminate | ].
    rewrite (Hok res eq_refl) in Hrows.
    destruct (PendingTxs_rows_reach limit _ _ _ _ _ _ _ Hrows Hne Hlen)
      as (res2 & s2 & E2).
    intros r st. unfold PendingTxs_tx, bind. rewrite Et, E2.
    cbn [snd drop_temp_balances fail]. discriminate. }
  split; [exact Hclosure | ].
  unfold DB_PendingTxs, database.TransactWithRetry.
  destruct (database.tries d =? 0); [split; [eexists | ]; reflexivity | ].
  destruct (retry_atomic d (run (PendingTxs_tx tip limit))
              (Z.to_nat (database.tries d)) 0 None w) as [_ Hr].
  unfold World in *.
  destruct (fst (database.retry d (run (PendingTxs_tx tip limit))
                   (Z.to_nat (database.tries d)) 0 None w)) as [a | e].
  - destruct Hr as (k & _ & Hk). unfold run in Hk.
    now apply Hclosure in Hk.
  - split; [eexists; reflexivity | exact Hr].
Qed.

End PendingLimit.

Lemma PendingTxs_limit_reached_witness :
  (forall r st,
      PendingTxs_tx (blk_Hash sample_genesis) 1 sample_store <> (Ok r, st))
  /\ (exists e,
         fst (DB_PendingTxs sample_db (blk_Hash sample_genesis) 1
                            sample_world) = Err e)
  /\ database.committed
       (snd (DB_PendingTxs sample_db (blk_Hash sample_genesis) 1
                           sample_world))
     = sample_store.
Proof.
  apply (PendingTxs_limit_reached sample_db (blk_Hash sample_genesis) 1 10
                                  sample_world [sample_stx] sample_store).
  - vm_compute. reflexivity.
  - discriminate.
  - simpl. lia.
Defined.
